(** * MindSpore: CPU arithmetic kernels, linear sum assignment, SOMAS
      tensors, runner configuration and shape inference

    A shallow embedding of the parts of the repository that the checked
    properties talk about.  Every definition below is a transcription of
    the C++ function whose name it carries; the file it comes from is
    named in its documentation comment. *)

From Stdlib Require Import ZArith Lia Bool.
From Stdlib Require Import Floats.SpecFloat.
From stdpp Require Import gmap strings list fin_maps pretty sorting.

Local Open Scope Z_scope.

(** ** Machine integers

    [size_t] is a 64-bit unsigned integer: arithmetic on it is arithmetic
    on [Z] followed by a reduction modulo [2^64]. *)

Module SizeT.

Definition modulus : Z := 2 ^ 64.

Definition wrap (z : Z) : Z := z mod modulus.

Definition add (a b : Z) : Z := wrap (a + b).
Definition mul (a b : Z) : Z := wrap (a * b).
Definition div (a b : Z) : Z := a / b.

Definition in_range (z : Z) : Prop := 0 <= z < modulus.

Lemma wrap_small z : in_range z -> wrap z = z.
Proof. intros H. unfold wrap. now apply Z.mod_small. Qed.

Lemma wrap_in_range z : in_range (wrap z).
Proof. unfold in_range, wrap, modulus. apply Z.mod_pos_bound. lia. Qed.

End SizeT.

(** ** SOMAS tensors
    [backend/common/somas/somas_tensor.cc] *)

Module Somas.

Inductive LifeLongType := kLifeLongNone | kLifeLongGraphAll | kLifeLongGraphStart | kLifeLongGraphEnd.

Inductive TensorType := kUnknown.

Record SomasTensor := {
  lifelong_value_ : LifeLongType;
  between_streams_ : bool;
  contiguous_ : bool;
  type_ : TensorType;
  offset_ : Z;
  num_constraints_ : Z;
  ref_overlap_ : bool;
  id_ : Z;
  source_node_id_ : Z;
  source_stream_id_ : Z;
  original_size_ : Z;
  aligned_size_ : Z
}.

Definition alignment : Z := 512.
Definition alignment_complement : Z := 31.

(** The expression
    [(real_size > 0) ? ((real_size + alignment + alignment_complement) / alignment) * alignment : 0]
    evaluated on [size_t]. *)
Definition aligned_size_of (real_size : Z) : Z :=
  if 0 <? real_size
  then SizeT.mul
         (SizeT.div (SizeT.add (SizeT.add real_size alignment) alignment_complement) alignment)
         alignment
  else 0.

(** [SomasTensor::SomasTensor] *)
Definition mkSomasTensor (id source_node_id source_stream_id real_size : Z)
    (lifelong_value : LifeLongType) : SomasTensor :=
  {| lifelong_value_ := lifelong_value;
     between_streams_ := false;
     contiguous_ := false;
     type_ := kUnknown;
     offset_ := 0;
     num_constraints_ := 0;
     ref_overlap_ := false;
     id_ := id;
     source_node_id_ := source_node_id;
     source_stream_id_ := source_stream_id;
     original_size_ := real_size;
     aligned_size_ := aligned_size_of real_size |}.

(** The reading of the formula given in the documentation: the smallest
    multiple of 512 that is at least [size + 31]. *)
Definition ceil_div (a b : Z) : Z := (a + b - 1) / b.

Definition ceil_aligned (size : Z) : Z := ceil_div (size + 31) 512 * 512.

(** *** Properties of the aligned size *)

Lemma aligned_size_of_unfold size :
  SizeT.in_range size -> 0 < size ->
  aligned_size_of size = SizeT.wrap (size + 512 + 31) / 512 * 512.
Proof.
  intros Hr Hpos. unfold aligned_size_of.
  destruct (Z.ltb_spec 0 size) as [_|]; [|lia].
  unfold SizeT.mul, SizeT.div, SizeT.add, SizeT.wrap, alignment, alignment_complement.
  rewrite Zplus_mod_idemp_l.
  pose proof (Z.mod_pos_bound (size + 512 + 31) SizeT.modulus ltac:(unfold SizeT.modulus; lia)) as Hb.
  set (x := (size + 512 + 31) mod SizeT.modulus) in *.
  apply Z.mod_small.
  pose proof (Z.mul_div_le x 512 ltac:(lia)).
  pose proof (Z.div_pos x 512 ltac:(lia) ltac:(lia)).
  lia.
Qed.

Lemma aligned_size_of_no_wrap size :
  0 < size -> size + 543 < SizeT.modulus ->
  aligned_size_of size = ((size + 31) / 512 + 1) * 512.
Proof.
  intros Hpos Hlt.
  rewrite aligned_size_of_unfold by (unfold SizeT.in_range; lia).
  rewrite SizeT.wrap_small by (unfold SizeT.in_range; lia).
  replace (size + 512 + 31) with ((size + 31) + 1 * 512) by lia.
  rewrite Z.div_add by lia. reflexivity.
Qed.

Lemma ceil_aligned_cases size :
  0 <= size ->
  ((size + 31) mod 512 <> 0 -> ceil_aligned size = ((size + 31) / 512 + 1) * 512) /\
  ((size + 31) mod 512 = 0 -> ceil_aligned size = (size + 31) / 512 * 512).
Proof.
  intros Hpos. unfold ceil_aligned, ceil_div.
  pose proof (Z.div_mod (size + 31) 512 ltac:(lia)) as Hdm.
  pose proof (Z.mod_pos_bound (size + 31) 512 ltac:(lia)) as Hmb.
  set (q := (size + 31) / 512) in *. set (r := (size + 31) mod 512) in *.
  split; intros Hr.
  - replace (size + 31 + 512 - 1) with ((r - 1) + (q + 1) * 512) by lia.
    rewrite Z.div_add by lia. rewrite Z.div_small by lia. lia.
  - replace (size + 31 + 512 - 1) with (511 + q * 512) by lia.
    rewrite Z.div_add by lia. rewrite Z.div_small by lia. lia.
Qed.

(** C3, as stated, fails: the constructor's aligned size is not
    [ceil((size+31)/512)*512] for every positive size.  A tensor of 481
    bytes gets 1024 bytes, while the ceiling formula gives 512. *)
Lemma aligned_size_is_not_ceil :
  ~ (forall id node stream size life,
       0 < size < SizeT.modulus ->
       aligned_size_ (mkSomasTensor id node stream size life) = ceil_aligned size).
Proof.
  intros H. specialize (H 0 0 0 481 kLifeLongNone ltac:(unfold SizeT.modulus; lia)).
  vm_compute in H. discriminate H.
Qed.

(** C3, amended: for every requested size the constructor stores 0 when the
    size is 0 and [((size + 512 + 31) / 512) * 512], computed on [size_t],
    when it is positive; without wrap-around this is
    [(floor((size+31)/512) + 1) * 512], which equals
    [ceil((size+31)/512)*512] exactly when [size + 31] is not a multiple of
    512 and exceeds it by 512 otherwise; sizes 0, 1 and 513 give 0, 512 and
    1024. *)
Theorem aligned_size_spec id node stream size life :
  SizeT.in_range size ->
  let a := aligned_size_ (mkSomasTensor id node stream size life) in
  (size = 0 -> a = 0) /\
  (0 < size -> a = SizeT.wrap (size + 512 + 31) / 512 * 512) /\
  (0 < size -> size + 543 < SizeT.modulus ->
     a = ((size + 31) / 512 + 1) * 512 /\
     ((size + 31) mod 512 <> 0 -> a = ceil_aligned size) /\
     ((size + 31) mod 512 = 0 -> a = ceil_aligned size + 512)) /\
  aligned_size_ (mkSomasTensor id node stream 0 life) = 0 /\
  aligned_size_ (mkSomasTensor id node stream 1 life) = 512 /\
  aligned_size_ (mkSomasTensor id node stream 513 life) = 1024.
Proof.
  intros Hr a. subst a. simpl.
  repeat split; try reflexivity.
  - intros ->. reflexivity.
  - intros Hpos. now apply aligned_size_of_unfold.
  - now apply aligned_size_of_no_wrap.
  - intros Hm. rewrite aligned_size_of_no_wrap by assumption.
    symmetry. apply ceil_aligned_cases; [lia | assumption].
  - intros Hm. rewrite aligned_size_of_no_wrap by assumption.
    destruct (ceil_aligned_cases size ltac:(lia)) as [_ ->]; [lia | assumption].
Qed.

Lemma aligned_size_spec_witness :
  SizeT.in_range 481 /\
  aligned_size_ (mkSomasTensor 7 3 0 481 kLifeLongNone) = 1024 /\
  ceil_aligned 481 = 512.
Proof.
  split; [unfold SizeT.in_range, SizeT.modulus; lia|].
  pose proof (aligned_size_spec 7 3 0 481 kLifeLongNone
                ltac:(unfold SizeT.in_range, SizeT.modulus; lia)) as H.
  cbv zeta in H.
  destruct H as (_ & _ & H & _).
  destruct (H ltac:(lia) ltac:(unfold SizeT.modulus; lia)) as (_ & _ & H3).
  split; [|reflexivity].
  rewrite (H3 ltac:(reflexivity)). reflexivity.
Defined.

(** *** How much room the aligned size leaves *)

Lemma aligned_size_of_wrapped size :
  SizeT.modulus - 543 <= size < SizeT.modulus ->
  aligned_size_of size = if size <? SizeT.modulus - 31 then 0 else 512.
Proof.
  intros Hs. rewrite aligned_size_of_unfold by (unfold SizeT.in_range, SizeT.modulus in *; lia).
  assert (Hw : SizeT.wrap (size + 512 + 31) = size + 543 - SizeT.modulus).
  { unfold SizeT.wrap. symmetry.
    apply (Z.mod_unique_pos _ _ 1); unfold SizeT.modulus in *; lia. }
  rewrite Hw.
  destruct (Z.ltb_spec size (SizeT.modulus - 31)) as [Hlt|Hge].
  - rewrite Z.div_small by lia. reflexivity.
  - replace (size + 543 - SizeT.modulus) with ((size + 31 - SizeT.modulus) + 1 * 512) by lia.
    rewrite Z.div_add by lia. rewrite Z.div_small by lia. reflexivity.
Qed.

(** X10. The aligned size of a tensor of a positive size is a multiple of
    512 that exceeds the size by 32 at least and by 543 at most, as long as
    [size + 543] can be held by a [size_t].  For the 543 sizes above, the
    sum wraps around, and the aligned size is 0 or 512: less than the
    tensor. *)
Theorem aligned_size_holds_tensor id node stream size life :
  0 < size < SizeT.modulus ->
  let a := aligned_size_ (mkSomasTensor id node stream size life) in
  (size + 543 < SizeT.modulus ->
     a mod 512 = 0 /\ size + 32 <= a <= size + 543 /\ SizeT.in_range a) /\
  (SizeT.modulus <= size + 543 ->
     a < size /\ a = if size <? SizeT.modulus - 31 then 0 else 512).
Proof.
  intros Hs a. subst a. simpl. split.
  - intros Hfit. rewrite aligned_size_of_no_wrap by lia.
    pose proof (Z.div_mod (size + 31) 512 ltac:(lia)) as Hdm.
    pose proof (Z.mod_pos_bound (size + 31) 512 ltac:(lia)) as Hmb.
    set (q := (size + 31) / 512) in *.
    split; [apply Z.mod_mul; lia|].
    unfold SizeT.in_range. lia.
  - intros Hwrap. rewrite aligned_size_of_wrapped by lia.
    split; [|reflexivity].
    destruct (Z.ltb_spec size (SizeT.modulus - 31)); unfold SizeT.modulus in *; lia.
Qed.

Lemma aligned_size_holds_tensor_witness :
  aligned_size_ (mkSomasTensor 7 3 0 481 kLifeLongNone) mod 512 = 0 /\
  481 + 32 <= aligned_size_ (mkSomasTensor 7 3 0 481 kLifeLongNone) <= 481 + 543 /\
  aligned_size_ (mkSomasTensor 7 3 0 (2 ^ 64 - 100) kLifeLongNone) < 2 ^ 64 - 100.
Proof.
  pose proof (aligned_size_holds_tensor 7 3 0 481 kLifeLongNone
                ltac:(unfold SizeT.modulus; lia)) as H1.
  pose proof (aligned_size_holds_tensor 7 3 0 (2 ^ 64 - 100) kLifeLongNone
                ltac:(unfold SizeT.modulus; lia)) as H2.
  cbv zeta in H1, H2.
  destruct H1 as [H1 _]. destruct H2 as [_ H2].
  destruct (H1 ltac:(unfold SizeT.modulus; lia)) as (Hm & Hb & _).
  destruct (H2 ltac:(unfold SizeT.modulus; lia)) as (Hlt & _).
  split; [exact Hm|]. split; [exact Hb | exact Hlt].
Defined.

(** *** The descriptor handed to the solver *)

(** Modelled from the spec: [SomasSolverTensorDesc] is declared in
    [backend/common/somas/somas_solver_pre.h], which is not among the
    sources; a descriptor is taken to hold the five values that [Update]
    is given. *)
Record SomasSolverTensorDesc := {
  desc_index : Z;
  desc_size : Z;
  desc_offset : Z;
  desc_lifelong : bool;
  desc_constraints : Z
}.

Definition Update (index size offset : Z) (lifelong : bool) (constraints : Z)
    : SomasSolverTensorDesc :=
  {| desc_index := index; desc_size := size; desc_offset := offset;
     desc_lifelong := lifelong; desc_constraints := constraints |}.

#[export] Instance LifeLongType_eq_dec : EqDecision LifeLongType.
Proof. solve_decision. Defined.

(** [SomasTensor::GetSolverTensorDesc]; [None] is the null pointer. *)
Definition GetSolverTensorDesc (t : SomasTensor) : option SomasSolverTensorDesc :=
  let desc :=
    if contiguous_ t
    then Update (id_ t) (aligned_size_ t) (offset_ t) false (num_constraints_ t)
    else Update (id_ t) (aligned_size_ t) (offset_ t)
                (bool_decide (lifelong_value_ t = kLifeLongGraphAll)) (num_constraints_ t) in
  if aligned_size_ t =? 0 then None else Some desc.

(** X11. The solver is handed no descriptor for a new tensor exactly when
    its size is 0 or lies in [[2^64 - 543, 2^64 - 32]], where the aligned
    size wraps around to 0.  The descriptor of any other tensor carries
    its identifier, its aligned size, a multiple of 512 and not 0, the
    offset 0, no constraints, and the lifelong flag exactly for tensors
    that live across the whole graph. *)
Theorem GetSolverTensorDesc_of_new_tensor id node stream size life :
  SizeT.in_range size ->
  let t := mkSomasTensor id node stream size life in
  (GetSolverTensorDesc t = None <->
     size = 0 \/ SizeT.modulus - 543 <= size <= SizeT.modulus - 32) /\
  (forall d, GetSolverTensorDesc t = Some d ->
     d = Update id (aligned_size_ t) 0 (bool_decide (life = kLifeLongGraphAll)) 0 /\
     0 < desc_size d /\ desc_size d mod 512 = 0).
Proof.
  intros Hr t. subst t. unfold GetSolverTensorDesc. simpl.
  assert (Hcases : size = 0 \/ (0 < size /\ size + 543 < SizeT.modulus) \/
                   SizeT.modulus - 543 <= size < SizeT.modulus)
    by (unfold SizeT.in_range in Hr; lia).
  destruct Hcases as [->|[[Hpos Hfit]|Hwrap]].
  - simpl. split; [split; auto|]. intros d Hd. discriminate Hd.
  - rewrite aligned_size_of_no_wrap by assumption.
    pose proof (Z.div_pos (size + 31) 512 ltac:(lia) ltac:(lia)) as Hq.
    set (q := (size + 31) / 512) in *.
    destruct (Z.eqb_spec ((q + 1) * 512) 0) as [H0|_]; [lia|].
    split.
    + split; [discriminate|]. intros [->|Hw]; lia.
    + intros d [= <-]. split; [reflexivity|]. simpl.
      split; [lia | apply Z.mod_mul; lia].
  - rewrite aligned_size_of_wrapped by assumption.
    destruct (Z.ltb_spec size (SizeT.modulus - 31)) as [Hlt|Hge]; simpl.
    + split; [split; [intros _; right; lia | reflexivity]|]. intros d Hd. discriminate Hd.
    + split.
      * split; [discriminate|]. intros [->|Hw]; unfold SizeT.modulus in *; lia.
      * intros d [= <-]. split; [reflexivity|]. simpl. split; [lia | reflexivity].
Qed.

Lemma GetSolverTensorDesc_of_new_tensor_witness :
  GetSolverTensorDesc (mkSomasTensor 7 3 0 (2 ^ 64 - 100) kLifeLongGraphAll) = None /\
  GetSolverTensorDesc (mkSomasTensor 7 3 0 481 kLifeLongGraphAll) = Some (Update 7 1024 0 true 0).
Proof.
  pose proof (GetSolverTensorDesc_of_new_tensor 7 3 0 (2 ^ 64 - 100) kLifeLongGraphAll
                ltac:(unfold SizeT.in_range, SizeT.modulus; lia)) as H1.
  cbv zeta in H1. destruct H1 as [H1 _].
  split; [apply H1; right; unfold SizeT.modulus; lia | reflexivity].
Defined.

End Somas.

(** ** Runner configuration
    [mindspore/lite/src/extendrt/cxx_api/model_pool/model_parallel_runner.cc] *)

Module Runner.

Local Open Scope nat_scope.

Definition kMaxSectionNum : nat := 100.
Definition kMaxConfigNumPerSection : nat := 1000.

(** [RunnerConfig::Data].  The execution context is an opaque handle; a
    section name and a key are character sequences ([std::vector<char>] at
    the interface, [std::string] in the store: [CharToString] and
    [MapVectorCharToString] copy the characters one for one). *)
Record Data := {
  workers_num : Z;
  context : option nat;
  config_info : gmap string (gmap string string)
}.

Definition RunnerConfig_new : Data :=
  {| workers_num := 0%Z; context := None; config_info := ∅ |}.

Definition SetWorkersNum (n : Z) (d : Data) : Data :=
  {| workers_num := n; context := context d; config_info := config_info d |}.

Definition GetWorkersNum (d : Data) : Z := workers_num d.

(** [RunnerConfig::SetConfigInfo].  The function returns [void]: there is
    no status to report, the data is the whole result. *)
Definition SetConfigInfo (section : string) (config : gmap string string) (d : Data) : Data :=
  if decide (kMaxSectionNum < size (config_info d)) then d
  else if decide (kMaxConfigNumPerSection < size config) then d
  else {| workers_num := workers_num d;
          context := context d;
          config_info := <[section := config]> (config_info d) |}.

(** A client that registers a list of sections, first to last. *)
Definition SetConfigInfos (calls : list (string * gmap string string)) (d : Data) : Data :=
  foldl (fun acc c => SetConfigInfo c.1 c.2 acc) d calls.

(** The section names ["section0"], ["section1"], ... *)
Definition section_name (i : nat) : string := "section" +:+ pretty i.

Definition distinct_sections (n : nat) : list (string * gmap string string) :=
  (fun i => (section_name i, ∅)) <$> seq 0 n.

(** *** What [SetConfigInfo] keeps and what it drops *)

Lemma SetConfigInfo_kept section config d :
  size (config_info d) <= kMaxSectionNum ->
  size config <= kMaxConfigNumPerSection ->
  config_info (SetConfigInfo section config d) = <[section := config]> (config_info d).
Proof.
  intros Hs Hc. unfold SetConfigInfo.
  destruct (decide (kMaxSectionNum < size (config_info d))); [lia|].
  destruct (decide (kMaxConfigNumPerSection < size config)); [lia|].
  reflexivity.
Qed.

Lemma SetConfigInfo_full section config d :
  kMaxSectionNum < size (config_info d) ->
  SetConfigInfo section config d = d.
Proof.
  intros Hs. unfold SetConfigInfo.
  destruct (decide (kMaxSectionNum < size (config_info d))); [reflexivity | lia].
Qed.

Lemma SetConfigInfo_too_many_keys section config d :
  kMaxConfigNumPerSection < size config ->
  SetConfigInfo section config d = d.
Proof.
  intros Hc. unfold SetConfigInfo.
  destruct (decide (kMaxSectionNum < size (config_info d))); [reflexivity|].
  destruct (decide (kMaxConfigNumPerSection < size config)); [reflexivity | lia].
Qed.

Lemma size_insert_le (m : gmap string (gmap string string)) k v :
  size (<[k := v]> m) <= S (size m).
Proof.
  destruct (m !! k) as [w|] eqn:E.
  - rewrite map_size_insert_Some by eauto. lia.
  - rewrite map_size_insert_None by assumption. lia.
Qed.

(** The store never holds more than [kMaxSectionNum + 1] sections, and a
    stored section never has more than [kMaxConfigNumPerSection] keys. *)
Definition within_limits (d : Data) : Prop :=
  size (config_info d) <= S kMaxSectionNum /\
  forall s c, config_info d !! s = Some c -> size c <= kMaxConfigNumPerSection.

Lemma SetConfigInfo_within_limits section config d :
  within_limits d -> within_limits (SetConfigInfo section config d).
Proof.
  intros [Hs Hk]. unfold SetConfigInfo.
  destruct (decide (kMaxSectionNum < size (config_info d))); [split; assumption|].
  destruct (decide (kMaxConfigNumPerSection < size config)); [split; assumption|].
  split; simpl.
  - pose proof (size_insert_le (config_info d) section config). lia.
  - intros s c. rewrite lookup_insert. case_decide as E.
    + intros [= <-]. lia.
    + apply Hk.
Qed.

(** X8. Whatever the calls, the store never comes to hold more than
    [kMaxSectionNum + 1] sections, nor a section of more than
    [kMaxConfigNumPerSection] keys. *)
Lemma SetConfigInfos_within_limits calls d :
  within_limits d -> within_limits (SetConfigInfos calls d).
Proof.
  revert d. induction calls as [|c calls IH]; intros d Hd; [exact Hd|].
  apply IH. now apply SetConfigInfo_within_limits.
Qed.

Lemma SetConfigInfos_within_limits_witness :
  within_limits (SetConfigInfos (distinct_sections 3) RunnerConfig_new).
Proof.
  apply SetConfigInfos_within_limits. split.
  - vm_compute. lia.
  - intros s c Hs. simpl in Hs. rewrite lookup_empty in Hs. discriminate Hs.
Defined.

(** C4 at its failing input: a fresh [RunnerConfig] given 101 distinct
    sections keeps all 101 of them, the 101st included; only a 102nd
    section is dropped. *)
Theorem SetConfigInfo_keeps_section_101 :
  let d := SetConfigInfos (distinct_sections 101) RunnerConfig_new in
  config_info d !! section_name 100 = Some ∅ /\
  size (config_info d) = 101 /\
  SetConfigInfo (section_name 101) ∅ d = d /\
  config_info (SetConfigInfos (distinct_sections 102) RunnerConfig_new) !! section_name 101 = None.
Proof.
  cbv zeta. split; [|split; [|split]].
  - vm_compute. reflexivity.
  - vm_compute. reflexivity.
  - apply SetConfigInfo_full.
    replace (size _) with 101 by (vm_compute; reflexivity).
    unfold kMaxSectionNum. lia.
  - vm_compute. reflexivity.
Qed.

(** *** What a client reads back *)

(** [RunnerConfig::GetConfigInfoChar], up to the copy of the characters. *)
Definition GetConfigInfo (d : Data) : gmap string (gmap string string) := config_info d.

(** [RunnerConfig::SetContext] and [RunnerConfig::GetContext] *)
Definition SetContext (c : option nat) (d : Data) : Data :=
  {| workers_num := workers_num d; context := c; config_info := config_info d |}.

Definition GetContext (d : Data) : option nat := context d.

Lemma SetConfigInfo_other_fields section config d :
  workers_num (SetConfigInfo section config d) = workers_num d /\
  context (SetConfigInfo section config d) = context d.
Proof.
  unfold SetConfigInfo. repeat case_decide; auto.
Qed.

Lemma SetConfigInfos_other_fields calls : forall d,
  workers_num (SetConfigInfos calls d) = workers_num d /\
  context (SetConfigInfos calls d) = context d.
Proof.
  induction calls as [|c calls IH]; intros d; [auto|].
  change (SetConfigInfos (c :: calls) d) with (SetConfigInfos calls (SetConfigInfo c.1 c.2 d)).
  destruct (IH (SetConfigInfo c.1 c.2 d)) as [-> ->]. apply SetConfigInfo_other_fields.
Qed.

Lemma SetConfigInfos_kept calls : forall d,
  size (config_info d) + length calls <= S kMaxSectionNum ->
  Forall (fun c : string * gmap string string => size c.2 <= kMaxConfigNumPerSection) calls ->
  config_info (SetConfigInfos calls d) = list_to_map (reverse calls) ∪ config_info d.
Proof.
  induction calls as [|c calls IH]; intros d Hsize Hkeys.
  - simpl. now rewrite (left_id_L ∅ (∪)).
  - change (SetConfigInfos (c :: calls) d) with (SetConfigInfos calls (SetConfigInfo c.1 c.2 d)).
    inversion Hkeys as [|? ? Hc Hrest]; subst. simpl length in Hsize.
    assert (Hstep : config_info (SetConfigInfo c.1 c.2 d) = <[c.1 := c.2]> (config_info d)).
    { apply SetConfigInfo_kept; [lia | exact Hc]. }
    rewrite IH; [|rewrite Hstep; pose proof (size_insert_le (config_info d) c.1 c.2); lia
                 |exact Hrest].
    rewrite Hstep, reverse_cons, list_to_map_app. simpl.
    rewrite insert_empty, insert_union_singleton_l.
    now rewrite (assoc_L (∪)).
Qed.

(** X9. As long as a client stays within the limits (with the sections
    already stored, no more than 101 calls, and no more than 1000 keys in
    any of them) no call is dropped: what is read back under a section
    name is the configuration of the last call for that name, or what was
    stored before when there is none.  The number of workers and the
    context are left as they were by any sequence of calls. *)
Theorem SetConfigInfos_read_back calls d :
  size (config_info d) + length calls <= S kMaxSectionNum ->
  Forall (fun c : string * gmap string string => size c.2 <= kMaxConfigNumPerSection) calls ->
  let d' := SetConfigInfos calls d in
  (forall section,
     GetConfigInfo d' !! section =
       match list_find (fun c : string * gmap string string => c.1 = section) (reverse calls) with
       | Some (_, c) => Some c.2
       | None => GetConfigInfo d !! section
       end) /\
  GetWorkersNum d' = GetWorkersNum d /\
  GetContext d' = GetContext d.
Proof.
  intros Hsize Hkeys d'. subst d'. unfold GetConfigInfo, GetWorkersNum, GetContext.
  split; [|apply SetConfigInfos_other_fields].
  intros section. rewrite SetConfigInfos_kept by assumption.
  rewrite lookup_union.
  generalize (reverse calls) as l. intros l.
  induction l as [|[s c] l IH]; simpl.
  - rewrite lookup_empty. now rewrite (left_id_L None union).
  - destruct (decide (s = section)) as [->|Hne].
    + rewrite lookup_insert_eq. simpl. now destruct (config_info d !! section).
    + rewrite lookup_insert_ne by exact Hne. rewrite IH.
      destruct (list_find _ l) as [[i p]|]; reflexivity.
Qed.

Lemma SetConfigInfos_read_back_witness :
  GetConfigInfo
    (SetConfigInfos [("a", {["k" := "1"]}); ("b", ∅); ("a", {["k" := "2"]})] RunnerConfig_new)
    !! "a" = Some {["k" := "2"]}.
Proof.
  assert (Hsize : size (config_info RunnerConfig_new)
                  + length [("a", ({["k" := "1"]} : gmap string string)); ("b", ∅);
                            ("a", {["k" := "2"]})] <= S kMaxSectionNum)
    by (vm_compute; lia).
  assert (Hkeys : Forall (fun c : string * gmap string string =>
                            size c.2 <= kMaxConfigNumPerSection)
                    [("a", {["k" := "1"]}); ("b", ∅); ("a", {["k" := "2"]})]).
  { repeat constructor; vm_compute; lia. }
  pose proof (SetConfigInfos_read_back _ _ Hsize Hkeys) as H.
  cbv zeta in H. destruct H as [H _]. rewrite H. reflexivity.
Defined.

End Runner.

(** ** Abstract values and inference results
    The vocabulary shared by the shape and type inference functions of
    [mindspore/core/ops] and [mindspore/core/abstract/ops]. *)

Module Abstract.

(** [MS_EXCEPTION(ValueError)], [MS_EXCEPTION(TypeError)] and the untyped
    [MS_LOG(EXCEPTION)] / [MS_EXCEPTION_IF_NULL]. *)
Inductive ExceptionType := ValueError | TypeError | RuntimeError.

(** What a call comes to: it returns, it throws, or it reads a vector out
    of its bounds with [operator[]], for which C++ defines no behaviour. *)
Inductive result (A : Type) :=
| Returned (a : A)
| Raised (e : ExceptionType)
| Undefined.
Arguments Returned {A} a.
Arguments Raised {A} e.
Arguments Undefined {A}.

#[export] Instance result_ret : MRet result := fun A a => Returned a.
#[export] Instance result_bind : MBind result := fun A B f m =>
  match m with
  | Returned a => f a
  | Raised e => Raised e
  | Undefined => Undefined
  end.

Definition raises {A} (r : result A) : Prop := exists e, r = Raised e.

Definition returns {A} (r : result A) : Prop := exists a, r = Returned a.

(** [if (cond) MS_EXCEPTION(e) << ...] *)
Definition raise_if (cond : bool) (e : ExceptionType) : result unit :=
  if cond then Raised e else Returned tt.

(** [v[i]] on a [std::vector]. *)
Definition at_index {A} (v : list A) (i : nat) : result A :=
  match v !! i with
  | Some a => Returned a
  | None => Undefined
  end.

Inductive TypeId :=
| kNumberTypeBool
| kNumberTypeInt8 | kNumberTypeInt16 | kNumberTypeInt32 | kNumberTypeInt64
| kNumberTypeUInt8 | kNumberTypeUInt16 | kNumberTypeUInt32 | kNumberTypeUInt64
| kNumberTypeFloat16 | kNumberTypeFloat32 | kNumberTypeFloat64
| kNumberTypeComplex64 | kNumberTypeComplex128.

#[export] Instance TypeId_eq_dec : EqDecision TypeId.
Proof. solve_decision. Defined.

(** [type->isa<Int>()] *)
Definition isa_Int (t : TypeId) : bool :=
  match t with
  | kNumberTypeInt8 | kNumberTypeInt16 | kNumberTypeInt32 | kNumberTypeInt64 => true
  | _ => false
  end.

(** A [TypePtr]: the type of a tensor, of a scalar, or of a tuple of
    scalars. *)
Inductive TypePtr :=
| TensorType (element : TypeId)
| Number (t : TypeId)
| TupleOf (elements : list TypeId).

(** An immediate value held by an attribute or a tuple element. *)
Inductive Value :=
| BoolImm (b : bool)
| Int64Imm (z : Z)
| Int32Imm (z : Z)
| AnyValue.

(** An element of an [AbstractTuple]: its type and the value it builds
    ([AnyValue] when it is not a constant). *)
Record AbstractScalar := {
  scalar_type : TypeId;
  scalar_value : Value
}.

Inductive AbstractBase :=
| AbstractTensor (element : TypeId) (shape : list Z)
| AbstractTuple (elements : list AbstractScalar)
| AbstractOther (t : TypeId).

(** An [AbstractBasePtr] may be null. *)
Definition AbstractBasePtr := option AbstractBase.

Definition BuildType (a : AbstractBase) : TypePtr :=
  match a with
  | AbstractTensor e _ => TensorType e
  | AbstractTuple es => TupleOf (scalar_type <$> es)
  | AbstractOther t => Number t
  end.

(** [GetValue<bool>] and [GetValue<int64_t>] on an attribute: a null
    pointer or a value of another kind throws. *)
Definition GetValue_bool (v : option Value) : result bool :=
  match v with
  | Some (BoolImm b) => Returned b
  | _ => Raised RuntimeError
  end.

Definition GetValue_int64 (v : option Value) : result Z :=
  match v with
  | Some (Int64Imm z) => Returned z
  | _ => Raised RuntimeError
  end.

(** A primitive: its name and its attributes. *)
Record Primitive := {
  prim_name : string;
  attrs : gmap string Value
}.

Definition GetAttr (p : Primitive) (key : string) : option Value := attrs p !! key.

(** [MS_EXCEPTION_IF_NULL] *)
Definition not_null {A} (p : option A) : result A :=
  match p with
  | Some a => Returned a
  | None => Raised RuntimeError
  end.

End Abstract.

(** ** Median
    [mindspore/core/ops/median.cc] *)

Module Median.
Import Abstract.

(** Modelled from the spec: [CheckAndConvertUtils::CheckInRange] with
    [kIncludeLeft] is declared in [utils/check_convert_utils.h], which is
    not among the sources; it accepts a value of the half-open range
    [[lo, hi)] and throws a value error for any other. *)
Definition CheckInRange_IncludeLeft (value lo hi : Z) : result unit :=
  raise_if (negb ((lo <=? value) && (value <? hi))) ValueError.

(** Modelled from the spec: [CheckAndConvertUtils::CheckTensorTypeValid]
    throws a type error unless the type is a tensor type whose element is
    one of the valid types, and returns the type otherwise. *)
Definition CheckTensorTypeValid (t : TypePtr) (valid_types : list TypeId) : result TypePtr :=
  match t with
  | TensorType e => if decide (e ∈ valid_types) then Returned t else Raised TypeError
  | _ => Raised TypeError
  end.

(** [ConvertShapePtrToShapeMap(arg->BuildShape())[kShape]] *)
Definition shape_of (a : AbstractBase) : list Z :=
  match a with
  | AbstractTensor _ shp => shp
  | _ => []
  end.

(** The loop [for (int64_t i = 0; i < x_size; i++)] of [MedianInferShape],
    started at index [i] with [rest] the dimensions still to visit. *)
Fixpoint reduce_axis (axis : Z) (keepdim : bool) (i : Z) (rest : list Z) (out : list Z) : list Z :=
  match rest with
  | [] => out
  | d :: rest' =>
      let out' := if i =? axis
                  then (if keepdim then out ++ [1] else out)
                  else out ++ [d] in
      reduce_axis axis keepdim (i + 1) rest' out'
  end.

(** [MedianInferShape] *)
Definition MedianInferShape (primitive : Primitive) (input_args : list AbstractBasePtr)
    : result (list Z * list Z) :=
  arg0 ← at_index input_args 0;
  x ← not_null arg0;
  let x_shape := shape_of x in
  let x_size := Z.of_nat (length x_shape) in
  check_global_median ← not_null (GetAttr primitive "global_median");
  global_median ← GetValue_bool (Some check_global_median);
  out ← (if (global_median : bool) then Returned []
         else
           axis ← GetValue_int64 (GetAttr primitive "axis");
           keepdim ← GetValue_bool (GetAttr primitive "keep_dims");
           (if x_size =? 0
            then CheckInRange_IncludeLeft axis (-1) 1
            else CheckInRange_IncludeLeft axis (- x_size) x_size);;
           let axis := if axis <? 0 then axis + x_size else axis in
           Returned (reduce_axis axis keepdim 0 x_shape []));
  Returned (out, out).

Definition valid_types : list TypeId :=
  [kNumberTypeInt16; kNumberTypeInt32; kNumberTypeInt64; kNumberTypeFloat32; kNumberTypeFloat64].

(** [MedianInferType] *)
Definition MedianInferType (primitive : Primitive) (input_args : list AbstractBasePtr)
    : result (list TypePtr) :=
  (if existsb (fun a : AbstractBasePtr => match a with None => true | Some _ => false end) input_args
   then Raised RuntimeError else Returned tt);;
  arg0 ← at_index input_args 0;
  x ← not_null arg0;
  CheckTensorTypeValid (BuildType x) valid_types;;
  Returned [BuildType x; TensorType kNumberTypeInt64].

Section Infer.

(** [CheckAndConvertUtils::CheckInputArgs] is declared in
    [utils/check_convert_utils.h], which is not among the sources.  Nothing
    is known here of what it accepts or throws: it is a parameter, called
    with the argument list and the expected number ([kEqual]). *)
Variable CheckInputArgs_Equal : list AbstractBasePtr -> nat -> result unit.

(** [MedianInfer]: the abstract it makes is the pair of the inferred shapes
    and the inferred types. *)
Definition MedianInfer (primitive : Primitive) (input_args : list AbstractBasePtr)
    : result ((list Z * list Z) * list TypePtr) :=
  CheckInputArgs_Equal input_args 1;;
  infer_type ← MedianInferType primitive input_args;
  infer_shape ← MedianInferShape primitive input_args;
  Returned (infer_shape, infer_type).

End Infer.

(** The output shape in the words of the documentation: the input shape
    with the axis removed, or retained as size 1 under [keep_dims]. *)
Definition without_axis (x_shape : list Z) (axis : nat) (keep_dims : bool) : list Z :=
  take axis x_shape ++ (if keep_dims then [1] else []) ++ drop (S axis) x_shape.

(** A [Median] primitive with the three attributes set. *)
Definition median_prim (global_median : bool) (axis : Z) (keep_dims : bool) : Primitive :=
  {| prim_name := "Median";
     attrs := <["global_median" := BoolImm global_median]>
              (<["axis" := Int64Imm axis]>
              (<["keep_dims" := BoolImm keep_dims]> ∅)) |}.

(** *** The shape loop computes the documented shape *)

Lemma reduce_axis_miss axis keepdim rest : forall i out,
  (axis < i \/ i + Z.of_nat (length rest) <= axis) ->
  reduce_axis axis keepdim i rest out = out ++ rest.
Proof.
  induction rest as [|d rest IH]; intros i out Hout; simpl.
  - now rewrite app_nil_r.
  - destruct (Z.eqb_spec i axis) as [->|Hne].
    + simpl length in Hout. lia.
    + rewrite IH by (simpl length in Hout; lia).
      now rewrite <- app_assoc.
Qed.

Lemma reduce_axis_hit axis keepdim rest : forall i out (n : nat),
  axis = i + Z.of_nat n -> (n < length rest)%nat ->
  reduce_axis axis keepdim i rest out = out ++ without_axis rest n keepdim.
Proof.
  induction rest as [|d rest IH]; intros i out n Hax Hn; simpl in Hn; [lia|].
  simpl. destruct (Z.eqb_spec i axis) as [Heq|Hne].
  - assert (n = 0%nat) as -> by lia.
    rewrite reduce_axis_miss by lia.
    unfold without_axis. simpl. rewrite drop_0.
    destruct keepdim; now rewrite <- ?app_assoc.
  - destruct n as [|n]; [lia|].
    rewrite (IH (i + 1) _ n) by lia.
    unfold without_axis. simpl. now rewrite <- app_assoc.
Qed.

Lemma MedianInferShape_unfold primitive e x_shape axis keep_dims :
  GetAttr primitive "global_median" = Some (BoolImm false) ->
  GetAttr primitive "axis" = Some (Int64Imm axis) ->
  GetAttr primitive "keep_dims" = Some (BoolImm keep_dims) ->
  let rank := Z.of_nat (length x_shape) in
  MedianInferShape primitive [Some (AbstractTensor e x_shape)] =
    ((if rank =? 0
      then CheckInRange_IncludeLeft axis (-1) 1
      else CheckInRange_IncludeLeft axis (- rank) rank);;
     let out := reduce_axis (if axis <? 0 then axis + rank else axis) keep_dims 0 x_shape [] in
     Returned (out, out)).
Proof.
  intros Hg Ha Hk rank. unfold MedianInferShape. simpl.
  rewrite Hg, Ha, Hk. simpl. fold rank.
  destruct (if rank =? 0 then _ else _) as [[]| |]; reflexivity.
Qed.

(** C9: with [global_median] false, [MedianInferShape] throws unless the
    axis lies in [[-rank, rank)] ([[-1, 1)] for a rank-0 input); otherwise
    both output shapes are the input shape with the (normalised) axis
    removed, or kept as size 1 under [keep_dims]; for [[2,3,4]] and axis 1
    this is [[2,4]] and [[2,1,4]]; and [MedianInferType] returns the pair
    (input type, tensor of Int64) for each of its valid input types. *)
Theorem MedianInfer_spec primitive e x_shape axis keep_dims :
  GetAttr primitive "global_median" = Some (BoolImm false) ->
  GetAttr primitive "axis" = Some (Int64Imm axis) ->
  GetAttr primitive "keep_dims" = Some (BoolImm keep_dims) ->
  let rank := Z.of_nat (length x_shape) in
  let args := [Some (AbstractTensor e x_shape)] in
  let p213 := [Some (AbstractTensor e [2; 3; 4])] in
  (rank = 0 -> ~ (-1 <= axis < 1) -> MedianInferShape primitive args = Raised ValueError) /\
  (rank = 0 -> -1 <= axis < 1 -> MedianInferShape primitive args = Returned ([], [])) /\
  (0 < rank -> ~ (- rank <= axis < rank) -> MedianInferShape primitive args = Raised ValueError) /\
  (0 < rank -> - rank <= axis < rank ->
     let a := Z.to_nat (if axis <? 0 then axis + rank else axis) in
     MedianInferShape primitive args =
       Returned (without_axis x_shape a keep_dims, without_axis x_shape a keep_dims)) /\
  (axis = 1 -> MedianInferShape primitive p213 =
     if keep_dims then Returned ([2; 1; 4], [2; 1; 4]) else Returned ([2; 4], [2; 4])) /\
  (e ∈ valid_types ->
     MedianInferType primitive args = Returned [TensorType e; TensorType kNumberTypeInt64]) /\
  (forall ts, MedianInferType primitive args = Returned ts ->
     ts = [TensorType e; TensorType kNumberTypeInt64]).
Proof.
  intros Hg Ha Hk rank args p213.
  pose proof (MedianInferShape_unfold primitive e x_shape axis keep_dims Hg Ha Hk) as Hu.
  cbv zeta in Hu. fold rank in Hu. fold args in Hu.
  repeat split.
  - intros H0 Hr. rewrite Hu, H0. simpl. unfold CheckInRange_IncludeLeft.
    destruct (Z.leb_spec (-1) axis), (Z.ltb_spec axis 1); simpl; try reflexivity; lia.
  - intros H0 Hr. rewrite Hu, H0. simpl. unfold CheckInRange_IncludeLeft.
    destruct (Z.leb_spec (-1) axis), (Z.ltb_spec axis 1); simpl; try lia.
    destruct x_shape; [reflexivity | simpl in rank; lia].
  - intros Hpos Hr. rewrite Hu.
    destruct (Z.eqb_spec rank 0); [lia|]. unfold CheckInRange_IncludeLeft.
    destruct (Z.leb_spec (- rank) axis), (Z.ltb_spec axis rank); simpl; try reflexivity; lia.
  - intros Hpos Hr a. rewrite Hu.
    destruct (Z.eqb_spec rank 0); [lia|]. unfold CheckInRange_IncludeLeft.
    destruct (Z.leb_spec (- rank) axis), (Z.ltb_spec axis rank); simpl; try lia.
    rewrite (reduce_axis_hit _ keep_dims x_shape 0 [] a).
    + reflexivity.
    + subst a. destruct (Z.ltb_spec axis 0); lia.
    + subst a. destruct (Z.ltb_spec axis 0); lia.
  - intros ->. subst p213.
    rewrite (MedianInferShape_unfold primitive e [2; 3; 4] 1 keep_dims Hg Ha Hk).
    destruct keep_dims; reflexivity.
  - intros Hv. unfold MedianInferType, args. simpl.
    destruct (decide (e ∈ valid_types)); [reflexivity | contradiction].
  - intros ts. unfold MedianInferType, args. simpl.
    destruct (decide (e ∈ valid_types)); simpl; [|discriminate].
    now intros [= <-].
Qed.

Lemma MedianInfer_spec_witness :
  MedianInferShape (median_prim false (-2) true)
    [Some (AbstractTensor kNumberTypeFloat32 [2; 3; 4])] = Returned ([2; 1; 4], [2; 1; 4]) /\
  MedianInferShape (median_prim false 3 true)
    [Some (AbstractTensor kNumberTypeFloat32 [2; 3; 4])] = Raised ValueError /\
  MedianInferType (median_prim false (-2) true)
    [Some (AbstractTensor kNumberTypeFloat32 [2; 3; 4])] =
    Returned [TensorType kNumberTypeFloat32; TensorType kNumberTypeInt64].
Proof.
  split; [|split].
  - destruct (MedianInfer_spec (median_prim false (-2) true) kNumberTypeFloat32 [2; 3; 4] (-2) true
                eq_refl eq_refl eq_refl) as (_ & _ & _ & H & _).
    exact (H ltac:(simpl; lia) ltac:(simpl; lia)).
  - destruct (MedianInfer_spec (median_prim false 3 true) kNumberTypeFloat32 [2; 3; 4] 3 true
                eq_refl eq_refl eq_refl) as (_ & _ & H & _).
    exact (H ltac:(simpl; lia) ltac:(simpl; lia)).
  - destruct (MedianInfer_spec (median_prim false (-2) true) kNumberTypeFloat32 [2; 3; 4] (-2) true
                eq_refl eq_refl eq_refl) as (_ & _ & _ & _ & _ & H & _).
    apply H. unfold valid_types. set_solver.
Defined.

(** *** The checks of [MedianInfer], in their order *)

Lemma MedianInferType_tensor primitive e x_shape :
  MedianInferType primitive [Some (AbstractTensor e x_shape)] =
    if decide (e ∈ valid_types)
    then Returned [TensorType e; TensorType kNumberTypeInt64]
    else Raised TypeError.
Proof.
  unfold MedianInferType. simpl. destruct (decide (e ∈ valid_types)); reflexivity.
Qed.

Lemma MedianInferType_null primitive (input_args : list AbstractBasePtr) :
  None ∈ input_args -> MedianInferType primitive input_args = Raised RuntimeError.
Proof.
  intros Hin. unfold MedianInferType.
  assert (He : existsb (fun a : AbstractBasePtr => match a with None => true | Some _ => false end)
                 input_args = true).
  { apply existsb_exists. exists None. split; [|reflexivity]. now apply list_elem_of_In. }
  now rewrite He.
Qed.

Lemma MedianInferType_head primitive a (rest : list AbstractBasePtr) :
  None ∉ rest ->
  MedianInferType primitive (Some a :: rest) =
    (CheckTensorTypeValid (BuildType a) valid_types;;
     Returned [BuildType a; TensorType kNumberTypeInt64]).
Proof.
  intros Hrest. unfold MedianInferType.
  assert (He : existsb (fun a : AbstractBasePtr => match a with None => true | Some _ => false end)
                 (Some a :: rest) = false).
  { apply not_true_is_false. intros He. apply existsb_exists in He.
    destruct He as ([b|] & Hin & Hb); [discriminate|].
    apply list_elem_of_In in Hin. apply elem_of_cons in Hin.
    destruct Hin as [Hin|Hin]; [discriminate | contradiction]. }
  rewrite He. reflexivity.
Qed.

(** X12. [MedianInfer] throws whatever [CheckInputArgs] throws.  Once
    [CheckInputArgs] has let the arguments through, the input is checked
    before the attributes: a null argument is a plain exception (the test
    [MedianInferType] makes itself); a first argument that is not a tensor
    of Int16, Int32, Int64, Float32 or Float64 is a type error, whatever
    the attributes are; a valid input without a [global_median] attribute
    is a plain exception; and under [global_median] both output shapes are
    empty, whatever [axis] and [keep_dims] are, set or not. *)
Theorem MedianInfer_checks CheckInputArgs_Equal primitive input_args :
  let run := MedianInfer CheckInputArgs_Equal primitive input_args in
  (forall e, CheckInputArgs_Equal input_args 1%nat = Raised e -> run = Raised e) /\
  (CheckInputArgs_Equal input_args 1%nat = Returned tt ->
     (None ∈ input_args -> run = Raised RuntimeError) /\
     (forall a rest, input_args = Some a :: rest -> None ∉ rest ->
        (forall e, BuildType a = TensorType e -> e ∉ valid_types) ->
        run = Raised TypeError) /\
     (forall e x_shape rest, input_args = Some (AbstractTensor e x_shape) :: rest ->
        None ∉ rest -> e ∈ valid_types ->
        (GetAttr primitive "global_median" = None -> run = Raised RuntimeError) /\
        (GetAttr primitive "global_median" = Some (BoolImm true) ->
           run = Returned (([], []), [TensorType e; TensorType kNumberTypeInt64])))).
Proof.
  intros run. subst run. unfold MedianInfer. split.
  - intros e ->. reflexivity.
  - intros ->. cbn [mbind result_bind]. split; [|split].
    + intros Hnull. now rewrite MedianInferType_null.
    + intros a rest -> Hrest Hbad. rewrite MedianInferType_head by exact Hrest.
      destruct a as [e shp|es|t]; simpl; try reflexivity.
      destruct (decide (e ∈ valid_types)) as [Hin|_]; [|reflexivity].
      exfalso. exact (Hbad e eq_refl Hin).
    + intros e x_shape rest -> Hrest Hin. rewrite MedianInferType_head by exact Hrest.
      cbn [BuildType CheckTensorTypeValid]. rewrite decide_True by exact Hin.
      cbn [mbind result_bind]. unfold MedianInferShape. simpl.
      split; intros ->; reflexivity.
Qed.

(** X13. With [global_median] false, a negative axis stands for the axis
    counted from the end: [axis] and [axis + rank] give the same result. *)
Theorem MedianInferShape_negative_axis e x_shape axis keep_dims :
  let rank := Z.of_nat (length x_shape) in
  - rank <= axis < 0 ->
  MedianInferShape (median_prim false axis keep_dims) [Some (AbstractTensor e x_shape)] =
  MedianInferShape (median_prim false (axis + rank) keep_dims) [Some (AbstractTensor e x_shape)].
Proof.
  intros rank Hax.
  rewrite (MedianInferShape_unfold (median_prim false axis keep_dims) e x_shape axis keep_dims
             eq_refl eq_refl eq_refl).
  rewrite (MedianInferShape_unfold (median_prim false (axis + rank) keep_dims) e x_shape
             (axis + rank) keep_dims eq_refl eq_refl eq_refl).
  cbv zeta. fold rank.
  destruct (Z.eqb_spec rank 0) as [H0|_]; [lia|].
  unfold CheckInRange_IncludeLeft.
  destruct (Z.leb_spec (- rank) axis); [|lia].
  destruct (Z.ltb_spec axis rank); [|lia].
  destruct (Z.leb_spec (- rank) (axis + rank)); [|lia].
  destruct (Z.ltb_spec (axis + rank) rank); [|lia].
  destruct (Z.ltb_spec axis 0); [|lia].
  destruct (Z.ltb_spec (axis + rank) 0); [lia|].
  reflexivity.
Qed.

Lemma MedianInferShape_negative_axis_witness :
  MedianInferShape (median_prim false (-1) false)
    [Some (AbstractTensor kNumberTypeFloat32 [2; 3; 4])] =
  MedianInferShape (median_prim false 2 false)
    [Some (AbstractTensor kNumberTypeFloat32 [2; 3; 4])].
Proof.
  exact (MedianInferShape_negative_axis kNumberTypeFloat32 [2; 3; 4] (-1) false
           ltac:(simpl; lia)).
Defined.

End Median.

(** ** Sparse tensor constructors
    [mindspore/core/abstract/ops/prim_others.cc] *)

Module Sparse.
Import Abstract.

(** The constants [kSizeOne] ... [kSizeFour] and [kIndexZero] ...
    [kIndexThree] of [utils/convert_utils_base.h] are the numbers their
    names spell. *)
Definition kSizeOne : nat := 1.
Definition kSizeTwo : nat := 2.
Definition kSizeThree : nat := 3.
Definition kSizeFour : nat := 4.
Definition kIndexZero : nat := 0.
Definition kIndexOne : nat := 1.
Definition kIndexTwo : nat := 2.
Definition kIndexThree : nat := 3.

(** Modelled from the spec: [CheckArgsSize] is declared in
    [abstract/param_validator.h], which is not among the sources; it throws
    unless the argument list has the expected length. *)
Definition CheckArgsSize (args_spec_list : list AbstractBasePtr) (size_expect : nat) : result unit :=
  raise_if (negb (Nat.eqb (length args_spec_list) size_expect)) RuntimeError.

(** Modelled from the spec: [CheckArg<AbstractTensor>] and
    [CheckArg<AbstractTuple>], also of [abstract/param_validator.h], return
    the argument at the index cast to the requested class and throw a type
    error when it is of another class (or null, or the index is out of
    range). *)
Definition CheckArg_AbstractTensor (args_spec_list : list AbstractBasePtr) (index : nat)
    : result (TypeId * list Z) :=
  match args_spec_list !! index with
  | Some (Some (AbstractTensor e shp)) => Returned (e, shp)
  | _ => Raised TypeError
  end.

Definition CheckArg_AbstractTuple (args_spec_list : list AbstractBasePtr) (index : nat)
    : result (list AbstractScalar) :=
  match args_spec_list !! index with
  | Some (Some (AbstractTuple es)) => Returned es
  | _ => Raised TypeError
  end.

(** [CheckSparseShape(shape_size, expected_dim, arg_name)] *)
Definition CheckSparseShape (shape_size expected_dim : nat) : result unit :=
  raise_if (negb (Nat.eqb shape_size expected_dim)) ValueError.

(** [CheckSparseIndicesDtype] *)
Definition CheckSparseIndicesDtype (data_type : TypeId) : result unit :=
  raise_if (negb (bool_decide (data_type = kNumberTypeInt16)
                  || bool_decide (data_type = kNumberTypeInt32)
                  || bool_decide (data_type = kNumberTypeInt64))) TypeError.

(** A loop that throws at the first element failing a test. *)
Fixpoint check_all {A} (ok : A -> bool) (e : ExceptionType) (l : list A) : result unit :=
  match l with
  | [] => Returned tt
  | a :: l' => if ok a then check_all ok e l' else Raised e
  end.

(** [tuple->BuildValue()->cast<ValueTuplePtr>()] followed by
    [MS_EXCEPTION_IF_NULL]: the tuple builds a [ValueTuple] only when every
    element is a constant. *)
Definition BuildValueTuple (es : list AbstractScalar) : result (list Value) :=
  if forallb (fun s => match scalar_value s with AnyValue => false | _ => true end) es
  then Returned (scalar_value <$> es)
  else Raised RuntimeError.

(** [std::transform] with [GetValue<int64_t>] over the tuple's values. *)
Fixpoint GetValues_int64 (vs : list Value) : result (list Z) :=
  match vs with
  | [] => Returned []
  | v :: vs' =>
      z ← GetValue_int64 (Some v);
      zs ← GetValues_int64 vs';
      Returned (z :: zs)
  end.

(** [InferImplMakeCOOTensor].  The test [min_elem <= 0] compares a
    [ValuePtr], not the number it holds, with the null pointer; the
    elements of a [ValueTuple] are never null, so it never throws, but
    taking the minimum of an empty tuple dereferences its end. *)
Definition InferImplMakeCOOTensor (args_spec_list : list AbstractBasePtr)
    : result (list AbstractBase) :=
  CheckArgsSize args_spec_list kSizeThree;;
  indices ← CheckArg_AbstractTensor args_spec_list kIndexZero;
  values ← CheckArg_AbstractTensor args_spec_list kIndexOne;
  dense_shape ← CheckArg_AbstractTuple args_spec_list kIndexTwo;
  let indices_dtype := indices.1 in
  CheckSparseIndicesDtype indices_dtype;;
  let indices_shp := indices.2 in
  CheckSparseShape (length indices_shp) kSizeTwo;;
  let values_shp := values.2 in
  CheckSparseShape (length values_shp) kSizeOne;;
  i0 ← at_index indices_shp kIndexZero;
  v0 ← at_index values_shp kIndexZero;
  raise_if (negb (i0 =? v0)) ValueError;;
  i1 ← at_index indices_shp kIndexOne;
  raise_if (negb (i1 =? 2)) ValueError;;
  check_all (fun s => isa_Int (scalar_type s)) TypeError dense_shape;;
  shp ← BuildValueTuple dense_shape;
  (match shp with [] => Undefined | _ => Returned tt end);;
  dense_shape_vec ← GetValues_int64 shp;
  raise_if (negb (Z.to_nat i1 =? length dense_shape_vec)%nat) TypeError;;
  check_all (fun d => 0 <? d) TypeError dense_shape_vec;;
  Returned [AbstractTensor indices.1 indices.2; AbstractTensor values.1 values.2;
            AbstractTuple dense_shape].

(** The loop over the dimensions of the dense shape in
    [InferImplMakeCSRTensor], started at index [i] with [shape_size] the
    product so far. *)
Fixpoint csr_shape_loop (values_shp : list Z) (i : nat) (dims : list (Z * TypeId))
    (shape_size : Z) : result Z :=
  match dims with
  | [] => Returned shape_size
  | (d, t) :: dims' =>
      raise_if (d <=? 0) ValueError;;
      (if (1 <? i)%nat
       then v ← at_index values_shp (i - 1);
            raise_if (negb (d =? v)) ValueError
       else Returned tt);;
      raise_if (negb (isa_Int t)) TypeError;;
      csr_shape_loop values_shp (S i) dims' (SizeT.mul shape_size d)
  end.

(** [static_cast<int64_t>] of a [size_t]. *)
Definition to_int64 (z : Z) : Z := if z <? 2 ^ 63 then z else z - 2 ^ 64.

(** [InferImplMakeCSRTensor] *)
Definition InferImplMakeCSRTensor (args_spec_list : list AbstractBasePtr)
    : result (list AbstractBase) :=
  CheckArgsSize args_spec_list kSizeFour;;
  indptr ← CheckArg_AbstractTensor args_spec_list kIndexZero;
  indices ← CheckArg_AbstractTensor args_spec_list kIndexOne;
  values ← CheckArg_AbstractTensor args_spec_list kIndexTwo;
  shape ← CheckArg_AbstractTuple args_spec_list kIndexThree;
  CheckSparseIndicesDtype indptr.1;;
  CheckSparseIndicesDtype indices.1;;
  let indptr_shp := indptr.2 in
  CheckSparseShape (length indptr_shp) kSizeOne;;
  let indices_shp := indices.2 in
  CheckSparseShape (length indices_shp) kSizeOne;;
  let values_shp := values.2 in
  i0 ← at_index indices_shp kIndexZero;
  v0 ← at_index values_shp kIndexZero;
  raise_if (negb (i0 =? v0)) ValueError;;
  shp ← BuildValueTuple shape;
  shape_vec ← GetValues_int64 shp;
  raise_if (negb (length values_shp + 1 =? length shape_vec)%nat) ValueError;;
  s0 ← at_index shape_vec kIndexZero;
  p0 ← at_index indptr_shp kIndexZero;
  raise_if (negb (s0 + 1 =? p0)) ValueError;;
  shape_size ← csr_shape_loop values_shp 0 (zip shape_vec (scalar_type <$> shape)) 1;
  raise_if (to_int64 shape_size <? v0) ValueError;;
  Returned [AbstractTensor indptr.1 indptr.2; AbstractTensor indices.1 indices.2;
            AbstractTensor values.1 values.2; AbstractTuple shape].

(** The argument lists of well-typed calls. *)
Definition coo_args (indices_dtype : TypeId) (indices_shp : list Z)
    (values_dtype : TypeId) (values_shp : list Z) (dense_shape : list AbstractScalar)
    : list AbstractBasePtr :=
  [Some (AbstractTensor indices_dtype indices_shp);
   Some (AbstractTensor values_dtype values_shp);
   Some (AbstractTuple dense_shape)].

Definition csr_args (indptr_dtype : TypeId) (indptr_shp : list Z)
    (indices_dtype : TypeId) (indices_shp : list Z)
    (values_dtype : TypeId) (values_shp : list Z) (shape : list AbstractScalar)
    : list AbstractBasePtr :=
  [Some (AbstractTensor indptr_dtype indptr_shp);
   Some (AbstractTensor indices_dtype indices_shp);
   Some (AbstractTensor values_dtype values_shp);
   Some (AbstractTuple shape)].

(** A constant dimension of type Int64. *)
Definition dim (z : Z) : AbstractScalar :=
  {| scalar_type := kNumberTypeInt64; scalar_value := Int64Imm z |}.

(** [shape[0]] of the dense shape tuple, when it is a constant. *)
Definition shape0 (shape : list AbstractScalar) : option Z :=
  match shape with
  | s :: _ => match scalar_value s with Int64Imm z => Some z | _ => None end
  | [] => None
  end.

(** The indptr tensor has [shape[0] + 1] entries. *)
Definition indptr_matches (indptr_shp : list Z) (shape : list AbstractScalar) : Prop :=
  exists s0, shape0 shape = Some s0 /\ indptr_shp !! 0%nat = Some (s0 + 1).

(** *** The structural checks *)

Lemma CheckSparseIndicesDtype_cases t :
  CheckSparseIndicesDtype t = Returned tt \/ CheckSparseIndicesDtype t = Raised TypeError.
Proof. unfold CheckSparseIndicesDtype, raise_if. case_match; auto. Qed.

Lemma raises_Raised {A} e : raises (@Raised A e).
Proof. now exists e. Qed.

Lemma not_returns_Raised {A} e : ~ returns (@Raised A e).
Proof. intros [a Ha]. discriminate Ha. Qed.

Lemma not_returns_Undefined {A} : ~ returns (@Undefined A).
Proof. intros [a Ha]. discriminate Ha. Qed.

Create HintDb sparse.
#[local] Hint Resolve raises_Raised not_returns_Raised not_returns_Undefined : sparse.

Lemma shape0_of_values shape shp s0 rest :
  BuildValueTuple shape = Returned shp ->
  GetValues_int64 shp = Returned (s0 :: rest) ->
  shape0 shape = Some s0.
Proof.
  unfold BuildValueTuple. case_match; [|discriminate]. intros [= <-].
  destruct shape as [|s shape]; simpl; [discriminate|].
  destruct (scalar_value s); simpl; try discriminate.
  intros Heq.
  match type of Heq with
  | context [GetValues_int64 ?l] => destruct (GetValues_int64 l)
  end; simpl in Heq; inversion Heq; reflexivity.
Qed.

Lemma BuildValueTuple_defined es : BuildValueTuple es <> Undefined.
Proof. unfold BuildValueTuple. case_match; discriminate. Qed.

Lemma GetValues_int64_defined vs : GetValues_int64 vs <> Undefined.
Proof.
  induction vs as [|v vs IH]; simpl; [discriminate|].
  destruct v; simpl; try discriminate.
  destruct (GetValues_int64 vs); simpl; [discriminate | discriminate | contradiction].
Qed.

Ltac res_cbn :=
  cbn [mbind result_bind raise_if negb at_index lookup list_lookup CheckSparseShape
       CheckArgsSize CheckArg_AbstractTensor CheckArg_AbstractTuple length Nat.eqb
       kIndexZero kIndexOne kIndexTwo kIndexThree kSizeOne kSizeTwo kSizeThree kSizeFour
       fst snd].

Ltac thrown :=
  solve [ auto with sparse
        | split; [auto with sparse | intros; auto with sparse]
        | split; [auto with sparse | congruence] ].

Lemma MakeCOOTensor_raises idt ishp vdt vshp ds :
  length ishp <> 2%nat \/ ishp !! 1%nat <> Some 2 \/ ishp !! 0%nat <> vshp !! 0%nat ->
  raises (InferImplMakeCOOTensor (coo_args idt ishp vdt vshp ds)).
Proof.
  intros H. unfold InferImplMakeCOOTensor, coo_args. res_cbn.
  destruct (CheckSparseIndicesDtype_cases idt) as [-> | ->]; res_cbn; try thrown.
  destruct ishp as [|a [|b [|c ishp]]]; res_cbn; try thrown.
  destruct vshp as [|v [|w vshp]]; res_cbn; try thrown.
  destruct (Z.eqb_spec a v); res_cbn; try thrown.
  destruct (Z.eqb_spec b 2); res_cbn; try thrown.
  subst. simpl in H. destruct H as [H|[H|H]]; congruence.
Qed.

Lemma MakeCSRTensor_rank_raises pdt pshp idt ishp vdt vshp shape :
  length pshp <> 1%nat \/ length ishp <> 1%nat ->
  raises (InferImplMakeCSRTensor (csr_args pdt pshp idt ishp vdt vshp shape)).
Proof.
  intros H. unfold InferImplMakeCSRTensor, csr_args. res_cbn.
  destruct (CheckSparseIndicesDtype_cases pdt) as [-> | ->]; res_cbn; try thrown.
  destruct (CheckSparseIndicesDtype_cases idt) as [-> | ->]; res_cbn; try thrown.
  destruct pshp as [|p0 [|p1 pshp]]; res_cbn; try thrown.
  destruct ishp as [|i0 [|i1 ishp]]; res_cbn; try thrown.
  simpl in H. destruct H; congruence.
Qed.

Lemma MakeCSRTensor_indptr_length pdt pshp idt ishp vdt vshp shape :
  ~ indptr_matches pshp shape ->
  ~ returns (InferImplMakeCSRTensor (csr_args pdt pshp idt ishp vdt vshp shape)) /\
  (vshp <> [] -> raises (InferImplMakeCSRTensor (csr_args pdt pshp idt ishp vdt vshp shape))).
Proof.
  intros H. unfold InferImplMakeCSRTensor, csr_args. res_cbn.
  destruct (CheckSparseIndicesDtype_cases pdt) as [-> | ->]; res_cbn; try thrown.
  destruct (CheckSparseIndicesDtype_cases idt) as [-> | ->]; res_cbn; try thrown.
  destruct pshp as [|p0 [|p1 pshp]]; res_cbn; try thrown.
  destruct ishp as [|i0 [|i1 ishp]]; res_cbn; try thrown.
  destruct vshp as [|v0 vshp]; res_cbn; try thrown.
  destruct (i0 =? v0); res_cbn; try thrown.
  destruct (BuildValueTuple shape) as [shp| |] eqn:Eb; res_cbn; try thrown;
    [|now apply BuildValueTuple_defined in Eb].
  destruct (GetValues_int64 shp) as [shape_vec| |] eqn:Eg; res_cbn; try thrown;
    [|now apply GetValues_int64_defined in Eg].
  match goal with
  | |- context [(?a =? ?b)%nat] => destruct (Nat.eqb_spec a b) as [Hlen|Hlen]
  end; res_cbn; try thrown.
  destruct shape_vec as [|s0 shape_vec]; [simpl in Hlen; lia|]. res_cbn.
  destruct (Z.eqb_spec (s0 + 1) p0) as [Heq|Hne]; res_cbn; try thrown.
  exfalso. apply H. exists s0. split.
  - eapply shape0_of_values; eassumption.
  - simpl. now rewrite Heq.
Qed.

(** The structural checks that do hold: [InferImplMakeCOOTensor] throws
    whenever the indices tensor is not of rank 2, its second dimension is
    not 2, or its leading dimension differs from that of the values tensor;
    [InferImplMakeCSRTensor] throws whenever indptr or indices is not of
    rank 1, and never returns an abstract when the indptr length is not
    [shape[0] + 1]: it throws then too, as long as the values tensor has a
    leading dimension to read.  A call that respects the invariants
    returns. *)
Theorem MakeSparseTensor_structural_errors :
  (forall idt ishp vdt vshp ds,
     length ishp <> 2%nat \/ ishp !! 1%nat <> Some 2 \/ ishp !! 0%nat <> vshp !! 0%nat ->
     raises (InferImplMakeCOOTensor (coo_args idt ishp vdt vshp ds))) /\
  (forall pdt pshp idt ishp vdt vshp shape,
     length pshp <> 1%nat \/ length ishp <> 1%nat ->
     raises (InferImplMakeCSRTensor (csr_args pdt pshp idt ishp vdt vshp shape))) /\
  (forall pdt pshp idt ishp vdt vshp shape,
     ~ indptr_matches pshp shape ->
     ~ returns (InferImplMakeCSRTensor (csr_args pdt pshp idt ishp vdt vshp shape)) /\
     (vshp <> [] ->
      raises (InferImplMakeCSRTensor (csr_args pdt pshp idt ishp vdt vshp shape)))) /\
  InferImplMakeCOOTensor
    (coo_args kNumberTypeInt32 [3; 2] kNumberTypeFloat32 [3] [dim 4; dim 5]) =
    Returned [AbstractTensor kNumberTypeInt32 [3; 2]; AbstractTensor kNumberTypeFloat32 [3];
              AbstractTuple [dim 4; dim 5]] /\
  InferImplMakeCOOTensor
    (coo_args kNumberTypeInt32 [3] kNumberTypeFloat32 [3] [dim 4; dim 5]) = Raised ValueError /\
  InferImplMakeCSRTensor
    (csr_args kNumberTypeInt32 [5] kNumberTypeInt32 [3] kNumberTypeFloat32 [3] [dim 4; dim 5]) =
    Returned [AbstractTensor kNumberTypeInt32 [5]; AbstractTensor kNumberTypeInt32 [3];
              AbstractTensor kNumberTypeFloat32 [3]; AbstractTuple [dim 4; dim 5]] /\
  InferImplMakeCSRTensor
    (csr_args kNumberTypeInt32 [4] kNumberTypeInt32 [3] kNumberTypeFloat32 [3] [dim 4; dim 5]) =
    Raised ValueError.
Proof.
  split; [exact MakeCOOTensor_raises|].
  split; [exact MakeCSRTensor_rank_raises|].
  split; [exact MakeCSRTensor_indptr_length|].
  repeat split; vm_compute; reflexivity.
Qed.

(** C8 at its failing input: a values tensor of rank 0.
    [InferImplMakeCSRTensor] compares [indices_shp[0]] with [values_shp[0]]
    without having checked the rank of the values, so it reads the first
    element of an empty vector, whatever the indptr length and the shape
    tuple are: no error is raised for an indptr length other than
    [shape[0] + 1].  [InferImplMakeCOOTensor] checks the rank of the values
    before the same comparison and throws a value error. *)
Theorem MakeCSRTensor_reads_rank0_values p0 i0 vdt shape :
  InferImplMakeCSRTensor
    (csr_args kNumberTypeInt32 [p0] kNumberTypeInt32 [i0] vdt [] shape) = Undefined /\
  InferImplMakeCSRTensor
    (csr_args kNumberTypeInt32 [4] kNumberTypeInt32 [3] kNumberTypeFloat32 [] [dim 2; dim 5])
    = Undefined /\
  ~ indptr_matches [4] [dim 2; dim 5] /\
  InferImplMakeCOOTensor (coo_args kNumberTypeInt32 [i0; 2] vdt [] shape) = Raised ValueError.
Proof.
  split; [reflexivity|]. split; [reflexivity|]. split; [|reflexivity].
  intros (s0 & Hs & Hp). simpl in Hs, Hp. inversion Hs; subst s0. discriminate Hp.
Qed.

(** *** The sparse-dense broadcast check *)

Definition kCSRMulBatchPos : nat := 2.

(** The loop [for (size_t i = 0; i < sparse_shp.size(); i++)] of
    [CheckSparseShape(sparse_shp, dense_shp)], with [n] rounds to go from
    index [i]. *)
Fixpoint check_broadcast_dims (sparse_shp dense_shp : list Z) (i n : nat) : result unit :=
  match n with
  | O => Returned tt
  | S n' =>
      s ← at_index sparse_shp i;
      d ← at_index dense_shp i;
      (if (i <? kCSRMulBatchPos)%nat
       then raise_if (negb (d =? s) && negb (d =? 1)) ValueError
       else raise_if (negb (d =? s)) ValueError);;
      check_broadcast_dims sparse_shp dense_shp (S i) n'
  end.

Section Broadcast.

(** [SizeToInt] belongs to [utils/convert_utils_base.h], which is not among
    the sources; what is used of it is that it returns a size that an
    [int] can hold as it is. *)
Variable SizeToInt : nat -> result Z.
Hypothesis SizeToInt_small :
  forall n : nat, Z.of_nat n < 2 ^ 31 -> SizeToInt n = Returned (Z.of_nat n).

(** [CheckSparseShape(ShapeVector sparse_shp, ShapeVector dense_shp)] *)
Definition CheckSparseShape_shapes (sparse_shp dense_shp : list Z) : result unit :=
  ls ← SizeToInt (length sparse_shp);
  ld ← SizeToInt (length dense_shp);
  let dlen := ls - ld in
  raise_if (dlen <? 0) ValueError;;
  let dense_shp := replicate (Z.to_nat dlen) 1 ++ dense_shp in
  raise_if (negb (length sparse_shp =? length dense_shp)%nat) RuntimeError;;
  raise_if (length sparse_shp <? 1)%nat RuntimeError;;
  check_broadcast_dims sparse_shp dense_shp 0 (length sparse_shp).

(** The dense shape, aligned with the sparse shape from the right: the
    dimensions it lacks count as 1. *)
Definition aligned (sparse_shp dense_shp : list Z) : list Z :=
  replicate (length sparse_shp - length dense_shp) 1 ++ dense_shp.

(** A dense dimension [d] may stand against the sparse dimension [s] at
    position [i]. *)
Definition dim_fits (i : nat) (s d : Z) : Prop :=
  if (i <? kCSRMulBatchPos)%nat then d = s \/ d = 1 else d = s.

Definition broadcasts_to (dense_shp sparse_shp : list Z) : Prop :=
  (length dense_shp <= length sparse_shp)%nat /\
  forall (i : nat) s d,
    sparse_shp !! i = Some s -> aligned sparse_shp dense_shp !! i = Some d -> dim_fits i s d.

Lemma check_broadcast_dims_spec sparse_shp dense_shp n : forall i,
  (i + n = length sparse_shp)%nat -> length dense_shp = length sparse_shp ->
  ((forall (k : nat) s d, (i <= k)%nat ->
      sparse_shp !! k = Some s -> dense_shp !! k = Some d -> dim_fits k s d) ->
   check_broadcast_dims sparse_shp dense_shp i n = Returned tt) /\
  (~ (forall (k : nat) s d, (i <= k)%nat ->
        sparse_shp !! k = Some s -> dense_shp !! k = Some d -> dim_fits k s d) ->
   check_broadcast_dims sparse_shp dense_shp i n = Raised ValueError).
Proof.
  induction n as [|n IH]; intros i Hn Hlen.
  - split; [reflexivity|]. intros Hno. exfalso. apply Hno.
    intros k s d Hk Hs. apply lookup_lt_Some in Hs. lia.
  - destruct (lookup_lt_is_Some_2 sparse_shp i ltac:(lia)) as [s Hs].
    destruct (lookup_lt_is_Some_2 dense_shp i ltac:(lia)) as [d Hd].
    destruct (IH (S i) ltac:(lia) Hlen) as [IHok IHno].
    assert (Hhere : dim_fits i s d \/ ~ dim_fits i s d).
    { unfold dim_fits. destruct (i <? kCSRMulBatchPos)%nat; lia. }
    simpl. unfold at_index. rewrite Hs, Hd. simpl.
    set (check := if (i <? kCSRMulBatchPos)%nat
                  then raise_if (negb (d =? s) && negb (d =? 1)) ValueError
                  else raise_if (negb (d =? s)) ValueError).
    assert (Hfits : dim_fits i s d -> check = Returned tt).
    { unfold dim_fits, check. destruct (i <? kCSRMulBatchPos)%nat.
      - destruct (Z.eqb_spec d s), (Z.eqb_spec d 1); simpl; intros; (reflexivity || lia).
      - destruct (Z.eqb_spec d s); simpl; intros; (reflexivity || lia). }
    assert (Hmiss : ~ dim_fits i s d -> check = Raised ValueError).
    { unfold dim_fits, check. destruct (i <? kCSRMulBatchPos)%nat.
      - destruct (Z.eqb_spec d s), (Z.eqb_spec d 1); simpl; intros; (reflexivity || lia).
      - destruct (Z.eqb_spec d s); simpl; intros; (reflexivity || lia). }
    clearbody check. split.
    + intros Hall. rewrite Hfits by (apply (Hall i); [lia | assumption..]). simpl.
      apply IHok. intros k s' d' Hk. apply Hall. lia.
    + intros Hno. destruct Hhere as [Hfit|Hnot]; [|now rewrite Hmiss].
      rewrite Hfits by exact Hfit. simpl.
      apply IHno. intros Hall. apply Hno. intros k s' d' Hk Hs' Hd'.
      destruct (decide (k = i)) as [->|Hne].
      * rewrite Hs in Hs'. rewrite Hd in Hd'. injection Hs' as <-. injection Hd' as <-.
        exact Hfit.
      * apply Hall; [lia | assumption..].
Qed.

(** For a non-empty sparse shape and a dense shape of no more dimensions,
    what is left of [CheckSparseShape] is its loop over the aligned
    shapes. *)
Lemma CheckSparseShape_shapes_loop sparse_shp dense_shp :
  Z.of_nat (length sparse_shp) < 2 ^ 31 -> Z.of_nat (length dense_shp) < 2 ^ 31 ->
  sparse_shp <> [] -> (length dense_shp <= length sparse_shp)%nat ->
  CheckSparseShape_shapes sparse_shp dense_shp =
    check_broadcast_dims sparse_shp (aligned sparse_shp dense_shp) 0 (length sparse_shp).
Proof.
  intros Hls Hld Hne Hle. unfold CheckSparseShape_shapes.
  rewrite !SizeToInt_small by assumption. simpl.
  destruct (Z.ltb_spec (Z.of_nat (length sparse_shp) - Z.of_nat (length dense_shp)) 0)
    as [Hneg|_]; [lia|]. simpl.
  replace (Z.to_nat (Z.of_nat (length sparse_shp) - Z.of_nat (length dense_shp)))
    with (length sparse_shp - length dense_shp)%nat by lia.
  fold (aligned sparse_shp dense_shp).
  assert (Hlen : length (aligned sparse_shp dense_shp) = length sparse_shp).
  { unfold aligned. rewrite length_app, length_replicate. lia. }
  rewrite Hlen, Nat.eqb_refl. simpl.
  replace (length sparse_shp <? 1)%nat with false; [reflexivity|].
  symmetry. apply Nat.ltb_ge. destruct sparse_shp; [contradiction | simpl; lia].
Qed.

Lemma aligned_length sparse_shp dense_shp :
  (length dense_shp <= length sparse_shp)%nat ->
  length (aligned sparse_shp dense_shp) = length sparse_shp.
Proof. intros Hle. unfold aligned. rewrite length_app, length_replicate. lia. Qed.

Lemma CheckSparseShape_shapes_accepts sparse_shp dense_shp :
  Z.of_nat (length sparse_shp) < 2 ^ 31 -> Z.of_nat (length dense_shp) < 2 ^ 31 ->
  sparse_shp <> [] -> broadcasts_to dense_shp sparse_shp ->
  CheckSparseShape_shapes sparse_shp dense_shp = Returned tt.
Proof.
  intros Hls Hld Hne [Hle Hall].
  rewrite (CheckSparseShape_shapes_loop _ _ Hls Hld Hne Hle).
  apply (check_broadcast_dims_spec sparse_shp (aligned sparse_shp dense_shp)
           (length sparse_shp) 0%nat ltac:(lia) (aligned_length _ _ Hle)).
  intros k s d _. apply Hall.
Qed.

Lemma CheckSparseShape_shapes_refuses sparse_shp dense_shp :
  Z.of_nat (length sparse_shp) < 2 ^ 31 -> Z.of_nat (length dense_shp) < 2 ^ 31 ->
  ~ broadcasts_to dense_shp sparse_shp ->
  CheckSparseShape_shapes sparse_shp dense_shp = Raised ValueError.
Proof.
  intros Hls Hld Hnot.
  destruct (decide (length dense_shp <= length sparse_shp)%nat) as [Hle|Hgt].
  - assert (Hne : sparse_shp <> []).
    { intros ->. apply Hnot. split; [exact Hle|]. intros i s d Hs. discriminate Hs. }
    rewrite (CheckSparseShape_shapes_loop _ _ Hls Hld Hne Hle).
    apply (check_broadcast_dims_spec sparse_shp (aligned sparse_shp dense_shp)
             (length sparse_shp) 0%nat ltac:(lia) (aligned_length _ _ Hle)).
    intros Hall. apply Hnot. split; [exact Hle|]. intros i s d. apply Hall. lia.
  - unfold CheckSparseShape_shapes. rewrite !SizeToInt_small by assumption. simpl.
    destruct (Z.ltb_spec (Z.of_nat (length sparse_shp) - Z.of_nat (length dense_shp)) 0)
      as [_|Hpos]; [reflexivity | lia].
Qed.

(** X14. [CheckSparseShape] on two shapes accepts exactly a non-empty sparse
    shape and a dense shape of no more dimensions that, aligned with it
    from the right and filled up with ones, agrees with it at every
    position, where at the first two positions a dense dimension of 1 is
    accepted as well.  Every other pair is refused with a value error,
    except that two empty shapes are refused with a plain exception. *)
Theorem CheckSparseShape_shapes_spec sparse_shp dense_shp :
  Z.of_nat (length sparse_shp) < 2 ^ 31 -> Z.of_nat (length dense_shp) < 2 ^ 31 ->
  (sparse_shp <> [] -> broadcasts_to dense_shp sparse_shp ->
     CheckSparseShape_shapes sparse_shp dense_shp = Returned tt) /\
  (~ broadcasts_to dense_shp sparse_shp ->
     CheckSparseShape_shapes sparse_shp dense_shp = Raised ValueError) /\
  (sparse_shp = [] -> dense_shp = [] ->
     CheckSparseShape_shapes sparse_shp dense_shp = Raised RuntimeError).
Proof.
  intros Hls Hld. split; [|split].
  - now apply CheckSparseShape_shapes_accepts.
  - now apply CheckSparseShape_shapes_refuses.
  - intros -> ->. unfold CheckSparseShape_shapes.
    rewrite !SizeToInt_small by (simpl; lia). reflexivity.
Qed.

End Broadcast.

(** *** Row tensors *)

(** An [AbstractRowTensor]: the element type and the dense shape it is
    made with, and the three abstracts set on it. *)
Record AbstractRowTensor := {
  row_element : TypeId;
  row_shape : list Z;
  row_indices : AbstractBase;
  row_values : AbstractBase;
  row_dense_shape : AbstractBase
}.

(** The loop over [dense_shape_vec] in [InferImplMakeRowTensor], started at
    index [i]. *)
Fixpoint row_shape_loop (values_shp : list Z) (i : nat) (dims : list Z) : result unit :=
  match dims with
  | [] => Returned tt
  | d :: dims' =>
      raise_if (d <? 0) TypeError;;
      (if negb (i =? 0)%nat
       then v ← at_index values_shp i;
            raise_if (negb (d =? v)) TypeError
       else Returned tt);;
      row_shape_loop values_shp (S i) dims'
  end.

(** [InferImplMakeRowTensor] *)
Definition InferImplMakeRowTensor (args_spec_list : list AbstractBasePtr)
    : result AbstractRowTensor :=
  CheckArgsSize args_spec_list 3;;
  indices ← CheckArg_AbstractTensor args_spec_list 0;
  values ← CheckArg_AbstractTensor args_spec_list 1;
  dense_shape ← CheckArg_AbstractTuple args_spec_list 2;
  let indices_dtype := indices.1 in
  raise_if (negb (isa_Int indices_dtype)) TypeError;;
  let indices_shp := indices.2 in
  raise_if (negb (length indices_shp =? 1)%nat) TypeError;;
  let values_shp := values.2 in
  i0 ← at_index indices_shp 0;
  v0 ← at_index values_shp 0;
  raise_if (negb (i0 =? v0)) TypeError;;
  check_all (fun s => isa_Int (scalar_type s)) TypeError dense_shape;;
  shp ← BuildValueTuple dense_shape;
  dense_shape_vec ← GetValues_int64 shp;
  raise_if (negb (length dense_shape_vec =? length values_shp)%nat) TypeError;;
  row_shape_loop values_shp 0 dense_shape_vec;;
  Returned {| row_element := values.1;
              row_shape := dense_shape_vec;
              row_indices := AbstractTensor indices.1 indices.2;
              row_values := AbstractTensor values.1 values.2;
              row_dense_shape := AbstractTuple dense_shape |}.

Definition row_args (indices_dtype : TypeId) (indices_shp : list Z)
    (values_dtype : TypeId) (values_shp : list Z) (dense_shape : list AbstractScalar)
    : list AbstractBasePtr :=
  [Some (AbstractTensor indices_dtype indices_shp);
   Some (AbstractTensor values_dtype values_shp);
   Some (AbstractTuple dense_shape)].

(** A tuple of constant dimensions: every element of a type of the class
    [Int] and holding an [int64_t]. *)
Definition constant_dims (shape : list AbstractScalar) (dims : list Z) : Prop :=
  Forall (fun s => isa_Int (scalar_type s) = true) shape /\
  scalar_value <$> shape = Int64Imm <$> dims.

Lemma check_all_Forall {A} (ok : A -> bool) e (l : list A) :
  (Forall (fun a => ok a = true) l -> check_all ok e l = Returned tt) /\
  (~ Forall (fun a => ok a = true) l -> check_all ok e l = Raised e).
Proof.
  induction l as [|a l [IHok IHno]]; simpl.
  - split; [reflexivity|]. intros H. exfalso. apply H. constructor.
  - destruct (ok a) eqn:Ha.
    + split.
      * intros H. apply IHok. now inversion H.
      * intros H. apply IHno. intros Hl. apply H. now constructor.
    + split; [|reflexivity]. intros H. inversion H. congruence.
Qed.

Lemma GetValues_int64_Returned vs dims :
  GetValues_int64 vs = Returned dims <-> vs = Int64Imm <$> dims.
Proof.
  revert dims. induction vs as [|v vs IH]; intros dims; simpl.
  - split.
    + intros [= <-]. reflexivity.
    + destruct dims; [reflexivity | discriminate].
  - split.
    + destruct v; simpl; try discriminate.
      destruct (GetValues_int64 vs) as [zs| |] eqn:E; simpl; try discriminate.
      intros [= <-]. simpl. f_equal. now apply IH.
    + destruct dims as [|d dims]; [discriminate|]. simpl. intros [= -> Hvs].
      simpl. apply IH in Hvs. rewrite Hvs. reflexivity.
Qed.

Lemma GetValues_int64_not_Returned vs :
  (forall dims, vs <> Int64Imm <$> dims) -> GetValues_int64 vs = Raised RuntimeError.
Proof.
  induction vs as [|v vs IH]; intros Hno; simpl.
  - exfalso. apply (Hno []). reflexivity.
  - destruct v; simpl; try reflexivity.
    rewrite IH; [reflexivity|]. intros dims Heq. apply (Hno (z :: dims)). simpl. now f_equal.
Qed.

Lemma BuildValueTuple_constant shape dims :
  scalar_value <$> shape = Int64Imm <$> dims ->
  BuildValueTuple shape = Returned (Int64Imm <$> dims).
Proof.
  intros Heq. unfold BuildValueTuple. rewrite <- Heq.
  replace (forallb _ shape) with true; [reflexivity|].
  symmetry. apply forallb_forall. intros s Hs.
  assert (Hin : scalar_value s ∈ Int64Imm <$> dims).
  { rewrite <- Heq. apply list_elem_of_fmap. exists s. split; [reflexivity|].
    now apply list_elem_of_In. }
  apply list_elem_of_fmap in Hin. destruct Hin as (z & -> & _). reflexivity.
Qed.

Lemma row_shape_loop_spec values_shp dims : forall i,
  (i + length dims <= length values_shp)%nat ->
  (Forall (fun d => 0 <= d) dims ->
   (forall (k : nat) d, dims !! k = Some d -> (0 < i + k)%nat -> values_shp !! (i + k)%nat = Some d) ->
   row_shape_loop values_shp i dims = Returned tt) /\
  (~ (Forall (fun d => 0 <= d) dims /\
      forall (k : nat) d, dims !! k = Some d -> (0 < i + k)%nat ->
        values_shp !! (i + k)%nat = Some d) ->
   row_shape_loop values_shp i dims = Raised TypeError).
Proof.
  induction dims as [|d dims IH]; intros i Hlen; simpl in *.
  - split; [reflexivity|]. intros H. exfalso. apply H. split; [constructor|].
    intros k d Hk. discriminate.
  - destruct (IH (S i) ltac:(lia)) as [IHok IHno].
    destruct (lookup_lt_is_Some_2 values_shp i ltac:(lia)) as [v Hv].
    unfold at_index. rewrite Hv.
    destruct (Z.ltb_spec d 0) as [Hneg|Hpos]; simpl.
    { split; [|reflexivity]. intros Hall. inversion Hall. lia. }
    destruct (Nat.eqb_spec i 0) as [->|Hi]; simpl.
    + split.
      * intros Hall Hdims. apply IHok; [now inversion Hall|].
        intros k d' Hk _. apply (Hdims (S k) d' Hk). lia.
      * intros Hno. apply IHno. intros [Hall Hdims]. apply Hno. split; [now constructor|].
        intros [|k] d' Hk Hpos'; [lia|]. apply (Hdims k d' Hk). lia.
    + destruct (Z.eqb_spec d v) as [->|Hne]; simpl.
      * split.
        -- intros Hall Hdims. apply IHok; [now inversion Hall|].
           intros k d' Hk _. replace (S i + k)%nat with (i + S k)%nat by lia.
           apply (Hdims (S k) d' Hk). lia.
        -- intros Hno. apply IHno. intros [Hall Hdims]. apply Hno. split; [now constructor|].
           intros [|k] d' Hk Hpos'.
           ++ injection Hk as <-. now rewrite Nat.add_0_r.
           ++ replace (i + S k)%nat with (S i + k)%nat by lia. apply (Hdims k d' Hk). lia.
      * split; [|reflexivity]. intros Hall Hdims.
        pose proof (Hdims 0%nat d eq_refl ltac:(lia)) as H0.
        rewrite Nat.add_0_r, Hv in H0. congruence.
Qed.

(** *** Reasoning about results *)

Lemma bind_Returned_inv {A B} (m : result A) (f : A -> result B) (b : B) :
  m ≫= f = Returned b -> exists a, m = Returned a /\ f a = Returned b.
Proof. destruct m as [a| |]; simpl; try discriminate. intros Hf. now exists a. Qed.

Lemma bind_defined {A B} (m : result A) (f : A -> result B) :
  m <> Undefined -> (forall a, m = Returned a -> f a <> Undefined) -> m ≫= f <> Undefined.
Proof. destruct m as [a| |]; simpl; [auto | discriminate | contradiction]. Qed.

Lemma raise_if_Returned c e u : raise_if c e = Returned u -> c = false.
Proof. destruct c; [discriminate | reflexivity]. Qed.

Lemma raise_if_defined c e : raise_if c e <> Undefined.
Proof. destruct c; discriminate. Qed.

Lemma result_cases {A} (r : result A) :
  r <> Undefined -> (forall a, r <> Returned a) -> raises r.
Proof.
  destruct r as [a|e|]; intros Hd Hr.
  - now destruct (Hr a).
  - now exists e.
  - contradiction.
Qed.

Tactic Notation "ret_inv" hyp(H) ident(x) ident(Hx) :=
  apply bind_Returned_inv in H; destruct H as (x & Hx & H).

Lemma check_all_Returned {A} (ok : A -> bool) e (l : list A) u :
  check_all ok e l = Returned u -> Forall (fun a => ok a = true) l.
Proof.
  induction l as [|a l IH]; simpl; [constructor|].
  destruct (ok a) eqn:Ha; [|discriminate]. intros H. constructor; auto.
Qed.

Lemma check_all_defined {A} (ok : A -> bool) e (l : list A) : check_all ok e l <> Undefined.
Proof. induction l as [|a l IH]; simpl; [discriminate|]. destruct (ok a); [exact IH | discriminate]. Qed.

Lemma BuildValueTuple_Returned shape shp :
  BuildValueTuple shape = Returned shp -> shp = scalar_value <$> shape.
Proof. unfold BuildValueTuple. case_match; [|discriminate]. now intros [= <-]. Qed.

Lemma CheckArgsSize_defined args n : CheckArgsSize args n <> Undefined.
Proof. apply raise_if_defined. Qed.

Lemma CheckSparseShape_defined a b : CheckSparseShape a b <> Undefined.
Proof. apply raise_if_defined. Qed.

Lemma CheckSparseIndicesDtype_defined t : CheckSparseIndicesDtype t <> Undefined.
Proof. apply raise_if_defined. Qed.

Lemma at_index_defined {A} (l : list A) i : (i < length l)%nat -> at_index l i <> Undefined.
Proof.
  intros Hi. unfold at_index. destruct (lookup_lt_is_Some_2 l i Hi) as [a ->]. discriminate.
Qed.

#[local] Hint Resolve raise_if_defined check_all_defined BuildValueTuple_defined
  GetValues_int64_defined CheckArgsSize_defined CheckSparseShape_defined
  CheckSparseIndicesDtype_defined : sparse.

(** Every dimension after the first of [dims] is that of [values_shp]. *)
Definition same_tail (dims values_shp : list Z) : Prop :=
  forall (k : nat) d, dims !! k = Some d -> (0 < k)%nat -> values_shp !! k = Some d.

Lemma row_shape_loop_Returned values_shp dims u : forall i,
  row_shape_loop values_shp i dims = Returned u ->
  Forall (fun d => 0 <= d) dims /\
  forall (k : nat) d, dims !! k = Some d -> (0 < i + k)%nat -> values_shp !! (i + k)%nat = Some d.
Proof.
  induction dims as [|d dims IH]; intros i Hrun; simpl in Hrun.
  - split; [constructor|]. intros k d Hk. discriminate.
  - ret_inv Hrun u1 H1. apply raise_if_Returned in H1. apply Z.ltb_ge in H1.
    ret_inv Hrun u2 H2. destruct (IH _ Hrun) as [Hall Hdims].
    split; [now constructor|].
    intros [|k] d' Hk Hpos.
    + injection Hk as <-. rewrite Nat.add_0_r in *.
      destruct (Nat.eqb_spec i 0) as [->|Hi]; [lia|]. simpl in H2.
      ret_inv H2 v Hv. apply raise_if_Returned in H2.
      unfold at_index in Hv. destruct (values_shp !! i); [|discriminate].
      injection Hv as ->. f_equal. apply negb_false_iff in H2. lia.
    + replace (i + S k)%nat with (S i + k)%nat by lia. apply (Hdims k d' Hk). lia.
Qed.

Lemma row_shape_loop_defined values_shp dims : forall i,
  (i + length dims <= length values_shp)%nat -> row_shape_loop values_shp i dims <> Undefined.
Proof.
  induction dims as [|d dims IH]; intros i Hlen; simpl in *; [discriminate|].
  apply bind_defined; [auto with sparse|]. intros _ _.
  apply bind_defined.
  - destruct (negb (i =? 0)%nat); [|discriminate].
    apply bind_defined; [apply at_index_defined; lia | auto with sparse].
  - intros _ _. apply IH. lia.
Qed.

(** The arguments that [InferImplMakeRowTensor] accepts, with [dims] the
    dense shape they declare. *)
Definition row_tensor_ok (idt : TypeId) (ishp vshp : list Z) (ds : list AbstractScalar)
    (dims : list Z) : Prop :=
  isa_Int idt = true /\
  (exists n, ishp = [n] /\ vshp !! 0%nat = Some n) /\
  constant_dims ds dims /\
  length dims = length vshp /\
  Forall (fun d => 0 <= d) dims /\
  same_tail dims vshp.

Definition row_tensor (idt : TypeId) (ishp : list Z) (vdt : TypeId) (vshp : list Z)
    (ds : list AbstractScalar) (dims : list Z) : AbstractRowTensor :=
  {| row_element := vdt; row_shape := dims;
     row_indices := AbstractTensor idt ishp;
     row_values := AbstractTensor vdt vshp;
     row_dense_shape := AbstractTuple ds |}.

Lemma MakeRowTensor_accepts idt ishp vdt vshp ds dims :
  row_tensor_ok idt ishp vshp ds dims ->
  InferImplMakeRowTensor (row_args idt ishp vdt vshp ds) =
    Returned (row_tensor idt ishp vdt vshp ds dims).
Proof.
  intros (Hidt & (n & -> & Hv0) & [Htypes Hvals] & Hlen & Hpos & Htail).
  unfold InferImplMakeRowTensor, row_args. res_cbn. rewrite Hidt. res_cbn.
  destruct vshp as [|v0 vshp]; [discriminate|]. injection Hv0 as ->. res_cbn.
  rewrite Z.eqb_refl. res_cbn.
  rewrite (proj1 (check_all_Forall _ TypeError ds) Htypes). res_cbn.
  rewrite (BuildValueTuple_constant ds dims Hvals). res_cbn.
  rewrite (proj2 (GetValues_int64_Returned _ dims) eq_refl). res_cbn.
  rewrite Hlen, Nat.eqb_refl. res_cbn.
  rewrite (proj1 (row_shape_loop_spec (n :: vshp) dims 0 ltac:(simpl in *; lia)) Hpos).
  - reflexivity.
  - intros k d Hk Hk0. apply (Htail k d Hk). lia.
Qed.

Lemma MakeRowTensor_Returned idt ishp vdt vshp ds r :
  InferImplMakeRowTensor (row_args idt ishp vdt vshp ds) = Returned r ->
  exists dims, row_tensor_ok idt ishp vshp ds dims /\ r = row_tensor idt ishp vdt vshp ds dims.
Proof.
  unfold InferImplMakeRowTensor, row_args. res_cbn. intros Hrun.
  ret_inv Hrun u1 H1. apply raise_if_Returned, negb_false_iff in H1.
  ret_inv Hrun u2 H2. apply raise_if_Returned, negb_false_iff, Nat.eqb_eq in H2.
  ret_inv Hrun i0 Hi0. ret_inv Hrun v0 Hv0.
  ret_inv Hrun u3 H3. apply raise_if_Returned, negb_false_iff, Z.eqb_eq in H3. subst v0.
  ret_inv Hrun u4 H4. apply check_all_Returned in H4.
  ret_inv Hrun shp Hshp. apply BuildValueTuple_Returned in Hshp. subst shp.
  ret_inv Hrun dims Hdims. apply GetValues_int64_Returned in Hdims.
  ret_inv Hrun u5 H5. apply raise_if_Returned, negb_false_iff, Nat.eqb_eq in H5.
  ret_inv Hrun u6 H6. apply row_shape_loop_Returned in H6. destruct H6 as [Hpos Htail].
  injection Hrun as <-. exists dims. split; [|reflexivity].
  destruct ishp as [|n [|m rest]]; try discriminate. injection Hi0 as ->.
  unfold at_index in Hv0. destruct (vshp !! 0%nat) as [v|] eqn:Hv; [|discriminate].
  injection Hv0 as ->.
  split; [exact H1|]. split; [exists i0; auto|]. split; [split; assumption|].
  split; [exact H5|]. split; [exact Hpos|].
  intros k d Hk Hk0. apply (Htail k d Hk). lia.
Qed.

Lemma MakeRowTensor_defined idt ishp vdt vshp ds :
  vshp <> [] -> InferImplMakeRowTensor (row_args idt ishp vdt vshp ds) <> Undefined.
Proof.
  intros Hv. unfold InferImplMakeRowTensor, row_args. res_cbn.
  apply bind_defined; [auto with sparse|]. intros _ _.
  apply bind_defined; [auto with sparse|]. intros ? H2.
  apply raise_if_Returned, negb_false_iff, Nat.eqb_eq in H2.
  apply bind_defined; [apply at_index_defined; lia|]. intros i0 _.
  apply bind_defined; [apply at_index_defined; destruct vshp; simpl; [congruence | lia]|].
  intros v0 _.
  apply bind_defined; [auto with sparse|]. intros _ _.
  apply bind_defined; [auto with sparse|]. intros _ _.
  apply bind_defined; [auto with sparse|]. intros shp _.
  apply bind_defined; [auto with sparse|]. intros dims _.
  apply bind_defined; [auto with sparse|]. intros ? H5.
  apply raise_if_Returned, negb_false_iff, Nat.eqb_eq in H5.
  apply bind_defined; [apply row_shape_loop_defined; lia|]. intros _ _. discriminate.
Qed.

(** X15. [InferImplMakeRowTensor], given a tensor of indices, a tensor of
    values of rank at least one and a tuple: it returns a row tensor of the
    element type of the values and of the shape [dims] exactly when the
    indices are of an integer type and of rank one, their length is the
    first dimension of the values, and the tuple holds the constants
    [dims], of integer types, as many as the values have dimensions, none
    negative, and equal to the dimensions of the values from the second on.
    The first of [dims] is free.  In every other case it throws. *)
Theorem MakeRowTensor_spec idt ishp vdt vshp ds :
  vshp <> [] ->
  (forall dims, row_tensor_ok idt ishp vshp ds dims ->
     InferImplMakeRowTensor (row_args idt ishp vdt vshp ds) =
       Returned (row_tensor idt ishp vdt vshp ds dims)) /\
  (forall r, InferImplMakeRowTensor (row_args idt ishp vdt vshp ds) = Returned r ->
     exists dims, row_tensor_ok idt ishp vshp ds dims /\
                  r = row_tensor idt ishp vdt vshp ds dims) /\
  ((forall dims, ~ row_tensor_ok idt ishp vshp ds dims) ->
     raises (InferImplMakeRowTensor (row_args idt ishp vdt vshp ds))).
Proof.
  intros Hv. split; [|split].
  - intros dims. apply MakeRowTensor_accepts.
  - intros r. apply MakeRowTensor_Returned.
  - intros Hno. apply result_cases; [now apply MakeRowTensor_defined|].
    intros r Hr. destruct (MakeRowTensor_Returned _ _ _ _ _ _ Hr) as (dims & Hok & _).
    exact (Hno dims Hok).
Qed.

(** *** What the two sparse constructors accept *)

Definition sparse_index_type (t : TypeId) : Prop :=
  t = kNumberTypeInt16 \/ t = kNumberTypeInt32 \/ t = kNumberTypeInt64.

Lemma CheckSparseIndicesDtype_Returned t u :
  CheckSparseIndicesDtype t = Returned u <-> sparse_index_type t.
Proof.
  unfold CheckSparseIndicesDtype, sparse_index_type. destruct u.
  destruct t; simpl; split; intros H; try discriminate; try reflexivity; auto;
    destruct H as [H|[H|H]]; discriminate.
Qed.

Lemma CheckSparseShape_Returned n m u : CheckSparseShape n m = Returned u <-> n = m.
Proof.
  unfold CheckSparseShape. destruct u. destruct (Nat.eqb_spec n m); simpl; split;
    intros; try discriminate; try reflexivity; auto; contradiction.
Qed.

(** The arguments that [InferImplMakeCOOTensor] accepts. *)
Definition coo_tensor_ok (idt : TypeId) (ishp vshp : list Z) (ds : list AbstractScalar) : Prop :=
  sparse_index_type idt /\
  (exists n, ishp = [n; 2] /\ vshp = [n]) /\
  exists d0 d1, constant_dims ds [d0; d1] /\ 0 < d0 /\ 0 < d1.

Definition coo_tensor (idt : TypeId) (ishp : list Z) (vdt : TypeId) (vshp : list Z)
    (ds : list AbstractScalar) : list AbstractBase :=
  [AbstractTensor idt ishp; AbstractTensor vdt vshp; AbstractTuple ds].

Lemma MakeCOOTensor_accepts idt ishp vdt vshp ds :
  coo_tensor_ok idt ishp vshp ds ->
  InferImplMakeCOOTensor (coo_args idt ishp vdt vshp ds) =
    Returned (coo_tensor idt ishp vdt vshp ds).
Proof.
  intros (Hidt & (n & -> & ->) & d0 & d1 & [Htypes Hvals] & Hd0 & Hd1).
  unfold InferImplMakeCOOTensor, coo_args. res_cbn.
  rewrite (proj2 (CheckSparseIndicesDtype_Returned idt tt) Hidt). res_cbn.
  rewrite !Z.eqb_refl. res_cbn.
  rewrite (proj1 (check_all_Forall _ TypeError ds) Htypes). res_cbn.
  rewrite (BuildValueTuple_constant ds [d0; d1] Hvals). simpl.
  destruct (Z.ltb_spec 0 d0); [|lia]. destruct (Z.ltb_spec 0 d1); [|lia]. reflexivity.
Qed.

Lemma MakeCOOTensor_Returned idt ishp vdt vshp ds r :
  InferImplMakeCOOTensor (coo_args idt ishp vdt vshp ds) = Returned r ->
  coo_tensor_ok idt ishp vshp ds /\ r = coo_tensor idt ishp vdt vshp ds.
Proof.
  unfold InferImplMakeCOOTensor, coo_args. res_cbn. intros Hrun.
  ret_inv Hrun u1 H1. apply CheckSparseIndicesDtype_Returned in H1.
  ret_inv Hrun u2 H2. apply raise_if_Returned, negb_false_iff, Nat.eqb_eq in H2.
  ret_inv Hrun u3 H3. apply raise_if_Returned, negb_false_iff, Nat.eqb_eq in H3.
  ret_inv Hrun i0 Hi0. ret_inv Hrun v0 Hv0.
  ret_inv Hrun u4 H4. apply raise_if_Returned, negb_false_iff, Z.eqb_eq in H4. subst v0.
  ret_inv Hrun i1 Hi1.
  ret_inv Hrun u5 H5. apply raise_if_Returned, negb_false_iff, Z.eqb_eq in H5. subst i1.
  ret_inv Hrun u6 H6. apply check_all_Returned in H6.
  ret_inv Hrun shp Hshp. apply BuildValueTuple_Returned in Hshp. subst shp.
  ret_inv Hrun u7 H7.
  ret_inv Hrun dims Hdims. apply GetValues_int64_Returned in Hdims.
  ret_inv Hrun u8 H8. apply raise_if_Returned, negb_false_iff, Nat.eqb_eq in H8.
  ret_inv Hrun u9 H9. apply check_all_Returned in H9.
  injection Hrun as <-. split; [|reflexivity].
  destruct ishp as [|a [|b [|c rest]]]; try discriminate.
  destruct vshp as [|v [|w rest]]; try discriminate.
  injection Hi0 as ->. injection Hv0 as ->. injection Hi1 as ->.
  destruct dims as [|d0 [|d1 [|d2 rest]]]; try discriminate.
  inversion H9 as [|? ? Hd0 H9']. inversion H9' as [|? ? Hd1 _]. subst.
  split; [exact H1|]. split; [exists i0; auto|].
  exists d0, d1. split; [split; assumption|]. lia.
Qed.

Lemma MakeCOOTensor_defined idt ishp vdt vshp ds :
  ds <> [] -> InferImplMakeCOOTensor (coo_args idt ishp vdt vshp ds) <> Undefined.
Proof.
  intros Hds. unfold InferImplMakeCOOTensor, coo_args. res_cbn.
  unfold kSizeOne, kSizeTwo, kIndexZero, kIndexOne.
  apply bind_defined; [auto with sparse|]. intros _ _.
  apply bind_defined; [auto with sparse|]. intros ? H2.
  apply raise_if_Returned, negb_false_iff, Nat.eqb_eq in H2.
  apply bind_defined; [auto with sparse|]. intros ? H3.
  apply raise_if_Returned, negb_false_iff, Nat.eqb_eq in H3.
  apply bind_defined; [apply at_index_defined; lia|]. intros i0 _.
  apply bind_defined; [apply at_index_defined; lia|]. intros v0 _.
  apply bind_defined; [auto with sparse|]. intros _ _.
  apply bind_defined; [apply at_index_defined; lia|]. intros i1 _.
  apply bind_defined; [auto with sparse|]. intros _ _.
  apply bind_defined; [auto with sparse|]. intros _ _.
  apply bind_defined; [auto with sparse|]. intros shp Hshp.
  apply BuildValueTuple_Returned in Hshp. subst shp.
  apply bind_defined; [destruct ds; [contradiction | discriminate]|]. intros _ _.
  apply bind_defined; [auto with sparse|]. intros dims _.
  apply bind_defined; [auto with sparse|]. intros _ _.
  apply bind_defined; [auto with sparse|]. intros _ _. discriminate.
Qed.

(** X16. [InferImplMakeCOOTensor], given two tensors and a tuple: it returns
    the three of them as a COO tensor exactly when the indices are of type
    Int16, Int32 or Int64 and of shape [n; 2], the values of shape [n], and
    the tuple holds two positive constants of integer types.  In every
    other case, the tuple not being empty, it throws. *)
Theorem MakeCOOTensor_spec idt ishp vdt vshp ds :
  (coo_tensor_ok idt ishp vshp ds ->
     InferImplMakeCOOTensor (coo_args idt ishp vdt vshp ds) =
       Returned (coo_tensor idt ishp vdt vshp ds)) /\
  (forall r, InferImplMakeCOOTensor (coo_args idt ishp vdt vshp ds) = Returned r ->
     coo_tensor_ok idt ishp vshp ds /\ r = coo_tensor idt ishp vdt vshp ds) /\
  (~ coo_tensor_ok idt ishp vshp ds -> ds <> [] ->
     raises (InferImplMakeCOOTensor (coo_args idt ishp vdt vshp ds))).
Proof.
  split; [apply MakeCOOTensor_accepts|]. split; [apply MakeCOOTensor_Returned|].
  intros Hno Hds. apply result_cases; [now apply MakeCOOTensor_defined|].
  intros r Hr. apply Hno. exact (proj1 (MakeCOOTensor_Returned _ _ _ _ _ _ Hr)).
Qed.

(** The product of the dimensions as [InferImplMakeCSRTensor] computes it,
    on [size_t]. *)
Definition shape_size_of (dims : list Z) : Z := foldl SizeT.mul 1 dims.

Lemma csr_shape_loop_accepts values_shp dims : forall i acc,
  Forall (fun p : Z * TypeId => 0 < p.1 /\ isa_Int p.2 = true) dims ->
  (forall (k : nat) d t, dims !! k = Some (d, t) -> (1 < i + k)%nat ->
     values_shp !! (i + k - 1)%nat = Some d) ->
  csr_shape_loop values_shp i dims acc = Returned (foldl SizeT.mul acc dims.*1).
Proof.
  induction dims as [|[d t] dims IH]; intros i acc Hall Htail; simpl; [reflexivity|].
  inversion Hall as [|? ? [Hd Ht] Hall']; subst. simpl in Hd, Ht.
  destruct (Z.leb_spec d 0); [lia|]. simpl.
  assert (Hcheck : (if (1 <? i)%nat
                    then at_index values_shp (i - 1) ≫= λ v : Z, raise_if (negb (d =? v)) ValueError
                    else Returned tt) = Returned tt).
  { destruct (Nat.ltb_spec 1 i) as [Hi|Hi]; [|reflexivity].
    pose proof (Htail 0%nat d t eq_refl ltac:(lia)) as Hv.
    rewrite Nat.add_0_r in Hv. unfold at_index. rewrite Hv. simpl.
    now rewrite Z.eqb_refl. }
  rewrite Hcheck. simpl. rewrite Ht. simpl.
  apply IH; [exact Hall'|].
  intros k d' t' Hk Hik. replace (S i + k - 1)%nat with (i + S k - 1)%nat by lia.
  apply (Htail (S k) d' t' Hk). lia.
Qed.

Lemma csr_shape_loop_Returned values_shp dims : forall i acc z,
  csr_shape_loop values_shp i dims acc = Returned z ->
  Forall (fun p : Z * TypeId => 0 < p.1 /\ isa_Int p.2 = true) dims /\
  (forall (k : nat) d t, dims !! k = Some (d, t) -> (1 < i + k)%nat ->
     values_shp !! (i + k - 1)%nat = Some d) /\
  z = foldl SizeT.mul acc dims.*1.
Proof.
  induction dims as [|[d t] dims IH]; intros i acc z Hrun; simpl in Hrun.
  - injection Hrun as <-. split; [constructor|]. split; [|reflexivity].
    intros k d t Hk. discriminate.
  - ret_inv Hrun u1 H1. apply raise_if_Returned, Z.leb_gt in H1.
    ret_inv Hrun u2 H2.
    ret_inv Hrun u3 H3. apply raise_if_Returned, negb_false_iff in H3.
    destruct (IH _ _ _ Hrun) as (Hall & Htail & ->).
    split; [constructor; [split; assumption | exact Hall]|]. split; [|reflexivity].
    intros [|k] d' t' Hk Hik.
    + injection Hk as <- <-. rewrite Nat.add_0_r in *.
      destruct (Nat.ltb_spec 1 i) as [Hi|Hi]; [|lia].
      ret_inv H2 v Hv. apply raise_if_Returned, negb_false_iff, Z.eqb_eq in H2. subst v.
      unfold at_index in Hv. destruct (values_shp !! (i - 1)%nat); [|discriminate].
      now injection Hv as ->.
    + replace (i + S k - 1)%nat with (S i + k - 1)%nat by lia.
      apply (Htail k d' t' Hk). lia.
Qed.

Lemma csr_shape_loop_defined values_shp dims : forall i acc,
  (i + length dims <= S (length values_shp))%nat ->
  csr_shape_loop values_shp i dims acc <> Undefined.
Proof.
  induction dims as [|[d t] dims IH]; intros i acc Hlen; simpl in *; [discriminate|].
  apply bind_defined; [auto with sparse|]. intros _ _.
  apply bind_defined.
  - destruct (Nat.ltb_spec 1 i); [|discriminate].
    apply bind_defined; [apply at_index_defined; lia | auto with sparse].
  - intros _ _. apply bind_defined; [auto with sparse|]. intros _ _. apply IH. lia.
Qed.

(** The arguments that [InferImplMakeCSRTensor] accepts. *)
Definition csr_tensor_ok (pdt : TypeId) (pshp : list Z) (idt : TypeId) (ishp vshp : list Z)
    (ds : list AbstractScalar) : Prop :=
  sparse_index_type pdt /\ sparse_index_type idt /\
  exists n s0 dims,
    ishp = [n] /\ vshp !! 0%nat = Some n /\
    constant_dims ds (s0 :: dims) /\
    pshp = [s0 + 1] /\
    length dims = length vshp /\
    Forall (fun d => 0 < d) (s0 :: dims) /\
    (forall (k : nat) d, dims !! k = Some d -> (0 < k)%nat -> vshp !! k = Some d) /\
    n <= to_int64 (shape_size_of (s0 :: dims)).

Definition csr_tensor (pdt : TypeId) (pshp : list Z) (idt : TypeId) (ishp : list Z)
    (vdt : TypeId) (vshp : list Z) (ds : list AbstractScalar) : list AbstractBase :=
  [AbstractTensor pdt pshp; AbstractTensor idt ishp; AbstractTensor vdt vshp; AbstractTuple ds].

Lemma constant_dims_zip ds dims :
  constant_dims ds dims ->
  Forall (fun d => 0 < d) dims ->
  Forall (fun p : Z * TypeId => 0 < p.1 /\ isa_Int p.2 = true) (zip dims (scalar_type <$> ds)) /\
  (zip dims (scalar_type <$> ds)).*1 = dims.
Proof.
  intros [Htypes Hvals] Hpos.
  assert (Hlen : length ds = length dims).
  { apply (f_equal length) in Hvals. now rewrite !length_fmap in Hvals. }
  split; [|apply fst_zip; rewrite length_fmap; lia].
  apply Forall_forall. intros [d t] Hin. apply list_elem_of_lookup in Hin.
  destruct Hin as [k Hk]. apply lookup_zip_with_Some in Hk.
  destruct Hk as (d' & t' & [= <- <-] & Hd & Ht). simpl. split.
  - rewrite Forall_forall in Hpos. apply Hpos. eapply list_elem_of_lookup_2. exact Hd.
  - rewrite list_lookup_fmap in Ht. destruct (ds !! k) as [s|] eqn:Hs; [|discriminate].
    injection Ht as <-. rewrite Forall_forall in Htypes. apply Htypes.
    eapply list_elem_of_lookup_2. exact Hs.
Qed.

Lemma MakeCSRTensor_accepts pdt pshp idt ishp vdt vshp ds :
  csr_tensor_ok pdt pshp idt ishp vshp ds ->
  InferImplMakeCSRTensor (csr_args pdt pshp idt ishp vdt vshp ds) =
    Returned (csr_tensor pdt pshp idt ishp vdt vshp ds).
Proof.
  intros (Hpdt & Hidt & n & s0 & dims & -> & Hv0 & Hconst & -> & Hlen & Hpos & Htail & Hsize).
  unfold InferImplMakeCSRTensor, csr_args. res_cbn.
  rewrite (proj2 (CheckSparseIndicesDtype_Returned pdt tt) Hpdt). res_cbn.
  rewrite (proj2 (CheckSparseIndicesDtype_Returned idt tt) Hidt). res_cbn.
  destruct vshp as [|v0 vshp]; [discriminate|]. injection Hv0 as ->. res_cbn.
  rewrite Z.eqb_refl. res_cbn.
  rewrite (BuildValueTuple_constant ds (s0 :: dims) (proj2 Hconst)). res_cbn.
  rewrite (proj2 (GetValues_int64_Returned _ (s0 :: dims)) eq_refl). res_cbn.
  simpl length in *. rewrite Hlen.
  replace (S (length vshp) + 1 =? S (S (length vshp)))%nat with true
    by (symmetry; apply Nat.eqb_eq; lia).
  res_cbn. rewrite Z.eqb_refl. res_cbn.
  destruct (constant_dims_zip ds (s0 :: dims) Hconst Hpos) as [Hall Hfst].
  rewrite (csr_shape_loop_accepts (n :: vshp) _ 0 1 Hall).
  - rewrite Hfst. res_cbn. fold (shape_size_of (s0 :: dims)).
    destruct (Z.ltb_spec (to_int64 (shape_size_of (s0 :: dims))) n); [lia|]. reflexivity.
  - intros k d t Hk Hk1. apply lookup_zip_with_Some in Hk.
    destruct Hk as (d' & t' & [= <- <-] & Hd & _).
    destruct k as [|k]; [lia|]. simpl in Hd. simpl.
    rewrite Nat.sub_0_r. destruct k as [|k]; [lia|]. apply (Htail (S k) _ Hd). lia.
Qed.

Lemma MakeCSRTensor_Returned pdt pshp idt ishp vdt vshp ds r :
  InferImplMakeCSRTensor (csr_args pdt pshp idt ishp vdt vshp ds) = Returned r ->
  csr_tensor_ok pdt pshp idt ishp vshp ds /\ r = csr_tensor pdt pshp idt ishp vdt vshp ds.
Proof.
  unfold InferImplMakeCSRTensor, csr_args. res_cbn. intros Hrun.
  ret_inv Hrun u1 H1. apply CheckSparseIndicesDtype_Returned in H1.
  ret_inv Hrun u2 H2. apply CheckSparseIndicesDtype_Returned in H2.
  ret_inv Hrun u3 H3. apply raise_if_Returned, negb_false_iff, Nat.eqb_eq in H3.
  ret_inv Hrun u4 H4. apply raise_if_Returned, negb_false_iff, Nat.eqb_eq in H4.
  ret_inv Hrun i0 Hi0. ret_inv Hrun v0 Hv0.
  ret_inv Hrun u5 H5. apply raise_if_Returned, negb_false_iff, Z.eqb_eq in H5. subst v0.
  ret_inv Hrun shp Hshp. apply BuildValueTuple_Returned in Hshp. subst shp.
  ret_inv Hrun shape_vec Hvec. apply GetValues_int64_Returned in Hvec.
  ret_inv Hrun u6 H6. apply raise_if_Returned, negb_false_iff, Nat.eqb_eq in H6.
  ret_inv Hrun s0 Hs0. ret_inv Hrun p0 Hp0.
  ret_inv Hrun u7 H7. apply raise_if_Returned, negb_false_iff, Z.eqb_eq in H7. subst p0.
  ret_inv Hrun shape_size Hloop. apply csr_shape_loop_Returned in Hloop.
  destruct Hloop as (Hall & Htail & ->).
  ret_inv Hrun u8 H8. apply raise_if_Returned, Z.ltb_ge in H8.
  injection Hrun as <-. split; [|reflexivity].
  destruct pshp as [|p [|p' rest]]; try discriminate. injection Hp0 as ->.
  destruct ishp as [|n [|n' rest]]; try discriminate. injection Hi0 as ->.
  destruct shape_vec as [|s dims]; [discriminate|]. injection Hs0 as ->.
  unfold at_index in Hv0. destruct (vshp !! kIndexZero) as [v|] eqn:Hv; [|discriminate].
  injection Hv0 as ->.
  assert (Hlen : length ds = length (s0 :: dims)).
  { apply (f_equal length) in Hvec. now rewrite !length_fmap in Hvec. }
  assert (Hfst : (zip (s0 :: dims) (scalar_type <$> ds)).*1 = s0 :: dims).
  { apply fst_zip. rewrite length_fmap. lia. }
  rewrite Hfst in H8.
  split; [exact H1|]. split; [exact H2|]. exists i0, s0, dims.
  split; [reflexivity|]. split; [exact Hv|]. split; [|split; [reflexivity|split; [|split; [|split]]]].
  - split; [|exact Hvec]. apply Forall_forall. intros sc Hsc.
    apply list_elem_of_lookup in Hsc. destruct Hsc as [k Hk].
    destruct (lookup_lt_is_Some_2 (s0 :: dims) k) as [d Hd].
    { apply lookup_lt_Some in Hk. lia. }
    rewrite Forall_forall in Hall.
    apply (Hall (d, scalar_type sc)). apply list_elem_of_lookup. exists k.
    apply lookup_zip_with_Some. exists d, (scalar_type sc).
    split; [reflexivity|]. split; [exact Hd|]. now rewrite list_lookup_fmap, Hk.
  - simpl in H6. lia.
  - apply Forall_forall. intros d Hd. apply list_elem_of_lookup in Hd. destruct Hd as [k Hk].
    destruct (lookup_lt_is_Some_2 ds k) as [sc Hsc].
    { apply lookup_lt_Some in Hk. lia. }
    rewrite Forall_forall in Hall.
    apply (Hall (d, scalar_type sc)). apply list_elem_of_lookup. exists k.
    apply lookup_zip_with_Some. exists d, (scalar_type sc).
    split; [reflexivity|]. split; [exact Hk|]. now rewrite list_lookup_fmap, Hsc.
  - intros k d Hk Hk0.
    destruct (lookup_lt_is_Some_2 ds (S k)) as [sc Hsc].
    { apply lookup_lt_Some in Hk. simpl in Hlen. lia. }
    pose proof (Htail (S k) d (scalar_type sc)) as Ht. simpl in Ht.
    rewrite Nat.sub_0_r in Ht. apply Ht; [|lia].
    apply (lookup_zip_with_Some pair (s0 :: dims) (scalar_type <$> ds) (S k)).
    exists d, (scalar_type sc). split; [reflexivity|]. split; [exact Hk|].
    now rewrite list_lookup_fmap, Hsc.
  - exact H8.
Qed.

Lemma MakeCSRTensor_defined pdt pshp idt ishp vdt vshp ds :
  vshp <> [] -> InferImplMakeCSRTensor (csr_args pdt pshp idt ishp vdt vshp ds) <> Undefined.
Proof.
  intros Hv. unfold InferImplMakeCSRTensor, csr_args. res_cbn.
  unfold kSizeOne, kIndexZero.
  apply bind_defined; [auto with sparse|]. intros _ _.
  apply bind_defined; [auto with sparse|]. intros _ _.
  apply bind_defined; [auto with sparse|]. intros ? H3.
  apply raise_if_Returned, negb_false_iff, Nat.eqb_eq in H3.
  apply bind_defined; [auto with sparse|]. intros ? H4.
  apply raise_if_Returned, negb_false_iff, Nat.eqb_eq in H4.
  apply bind_defined; [apply at_index_defined; lia|]. intros i0 _.
  apply bind_defined; [apply at_index_defined; destruct vshp; simpl; [congruence | lia]|].
  intros v0 _.
  apply bind_defined; [auto with sparse|]. intros _ _.
  apply bind_defined; [auto with sparse|]. intros shp Hshp.
  apply BuildValueTuple_Returned in Hshp. subst shp.
  apply bind_defined; [auto with sparse|]. intros shape_vec Hvec.
  apply bind_defined; [auto with sparse|]. intros ? H6.
  apply raise_if_Returned, negb_false_iff, Nat.eqb_eq in H6.
  apply bind_defined; [apply at_index_defined; lia|]. intros s0 _.
  apply bind_defined; [apply at_index_defined; lia|]. intros p0 _.
  apply bind_defined; [auto with sparse|]. intros _ _.
  apply bind_defined.
  - apply csr_shape_loop_defined. rewrite length_zip_with, length_fmap. lia.
  - intros shape_size _. apply bind_defined; [auto with sparse|]. intros _ _. discriminate.
Qed.

(** X17. [InferImplMakeCSRTensor], given three tensors and a tuple: it
    returns the four of them as a CSR tensor exactly when indptr and
    indices are of type Int16, Int32 or Int64, the indices are of shape
    [n] with [n] the first dimension of the values, the tuple holds the
    positive constants [s0 :: dims] of integer types, one more than the
    values have dimensions, indptr is of shape [s0 + 1], [dims] agrees with
    the dimensions of the values from the second on, and [n] is at most
    the product of the dimensions computed on [size_t] and read back as an
    [int64_t].  In every other case, the values having a dimension, it
    throws. *)
Theorem MakeCSRTensor_spec pdt pshp idt ishp vdt vshp ds :
  (csr_tensor_ok pdt pshp idt ishp vshp ds ->
     InferImplMakeCSRTensor (csr_args pdt pshp idt ishp vdt vshp ds) =
       Returned (csr_tensor pdt pshp idt ishp vdt vshp ds)) /\
  (forall r, InferImplMakeCSRTensor (csr_args pdt pshp idt ishp vdt vshp ds) = Returned r ->
     csr_tensor_ok pdt pshp idt ishp vshp ds /\
     r = csr_tensor pdt pshp idt ishp vdt vshp ds) /\
  (~ csr_tensor_ok pdt pshp idt ishp vshp ds -> vshp <> [] ->
     raises (InferImplMakeCSRTensor (csr_args pdt pshp idt ishp vdt vshp ds))).
Proof.
  split; [apply MakeCSRTensor_accepts|]. split; [apply MakeCSRTensor_Returned|].
  intros Hno Hv. apply result_cases; [now apply MakeCSRTensor_defined|].
  intros r Hr. apply Hno. exact (proj1 (MakeCSRTensor_Returned _ _ _ _ _ _ _ _ Hr)).
Qed.

(** *** Operators on CSR tensors *)

(** [CheckSparseIndicesDtypeInt32] *)
Definition CheckSparseIndicesDtypeInt32 (data_type : TypeId) : result unit :=
  raise_if (negb (bool_decide (data_type = kNumberTypeInt32))) TypeError.

(** [ConvertToShapeVector] *)
Definition ConvertToShapeVector (shape : list AbstractScalar) : result (list Z) :=
  shape_value ← BuildValueTuple shape;
  GetValues_int64 shape_value.

(** [a / b] on [int64_t]: C++ defines no result for a zero divisor, nor
    for the one quotient that does not fit. *)
Definition div_int64 (a b : Z) : result Z :=
  if b =? 0 then Undefined
  else if (a =? - 2 ^ 63) && (b =? -1) then Undefined
  else Returned (Z.quot a b).

Definition kCSRAvgRows : string := "csr_avg_rows".
Definition kIsCSR : string := "is_csr".

(** [primitive->set_attr(key, value)] *)
Definition set_attr (key : string) (value : Value) (p : Primitive) : Primitive :=
  {| prim_name := prim_name p; attrs := <[key := value]> (attrs p) |}.

(** The two lines under [// SetAttr]. *)
Definition set_csr_attrs (csr_avg_rows : Z) (p : Primitive) : Primitive :=
  set_attr kIsCSR (BoolImm true) (set_attr kCSRAvgRows (Int64Imm csr_avg_rows) p).

(** The five arguments that [InferImplCSRElementWise], [InferImplCSRMV] and
    [InferImplCSRMM] check in the same way. *)
Definition csr_operands (args_spec_list : list AbstractBasePtr)
    : result ((TypeId * list Z) * (TypeId * list Z) * (TypeId * list Z) *
              list AbstractScalar * (TypeId * list Z)) :=
  CheckArgsSize args_spec_list 5;;
  indptr ← CheckArg_AbstractTensor args_spec_list 0;
  indices ← CheckArg_AbstractTensor args_spec_list 1;
  values ← CheckArg_AbstractTensor args_spec_list 2;
  shape ← CheckArg_AbstractTuple args_spec_list 3;
  dense ← CheckArg_AbstractTensor args_spec_list 4;
  CheckSparseIndicesDtypeInt32 indptr.1;;
  CheckSparseIndicesDtypeInt32 indices.1;;
  Returned (indptr, indices, values, shape, dense).

Section CSROperators.

Variable SizeToInt : nat -> result Z.

(** [InferImplCSRElementWise].  [Broaden] leaves the element type and the
    shape of a tensor abstract as they are. *)
Definition InferImplCSRElementWise (primitive : Primitive)
    (args_spec_list : list AbstractBasePtr) : result (AbstractBase * Primitive) :=
  '(indptr, indices, values, shape, dense) ← csr_operands args_spec_list;
  sparse_shape ← ConvertToShapeVector shape;
  let dense_shape := dense.2 in
  CheckSparseShape_shapes SizeToInt sparse_shape dense_shape;;
  let ret := AbstractTensor values.1 values.2 in
  let nnz_vec := indices.2 in
  nnz ← at_index nnz_vec 0;
  d0 ← at_index dense_shape 0;
  csr_avg_rows ← div_int64 nnz d0;
  Returned (ret, set_csr_attrs csr_avg_rows primitive).

End CSROperators.

(** [InferImplCSRMV] *)
Definition InferImplCSRMV (primitive : Primitive) (args_spec_list : list AbstractBasePtr)
    : result (AbstractBase * Primitive) :=
  '(indptr, indices, values, shape, dense) ← csr_operands args_spec_list;
  sparse_shape ← ConvertToShapeVector shape;
  let dense_shape := dense.2 in
  raise_if (negb (length sparse_shape =? 2)%nat || negb (length dense_shape =? 2)%nat)
           ValueError;;
  d0 ← at_index dense_shape 0;
  s1 ← at_index sparse_shape 1;
  d1 ← at_index dense_shape 1;
  raise_if (negb (d0 =? s1) || negb (d1 =? 1)) ValueError;;
  s0 ← at_index sparse_shape 0;
  let out_shape := [s0; d1] in
  let nnz_vec := indices.2 in
  nnz ← at_index nnz_vec 0;
  csr_avg_rows ← div_int64 nnz d0;
  Returned (AbstractTensor values.1 out_shape, set_csr_attrs csr_avg_rows primitive).

(** [InferImplCSRMM] *)
Definition InferImplCSRMM (primitive : Primitive) (args_spec_list : list AbstractBasePtr)
    : result (AbstractBase * Primitive) :=
  '(indptr, indices, values, shape, dense) ← csr_operands args_spec_list;
  sparse_shape ← ConvertToShapeVector shape;
  let dense_shape := dense.2 in
  raise_if (negb (length sparse_shape =? 2)%nat || negb (length dense_shape =? 2)%nat)
           ValueError;;
  d0 ← at_index dense_shape 0;
  s1 ← at_index sparse_shape 1;
  raise_if (negb (d0 =? s1)) ValueError;;
  s0 ← at_index sparse_shape 0;
  d1 ← at_index dense_shape 1;
  let out_shape := [s0; d1] in
  let nnz_vec := indices.2 in
  nnz ← at_index nnz_vec 0;
  csr_avg_rows ← div_int64 nnz d0;
  Returned (AbstractTensor values.1 out_shape, set_csr_attrs csr_avg_rows primitive).

(** [InferImplCSRGather] *)
Definition InferImplCSRGather (primitive : Primitive) (args_spec_list : list AbstractBasePtr)
    : result (AbstractBase * Primitive) :=
  CheckArgsSize args_spec_list kSizeFour;;
  indptr ← CheckArg_AbstractTensor args_spec_list kIndexZero;
  indices ← CheckArg_AbstractTensor args_spec_list kIndexOne;
  dense ← CheckArg_AbstractTensor args_spec_list kIndexTwo;
  sparse_shape ← CheckArg_AbstractTuple args_spec_list kIndexThree;
  CheckSparseIndicesDtypeInt32 indptr.1;;
  CheckSparseIndicesDtypeInt32 indices.1;;
  shape_value ← BuildValueTuple sparse_shape;
  let nnz_vec := indices.2 in
  nnz ← at_index nnz_vec 0;
  v0 ← at_index shape_value 0;
  s0 ← GetValue_int64 (Some v0);
  csr_avg_rows ← div_int64 nnz s0;
  let out_shape := indices.2 ++ drop 2 dense.2 in
  Returned (AbstractTensor dense.1 out_shape, set_csr_attrs csr_avg_rows primitive).

(** The argument lists of well-classed calls. *)
Definition csr_op_args (pdt : TypeId) (pshp : list Z) (idt : TypeId) (ishp : list Z)
    (vdt : TypeId) (vshp : list Z) (shape : list AbstractScalar)
    (ddt : TypeId) (dshp : list Z) : list AbstractBasePtr :=
  [Some (AbstractTensor pdt pshp); Some (AbstractTensor idt ishp);
   Some (AbstractTensor vdt vshp); Some (AbstractTuple shape);
   Some (AbstractTensor ddt dshp)].

Definition csr_gather_args (pdt : TypeId) (pshp : list Z) (idt : TypeId) (ishp : list Z)
    (ddt : TypeId) (dshp : list Z) (shape : list AbstractScalar) : list AbstractBasePtr :=
  [Some (AbstractTensor pdt pshp); Some (AbstractTensor idt ishp);
   Some (AbstractTensor ddt dshp); Some (AbstractTuple shape)].

Lemma csr_operands_not_Int32 pdt pshp idt ishp vdt vshp shape ddt dshp :
  pdt <> kNumberTypeInt32 \/ idt <> kNumberTypeInt32 ->
  csr_operands (csr_op_args pdt pshp idt ishp vdt vshp shape ddt dshp) = Raised TypeError.
Proof.
  intros Hno. unfold csr_operands, csr_op_args, CheckSparseIndicesDtypeInt32. res_cbn.
  destruct (decide (pdt = kNumberTypeInt32)) as [->|Hp].
  - destruct Hno as [Hno|Hno]; [contradiction|].
    rewrite (bool_decide_eq_true_2 (kNumberTypeInt32 = kNumberTypeInt32) eq_refl). res_cbn.
    rewrite (bool_decide_eq_false_2 (idt = kNumberTypeInt32) Hno). reflexivity.
  - rewrite (bool_decide_eq_false_2 (pdt = kNumberTypeInt32) Hp). reflexivity.
Qed.

(** X18. The operators on CSR tensors throw a type error unless indptr and
    indices are both of type Int32, whatever the other arguments; the
    constructor [InferImplMakeCSRTensor] accepts Int16 and Int64 as well. *)
Theorem CSR_operators_require_Int32 SizeToInt primitive pdt pshp idt ishp vdt vshp shape ddt dshp :
  pdt <> kNumberTypeInt32 \/ idt <> kNumberTypeInt32 ->
  let args := csr_op_args pdt pshp idt ishp vdt vshp shape ddt dshp in
  InferImplCSRElementWise SizeToInt primitive args = Raised TypeError /\
  InferImplCSRMV primitive args = Raised TypeError /\
  InferImplCSRMM primitive args = Raised TypeError /\
  InferImplCSRGather primitive (csr_gather_args pdt pshp idt ishp ddt dshp shape) =
    Raised TypeError /\
  (forall t, sparse_index_type t ->
     InferImplMakeCSRTensor (csr_args t [5] t [3] kNumberTypeFloat32 [3] [dim 4; dim 5]) =
       Returned (csr_tensor t [5] t [3] kNumberTypeFloat32 [3] [dim 4; dim 5])).
Proof.
  intros Hno args. subst args.
  unfold InferImplCSRElementWise, InferImplCSRMV, InferImplCSRMM.
  rewrite (csr_operands_not_Int32 _ _ _ _ _ _ _ _ _ Hno).
  split; [reflexivity|]. split; [reflexivity|]. split; [reflexivity|]. split.
  - unfold InferImplCSRGather, csr_gather_args, CheckSparseIndicesDtypeInt32. res_cbn.
    destruct (decide (pdt = kNumberTypeInt32)) as [->|Hp].
    + destruct Hno as [Hno|Hno]; [contradiction|].
      rewrite (bool_decide_eq_true_2 (kNumberTypeInt32 = kNumberTypeInt32) eq_refl). res_cbn.
      rewrite (bool_decide_eq_false_2 (idt = kNumberTypeInt32) Hno). reflexivity.
    + rewrite (bool_decide_eq_false_2 (pdt = kNumberTypeInt32) Hp). reflexivity.
  - intros t Ht. apply MakeCSRTensor_accepts.
    split; [exact Ht|]. split; [exact Ht|]. exists 3, 4, [5].
    split; [reflexivity|]. split; [reflexivity|]. split.
    { split; [repeat constructor | reflexivity]. }
    split; [reflexivity|]. split; [reflexivity|]. split; [repeat constructor; lia|]. split.
    { intros [|[|k]] d Hk Hk0; try discriminate; lia. }
    vm_compute. discriminate.
Qed.

Lemma csr_operands_Int32 pshp ishp vdt vshp shape ddt dshp :
  csr_operands (csr_op_args kNumberTypeInt32 pshp kNumberTypeInt32 ishp vdt vshp shape ddt dshp) =
    Returned ((kNumberTypeInt32, pshp), (kNumberTypeInt32, ishp), (vdt, vshp), shape, (ddt, dshp)).
Proof. reflexivity. Qed.

Lemma ConvertToShapeVector_Returned shape dims :
  ConvertToShapeVector shape = Returned dims <-> scalar_value <$> shape = Int64Imm <$> dims.
Proof.
  unfold ConvertToShapeVector. split.
  - intros Hrun. ret_inv Hrun shp Hshp. apply BuildValueTuple_Returned in Hshp. subst shp.
    now apply GetValues_int64_Returned.
  - intros Heq. rewrite (BuildValueTuple_constant shape dims Heq). simpl.
    now apply GetValues_int64_Returned.
Qed.

Lemma div_int64_Returned a b q :
  div_int64 a b = Returned q <-> b <> 0 /\ ~ (a = - 2 ^ 63 /\ b = -1) /\ q = Z.quot a b.
Proof.
  unfold div_int64. destruct (Z.eqb_spec b 0) as [->|Hb].
  - split; [discriminate | intros [H _]; contradiction].
  - destruct (Z.eqb_spec a (- 2 ^ 63)) as [->|Ha], (Z.eqb_spec b (-1)) as [->|Hb1]; simpl;
      split; try discriminate; try (intros [= <-]; repeat split; auto; lia);
      try (intros (_ & H & ->); try reflexivity; exfalso; apply H; split; reflexivity).
Qed.

(** The sparse matrix [s0 x s1], with [n] stored entries, and the dense
    matrix [s1 x d1] of a product. *)
Definition matmul_ok (shape : list AbstractScalar) (ishp dshp : list Z) (s0 s1 d1 n : Z) : Prop :=
  scalar_value <$> shape = Int64Imm <$> [s0; s1] /\
  dshp = [s1; d1] /\
  ishp !! 0%nat = Some n /\
  s1 <> 0 /\ ~ (n = - 2 ^ 63 /\ s1 = -1).

Lemma CSRMM_Returned primitive pshp ishp vdt vshp shape ddt dshp r :
  InferImplCSRMM primitive
    (csr_op_args kNumberTypeInt32 pshp kNumberTypeInt32 ishp vdt vshp shape ddt dshp) = Returned r <->
  exists s0 s1 d1 n, matmul_ok shape ishp dshp s0 s1 d1 n /\
    r = (AbstractTensor vdt [s0; d1], set_csr_attrs (Z.quot n s1) primitive).
Proof.
  unfold InferImplCSRMM. rewrite csr_operands_Int32. cbn [mbind result_bind fst snd]. split.
  - intros Hrun.
    ret_inv Hrun sparse_shape Hs. apply ConvertToShapeVector_Returned in Hs.
    ret_inv Hrun u1 H1. apply raise_if_Returned, orb_false_iff in H1. destruct H1 as [Hl1 Hl2].
    apply negb_false_iff, Nat.eqb_eq in Hl1, Hl2.
    destruct sparse_shape as [|s0 [|s1 [|? ?]]]; try discriminate.
    destruct dshp as [|d0 [|d1 [|? ?]]]; try discriminate.
    simpl in Hrun.
    destruct (Z.eqb_spec d0 s1) as [->|]; [|discriminate]. simpl in Hrun.
    ret_inv Hrun n Hn. ret_inv Hrun q Hq. apply div_int64_Returned in Hq.
    destruct Hq as (Hs1 & Hov & ->). injection Hrun as <-.
    exists s0, s1, d1, n. split; [|reflexivity].
    unfold at_index in Hn. destruct (ishp !! 0%nat) as [n'|] eqn:Hi; [|discriminate].
    injection Hn as ->. repeat split; auto.
  - intros (s0 & s1 & d1 & n & (Hs & -> & Hn & Hs1 & Hov) & ->).
    rewrite (proj2 (ConvertToShapeVector_Returned shape [s0; s1]) Hs). simpl.
    rewrite Z.eqb_refl. simpl. unfold at_index. rewrite Hn. simpl.
    now rewrite (proj2 (div_int64_Returned n s1 (Z.quot n s1))).
Qed.

Lemma CSRMV_Returned primitive pshp ishp vdt vshp shape ddt dshp r :
  InferImplCSRMV primitive
    (csr_op_args kNumberTypeInt32 pshp kNumberTypeInt32 ishp vdt vshp shape ddt dshp) = Returned r <->
  exists s0 s1 n, matmul_ok shape ishp dshp s0 s1 1 n /\
    r = (AbstractTensor vdt [s0; 1], set_csr_attrs (Z.quot n s1) primitive).
Proof.
  unfold InferImplCSRMV. rewrite csr_operands_Int32. cbn [mbind result_bind fst snd]. split.
  - intros Hrun.
    ret_inv Hrun sparse_shape Hs. apply ConvertToShapeVector_Returned in Hs.
    ret_inv Hrun u1 H1. apply raise_if_Returned, orb_false_iff in H1. destruct H1 as [Hl1 Hl2].
    apply negb_false_iff, Nat.eqb_eq in Hl1, Hl2.
    destruct sparse_shape as [|s0 [|s1 [|? ?]]]; try discriminate.
    destruct dshp as [|d0 [|d1 [|? ?]]]; try discriminate.
    simpl in Hrun.
    destruct (Z.eqb_spec d0 s1) as [->|]; [|discriminate].
    destruct (Z.eqb_spec d1 1) as [->|]; [|discriminate]. simpl in Hrun.
    ret_inv Hrun n Hn. ret_inv Hrun q Hq. apply div_int64_Returned in Hq.
    destruct Hq as (Hs1 & Hov & ->). injection Hrun as <-.
    exists s0, s1, n. split; [|reflexivity].
    unfold at_index in Hn. destruct (ishp !! 0%nat) as [n'|] eqn:Hi; [|discriminate].
    injection Hn as ->. repeat split; auto.
  - intros (s0 & s1 & n & (Hs & -> & Hn & Hs1 & Hov) & ->).
    rewrite (proj2 (ConvertToShapeVector_Returned shape [s0; s1]) Hs). simpl.
    rewrite Z.eqb_refl. simpl. unfold at_index. rewrite Hn. simpl.
    now rewrite (proj2 (div_int64_Returned n s1 (Z.quot n s1))).
Qed.

(** X19. [InferImplCSRMM] and [InferImplCSRMV] on Int32 indptr and indices:
    they return exactly when the shape tuple holds two constants [s0; s1]
    with [s1] not zero (and not -1 against [INT64_MIN] stored entries),
    and the dense tensor is of shape [s1; d1] (with [d1 = 1] for CSRMV); the result is then a tensor of the element type of
    the values and of shape [s0; d1], and the primitive gets the attribute
    [is_csr] set to true and [csr_avg_rows] set to the number of stored
    entries divided by [s1], its other attributes being kept. *)
Theorem CSR_matmul_spec primitive pshp ishp vdt vshp shape ddt dshp :
  let args := csr_op_args kNumberTypeInt32 pshp kNumberTypeInt32 ishp vdt vshp shape ddt dshp in
  (forall r, InferImplCSRMM primitive args = Returned r <->
     exists s0 s1 d1 n, matmul_ok shape ishp dshp s0 s1 d1 n /\
       r = (AbstractTensor vdt [s0; d1], set_csr_attrs (Z.quot n s1) primitive)) /\
  (forall r, InferImplCSRMV primitive args = Returned r <->
     exists s0 s1 n, matmul_ok shape ishp dshp s0 s1 1 n /\
       r = (AbstractTensor vdt [s0; 1], set_csr_attrs (Z.quot n s1) primitive)) /\
  (forall q key,
     attrs (set_csr_attrs q primitive) !! key =
       if decide (key = kIsCSR) then Some (BoolImm true)
       else if decide (key = kCSRAvgRows) then Some (Int64Imm q)
       else attrs primitive !! key).
Proof.
  intros args. split; [intros r; apply CSRMM_Returned|].
  split; [intros r; apply CSRMV_Returned|].
  intros q key. unfold set_csr_attrs, set_attr. simpl.
  destruct (decide (key = kIsCSR)) as [->|Hk1].
  - now rewrite lookup_insert_eq.
  - rewrite lookup_insert_ne by congruence.
    destruct (decide (key = kCSRAvgRows)) as [->|Hk2].
    + now rewrite lookup_insert_eq.
    + now rewrite lookup_insert_ne by congruence.
Qed.

Lemma CheckSparseShape_shapes_spec_witness :
  CheckSparseShape_shapes (fun n => Returned (Z.of_nat n)) [2; 3; 4] [4] = Returned tt /\
  CheckSparseShape_shapes (fun n => Returned (Z.of_nat n)) [2; 3; 4; 5] [5] = Raised ValueError.
Proof.
  split.
  - destruct (CheckSparseShape_shapes_spec (fun n => Returned (Z.of_nat n))
                (fun n _ => eq_refl) [2; 3; 4] [4] ltac:(simpl; lia) ltac:(simpl; lia))
      as (Hok & _).
    apply Hok; [discriminate|]. split; [simpl; lia|].
    intros [|[|[|i]]] s d Hs Hd; simpl in Hs, Hd; try discriminate;
      injection Hs as <-; injection Hd as <-; unfold dim_fits; simpl; auto.
  - destruct (CheckSparseShape_shapes_spec (fun n => Returned (Z.of_nat n))
                (fun n _ => eq_refl) [2; 3; 4; 5] [5] ltac:(simpl; lia) ltac:(simpl; lia))
      as (_ & Hno & _).
    apply Hno. intros [_ Hall].
    pose proof (Hall 2%nat 4 1 eq_refl eq_refl) as Hfit. unfold dim_fits in Hfit.
    simpl in Hfit. discriminate Hfit.
Defined.

Lemma MakeRowTensor_spec_witness :
  InferImplMakeRowTensor
    (row_args kNumberTypeInt32 [3] kNumberTypeFloat32 [3; 4] [dim 10; dim 4]) =
  Returned (row_tensor kNumberTypeInt32 [3] kNumberTypeFloat32 [3; 4] [dim 10; dim 4] [10; 4]).
Proof.
  apply (MakeRowTensor_spec kNumberTypeInt32 [3] kNumberTypeFloat32 [3; 4] [dim 10; dim 4]
           ltac:(discriminate)).
  split; [reflexivity|]. split; [exists 3; auto|]. split.
  { split; [repeat constructor | reflexivity]. }
  split; [reflexivity|]. split; [repeat constructor; lia|].
  intros [|[|k]] d Hk Hk0; simpl in Hk; try discriminate; [lia|].
  injection Hk as <-. reflexivity.
Defined.

Lemma CSR_operators_require_Int32_witness :
  InferImplCSRMV {| prim_name := "CSRMV"; attrs := ∅ |}
    (csr_op_args kNumberTypeInt64 [3] kNumberTypeInt64 [4] kNumberTypeFloat32 [4]
                 [dim 2; dim 3] kNumberTypeFloat32 [3; 1]) = Raised TypeError.
Proof.
  assert (Hno : kNumberTypeInt64 <> kNumberTypeInt32 \/ kNumberTypeInt64 <> kNumberTypeInt32)
    by (left; discriminate).
  pose proof (CSR_operators_require_Int32 (fun n => Returned (Z.of_nat n))
                {| prim_name := "CSRMV"; attrs := ∅ |}
                kNumberTypeInt64 [3] kNumberTypeInt64 [4] kNumberTypeFloat32 [4]
                [dim 2; dim 3] kNumberTypeFloat32 [3; 1] Hno) as H.
  cbv zeta in H. destruct H as (_ & H & _). exact H.
Defined.

(** *** The element-wise operators on a CSR tensor *)

Section ElementWise.

Variable SizeToInt : nat -> result Z.
Hypothesis SizeToInt_small :
  forall n : nat, Z.of_nat n < 2 ^ 31 -> SizeToInt n = Returned (Z.of_nat n).

(** X21. [InferImplCSRElementWise] on Int32 indptr and indices and a
    constant, non-empty sparse shape: a dense shape that does not
    broadcast to the sparse shape is a value error.  One that does is
    accepted, and the result is the values tensor as it is, with
    [csr_avg_rows] set to the number of stored entries divided by the
    first dimension of the dense shape; but a dense tensor of rank 0,
    which broadcasts to any sparse shape of rank 1 or 2, makes the
    function read the first dimension of an empty shape, and a first
    dense dimension of 0 makes it divide by zero: C++ defines neither. *)
Theorem CSRElementWise_spec primitive pshp ishp vdt vshp shape sparse_shp ddt dshp :
  scalar_value <$> shape = Int64Imm <$> sparse_shp ->
  Z.of_nat (length sparse_shp) < 2 ^ 31 -> Z.of_nat (length dshp) < 2 ^ 31 ->
  sparse_shp <> [] ->
  let run := InferImplCSRElementWise SizeToInt primitive
               (csr_op_args kNumberTypeInt32 pshp kNumberTypeInt32 ishp vdt vshp shape ddt dshp) in
  (~ broadcasts_to dshp sparse_shp -> run = Raised ValueError) /\
  (broadcasts_to dshp sparse_shp ->
     (ishp = [] \/ dshp = [] -> run = Undefined) /\
     (forall n irest d0 drest, ishp = n :: irest -> dshp = d0 :: drest ->
        run = if (d0 =? 0) || ((n =? - 2 ^ 63) && (d0 =? -1)) then Undefined
              else Returned (AbstractTensor vdt vshp, set_csr_attrs (Z.quot n d0) primitive))) /\
  ((length sparse_shp <= 2)%nat -> broadcasts_to [] sparse_shp).
Proof.
  intros Hconst Hls Hld Hne run. subst run. unfold InferImplCSRElementWise.
  rewrite csr_operands_Int32. cbn [mbind result_bind fst snd].
  rewrite (proj2 (ConvertToShapeVector_Returned shape sparse_shp) Hconst).
  cbn [mbind result_bind]. split; [|split].
  - intros Hnot. now rewrite (CheckSparseShape_shapes_refuses SizeToInt SizeToInt_small _ _ Hls Hld Hnot).
  - intros Hok.
    rewrite (CheckSparseShape_shapes_accepts SizeToInt SizeToInt_small _ _ Hls Hld Hne Hok).
    cbn [mbind result_bind]. split.
    + intros [-> | ->]; [reflexivity|]. destruct ishp; reflexivity.
    + intros n irest d0 drest -> ->. unfold at_index. cbn [lookup list_lookup mbind result_bind].
      unfold div_int64. destruct (d0 =? 0); [reflexivity|]. cbn [orb].
      destruct ((n =? - 2 ^ 63) && (d0 =? -1)); reflexivity.
  - intros Hrank. split; [simpl; lia|]. intros i s d Hs Hd.
    unfold aligned in Hd. rewrite app_nil_r in Hd. apply lookup_replicate in Hd.
    destruct Hd as [-> Hi]. unfold dim_fits.
    replace (i <? kCSRMulBatchPos)%nat with true; [now right|].
    symmetry. apply Nat.ltb_lt. unfold kCSRMulBatchPos. simpl in Hi. lia.
Qed.

End ElementWise.

Lemma CSRElementWise_spec_witness :
  InferImplCSRElementWise (fun n => Returned (Z.of_nat n)) {| prim_name := "CSRMul"; attrs := ∅ |}
    (csr_op_args kNumberTypeInt32 [3] kNumberTypeInt32 [4] kNumberTypeFloat32 [4]
       [dim 2; dim 3] kNumberTypeFloat32 []) = Undefined.
Proof.
  assert (Hconst : scalar_value <$> [dim 2; dim 3] = Int64Imm <$> [2; 3]) by reflexivity.
  assert (Hls : Z.of_nat (length [2; 3]) < 2 ^ 31) by (simpl; lia).
  assert (Hld : Z.of_nat (length (@nil Z)) < 2 ^ 31) by (simpl; lia).
  assert (Hne : [2; 3] <> []) by discriminate.
  pose proof (CSRElementWise_spec (fun n => Returned (Z.of_nat n)) (fun n _ => eq_refl)
                {| prim_name := "CSRMul"; attrs := ∅ |} [3] [4] kNumberTypeFloat32 [4]
                [dim 2; dim 3] [2; 3] kNumberTypeFloat32 [] Hconst Hls Hld Hne) as H.
  cbv zeta in H. destruct H as (_ & Hok & Hscalar).
  destruct (Hok (Hscalar ltac:(simpl; lia))) as [Hub _].
  apply Hub. now right.
Defined.

End Sparse.

(** ** Floating-point numbers

    [float] and [double] are the IEEE 754 formats binary32 and binary64.
    Their values and their correctly rounded operations are those of the
    Standard Library's [SpecFloat]; what C++ adds ([floor], conversions
    between the formats and to and from integers) is defined here on the
    same representation. *)

Module FP.

Record format := { prec : Z; emax : Z }.

Definition binary32 : format := {| prec := 24; emax := 128 |}.
Definition binary64 : format := {| prec := 53; emax := 1024 |}.

Definition INFINITY : spec_float := S754_infinity false.
Definition quiet_NaN : spec_float := S754_nan.
Definition zero : spec_float := S754_zero false.

Definition isnan (x : spec_float) : bool :=
  match x with S754_nan => true | _ => false end.

Definition is_finite (x : spec_float) : bool :=
  match x with S754_zero _ | S754_finite _ _ _ => true | _ => false end.

(** The comparisons [<], [==] and [>] and the sign operations do not
    depend on the format. *)
Definition ltb : spec_float -> spec_float -> bool := SFltb.
Definition eqb : spec_float -> spec_float -> bool := SFeqb.
Definition gtb (x y : spec_float) : bool := SFltb y x.
Definition opp : spec_float -> spec_float := SFopp.
Definition abs : spec_float -> spec_float := SFabs.

Section Format.
Variable fmt : format.

Definition add : spec_float -> spec_float -> spec_float := SFadd (prec fmt) (emax fmt).
Definition sub : spec_float -> spec_float -> spec_float := SFsub (prec fmt) (emax fmt).
Definition mul : spec_float -> spec_float -> spec_float := SFmul (prec fmt) (emax fmt).
Definition div : spec_float -> spec_float -> spec_float := SFdiv (prec fmt) (emax fmt).

(** The value [m * 2^e], rounded to the format. *)
Definition of_Z_exp (m e : Z) : spec_float :=
  binary_normalize (prec fmt) (emax fmt) m e false.

(** Conversion of an integer. *)
Definition of_Z (z : Z) : spec_float := of_Z_exp z 0.

(** Conversion from another format ([static_cast<double>] of a [float],
    [static_cast<float>] of a [double]). *)
Definition convert (x : spec_float) : spec_float :=
  match x with
  | S754_finite s m e => binary_round (prec fmt) (emax fmt) s m e
  | _ => x
  end.

(** [floor]: the largest integral value not above [x]; infinities, NaN and
    zeros are returned as they are. *)
Definition floor (x : spec_float) : spec_float :=
  match x with
  | S754_finite s m e =>
      if 0 <=? e then x
      else
        let q := Z.shiftr (Zpos m) (- e) in
        let exact := Z.shiftl q (- e) =? Zpos m in
        if s
        then binary_normalize (prec fmt) (emax fmt) (- (if exact then q else q + 1)) 0 true
        else binary_normalize (prec fmt) (emax fmt) q 0 false
  | _ => x
  end.

End Format.

(** The integer a finite value truncates to (toward zero), as
    [static_cast] to an integer type computes it before fitting it to the
    type; [None] for infinities and NaN. *)
Definition truncate (x : spec_float) : option Z :=
  match x with
  | S754_zero _ => Some 0
  | S754_finite s m e =>
      let a := if 0 <=? e then Z.shiftl (Zpos m) e else Z.shiftr (Zpos m) (- e) in
      Some (if s then - a else a)
  | _ => None
  end.

End FP.

(** ** CPU arithmetic kernels
    [mindspore/ccsrc/plugin/device/cpu/kernel/arithmetic_cpu_kernel.cc] *)

Module Arithmetic.

Local Open Scope nat_scope.

(** *** Element types

    The kernels are templates over the element type [T].  What they use of
    [T] is collected in a class: the constant [static_cast<T>(0)], the
    operators, the conversions to and from [double], the two compile-time
    tests [std::is_same_v<T, float>] and [std::is_same_v<T, bool>], and
    [std::numeric_limits<T>].  The element types themselves ([float16],
    [complex64], [complex128]) and [std::numeric_limits] are declared
    outside the sources, so their instances are parameters of every
    statement below. *)

Class NumericLimits (T : Type) := {
  has_infinity : bool;
  infinity : T;
  quiet_NaN : T;
  max : T;
  min : T
}.

Class Element (T : Type) := {
  zero : T;
  eqb : T -> T -> bool;
  gtb : T -> T -> bool;
  add : T -> T -> T;
  sub : T -> T -> T;
  mul : T -> T -> T;
  div : T -> T -> T;
  neg : T -> T;
  logical_and : T -> T -> T;
  to_double : T -> spec_float;
  of_double : spec_float -> T;
  is_float : bool;
  is_bool : bool;
  limits :: NumericLimits T
}.

(** *** Broadcast iterator *)

(** Modelled from the spec: [BroadcastIterator] is declared in
    [plugin/device/cpu/kernel/cpu_kernel.h], which is not among the
    sources.  It computes, for each output linear index, the corresponding
    input linear indices: the output index is split into per-dimension
    coordinates, and a coordinate counts in an input only along the
    dimensions where that input is not of size 1.  The input shapes are
    already padded with leading 1s to the rank of the output shape. *)
Record BroadcastIterator := {
  input_shape_a_ : list nat;
  input_shape_b_ : list nat;
  output_shape_ : list nat;
  pos_ : nat
}.

(** The linear index into an input of the output linear index [pos]; the
    dimensions are walked from the last to the first. *)
Fixpoint input_pos (rev_dims : list (nat * nat)) (pos stride : nat) : nat :=
  match rev_dims with
  | [] => 0
  | (input_dim, output_dim) :: rest =>
      (if input_dim =? 1 then 0 else (pos mod output_dim) * stride)
      + input_pos rest (pos / output_dim) (stride * input_dim)
  end.

Definition mkBroadcastIterator (input_shape_a input_shape_b output_shape : list nat)
    : BroadcastIterator :=
  {| input_shape_a_ := input_shape_a; input_shape_b_ := input_shape_b;
     output_shape_ := output_shape; pos_ := 0 |}.

Definition SetPos (pos : nat) (it : BroadcastIterator) : BroadcastIterator :=
  {| input_shape_a_ := input_shape_a_ it; input_shape_b_ := input_shape_b_ it;
     output_shape_ := output_shape_ it; pos_ := pos |}.

Definition GenNextPos (it : BroadcastIterator) : BroadcastIterator :=
  SetPos (S (pos_ it)) it.

Definition GetInputPosA (it : BroadcastIterator) : nat :=
  input_pos (reverse (zip (input_shape_a_ it) (output_shape_ it))) (pos_ it) 1.

Definition GetInputPosB (it : BroadcastIterator) : nat :=
  input_pos (reverse (zip (input_shape_b_ it) (output_shape_ it))) (pos_ it) 1.

(** *** Loops and the parallel launch *)

(** [for (size_t i = start; i < end; i++) body], run for [n = end - start]
    rounds from [i]. *)
Fixpoint for_loop {St : Type} (n : nat) (i : nat) (body : nat -> St -> St) (s : St) : St :=
  match n with
  | 0 => s
  | S n' => for_loop n' (S i) body (body i s)
  end.

Definition for_range {St : Type} (start finish : nat) (body : nat -> St -> St) (s : St) : St :=
  for_loop (finish - start) start body s.

(** Modelled from the spec: [ParallelLaunchAutoSearch] is declared outside
    the sources.  It splits the index range [[0, count)] into consecutive
    chunks and passes the boundaries of each to the task as a [[start,
    end)] range.  The chunks are disjoint and a task writes only inside
    its own, so the worker threads are modelled as running one after the
    other, for whichever chunk lengths the auto-tuning picks. *)
Fixpoint run_chunks {St : Type} (task : nat -> nat -> St -> St) (start : nat)
    (chunks : list nat) (s : St) : St :=
  match chunks with
  | [] => s
  | c :: chunks' => run_chunks task (start + c) chunks' (task start (start + c) s)
  end.

Definition ParallelLaunchAutoSearch {St : Type} (task : nat -> nat -> St -> St)
    (count : nat) (chunks : list nat) (s : St) : St :=
  if sum_list chunks =? count then run_chunks task 0 chunks s else task 0 count s.

(** *** The kernel object *)

Definition kMul : string := "Mul".
Definition kRealDiv : string := "RealDiv".
Definition kAssignAdd : string := "AssignAdd".
Definition kAssignSub : string := "AssignSub".
Definition kDiv : string := "Div".
Definition kDivNoNan : string := "DivNoNan".
Definition kFloorDiv : string := "FloorDiv".
Definition kFloorMod : string := "FloorMod".

(** The fields of [ArithmeticCpuTypeFunc] that the kernels read. *)
Record ArithmeticCpuTypeFunc := {
  kernel_name_ : string;
  output_size_ : nat;
  in_elements_num0_ : nat;
  in_elements_num1_ : nat;
  input_shape1_ : list nat;
  input_shape2_ : list nat;
  kernel_output_shape_ : list nat
}.

(** [SizeOf]: the number of elements of a shape. *)
Definition SizeOf (shape : list nat) : nat := foldr Nat.mul 1 shape.

(** The loop that inserts 1 at the front of an input shape until it has
    the rank of the output shape. *)
Definition pad_shape (shape : list nat) (rank : nat) : list nat :=
  replicate (rank - length shape) 1 ++ shape.

(** The constructor [ArithmeticCpuTypeFunc(kernel_node)], given the name
    and the inferred shapes of the node. *)
Definition mkArithmeticCpuTypeFunc (name : string) (shape1 shape2 out_shape : list nat)
    : ArithmeticCpuTypeFunc :=
  let output_shape := if length out_shape =? 0 then [1] else out_shape in
  {| kernel_name_ := name;
     output_size_ := SizeOf output_shape;
     in_elements_num0_ := SizeOf shape1;
     in_elements_num1_ := SizeOf shape2;
     input_shape1_ := pad_shape shape1 (length output_shape);
     input_shape2_ := pad_shape shape2 (length output_shape);
     kernel_output_shape_ := output_shape |}.

Definition base_iter (k : ArithmeticCpuTypeFunc) : BroadcastIterator :=
  mkBroadcastIterator (input_shape1_ k) (input_shape2_ k) (kernel_output_shape_ k).

(** *** Registration *)

Import Abstract.

(** A [KernelAttr]: the types of the inputs and of the outputs, and the
    pairs [(output, input)] added by [AddOutInRef]: that output of the
    kernel is the very buffer of that input. *)
Record KernelAttr := {
  input_types : list TypeId;
  output_types : list TypeId;
  out_in_ref : list (nat * nat)
}.

(** [KernelAttr().AddInputAttr(t).AddInputAttr(t).AddOutputAttr(t)] *)
Definition binary_attr (t : TypeId) : KernelAttr :=
  {| input_types := [t; t]; output_types := [t]; out_in_ref := [] |}.

(** The same followed by [.AddOutInRef(0, 0)]. *)
Definition binary_attr_ref (t : TypeId) : KernelAttr :=
  {| input_types := [t; t]; output_types := [t]; out_in_ref := [(0, 0)] |}.

(** The entries of [kernel_attr_list] for [Mul], [AssignAdd] and
    [AssignSub]. *)
Definition kernel_attr_list (name : string) : list KernelAttr :=
  if decide (name = kMul) then
    binary_attr <$> [kNumberTypeInt32; kNumberTypeFloat32; kNumberTypeFloat16; kNumberTypeInt64;
                     kNumberTypeFloat64; kNumberTypeInt16; kNumberTypeUInt16; kNumberTypeInt8;
                     kNumberTypeUInt8; kNumberTypeComplex64; kNumberTypeComplex128;
                     kNumberTypeBool]
  else if decide (name = kAssignAdd) then
    binary_attr <$> [kNumberTypeInt32; kNumberTypeFloat32; kNumberTypeInt64; kNumberTypeFloat64]
  else if decide (name = kAssignSub) then
    binary_attr_ref <$> [kNumberTypeInt8; kNumberTypeUInt8; kNumberTypeInt16; kNumberTypeUInt16;
                         kNumberTypeInt32; kNumberTypeUInt32; kNumberTypeFloat32;
                         kNumberTypeUInt64; kNumberTypeInt64; kNumberTypeFloat64]
  else [].

(** The addresses a launch is given honour the references of the
    attribute: a referring output has the address of its input. *)
Definition honours_refs (attr : KernelAttr) (inputs outputs : list nat) : Prop :=
  forall o i, (o, i) ∈ out_in_ref attr -> outputs !! o = inputs !! i /\ is_Some (inputs !! i).

(** The [double] nearest to the literal [1e-9]. *)
Definition double_1e_9 : spec_float := S754_finite false 4835703278458517 (-82).

(** *** The kernels *)

(** A read outside a sequence is not defined by C++; the model reads the
    zero of the type there. *)
#[export] Instance Element_inhabited {T : Type} `{Element T} : Inhabited T := populate zero.

(** [input[i]] *)
Definition read {T : Type} `{Element T} (input : list T) (i : nat) : T := input !!! i.

Section Kernels.
Context {T : Type} `{Element T}.

(** What one round of an element loop does with [out[i]]: it stores a
    value, or it leaves the element as it is ([continue] before any
    store). *)
Definition store (i : nat) (v : option T) (out : list T) : list T :=
  match v with
  | Some v => <[i := v]> out
  | None => out
  end.

(** The loop over the broadcast iterator that the kernels share:
    [iter = base_iter; iter.SetPos(start);] and then, for each [i], the
    two reads at [GetInputPosA] and [GetInputPosB], [GenNextPos], and the
    element computation [body]. *)
Definition broadcast_task (body : T -> T -> option T) (k : ArithmeticCpuTypeFunc)
    (input1 input2 : list T) (start finish : nat) (out : list T) : list T :=
  let iter := SetPos start (base_iter k) in
  (for_range start finish
     (fun i (st : BroadcastIterator * list T) =>
        let a := read input1 (GetInputPosA st.1) in
        let b := read input2 (GetInputPosB st.1) in
        (GenNextPos st.1, store i (body a b) st.2))
     (iter, out)).2.

(** The body of [Mul]'s loop. *)
Definition Mul_body (a b : T) : option T :=
  Some (if is_bool then logical_and a b else mul a b).

(** The zero-divisor case analysis that [ElementRealDiv], [RealDiv], [Div]
    and [FloorDiv] spell out, with [quotient] what each computes for a
    non-zero divisor. *)
Definition real_div_body (quotient : T -> T -> T) (dividend divisor : T) : option T :=
  if eqb divisor zero then
    if eqb dividend zero then Some quiet_NaN
    else if has_infinity
         then Some (if gtb dividend zero then infinity else neg infinity)
         else Some (if gtb dividend zero then max else min)
  else Some (quotient dividend divisor).

(** The body of [ElementRealDivComplex] and of [RealDivComplex]'s loop. *)
Definition RealDivComplex_body (dividend divisor : T) : option T :=
  if eqb divisor zero then Some quiet_NaN
  else Some (div dividend divisor).

(** The body of [DivComplex]'s loop: when the divisor is zero and the
    dividend is not, the round ends at the second [continue] and nothing
    is stored. *)
Definition DivComplex_body (dividend divisor : T) : option T :=
  if eqb divisor zero then
    if eqb dividend zero then Some quiet_NaN
    else None
  else Some (div dividend divisor).

(** The body of [DivNoNan]'s loop. *)
Definition DivNoNan_body (dividend divisor : T) : option T :=
  if eqb divisor zero then Some zero
  else Some (div dividend divisor).

(** [static_cast<T>(floor(static_cast<double>(dividend) / static_cast<double>(divisor)))] *)
Definition floor_quotient (dividend divisor : T) : T :=
  of_double (FP.floor FP.binary64
               (FP.div FP.binary64 (to_double dividend) (to_double divisor))).

(** The remainder [x - floor(x / y) * y] that [FloorMod] starts from. *)
Definition FloorMod_res (x y : spec_float) : spec_float :=
  FP.sub FP.binary64 x
    (FP.mul FP.binary64 (FP.floor FP.binary64 (FP.div FP.binary64 x y)) y).

(** [(std::abs(res) > 1e-9) && ((res < 0.0) != (y < 0.0)) ? res + y : res] *)
Definition FloorMod_double (x y : spec_float) : spec_float :=
  let res := FloorMod_res x y in
  if FP.gtb (FP.abs res) double_1e_9
     && xorb (FP.ltb res FP.zero) (FP.ltb y FP.zero)
  then FP.add FP.binary64 res y
  else res.

(** The body of [FloorMod]'s loop. *)
Definition FloorMod_body (a b : T) : option T :=
  Some (of_double (FloorMod_double (to_double a) (to_double b))).

(** [ElementRealDiv] and [ElementRealDivComplex].  A pointer argument
    [input + start] is the sequence together with the offset. *)
Definition element_loop (body : T -> T -> option T)
    (input1 : list T) (off1 : nat) (input2 : list T) (off2 : nat)
    (out : list T) (off_out : nat) (size delta_1 delta_2 : nat) : list T :=
  (for_range 0 size
     (fun i (st : nat * nat * list T) =>
        let '(idx_1, idx_2, out) := st in
        let dividend := read input1 (off1 + idx_1) in
        let divisor := read input2 (off2 + idx_2) in
        (idx_1 + delta_1, idx_2 + delta_2, store (off_out + i) (body dividend divisor) out))
     (0, 0, out)).2.

Definition ElementRealDiv := element_loop (real_div_body div).
Definition ElementRealDivComplex := element_loop RealDivComplex_body.

(** The four paths of [RealDiv] and of [RealDivComplex]. *)
Definition real_div_kernel (element : list T -> nat -> list T -> nat -> list T -> nat ->
                                      nat -> nat -> nat -> list T)
    (body : T -> T -> option T) (k : ArithmeticCpuTypeFunc)
    (input1 input2 : list T) (chunks : list nat) (out : list T) : list T :=
  if decide (input_shape1_ k = input_shape2_ k) then
    ParallelLaunchAutoSearch
      (fun start finish out => element input1 start input2 start out start (finish - start) 1 1)
      (output_size_ k) chunks out
  else if in_elements_num0_ k =? 1 then
    ParallelLaunchAutoSearch
      (fun start finish out => element input1 0 input2 start out start (finish - start) 0 1)
      (output_size_ k) chunks out
  else if in_elements_num1_ k =? 1 then
    ParallelLaunchAutoSearch
      (fun start finish out => element input1 start input2 0 out start (finish - start) 1 0)
      (output_size_ k) chunks out
  else
    ParallelLaunchAutoSearch (broadcast_task body k input1 input2) (output_size_ k) chunks out.

Definition RealDiv := real_div_kernel ElementRealDiv (real_div_body div).
Definition RealDivComplex := real_div_kernel ElementRealDivComplex RealDivComplex_body.

(** The kernels that always take the broadcast path. *)
Definition broadcast_kernel (body : T -> T -> option T) (k : ArithmeticCpuTypeFunc)
    (input1 input2 : list T) (chunks : list nat) (out : list T) : list T :=
  ParallelLaunchAutoSearch (broadcast_task body k input1 input2) (output_size_ k) chunks out.

Definition Div := broadcast_kernel (real_div_body div).
Definition FloorDiv := broadcast_kernel (real_div_body floor_quotient).
Definition DivComplex := broadcast_kernel DivComplex_body.
Definition DivNoNan := broadcast_kernel DivNoNan_body.
Definition FloorMod := broadcast_kernel FloorMod_body.

(** [Mul]: for [float] the two fast paths call [ElementMul] and
    [ElementOptMul] of nnacl, which are not among the sources and are
    parameters here; every other element type takes the broadcast path. *)
Definition Mul
    (ElementMul : list T -> nat -> list T -> nat -> list T -> nat -> nat -> list T)
    (ElementOptMul : bool -> list T -> nat -> list T -> nat -> list T -> nat -> nat -> list T)
    (k : ArithmeticCpuTypeFunc) (input1 input2 : list T) (chunks : list nat) (out : list T)
    : list T :=
  if is_float && bool_decide (input_shape1_ k = input_shape2_ k) then
    ParallelLaunchAutoSearch
      (fun start finish out => ElementMul input1 start input2 start out start (finish - start))
      (output_size_ k) chunks out
  else if is_float && ((in_elements_num0_ k =? 1) || (in_elements_num1_ k =? 1)) then
    ParallelLaunchAutoSearch
      (fun start finish out =>
         if in_elements_num0_ k =? 1
         then ElementOptMul true input1 0 input2 start out start (finish - start)
         else ElementOptMul false input1 start input2 0 out start (finish - start))
      (output_size_ k) chunks out
  else
    ParallelLaunchAutoSearch (broadcast_task Mul_body k input1 input2) (output_size_ k) chunks out.

End Kernels.

(** *** Element-wise reading of the loops *)

Section Pointwise.
Context {T : Type} `{Element T}.

(** The value a loop round leaves in an element that held [old]. *)
Definition stored (v : option T) (old : T) : T := from_option id old v.

(** The elements of [out] after a task that rewrites [[lo, hi)] with [g]. *)
Definition updated (g : nat -> T -> T) (lo hi : nat) (out : list T) (i : nat) : option T :=
  if decide (lo <= i < hi) then g i <$> out !! i else out !! i.

Definition pointwise (g : nat -> T -> T) (task : nat -> nat -> list T -> list T) : Prop :=
  forall start finish out i, task start finish out !! i = updated g start finish out i.

Lemma store_lookup i v (out : list T) j :
  store i v out !! j = if decide (i = j) then stored v <$> out !! j else out !! j.
Proof.
  unfold store, stored. destruct v as [v|]; simpl.
  - rewrite list_lookup_insert. destruct (decide (i = j)) as [->|Hne].
    + destruct (out !! j) eqn:E; simpl.
      * rewrite decide_True; [reflexivity|]. split; [reflexivity|].
        now apply lookup_lt_Some in E.
      * rewrite decide_False; [reflexivity|]. intros [_ Hlt].
        apply lookup_ge_None in E. lia.
    + rewrite decide_False; [reflexivity|]. intros [? _]. contradiction.
  - destruct (decide (i = j)); [|reflexivity]. now destruct (out !! j).
Qed.

Lemma updated_empty g lo (out : list T) i : updated g lo lo out i = out !! i.
Proof. unfold updated. rewrite decide_False; [reflexivity | lia]. Qed.

Lemma for_loop_broadcast body (k : ArithmeticCpuTypeFunc) (input1 input2 : list T) n :
  forall start out i,
  (for_loop n start
     (fun i (st : BroadcastIterator * list T) =>
        let a := read input1 (GetInputPosA st.1) in
        let b := read input2 (GetInputPosB st.1) in
        (GenNextPos st.1, store i (body a b) st.2))
     (SetPos start (base_iter k), out)).2 !! i =
  updated (fun i => stored (body (read input1 (GetInputPosA (SetPos i (base_iter k))))
                                 (read input2 (GetInputPosB (SetPos i (base_iter k))))))
          start (start + n) out i.
Proof.
  induction n as [|n IH]; intros start out i.
  - simpl. rewrite Nat.add_0_r. now rewrite updated_empty.
  - cbn [for_loop fst snd].
    change (GenNextPos (SetPos start (base_iter k))) with (SetPos (S start) (base_iter k)).
    rewrite IH. unfold updated.
    rewrite store_lookup.
    destruct (decide (start = i)) as [->|Hne].
    + rewrite decide_False by lia. rewrite decide_True by lia. reflexivity.
    + destruct (decide (S start <= i < S start + n)).
      * rewrite decide_True by lia. reflexivity.
      * rewrite decide_False by lia. reflexivity.
Qed.

Lemma broadcast_task_pointwise body (k : ArithmeticCpuTypeFunc) (input1 input2 : list T) :
  pointwise (fun i => stored (body (read input1 (GetInputPosA (SetPos i (base_iter k))))
                                   (read input2 (GetInputPosB (SetPos i (base_iter k))))))
            (broadcast_task body k input1 input2).
Proof.
  intros start finish out i. unfold broadcast_task, for_range.
  rewrite for_loop_broadcast. unfold updated.
  destruct (decide (start <= i < start + (finish - start))).
  - rewrite decide_True by lia. reflexivity.
  - rewrite decide_False by lia. reflexivity.
Qed.

Lemma for_loop_element body (input1 input2 : list T) off1 off2 off_out delta_1 delta_2 n :
  forall j out i,
  (for_loop n j
     (fun i (st : nat * nat * list T) =>
        let '(idx_1, idx_2, out) := st in
        let dividend := read input1 (off1 + idx_1) in
        let divisor := read input2 (off2 + idx_2) in
        (idx_1 + delta_1, idx_2 + delta_2, store (off_out + i) (body dividend divisor) out))
     (j * delta_1, j * delta_2, out)).2 !! i =
  updated (fun i => stored (body (read input1 (off1 + (i - off_out) * delta_1))
                                 (read input2 (off2 + (i - off_out) * delta_2))))
          (off_out + j) (off_out + j + n) out i.
Proof.
  induction n as [|n IH]; intros j out i.
  - simpl. rewrite Nat.add_0_r. now rewrite updated_empty.
  - cbn [for_loop].
    replace (j * delta_1 + delta_1) with (S j * delta_1) by lia.
    replace (j * delta_2 + delta_2) with (S j * delta_2) by lia.
    rewrite IH. unfold updated. rewrite store_lookup.
    destruct (decide (off_out + j = i)) as [<-|Hne].
    + rewrite decide_False by lia. rewrite decide_True by lia.
      replace (off_out + j - off_out) with j by lia. reflexivity.
    + destruct (decide (off_out + S j <= i < off_out + S j + n)).
      * rewrite decide_True by lia. reflexivity.
      * rewrite decide_False by lia. reflexivity.
Qed.

Lemma element_loop_lookup body (input1 input2 : list T) off1 off2 off_out size delta_1 delta_2
    out i :
  element_loop body input1 off1 input2 off2 out off_out size delta_1 delta_2 !! i =
  updated (fun i => stored (body (read input1 (off1 + (i - off_out) * delta_1))
                                 (read input2 (off2 + (i - off_out) * delta_2))))
          off_out (off_out + size) out i.
Proof.
  unfold element_loop, for_range. rewrite Nat.sub_0_r.
  pose proof (for_loop_element body input1 input2 off1 off2 off_out delta_1 delta_2 size 0 out i)
    as Hl.
  simpl in Hl. rewrite Nat.add_0_r in Hl. exact Hl.
Qed.

Lemma run_chunks_pointwise g task :
  pointwise g task ->
  forall chunks start out i,
  run_chunks task start chunks out !! i = updated g start (start + sum_list chunks) out i.
Proof.
  intros Hp chunks. induction chunks as [|c chunks IH]; intros start out i; simpl.
  - rewrite Nat.add_0_r. now rewrite updated_empty.
  - rewrite IH. unfold updated at 1.
    destruct (decide (start + c <= i < start + c + sum_list chunks)).
    + rewrite Hp. unfold updated. rewrite decide_False by lia. rewrite decide_True by lia.
      reflexivity.
    + rewrite Hp. unfold updated. destruct (decide (start <= i < start + c)).
      * rewrite decide_True by lia. reflexivity.
      * rewrite decide_False by lia. reflexivity.
Qed.

Lemma ParallelLaunchAutoSearch_pointwise g task count chunks out i :
  pointwise g task ->
  ParallelLaunchAutoSearch task count chunks out !! i = updated g 0 count out i.
Proof.
  intros Hp. unfold ParallelLaunchAutoSearch.
  destruct (Nat.eqb_spec (sum_list chunks) count) as [<-|_].
  - now rewrite (run_chunks_pointwise g task Hp).
  - apply Hp.
Qed.

(** Every element of the output range is rewritten by the broadcast
    kernels from the two input elements the iterator pairs with it. *)
Lemma broadcast_kernel_lookup body (k : ArithmeticCpuTypeFunc) (input1 input2 : list T)
    chunks out i old :
  i < output_size_ k -> out !! i = Some old ->
  broadcast_kernel body k input1 input2 chunks out !! i =
    Some (stored (body (read input1 (GetInputPosA (SetPos i (base_iter k))))
                       (read input2 (GetInputPosB (SetPos i (base_iter k))))) old).
Proof.
  intros Hi Hold. unfold broadcast_kernel.
  rewrite (ParallelLaunchAutoSearch_pointwise _ _ _ _ _ _ (broadcast_task_pointwise body k _ _)).
  unfold updated. rewrite decide_True by lia. now rewrite Hold.
Qed.

End Pointwise.

(** *** AssignAdd and AssignSub

    These two kernels write through their first input pointer, and the
    output buffer of a launch may be the very buffer of an input, so they
    are modelled on a memory: a finite map from the address of a buffer to
    its contents. *)

Section Assign.
Context {T : Type} `{Element T}.

(** [p[i]] *)
Definition load (m : gmap nat (list T)) (p i : nat) : T :=
  read (default [] (m !! p)) i.

(** [p[i] = v] *)
Definition store_at (m : gmap nat (list T)) (p i : nat) (v : T) : gmap nat (list T) :=
  alter (fun buffer => <[i := v]> buffer) p m.

(** The loop body of [AssignAdd]: [out[i] = input1[i] + input2[i];
    input1[i] = out[i];] *)
Definition AssignAdd_round (input1 input2 out : nat) (i : nat) (m : gmap nat (list T))
    : gmap nat (list T) :=
  let m := store_at m out i (add (load m input1 i) (load m input2 i)) in
  store_at m input1 i (load m out i).

(** [AssignAdd] *)
Definition AssignAdd (k : ArithmeticCpuTypeFunc) (input1 input2 out : nat) (chunks : list nat)
    (m : gmap nat (list T)) : gmap nat (list T) :=
  ParallelLaunchAutoSearch
    (fun start finish m => for_range start finish (AssignAdd_round input1 input2 out) m)
    (output_size_ k) chunks m.

(** The loop body of [AssignSub] for the element types other than
    [float]: [input1[i] = input1[i] - input2[i];] *)
Definition AssignSub_round (input1 input2 : nat) (i : nat) (m : gmap nat (list T))
    : gmap nat (list T) :=
  store_at m input1 i (sub (load m input1 i) (load m input2 i)).

(** Modelled from the spec: [AssignSubOpt] belongs to nnacl and is not
    among the sources; it subtracts the second array from the first in
    place, element by element. *)
Definition AssignSubOpt (input1 off1 input2 off2 size : nat) (m : gmap nat (list T))
    : gmap nat (list T) :=
  for_range 0 size
    (fun i m => store_at m input1 (off1 + i)
                  (sub (load m input1 (off1 + i)) (load m input2 (off2 + i)))) m.

(** [AssignSub]: neither branch stores through [out]. *)
Definition AssignSub (k : ArithmeticCpuTypeFunc) (input1 input2 out : nat) (chunks : list nat)
    (m : gmap nat (list T)) : gmap nat (list T) :=
  if is_float then
    ParallelLaunchAutoSearch
      (fun start finish m => AssignSubOpt input1 start input2 start (finish - start) m)
      (output_size_ k) chunks m
  else
    ParallelLaunchAutoSearch
      (fun start finish m => for_range start finish (AssignSub_round input1 input2) m)
      (output_size_ k) chunks m.

(** [RunFunc], with [compute_func_] the kernel that [InitComputeFunc]
    selected for the other primitives.  It always returns [true]; the
    memory is the result. *)
Definition RunFunc (k : ArithmeticCpuTypeFunc)
    (compute_func_ : nat -> nat -> nat -> gmap nat (list T) -> gmap nat (list T))
    (input1 input2 output : nat) (chunks : list nat) (m : gmap nat (list T))
    : gmap nat (list T) :=
  if output_size_ k =? 0 then m
  else if decide (kernel_name_ k = kAssignAdd) then AssignAdd k input1 input2 output chunks m
  else if decide (kernel_name_ k = kAssignSub) then AssignSub k input1 input2 output chunks m
  else compute_func_ input1 input2 output m.

End Assign.

(** *** What the assign kernels leave in memory *)

Section AssignProofs.
Context {T : Type} `{Element T}.
Implicit Types m : gmap nat (list T).

(** The length of the buffer at an address (0 when there is none). *)
Definition buffer_length m (p : nat) : nat := length (default [] (m !! p)).

Lemma load_store_at m p i v q j :
  load (store_at m p i v) q j =
    if decide (p = q /\ i = j /\ i < buffer_length m p) then v else load m q j.
Proof.
  unfold load, store_at, buffer_length, read. rewrite lookup_alter.
  destruct (decide (p = q)) as [->|Hne].
  - destruct (m !! q) as [l|]; simpl.
    + rewrite list_lookup_total_insert.
      destruct (decide (i = j /\ i < length l)) as [[-> Hl]|Hn].
      * rewrite decide_True by auto. reflexivity.
      * rewrite decide_False by (intros (_ & ? & ?); auto). reflexivity.
    + rewrite decide_False by (intros (_ & _ & ?); simpl in *; lia). reflexivity.
  - rewrite decide_False by (intros (? & _); contradiction). reflexivity.
Qed.

Lemma buffer_length_store_at m p i v q :
  buffer_length (store_at m p i v) q = buffer_length m q.
Proof.
  unfold buffer_length, store_at. rewrite lookup_alter.
  destruct (decide (p = q)) as [->|Hne]; [|reflexivity].
  destruct (m !! q); simpl; [apply length_insert | reflexivity].
Qed.

(** A task meets [spec] on the index ranges [[start, start + len)] with
    [ok len] when it keeps the length of every buffer, leaves every
    element outside the range as it was, and makes [spec j] true of the
    memory before and after for each [j] of the range that lies inside the
    buffers [ps]. *)
Definition within m (ps : list nat) (j : nat) : Prop :=
  forall p, p ∈ ps -> j < buffer_length m p.

Definition range_spec (ps : list nat)
    (spec : nat -> gmap nat (list T) -> gmap nat (list T) -> Prop)
    (start len : nat) (m m' : gmap nat (list T)) : Prop :=
  (forall p, buffer_length m' p = buffer_length m p) /\
  (forall p j, ~ (start <= j < start + len) -> load m' p j = load m p j) /\
  (forall j, start <= j < start + len -> within m ps j -> spec j m m').

Definition meets (ps : list nat)
    (spec : nat -> gmap nat (list T) -> gmap nat (list T) -> Prop)
    (ok : nat -> Prop)
    (task : nat -> nat -> gmap nat (list T) -> gmap nat (list T)) : Prop :=
  forall start len m, ok len -> range_spec ps spec start len m (task start (start + len) m).

(** A specification that reads the memories only at the index it is
    about. *)
Definition local (spec : nat -> gmap nat (list T) -> gmap nat (list T) -> Prop) : Prop :=
  forall j m1 m1' m2 m2',
    (forall p, load m1 p j = load m2 p j) ->
    (forall p, load m1' p j = load m2' p j) ->
    spec j m1 m1' -> spec j m2 m2'.

Lemma run_chunks_meets ps spec ok task chunks :
  local spec -> meets ps spec ok task -> Forall ok chunks ->
  forall start m,
    range_spec ps spec start (sum_list chunks) m (run_chunks task start chunks m).
Proof.
  intros Hlocal Htask Hok. induction Hok as [|c chunks Hc Hok IH]; intros start m; simpl.
  - unfold range_spec. split; [reflexivity|]. split; [reflexivity|]. intros j Hj. lia.
  - destruct (Htask start c m Hc) as (Hlen1 & Hframe1 & Hspec1).
    destruct (IH (start + c) (task start (start + c) m)) as (Hlen2 & Hframe2 & Hspec2).
    split; [|split].
    + intros p. rewrite Hlen2. apply Hlen1.
    + intros p j Hj. rewrite Hframe2 by lia. apply Hframe1. lia.
    + intros j Hj Hin. destruct (decide (j < start + c)) as [Hlt|Hge].
      * apply (Hlocal j m (task start (start + c) m)).
        -- reflexivity.
        -- intros p. symmetry. apply Hframe2. lia.
        -- apply Hspec1; [lia | exact Hin].
      * apply (Hlocal j (task start (start + c) m)
                 (run_chunks task (start + c) chunks (task start (start + c) m))).
        -- intros p. apply Hframe1. lia.
        -- reflexivity.
        -- apply Hspec2; [lia|]. intros p Hp. rewrite Hlen1. apply Hin, Hp.
Qed.

Lemma for_loop_run_chunks {St : Type} (body : nat -> St -> St) n :
  forall i s, for_loop n i body s = run_chunks (fun start _ => body start) i (replicate n 1) s.
Proof.
  induction n as [|n IH]; intros i s; simpl; [reflexivity|].
  rewrite Nat.add_1_r. apply IH.
Qed.

Lemma sum_list_replicate_1 n : sum_list (replicate n 1) = n.
Proof. induction n as [|n IH]; simpl; [reflexivity | now rewrite IH]. Qed.

(** A loop whose rounds meet the specification on single indices meets
    it on every range. *)
Lemma for_range_meets ps spec (body : nat -> gmap nat (list T) -> gmap nat (list T)) :
  local spec ->
  meets ps spec (eq 1) (fun start _ => body start) ->
  meets ps spec (fun _ => True) (fun start finish m => for_range start finish body m).
Proof.
  intros Hlocal Hround start len m _. unfold for_range.
  replace (start + len - start) with len by lia.
  rewrite for_loop_run_chunks.
  pose proof (run_chunks_meets ps spec (eq 1) _ (replicate len 1) Hlocal Hround) as Hr.
  rewrite sum_list_replicate_1 in Hr. apply Hr.
  apply Forall_replicate. reflexivity.
Qed.

Lemma ParallelLaunchAutoSearch_meets ps spec task count chunks m :
  local spec -> meets ps spec (fun _ => True) task ->
  range_spec ps spec 0 count m (ParallelLaunchAutoSearch task count chunks m).
Proof.
  intros Hlocal Htask. unfold ParallelLaunchAutoSearch.
  destruct (Nat.eqb_spec (sum_list chunks) count) as [<-|_].
  - apply (run_chunks_meets ps spec (fun _ => True) task chunks Hlocal Htask).
    apply Forall_forall. intros; exact I.
  - apply (Htask 0 count m I).
Qed.

(** After the kernel, element [j] of the first input and of the output
    both hold [op] of the two input elements. *)
Definition assigned (op : T -> T -> T) (input1 input2 out : nat) (j : nat)
    (m m' : gmap nat (list T)) : Prop :=
  load m' input1 j = op (load m input1 j) (load m input2 j) /\
  load m' out j = op (load m input1 j) (load m input2 j).

Lemma assigned_local op input1 input2 out : local (assigned op input1 input2 out).
Proof.
  intros j m1 m1' m2 m2' Hm Hm' [H1 H2]. unfold assigned.
  rewrite <- !Hm, <- !Hm'. split; assumption.
Qed.

Lemma AssignAdd_round_meets input1 input2 out :
  meets [input1; input2; out] (assigned add input1 input2 out) (eq 1)
        (fun start _ => AssignAdd_round input1 input2 out start).
Proof.
  intros start len m <-. unfold AssignAdd_round. split; [|split].
  - intros p. now rewrite !buffer_length_store_at.
  - intros p j Hj. rewrite !load_store_at.
    rewrite decide_False by lia. rewrite decide_False by lia. reflexivity.
  - intros j Hj Hin. assert (j = start) as -> by lia.
    assert (Hi1 : start < buffer_length m input1) by (apply Hin; rewrite !elem_of_cons; auto).
    assert (Ho : start < buffer_length m out) by (apply Hin; rewrite !elem_of_cons; auto).
    set (v := add (load m input1 start) (load m input2 start)).
    assert (Hv : load (store_at m out start v) out start = v).
    { rewrite load_store_at. rewrite decide_True by auto. reflexivity. }
    unfold assigned. rewrite Hv. split.
    + rewrite load_store_at. rewrite decide_True; [reflexivity|].
      rewrite buffer_length_store_at. auto.
    + rewrite load_store_at. destruct (decide _); [reflexivity | exact Hv].
Qed.

Lemma AssignSub_round_meets input1 input2 :
  meets [input1; input2; input1] (assigned sub input1 input2 input1) (eq 1)
        (fun start _ => AssignSub_round input1 input2 start).
Proof.
  intros start len m <-. unfold AssignSub_round. split; [|split].
  - intros p. now rewrite buffer_length_store_at.
  - intros p j Hj. rewrite load_store_at. rewrite decide_False by lia. reflexivity.
  - intros j Hj Hin. assert (j = start) as -> by lia.
    assert (Hi1 : start < buffer_length m input1) by (apply Hin; rewrite !elem_of_cons; auto).
    unfold assigned. rewrite load_store_at. rewrite decide_True by auto. auto.
Qed.

Lemma for_loop_shift {St : Type} (body : nat -> St -> St) start n :
  forall i s, for_loop n i (fun i => body (start + i)) s = for_loop n (start + i) body s.
Proof.
  induction n as [|n IH]; intros i s; simpl; [reflexivity|].
  rewrite IH. now rewrite Nat.add_succ_r.
Qed.

Lemma AssignSubOpt_for_range input1 input2 start finish m :
  AssignSubOpt input1 start input2 start (finish - start) m =
  for_range start finish (AssignSub_round input1 input2) m.
Proof.
  unfold AssignSubOpt, for_range. rewrite Nat.sub_0_r.
  change (fun i m0 => store_at m0 input1 (start + i)
                        (sub (load m0 input1 (start + i)) (load m0 input2 (start + i))))
    with (fun i => AssignSub_round input1 input2 (start + i)).
  rewrite (for_loop_shift (AssignSub_round input1 input2) start (finish - start) 0 m).
  now rewrite Nat.add_0_r.
Qed.

Lemma AssignAdd_assigns (k : ArithmeticCpuTypeFunc) input1 input2 out chunks m i :
  i < output_size_ k -> within m [input1; input2; out] i ->
  assigned add input1 input2 out i m (AssignAdd k input1 input2 out chunks m).
Proof.
  intros Hi Hin. unfold AssignAdd.
  apply (ParallelLaunchAutoSearch_meets [input1; input2; out] (assigned add input1 input2 out));
    [apply assigned_local| |lia|exact Hin].
  apply for_range_meets; [apply assigned_local | apply AssignAdd_round_meets].
Qed.

Lemma AssignSub_assigns (k : ArithmeticCpuTypeFunc) input1 input2 chunks m i :
  i < output_size_ k -> within m [input1; input2; input1] i ->
  assigned sub input1 input2 input1 i m (AssignSub k input1 input2 input1 chunks m).
Proof.
  intros Hi Hin.
  assert (Hloop : meets [input1; input2; input1] (assigned sub input1 input2 input1)
                    (fun _ => True)
                    (fun start finish m => for_range start finish (AssignSub_round input1 input2) m)).
  { apply for_range_meets; [apply assigned_local | apply AssignSub_round_meets]. }
  unfold AssignSub. destruct is_float.
  - apply (ParallelLaunchAutoSearch_meets [input1; input2; input1]
             (assigned sub input1 input2 input1)); [apply assigned_local| |lia|exact Hin].
    intros start len m0 Hok. rewrite AssignSubOpt_for_range. now apply Hloop.
  - apply (ParallelLaunchAutoSearch_meets [input1; input2; input1]
             (assigned sub input1 input2 input1)); [apply assigned_local|exact Hloop|lia|exact Hin].
Qed.

End AssignProofs.


(** *** Zero divisors *)

Section Division.
Context {T : Type} `{Element T}.

(** The input positions that the four paths of [RealDiv] and
    [RealDivComplex] pair with the output position [i]. *)
Definition real_div_posA (k : ArithmeticCpuTypeFunc) (i : nat) : nat :=
  if decide (input_shape1_ k = input_shape2_ k) then i
  else if in_elements_num0_ k =? 1 then 0
  else if in_elements_num1_ k =? 1 then i
  else GetInputPosA (SetPos i (base_iter k)).

Definition real_div_posB (k : ArithmeticCpuTypeFunc) (i : nat) : nat :=
  if decide (input_shape1_ k = input_shape2_ k) then i
  else if in_elements_num0_ k =? 1 then i
  else if in_elements_num1_ k =? 1 then 0
  else GetInputPosB (SetPos i (base_iter k)).

Lemma element_task_pointwise body (input1 input2 : list T) (fix1 fix2 : bool) :
  pointwise (fun i => stored (body (read input1 (if fix1 then 0 else i))
                                   (read input2 (if fix2 then 0 else i))))
    (fun start finish out =>
       element_loop body input1 (if fix1 then 0 else start) input2 (if fix2 then 0 else start)
                    out start (finish - start) (if fix1 then 0 else 1) (if fix2 then 0 else 1)).
Proof.
  intros start finish out i. rewrite element_loop_lookup. unfold updated.
  destruct (decide (start <= i < start + (finish - start))) as [Hin|Hout].
  - rewrite decide_True by lia.
    replace (if fix1 then 0 else i)
      with ((if fix1 then 0 else start) + (i - start) * (if fix1 then 0 else 1))
      by (destruct fix1; lia).
    replace (if fix2 then 0 else i)
      with ((if fix2 then 0 else start) + (i - start) * (if fix2 then 0 else 1))
      by (destruct fix2; lia).
    reflexivity.
  - rewrite decide_False by lia. reflexivity.
Qed.

Lemma real_div_kernel_lookup body (k : ArithmeticCpuTypeFunc) (input1 input2 : list T)
    chunks out i old :
  i < output_size_ k -> out !! i = Some old ->
  real_div_kernel (element_loop body) body k input1 input2 chunks out !! i =
    Some (stored (body (read input1 (real_div_posA k i)) (read input2 (real_div_posB k i))) old).
Proof.
  intros Hi Hold. unfold real_div_kernel, real_div_posA, real_div_posB.
  destruct (decide (input_shape1_ k = input_shape2_ k)).
  { rewrite (ParallelLaunchAutoSearch_pointwise _ _ _ _ _ _
               (element_task_pointwise body input1 input2 false false)).
    unfold updated. rewrite decide_True by lia. now rewrite Hold. }
  destruct (in_elements_num0_ k =? 1).
  { rewrite (ParallelLaunchAutoSearch_pointwise _ _ _ _ _ _
               (element_task_pointwise body input1 input2 true false)).
    unfold updated. rewrite decide_True by lia. now rewrite Hold. }
  destruct (in_elements_num1_ k =? 1).
  { rewrite (ParallelLaunchAutoSearch_pointwise _ _ _ _ _ _
               (element_task_pointwise body input1 input2 false true)).
    unfold updated. rewrite decide_True by lia. now rewrite Hold. }
  rewrite (ParallelLaunchAutoSearch_pointwise _ _ _ _ _ _ (broadcast_task_pointwise body k _ _)).
  unfold updated. rewrite decide_True by lia. now rewrite Hold.
Qed.

(** What the real-typed division kernels store for a zero divisor. *)
Definition zero_divisor_result (dividend : T) : T :=
  if eqb dividend zero then quiet_NaN
  else if has_infinity
       then (if gtb dividend zero then infinity else neg infinity)
       else (if gtb dividend zero then max else min).

Lemma real_div_body_zero quotient dividend divisor old :
  eqb divisor zero = true ->
  stored (real_div_body quotient dividend divisor) old = zero_divisor_result dividend.
Proof.
  intros Hz. unfold real_div_body, zero_divisor_result. rewrite Hz.
  destruct (eqb dividend zero); [reflexivity|]. now destruct has_infinity.
Qed.

(** For a zero divisor [RealDiv], [Div] and [FloorDiv] store
    [std::numeric_limits<T>::quiet_NaN()] for a zero dividend and the signed
    infinity (or the largest and the least value of a type without
    infinity) for any other; [RealDivComplex] stores [quiet_NaN()] and
    [DivNoNan] stores 0 for any dividend. *)
Lemma division_by_zero (k : ArithmeticCpuTypeFunc) (input1 input2 : list T) chunks out i :
  i < output_size_ k -> i < length out ->
  let dividend := read input1 (GetInputPosA (SetPos i (base_iter k))) in
  let divisor := read input2 (GetInputPosB (SetPos i (base_iter k))) in
  (eqb (read input2 (real_div_posB k i)) zero = true ->
     RealDiv k input1 input2 chunks out !! i =
       Some (zero_divisor_result (read input1 (real_div_posA k i)))) /\
  (eqb (read input2 (real_div_posB k i)) zero = true ->
     RealDivComplex k input1 input2 chunks out !! i = Some quiet_NaN) /\
  (eqb divisor zero = true ->
     Div k input1 input2 chunks out !! i = Some (zero_divisor_result dividend)) /\
  (eqb divisor zero = true ->
     FloorDiv k input1 input2 chunks out !! i = Some (zero_divisor_result dividend)) /\
  (eqb divisor zero = true ->
     DivNoNan k input1 input2 chunks out !! i = Some zero).
Proof.
  intros Hi Hlen dividend divisor.
  destruct (lookup_lt_is_Some_2 out i Hlen) as [old Hold].
  repeat split; intros Hz.
  - unfold RealDiv, ElementRealDiv.
    rewrite (real_div_kernel_lookup _ k input1 input2 chunks out i old Hi Hold).
    now rewrite real_div_body_zero.
  - unfold RealDivComplex, ElementRealDivComplex.
    rewrite (real_div_kernel_lookup _ k input1 input2 chunks out i old Hi Hold).
    unfold RealDivComplex_body. now rewrite Hz.
  - unfold Div. rewrite (broadcast_kernel_lookup _ k input1 input2 chunks out i old Hi Hold).
    fold dividend divisor. now rewrite real_div_body_zero.
  - unfold FloorDiv. rewrite (broadcast_kernel_lookup _ k input1 input2 chunks out i old Hi Hold).
    fold dividend divisor. now rewrite real_div_body_zero.
  - unfold DivNoNan. rewrite (broadcast_kernel_lookup _ k input1 input2 chunks out i old Hi Hold).
    fold dividend divisor. unfold DivNoNan_body. now rewrite Hz.
Qed.

(** [DivComplex] stores NaN for 0/0, but for a non-zero dividend over 0
    it stores nothing: the output element keeps whatever it held. *)
Lemma DivComplex_by_zero (k : ArithmeticCpuTypeFunc) (input1 input2 : list T) chunks out i old :
  i < output_size_ k -> out !! i = Some old ->
  let dividend := read input1 (GetInputPosA (SetPos i (base_iter k))) in
  let divisor := read input2 (GetInputPosB (SetPos i (base_iter k))) in
  eqb divisor zero = true ->
  DivComplex k input1 input2 chunks out !! i =
    Some (if eqb dividend zero then quiet_NaN else old).
Proof.
  intros Hi Hold dividend divisor Hz.
  unfold DivComplex. rewrite (broadcast_kernel_lookup _ k input1 input2 chunks out i old Hi Hold).
  fold dividend divisor. unfold DivComplex_body. rewrite Hz.
  now destruct (eqb dividend zero).
Qed.

End Division.

(** *** The element types [double], [float], [int32_t] and [complex128] *)

(** [std::numeric_limits<double>] and [std::numeric_limits<float>]:
    [max] is the largest finite value and [min] the least positive normal
    one. *)
Definition float_limits (fmt : FP.format) : NumericLimits spec_float :=
  {| has_infinity := true;
     infinity := FP.INFINITY;
     quiet_NaN := FP.quiet_NaN;
     max := SFmax_float (FP.prec fmt) (FP.emax fmt);
     min := S754_finite false (Z.to_pos (2 ^ (FP.prec fmt - 1)))
                        (3 - FP.emax fmt - FP.prec fmt)%Z |}.

(** An element type that is a floating-point format.  [a && b] converts
    each operand to [bool] (non-zero is true) and the result back. *)
Definition float_Element (fmt : FP.format) (is_float32 : bool) : Element spec_float :=
  {| zero := FP.zero;
     eqb := FP.eqb;
     gtb := FP.gtb;
     add := FP.add fmt;
     sub := FP.sub fmt;
     mul := FP.mul fmt;
     div := FP.div fmt;
     neg := FP.opp;
     logical_and a b :=
       if negb (FP.eqb a FP.zero) && negb (FP.eqb b FP.zero) then FP.of_Z fmt 1 else FP.zero;
     to_double := FP.convert FP.binary64;
     of_double := FP.convert fmt;
     is_float := is_float32;
     is_bool := false;
     limits := float_limits fmt |}.

Definition double_Element : Element spec_float := float_Element FP.binary64 false.
Definition float32_Element : Element spec_float := float_Element FP.binary32 true.

(** [int32_t]: two's complement on 32 bits.  C++ leaves a signed overflow
    undefined; the model wraps the sum, the difference and the product
    around, as the compiled code does.  The quotient of -2^31 by -1 does
    not fit either, and the division instruction traps on it; the model
    wraps it around as well, so a statement about a quotient on [int32_t]
    holds of the code only away from that pair of operands. *)
Definition wrap32 (z : Z) : Z := ((z + 2 ^ 31) mod 2 ^ 32 - 2 ^ 31)%Z.

Definition int32_limits : NumericLimits Z :=
  {| has_infinity := false; infinity := 0%Z; quiet_NaN := 0%Z;
     max := (2 ^ 31 - 1)%Z; min := (- 2 ^ 31)%Z |}.

(** The conversion of a [double] to [int32_t] truncates toward zero; for
    a value that does not fit (or is no number) C++ leaves the result
    undefined, and the model takes the least integer, the answer of the
    x86 conversion instruction. *)
Definition double_to_int32 (d : spec_float) : Z :=
  match FP.truncate d with
  | Some z => if ((- 2 ^ 31 <=? z) && (z <? 2 ^ 31))%Z then z else (- 2 ^ 31)%Z
  | None => (- 2 ^ 31)%Z
  end.

Definition int32_Element : Element Z :=
  {| zero := 0%Z;
     eqb := Z.eqb;
     gtb := Z.gtb;
     add a b := wrap32 (a + b);
     sub a b := wrap32 (a - b);
     mul a b := wrap32 (a * b);
     div a b := wrap32 (Z.quot a b);
     neg a := wrap32 (- a);
     logical_and a b := if negb (a =? 0)%Z && negb (b =? 0)%Z then 1%Z else 0%Z;
     to_double := FP.of_Z FP.binary64;
     of_double := double_to_int32;
     is_float := false;
     is_bool := false;
     limits := int32_limits |}.

(** [complex128]: a pair of doubles, equal to another when both parts
    are.  The type and its [std::numeric_limits] are declared outside the
    sources: its limits and its operators are parameters.  The ordering
    and the conversions that the class asks for do not exist for it, and
    no kernel registered for a complex type uses them. *)
Definition complex : Type := spec_float * spec_float.

Definition complex_of_Z (re im : Z) : complex :=
  (FP.of_Z FP.binary64 re, FP.of_Z FP.binary64 im).

Definition complex_Element (lim : NumericLimits complex)
    (cadd csub cmul cdiv : complex -> complex -> complex) : Element complex :=
  {| zero := (FP.zero, FP.zero);
     eqb a b := FP.eqb a.1 b.1 && FP.eqb a.2 b.2;
     gtb a b := false;
     add := cadd;
     sub := csub;
     mul := cmul;
     div := cdiv;
     neg a := (FP.opp a.1, FP.opp a.2);
     logical_and a b := a;
     to_double := fst;
     of_double d := (d, FP.zero);
     is_float := false;
     is_bool := false;
     limits := lim |}.

(** *** Division by zero on concrete element types *)

(** [RealDiv] on [double] and on [int32_t]: 0/0, 1/0 and -1/0. *)
Lemma RealDiv_by_zero_examples chunks :
  let k := mkArithmeticCpuTypeFunc kRealDiv [3] [3] [3] in
  @RealDiv spec_float double_Element k
     [FP.of_Z FP.binary64 0; FP.of_Z FP.binary64 1; FP.of_Z FP.binary64 (-1)]
     [FP.zero; FP.zero; FP.zero] chunks [FP.zero; FP.zero; FP.zero] =
     [S754_nan; S754_infinity false; S754_infinity true] /\
  @RealDiv Z int32_Element k [0; 1; -1]%Z [0; 0; 0]%Z chunks [7; 7; 7]%Z =
     [0; 2 ^ 31 - 1; - 2 ^ 31]%Z.
Proof.
  intros k. split; apply list_eq; intros i.
  - unfold RealDiv, ElementRealDiv, real_div_kernel.
    rewrite decide_True by reflexivity.
    rewrite (ParallelLaunchAutoSearch_pointwise _ _ _ _ _ _
               (element_task_pointwise (H := double_Element) _ _ _ false false)).
    do 3 (destruct i as [|i]; [reflexivity|]). reflexivity.
  - unfold RealDiv, ElementRealDiv, real_div_kernel.
    rewrite decide_True by reflexivity.
    rewrite (ParallelLaunchAutoSearch_pointwise _ _ _ _ _ _
               (element_task_pointwise (H := int32_Element) _ _ _ false false)).
    do 3 (destruct i as [|i]; [reflexivity|]). reflexivity.
Qed.

(** What [zero_divisor_result] comes to on [float] and [double], where
    [quiet_NaN()] is a NaN, and on [int32_t], where it is 0. *)
Definition float_zero_divisor_result (dividend : spec_float) : spec_float :=
  if FP.eqb dividend FP.zero then S754_nan
  else if FP.gtb dividend FP.zero then S754_infinity false
  else S754_infinity true.

Definition int32_zero_divisor_result (dividend : Z) : Z :=
  (if dividend =? 0 then 0 else if 0 <? dividend then 2 ^ 31 - 1 else - 2 ^ 31)%Z.

(** X4. For every output element whose divisor is zero, [RealDiv], [Div]
    and [FloorDiv] store [std::numeric_limits<T>::quiet_NaN()] when the
    dividend is zero and otherwise the signed infinity (for a type without
    infinity, the largest value for a positive dividend and the least for
    any other); [RealDivComplex] stores [quiet_NaN()] and [DivNoNan] stores
    zero, whatever the dividend.  On [float] and [double] that is NaN for
    0/0, positive infinity for a positive dividend and negative infinity
    for any other, a NaN dividend included; on [int32_t], where
    [quiet_NaN()] is 0, it is 0 for 0/0, the largest [int32_t] for a
    positive dividend and the least for a negative one. *)
Theorem division_by_zero_by_type (k : ArithmeticCpuTypeFunc) chunks i :
  i < output_size_ k ->
  (forall (T : Type) (E : Element T) (input1 input2 out : list T),
     i < length out ->
     let dividend := read input1 (GetInputPosA (SetPos i (base_iter k))) in
     let divisor := read input2 (GetInputPosB (SetPos i (base_iter k))) in
     (eqb (read input2 (real_div_posB k i)) zero = true ->
        RealDiv k input1 input2 chunks out !! i =
          Some (zero_divisor_result (read input1 (real_div_posA k i)))) /\
     (eqb (read input2 (real_div_posB k i)) zero = true ->
        RealDivComplex k input1 input2 chunks out !! i = Some quiet_NaN) /\
     (eqb divisor zero = true ->
        Div k input1 input2 chunks out !! i = Some (zero_divisor_result dividend)) /\
     (eqb divisor zero = true ->
        FloorDiv k input1 input2 chunks out !! i = Some (zero_divisor_result dividend)) /\
     (eqb divisor zero = true ->
        DivNoNan k input1 input2 chunks out !! i = Some zero)) /\
  (forall fmt is_float32 dividend,
     @zero_divisor_result spec_float (float_Element fmt is_float32) dividend =
       float_zero_divisor_result dividend) /\
  (forall dividend : Z,
     @zero_divisor_result Z int32_Element dividend = int32_zero_divisor_result dividend).
Proof.
  intros Hi. split; [|split].
  - intros T E input1 input2 out Hlen.
    exact (division_by_zero k input1 input2 chunks out i Hi Hlen).
  - intros fmt is_float32 dividend. reflexivity.
  - intros dividend. unfold zero_divisor_result, int32_zero_divisor_result.
    cbn [eqb gtb zero has_infinity max min quiet_NaN limits int32_Element int32_limits].
    destruct (Z.eqb_spec dividend 0); [reflexivity|].
    unfold Z.gtb, Z.ltb. rewrite (Z.compare_antisym 0 dividend).
    destruct (0 ?= dividend)%Z; reflexivity.
Qed.

Lemma division_by_zero_by_type_witness :
  let k := mkArithmeticCpuTypeFunc kRealDiv [1] [1] [1] in
  @RealDiv spec_float double_Element k [FP.of_Z FP.binary64 1] [FP.zero] [1] [FP.zero] !! 0
    = Some (S754_infinity false).
Proof.
  intros k.
  exact (proj1 (proj1 (division_by_zero_by_type k [1] 0 ltac:(vm_compute; lia))
                  spec_float double_Element [FP.of_Z FP.binary64 1] [FP.zero] [FP.zero]
                  ltac:(simpl; lia)) eq_refl).
Defined.

(** C2 at its failing input: for the dividend [1 + 0i] and the divisor
    [0 + 0i], [DivComplex] leaves the output element as it found it,
    whatever it held and whatever NaN is for the type, while
    [RealDivComplex] stores the NaN of the type there. *)
Theorem DivComplex_nonzero_over_zero lim cadd csub cmul cdiv (prior : complex) chunks :
  let k := mkArithmeticCpuTypeFunc kDiv [1] [1] [1] in
  let E := complex_Element lim cadd csub cmul cdiv in
  @DivComplex complex E k [complex_of_Z 1 0] [complex_of_Z 0 0] chunks [prior] = [prior] /\
  @RealDivComplex complex E k [complex_of_Z 1 0] [complex_of_Z 0 0] chunks [prior] =
    [@quiet_NaN complex lim].
Proof.
  intros k E. split; apply list_eq; intros i.
  - unfold DivComplex, broadcast_kernel.
    rewrite (ParallelLaunchAutoSearch_pointwise _ _ _ _ _ _
               (broadcast_task_pointwise (H := E) _ k _ _)).
    destruct i as [|i]; reflexivity.
  - unfold RealDivComplex, ElementRealDivComplex, real_div_kernel.
    rewrite decide_True by reflexivity.
    rewrite (ParallelLaunchAutoSearch_pointwise _ _ _ _ _ _
               (element_task_pointwise (H := E) _ _ _ false false)).
    destruct i as [|i]; reflexivity.
Qed.

(** *** FloorMod *)

(** A value of the format binary32. *)
Definition float32 (m e : Z) : spec_float := FP.of_Z_exp FP.binary32 m e.

(** [double_1e_9] is the correctly rounded quotient of 1 by 10^9. *)
Lemma double_1e_9_is_rounded :
  double_1e_9 = FP.div FP.binary64 (FP.of_Z FP.binary64 1) (FP.of_Z FP.binary64 (10 ^ 9)).
Proof. vm_compute. reflexivity. Qed.

(** The result is zero or is negative exactly when the divisor is: the
    weakest reading of "has the same sign as". *)
Definition sign_agrees (r y : spec_float) : Prop :=
  FP.eqb r FP.zero = true \/ FP.ltb r FP.zero = FP.ltb y FP.zero.

(** The element [FloorMod] stores for the operands [a] and [b]. *)
Definition FloorMod_value {T : Type} `{Element T} (a b : T) : T :=
  of_double (FloorMod_double (to_double a) (to_double b)).

(** *** Exact operations on [double]

    The integers below [2^53] in magnitude are values of the format, and
    an operation whose exact result is one of them returns it.  The lemmas
    of this part establish that from the definitions of [SpecFloat], for
    the operations [FloorMod] uses. *)

Section ExactDouble.
Local Open Scope Z_scope.

(** The number of binary digits of a positive number. *)
Lemma digits2_pos_bounds (p : positive) :
  2 ^ (Zpos (digits2_pos p) - 1) <= Zpos p < 2 ^ Zpos (digits2_pos p).
Proof.
  induction p as [p IH|p IH|]; cbn [digits2_pos].
  - rewrite Pos2Z.inj_succ. replace (Z.succ (Zpos (digits2_pos p)) - 1)
      with (Z.succ (Zpos (digits2_pos p) - 1)) by lia.
    rewrite !Z.pow_succ_r by lia. lia.
  - rewrite Pos2Z.inj_succ. replace (Z.succ (Zpos (digits2_pos p)) - 1)
      with (Z.succ (Zpos (digits2_pos p) - 1)) by lia.
    rewrite !Z.pow_succ_r by lia. lia.
  - simpl. lia.
Qed.

Lemma Zdigits2_unique (m d : Z) :
  0 < d -> 2 ^ (d - 1) <= m < 2 ^ d -> Zdigits2 m = d.
Proof.
  intros Hd Hm. assert (0 < m) by (pose proof (Z.pow_pos_nonneg 2 (d - 1)); lia).
  destruct m as [|p|p]; try lia. cbn [Zdigits2].
  pose proof (digits2_pos_bounds p) as Hp.
  set (d' := Zpos (digits2_pos p)) in *.
  destruct (Z.lt_trichotomy d' d) as [Hlt|[Heq|Hgt]]; [|exact Heq|].
  - assert (2 ^ d' <= 2 ^ (d - 1)) by (apply Z.pow_le_mono_r; lia). lia.
  - assert (2 ^ d <= 2 ^ (d' - 1)) by (apply Z.pow_le_mono_r; lia). lia.
Qed.

Lemma Zdigits2_bounds (m : Z) :
  0 < m -> 0 < Zdigits2 m /\ 2 ^ (Zdigits2 m - 1) <= m < 2 ^ Zdigits2 m.
Proof.
  intros Hm. destruct m as [|p|p]; try lia. cbn [Zdigits2].
  split; [lia | apply digits2_pos_bounds].
Qed.

Lemma Zdigits2_shift (v k : Z) :
  0 < v -> 0 <= k -> Zdigits2 (v * 2 ^ k) = Zdigits2 v + k.
Proof.
  intros Hv Hk. destruct (Zdigits2_bounds v Hv) as [Hd Hb].
  apply Zdigits2_unique; [lia|].
  replace (Zdigits2 v + k - 1) with (Zdigits2 v - 1 + k) by lia.
  rewrite !Z.pow_add_r by lia.
  pose proof (Z.pow_pos_nonneg 2 k ltac:(lia) Hk). nia.
Qed.

(** [iter_pos] iterates, and [shr_1] halves an even mantissa exactly. *)
Lemma shr_1_double (m : Z) :
  0 <= m ->
  shr_1 {| shr_m := m * 2; shr_r := false; shr_s := false |} =
    {| shr_m := m; shr_r := false; shr_s := false |}.
Proof.
  intros Hm. destruct m as [|p|p]; try lia; [reflexivity|].
  replace (Zpos p * 2) with (Zpos p~0) by lia. reflexivity.
Qed.

Lemma pow2_xO (p : positive) : 2 ^ Zpos p~0 = 2 ^ Zpos p * 2 ^ Zpos p.
Proof.
  replace (Zpos p~0) with (Zpos p + Zpos p) by lia.
  apply Z.pow_add_r; lia.
Qed.

Lemma pow2_xI (p : positive) : 2 ^ Zpos p~1 = 2 ^ Zpos p * 2 ^ Zpos p * 2.
Proof.
  replace (Zpos p~1) with (Zpos p + Zpos p + 1) by lia.
  rewrite !Z.pow_add_r by lia. rewrite Z.pow_1_r. reflexivity.
Qed.

Lemma iter_shr_1_exact (p : positive) : forall m,
  0 <= m ->
  SpecFloat.iter_pos shr_1 p {| shr_m := m * 2 ^ Zpos p; shr_r := false; shr_s := false |} =
    {| shr_m := m; shr_r := false; shr_s := false |}.
Proof.
  induction p as [p IH|p IH|]; intros m Hm; cbn [SpecFloat.iter_pos].
  - rewrite pow2_xI, !Z.mul_assoc.
    pose proof (Z.pow_pos_nonneg 2 (Zpos p) ltac:(lia) ltac:(lia)).
    rewrite shr_1_double by nia. rewrite IH by nia. apply IH. exact Hm.
  - rewrite pow2_xO, !Z.mul_assoc.
    pose proof (Z.pow_pos_nonneg 2 (Zpos p) ltac:(lia) ltac:(lia)).
    rewrite IH by nia. apply IH. exact Hm.
  - rewrite Z.pow_1_r. apply shr_1_double. exact Hm.
Qed.

Lemma shr_exact (m e n : Z) :
  0 <= m -> 0 <= n ->
  shr {| shr_m := m * 2 ^ n; shr_r := false; shr_s := false |} e n =
    ({| shr_m := m; shr_r := false; shr_s := false |}, e + n).
Proof.
  intros Hm Hn. destruct n as [|p|p]; try lia; cbn [shr].
  - rewrite Z.pow_0_r, Z.mul_1_r, Z.add_0_r. reflexivity.
  - now rewrite iter_shr_1_exact.
Qed.

Lemma fexp_double (d : Z) : -1021 <= d -> fexp 53 1024 d = d - 53.
Proof. intros Hd. unfold fexp, emin. lia. Qed.

(** The value [v], between 1 and [2^53 - 1], as the format holds it: with
    a mantissa of 53 digits. *)
Definition canon (s : bool) (v : Z) : spec_float :=
  S754_finite s (Z.to_pos (v * 2 ^ (53 - Zdigits2 v))) (Zdigits2 v - 53).

Lemma canon_mantissa (v : Z) :
  0 < v < 2 ^ 53 ->
  0 < Zdigits2 v <= 53 /\
  2 ^ 52 <= v * 2 ^ (53 - Zdigits2 v) < 2 ^ 53 /\
  Zdigits2 (v * 2 ^ (53 - Zdigits2 v)) = 53.
Proof.
  intros Hv. destruct (Zdigits2_bounds v ltac:(lia)) as [Hd Hb].
  assert (Hle : Zdigits2 v <= 53).
  { destruct (Z.le_gt_cases (Zdigits2 v) 53) as [|Hgt]; [assumption|].
    assert (2 ^ 53 <= 2 ^ (Zdigits2 v - 1)) by (apply Z.pow_le_mono_r; lia). lia. }
  split; [lia|].
  assert (Hdig : Zdigits2 (v * 2 ^ (53 - Zdigits2 v)) = 53)
    by (rewrite Zdigits2_shift by lia; lia).
  split; [|exact Hdig].
  pose proof (Z.pow_pos_nonneg 2 (53 - Zdigits2 v) ltac:(lia) ltac:(lia)) as Hpos.
  destruct (Zdigits2_bounds (v * 2 ^ (53 - Zdigits2 v)) ltac:(nia)) as [_ Hb'].
  rewrite Hdig in Hb'. exact Hb'.
Qed.

(** Rounding a mantissa that holds [v] exactly, on an exponent not above
    the one of the format. *)
Lemma binary_round_aux_exact (s : bool) (m e v : Z) :
  0 < v < 2 ^ 53 -> e <= Zdigits2 v - 53 -> m = v * 2 ^ (- e) ->
  binary_round_aux 53 1024 s m e loc_Exact = canon s v.
Proof.
  intros Hv He ->.
  destruct (canon_mantissa v Hv) as (Hd & HM & HdM).
  set (d := Zdigits2 v) in *. set (M := v * 2 ^ (53 - d)) in *.
  assert (Hm : v * 2 ^ (- e) = M * 2 ^ (d - 53 - e)).
  { subst M. rewrite <- Z.mul_assoc, <- Z.pow_add_r by lia. f_equal. f_equal. lia. }
  unfold binary_round_aux, shr_fexp.
  rewrite (Zdigits2_shift v (- e)) by lia. fold d.
  rewrite fexp_double by lia.
  replace (d + - e + e - 53 - e) with (d - 53 - e) by lia.
  cbn [shr_record_of_loc]. rewrite Hm, shr_exact by lia.
  cbn [shr_m loc_of_shr_record round_nearest_even].
  rewrite HdM. rewrite fexp_double by lia.
  replace (53 + (e + (d - 53 - e)) - 53 - (e + (d - 53 - e))) with 0 by lia.
  cbn [shr_record_of_loc shr shr_m].
  unfold canon. fold d. fold M.
  destruct M as [|p|p] eqn:EM; try lia.
  replace (e + (d - 53 - e)) with (d - 53) by lia.
  destruct (Z.leb_spec (d - 53) (1024 - 53)); [reflexivity | lia].
Qed.

Lemma Pos_iter_xO (p d : positive) : Zpos (Pos.iter xO p d) = Zpos p * 2 ^ Zpos d.
Proof.
  induction d as [|d IH] using Pos.peano_ind.
  - simpl. lia.
  - rewrite Pos.iter_succ, Pos2Z.inj_succ, Z.pow_succ_r by lia.
    rewrite Pos2Z.inj_xO, IH. lia.
Qed.

(** Rounding a representation [m * 2^e] of [v] gives [v] as the format
    holds it. *)
Lemma binary_round_exact (s : bool) (m : positive) (e v : Z) :
  0 < v < 2 ^ 53 -> e <= 0 -> Zpos m = v * 2 ^ (- e) ->
  binary_round 53 1024 s m e = canon s v.
Proof.
  intros Hv He Hm.
  destruct (canon_mantissa v Hv) as (Hd & HM & HdM).
  unfold binary_round.
  change (Zpos (digits2_pos m)) with (Zdigits2 (Zpos m)).
  rewrite Hm, Zdigits2_shift by lia.
  rewrite fexp_double by lia.
  replace (Zdigits2 v + - e + e - 53) with (Zdigits2 v - 53) by lia.
  unfold shl_align.
  destruct (Zdigits2 v - 53 - e) as [|k|k] eqn:Ek.
  - apply binary_round_aux_exact; [exact Hv | lia | exact Hm].
  - apply binary_round_aux_exact; [exact Hv | lia | exact Hm].
  - apply binary_round_aux_exact; [exact Hv | lia |].
    rewrite Pos_iter_xO, Hm, <- Z.mul_assoc, <- Z.pow_add_r by lia.
    f_equal. f_equal. lia.
Qed.

(** The [double] of an integer. *)
Definition of_int (z : Z) : spec_float := FP.of_Z FP.binary64 z.

Lemma of_int_canon (z : Z) :
  z <> 0 -> Z.abs z < 2 ^ 53 -> of_int z = canon (z <? 0) (Z.abs z).
Proof.
  intros Hz Hb. unfold of_int, FP.of_Z, FP.of_Z_exp. cbn [FP.prec FP.emax FP.binary64].
  destruct z as [|p|p]; [contradiction| |]; cbn [binary_normalize].
  - apply binary_round_exact; simpl; lia.
  - apply binary_round_exact; simpl; lia.
Qed.

Lemma normalize_canon (m e v : Z) (szero : bool) :
  v <> 0 -> Z.abs v < 2 ^ 53 -> e <= 0 -> m = v * 2 ^ (- e) ->
  binary_normalize 53 1024 m e szero = canon (v <? 0) (Z.abs v).
Proof.
  intros Hv Hb He ->.
  pose proof (Z.pow_pos_nonneg 2 (- e) ltac:(lia) ltac:(lia)) as Hpos.
  destruct (v * 2 ^ (- e)) as [|p|p] eqn:Em; [nia| |]; cbn [binary_normalize].
  - assert (0 < v) by nia.
    destruct (Z.ltb_spec v 0); [lia|].
    apply binary_round_exact; [lia | exact He | lia].
  - assert (v < 0) by nia.
    destruct (Z.ltb_spec v 0); [|lia].
    apply binary_round_exact; [lia | exact He | nia].
Qed.

End ExactDouble.

Section ExactOps.
Local Open Scope Z_scope.

Lemma canon_pos (s : bool) (v : Z) :
  0 < v < 2 ^ 53 ->
  exists m : positive,
    canon s v = S754_finite s m (Zdigits2 v - 53) /\
    Zpos m = v * 2 ^ (53 - Zdigits2 v).
Proof.
  intros Hv. destruct (canon_mantissa v Hv) as (Hd & HM & _).
  unfold canon. exists (Z.to_pos (v * 2 ^ (53 - Zdigits2 v))).
  split; [reflexivity|]. rewrite Z2Pos.id by lia. reflexivity.
Qed.

(** The product of two integers, when it is below [2^53]. *)
Lemma mul_canon (sx sy : bool) (x y : Z) :
  0 < x -> 0 < y -> x * y < 2 ^ 53 ->
  FP.mul FP.binary64 (canon sx x) (canon sy y) = canon (xorb sx sy) (x * y).
Proof.
  intros Hx Hy Hxy.
  assert (Hx53 : 0 < x < 2 ^ 53) by nia. assert (Hy53 : 0 < y < 2 ^ 53) by nia.
  destruct (canon_pos sx x Hx53) as (mx & -> & Hmx).
  destruct (canon_pos sy y Hy53) as (my & -> & Hmy).
  destruct (canon_mantissa x Hx53) as (Hdx & _).
  destruct (canon_mantissa y Hy53) as (Hdy & _).
  destruct (canon_mantissa (x * y) ltac:(nia)) as (Hdxy & _).
  unfold FP.mul. cbn [FP.prec FP.emax FP.binary64 SFmul].
  apply binary_round_aux_exact; [nia| |].
  - (* the product has at least [dx + dy - 1] digits *)
    destruct (Zdigits2_bounds x ltac:(lia)) as [_ Hbx].
    destruct (Zdigits2_bounds y ltac:(lia)) as [_ Hby].
    destruct (Zdigits2_bounds (x * y) ltac:(nia)) as [_ Hbxy].
    assert (Hlow : 2 ^ (Zdigits2 x - 1 + (Zdigits2 y - 1)) <= x * y).
    { rewrite Z.pow_add_r by lia.
      pose proof (Z.pow_pos_nonneg 2 (Zdigits2 x - 1) ltac:(lia) ltac:(lia)).
      pose proof (Z.pow_pos_nonneg 2 (Zdigits2 y - 1) ltac:(lia) ltac:(lia)). nia. }
    assert (Zdigits2 x + Zdigits2 y - 2 < Zdigits2 (x * y)).
    { destruct (Z.lt_ge_cases (Zdigits2 x + Zdigits2 y - 2) (Zdigits2 (x * y))) as [|Hge];
        [assumption|].
      assert (2 ^ Zdigits2 (x * y) <= 2 ^ (Zdigits2 x - 1 + (Zdigits2 y - 1)))
        by (apply Z.pow_le_mono_r; lia). lia. }
    lia.
  - rewrite Pos2Z.inj_mul, Hmx, Hmy.
    replace (- (Zdigits2 x - 53 + (Zdigits2 y - 53)))
      with ((53 - Zdigits2 x) + (53 - Zdigits2 y)) by lia.
    rewrite Z.pow_add_r by lia. ring.
Qed.

Lemma shl_align_fst (m : positive) (e e' : Z) :
  e' <= e -> Zpos (fst (shl_align m e e')) = Zpos m * 2 ^ (e - e').
Proof.
  intros He. unfold shl_align.
  destruct (e' - e) as [|k|k] eqn:Ek; try lia; cbn [fst].
  - replace (e - e') with 0 by lia. rewrite Z.pow_0_r. lia.
  - rewrite Pos_iter_xO. f_equal. f_equal. lia.
Qed.

Lemma cond_Zopp_sign (v : Z) (m : Z) :
  v <> 0 -> cond_Zopp (v <? 0) (Z.abs v * m) = v * m.
Proof.
  intros Hv. unfold cond_Zopp. destruct (Z.ltb_spec v 0); nia.
Qed.

(** The difference of two integers. *)
Lemma sub_of_int (x y : Z) :
  x <> 0 -> y <> 0 -> Z.abs x < 2 ^ 53 -> Z.abs y < 2 ^ 53 -> Z.abs (x - y) < 2 ^ 53 ->
  FP.sub FP.binary64 (of_int x) (of_int y) = of_int (x - y).
Proof.
  intros Hx Hy Hbx Hby Hb.
  rewrite (of_int_canon x Hx Hbx), (of_int_canon y Hy Hby).
  destruct (canon_pos (x <? 0) (Z.abs x) ltac:(lia)) as (mx & -> & Hmx).
  destruct (canon_pos (y <? 0) (Z.abs y) ltac:(lia)) as (my & -> & Hmy).
  destruct (canon_mantissa (Z.abs x) ltac:(lia)) as (Hdx & _).
  destruct (canon_mantissa (Z.abs y) ltac:(lia)) as (Hdy & _).
  set (ex := Zdigits2 (Z.abs x) - 53) in *. set (ey := Zdigits2 (Z.abs y) - 53) in *.
  unfold FP.sub. cbn [FP.prec FP.emax FP.binary64 SFsub].
  set (ez := Z.min ex ey).
  rewrite !shl_align_fst by (subst ez; lia). rewrite Hmx, Hmy.
  assert (Hvx : Z.abs x * 2 ^ (53 - Zdigits2 (Z.abs x)) * 2 ^ (ex - ez) = Z.abs x * 2 ^ (- ez)).
  { rewrite <- Z.mul_assoc, <- Z.pow_add_r by (subst ez ex; lia).
    f_equal. f_equal. subst ex. lia. }
  assert (Hvy : Z.abs y * 2 ^ (53 - Zdigits2 (Z.abs y)) * 2 ^ (ey - ez) = Z.abs y * 2 ^ (- ez)).
  { rewrite <- Z.mul_assoc, <- Z.pow_add_r by (subst ez ey; lia).
    f_equal. f_equal. subst ey. lia. }
  rewrite Hvx, Hvy, !cond_Zopp_sign by assumption.
  destruct (Z.eq_dec (x - y) 0) as [Hz|Hnz].
  - replace (x * 2 ^ (- ez) - y * 2 ^ (- ez)) with 0 by nia.
    rewrite Hz. reflexivity.
  - rewrite (of_int_canon (x - y) Hnz Hb).
    apply normalize_canon; [exact Hnz | exact Hb | subst ez ex; lia | ring].
Qed.

(** The product of two integers. *)
Lemma mul_of_int (x y : Z) :
  x <> 0 -> y <> 0 -> Z.abs (x * y) < 2 ^ 53 ->
  FP.mul FP.binary64 (of_int x) (of_int y) = of_int (x * y).
Proof.
  intros Hx Hy Hb.
  rewrite (of_int_canon x Hx ltac:(nia)), (of_int_canon y Hy ltac:(nia)).
  rewrite (of_int_canon (x * y) ltac:(nia) Hb).
  rewrite mul_canon by nia.
  rewrite Z.abs_mul. f_equal.
  destruct (Z.ltb_spec x 0), (Z.ltb_spec y 0), (Z.ltb_spec (x * y) 0); simpl; try reflexivity; nia.
Qed.

(** The conversion back to [int32_t]. *)
Lemma double_to_int32_of_int (z : Z) :
  - 2 ^ 31 <= z < 2 ^ 31 -> double_to_int32 (of_int z) = z.
Proof.
  intros Hz. destruct (Z.eq_dec z 0) as [->|Hnz]; [reflexivity|].
  rewrite (of_int_canon z Hnz ltac:(lia)).
  destruct (canon_pos (z <? 0) (Z.abs z) ltac:(lia)) as (m & -> & Hm).
  destruct (canon_mantissa (Z.abs z) ltac:(lia)) as (Hd & _).
  assert (Hd32 : Zdigits2 (Z.abs z) <= 32).
  { destruct (Zdigits2_bounds (Z.abs z) ltac:(lia)) as [_ Hb].
    destruct (Z.le_gt_cases (Zdigits2 (Z.abs z)) 32) as [|Hgt]; [assumption|].
    assert (2 ^ 32 <= 2 ^ (Zdigits2 (Z.abs z) - 1)) by (apply Z.pow_le_mono_r; lia). lia. }
  unfold double_to_int32, FP.truncate.
  destruct (Z.leb_spec 0 (Zdigits2 (Z.abs z) - 53)); [lia|].
  rewrite Z.shiftr_div_pow2 by lia. rewrite Hm.
  replace (- (Zdigits2 (Z.abs z) - 53)) with (53 - Zdigits2 (Z.abs z)) by lia.
  rewrite Z.div_mul by (apply Z.pow_nonzero; lia).
  destruct (Z.ltb_spec z 0).
  - replace (- Z.abs z) with z by lia.
    destruct (Z.leb_spec (- 2 ^ 31) z), (Z.ltb_spec z (2 ^ 31)); simpl; lia.
  - replace (Z.abs z) with z by lia.
    destruct (Z.leb_spec (- 2 ^ 31) z), (Z.ltb_spec z (2 ^ 31)); simpl; lia.
Qed.

(** The comparison of the [double] of an integer with zero. *)
Lemma ltb_of_int_zero (z : Z) :
  Z.abs z < 2 ^ 53 -> FP.ltb (of_int z) FP.zero = (z <? 0).
Proof.
  intros Hb. destruct (Z.eq_dec z 0) as [->|Hnz]; [reflexivity|].
  rewrite (of_int_canon z Hnz Hb). unfold canon. now destruct (z <? 0).
Qed.

End ExactOps.

Section FloorOfQuotient.
Local Open Scope Z_scope.

(** One rounding step moves the mantissa up by at most one, and not at
    all when nothing was cut off. *)
Lemma round_nearest_even_step (m : Z) (l : location) :
  m <= round_nearest_even m l <= m + 1 /\
  (l = loc_Exact -> round_nearest_even m l = m).
Proof.
  destruct l as [|[]]; cbn [round_nearest_even]; try (split; [lia | auto; discriminate]).
  destruct (Z.even m); split; try lia; discriminate.
Qed.

Lemma loc_of_record_of_loc (m : Z) (l : location) :
  loc_of_shr_record (shr_record_of_loc m l) = l /\ shr_m (shr_record_of_loc m l) = m.
Proof. destruct l as [|[]]; split; reflexivity. Qed.

(** The second half of [binary_round_aux], on a mantissa of 53 digits or
    on [2^53]. *)
Lemma round_finish (s : bool) (M1 E : Z) :
  2 ^ 52 <= M1 <= 2 ^ 53 -> -1000 <= E <= 900 ->
  exists (M : positive) (E2 : Z),
    (let '(mrs, e2) := shr_fexp 53 1024 M1 E loc_Exact in
     match shr_m mrs with
     | Z0 => S754_zero s
     | Zpos m => if e2 <=? 1024 - 53 then S754_finite s m e2 else S754_infinity s
     | Zneg _ => S754_nan
     end) = S754_finite s M E2 /\
    E <= E2 <= E + 1 /\ Zpos M * 2 ^ (E2 - E) = M1.
Proof.
  intros HM HE. unfold shr_fexp.
  destruct (Z.eq_dec M1 (2 ^ 53)) as [->|Hne].
  - rewrite (Zdigits2_unique (2 ^ 53) 54) by lia.
    rewrite fexp_double by lia.
    replace (54 + E - 53 - E) with 1 by lia.
    cbn [shr_record_of_loc].
    change (2 ^ 53) with (2 ^ 52 * 2 ^ 1) at 1. rewrite shr_exact by lia.
    cbn [shr_m]. exists (Z.to_pos (2 ^ 52)), (E + 1).
    destruct (Z.leb_spec (E + 1) (1024 - 53)); [|lia].
    split; [reflexivity|]. split; [lia|].
    replace (E + 1 - E) with 1 by lia. reflexivity.
  - rewrite (Zdigits2_unique M1 53) by lia.
    rewrite fexp_double by lia.
    replace (53 + E - 53 - E) with 0 by lia.
    cbn [shr_record_of_loc shr shr_m].
    destruct M1 as [|p|p]; try lia.
    exists p, E. destruct (Z.leb_spec E (1024 - 53)); [|lia].
    split; [reflexivity|]. split; [lia|].
    replace (E - E) with 0 by lia. lia.
Qed.

(** Rounding a quotient mantissa of 53 or 54 digits: the result is within
    2 of it, and is the mantissa itself when it is even and nothing was
    left of the division. *)
Lemma round_near (s : bool) (q e : Z) (l : location) :
  2 ^ 52 <= q < 2 ^ 54 -> -1000 <= e <= 800 ->
  exists (M : positive) (E : Z),
    binary_round_aux 53 1024 s q e l = S754_finite s M E /\
    e <= E <= e + 2 /\
    q - 1 <= Zpos M * 2 ^ (E - e) <= q + 2 /\
    (l = loc_Exact -> Z.even q = true -> Zpos M * 2 ^ (E - e) = q).
Proof.
  intros Hq He. unfold binary_round_aux.
  destruct (Z.lt_ge_cases q (2 ^ 53)) as [Hlt|Hge].
  - (* 53 digits: no shift *)
    assert (Hs : shr_fexp 53 1024 q e l = (shr_record_of_loc q l, e)).
    { unfold shr_fexp. rewrite (Zdigits2_unique q 53) by lia.
      rewrite fexp_double by lia. replace (53 + e - 53 - e) with 0 by lia. reflexivity. }
    rewrite Hs. destruct (loc_of_record_of_loc q l) as [-> ->].
    destruct (round_nearest_even_step q l) as [Hstep Hexact].
    destruct (round_finish s (round_nearest_even q l) e ltac:(lia) ltac:(lia))
      as (M & E & -> & HE & HV).
    exists M, E. split; [reflexivity|]. split; [lia|]. split; [lia|].
    intros Hl _. rewrite HV. auto.
  - (* 54 digits: one shift *)
    assert (Hs : exists r s', shr_fexp 53 1024 q e l =
                   ({| shr_m := q / 2; shr_r := r; shr_s := s' |}, e + 1) /\
                 (l = loc_Exact -> Z.even q = true -> r = false /\ s' = false)).
    { unfold shr_fexp. rewrite (Zdigits2_unique q 54) by lia.
      rewrite fexp_double by lia. replace (54 + e - 53 - e) with 1 by lia.
      cbn [shr SpecFloat.iter_pos].
      destruct q as [|[p|p|]|p]; try lia.
      - exists true, (shr_r (shr_record_of_loc (Zpos p~1) l) || shr_s (shr_record_of_loc (Zpos p~1) l)).
        split.
        + destruct l as [|[]]; cbn [shr_record_of_loc shr_1 shr_r shr_s orb];
            (replace (Zpos p~1 / 2) with (Zpos p)
               by (apply Z.div_unique with 1; lia)); reflexivity.
        + intros _ Heven. discriminate Heven.
      - exists false, (shr_r (shr_record_of_loc (Zpos p~0) l) || shr_s (shr_record_of_loc (Zpos p~0) l)).
        split.
        + destruct l as [|[]]; cbn [shr_record_of_loc shr_1 shr_r shr_s orb];
            (replace (Zpos p~0 / 2) with (Zpos p)
               by (apply Z.div_unique with 0; lia)); reflexivity.
        + intros -> _. split; reflexivity. }
    destruct Hs as (r & s' & -> & Hexact0).
    cbn [shr_m].
    set (l' := loc_of_shr_record {| shr_m := q / 2; shr_r := r; shr_s := s' |}).
    destruct (round_nearest_even_step (q / 2) l') as [Hstep Hexact].
    assert (Hq2 : 2 ^ 52 <= q / 2 < 2 ^ 53).
    { split; [apply Z.div_le_lower_bound; lia | apply Z.div_lt_upper_bound; lia]. }
    destruct (round_finish s (round_nearest_even (q / 2) l') (e + 1) ltac:(lia) ltac:(lia))
      as (M & E & -> & HE & HV).
    exists M, E. split; [reflexivity|]. split; [lia|].
    assert (HV2 : Zpos M * 2 ^ (E - e) = round_nearest_even (q / 2) l' * 2).
    { rewrite <- HV. replace (E - e) with (E - (e + 1) + 1) by lia.
      rewrite Z.pow_add_r by lia. rewrite Z.pow_1_r. ring. }
    pose proof (Z.div_mod q 2 ltac:(lia)) as Hdm.
    pose proof (Z.mod_pos_bound q 2 ltac:(lia)) as Hmod.
    split; [lia|].
    intros Hl Heven. destruct (Hexact0 Hl Heven) as [-> ->].
    rewrite HV2, Hexact by reflexivity.
    rewrite Zeven_mod in Heven. apply Z.eqb_eq in Heven. lia.
Qed.

Lemma new_location_exact (n k : Z) : k = 0 -> new_location n k = loc_Exact.
Proof.
  intros ->. unfold new_location, new_location_even, new_location_odd.
  destruct (Z.even n); reflexivity.
Qed.

(** The core of the division of two mantissas of 53 digits. *)
Lemma div_core (mx my : positive) (ex ey : Z) :
  Zdigits2 (Zpos mx) = 53 -> Zdigits2 (Zpos my) = 53 -> -1000 <= ex - ey ->
  SFdiv_core_binary 53 1024 (Zpos mx) ex (Zpos my) ey =
    (Zpos mx * 2 ^ 53 / Zpos my, ex - ey - 53,
     new_location (Zpos my) ((Zpos mx * 2 ^ 53) mod Zpos my)).
Proof.
  intros Hdx Hdy He. unfold SFdiv_core_binary. rewrite Hdx, Hdy.
  replace (53 + ex - (53 + ey)) with (ex - ey) by lia.
  rewrite fexp_double by lia.
  rewrite Z.min_l by lia.
  replace (ex - ey - (ex - ey - 53)) with 53 by lia.
  rewrite Z.shiftl_mul_pow2 by lia.
  unfold Z.div, Z.modulo.
  destruct (Z.div_eucl (Zpos mx * 2 ^ 53) (Zpos my)) as [q r]. reflexivity.
Qed.

(** [floor] of a finite value below [2^53] in magnitude. *)
Lemma floor_finite (s : bool) (M : positive) (E : Z) :
  E < 0 ->
  FP.floor FP.binary64 (S754_finite s M E) =
    let Q := Zpos M / 2 ^ (- E) in
    if s
    then binary_normalize 53 1024 (- (if Q * 2 ^ (- E) =? Zpos M then Q else Q + 1)) 0 true
    else binary_normalize 53 1024 Q 0 false.
Proof.
  intros HE. unfold FP.floor. cbn [FP.prec FP.emax FP.binary64].
  destruct (Z.leb_spec 0 E); [lia|].
  rewrite Z.shiftr_div_pow2, Z.shiftl_mul_pow2 by lia. reflexivity.
Qed.

(** The floor of the quotient of two positive integers up to [2^31],
    under either sign. *)
Lemma floor_div_canon (sx sy : bool) (X Y : Z) :
  0 < X <= 2 ^ 31 -> 0 < Y <= 2 ^ 31 ->
  FP.floor FP.binary64 (FP.div FP.binary64 (canon sx X) (canon sy Y)) =
    if xorb sx sy
    then of_int (- (if X mod Y =? 0 then X / Y else X / Y + 1))
    else of_int (X / Y).
Proof.
  intros HX HY.
  destruct (canon_pos sx X ltac:(lia)) as (mx & -> & Hmx).
  destruct (canon_pos sy Y ltac:(lia)) as (my & -> & Hmy).
  destruct (canon_mantissa X ltac:(lia)) as (HdX & HMX & HdmX).
  destruct (canon_mantissa Y ltac:(lia)) as (HdY & HMY & HdmY).
  rewrite <- Hmx in HMX, HdmX. rewrite <- Hmy in HMY, HdmY.
  set (dX := Zdigits2 X) in *. set (dY := Zdigits2 Y) in *.
  assert (HdX32 : dX <= 32).
  { destruct (Zdigits2_bounds X ltac:(lia)) as [_ Hb]. fold dX in Hb.
    destruct (Z.le_gt_cases dX 32) as [|Hgt]; [assumption|].
    assert (2 ^ 32 <= 2 ^ (dX - 1)) by (apply Z.pow_le_mono_r; lia). lia. }
  assert (HdY32 : dY <= 32).
  { destruct (Zdigits2_bounds Y ltac:(lia)) as [_ Hb]. fold dY in Hb.
    destruct (Z.le_gt_cases dY 32) as [|Hgt]; [assumption|].
    assert (2 ^ 32 <= 2 ^ (dY - 1)) by (apply Z.pow_le_mono_r; lia). lia. }
  unfold FP.div. cbn [FP.prec FP.emax FP.binary64 SFdiv].
  rewrite div_core by (assumption || lia).
  set (e' := dX - 53 - (dY - 53) - 53).
  set (K0 := 2 ^ (- e')).
  set (c := 2 ^ (53 - dY)).
  assert (Hc : 0 < c) by (apply Z.pow_pos_nonneg; lia).
  assert (HK0 : 2 ^ 21 * Y < K0).
  { subst K0 e'. destruct (Zdigits2_bounds Y ltac:(lia)) as [_ Hb]. fold dY in Hb.
    assert (2 ^ (21 + dY) <= 2 ^ (- (dX - 53 - (dY - 53) - 53)))
      by (apply Z.pow_le_mono_r; lia).
    rewrite Z.pow_add_r in H by lia. lia. }
  assert (Hnum : Zpos mx * 2 ^ 53 = X * K0 * c).
  { rewrite Hmx. subst K0 c e'. rewrite <- !Z.mul_assoc, <- !Z.pow_add_r by lia.
    f_equal. f_equal. lia. }
  assert (Hden : Zpos my = Y * c) by (rewrite Hmy; reflexivity).
  rewrite Hnum, Hden.
  rewrite Z.div_mul_cancel_r by lia.
  rewrite Z.mul_mod_distr_r by lia.
  set (q := X * K0 / Y). set (r := (X * K0) mod Y).
  assert (Hq : 2 ^ 52 <= q < 2 ^ 54).
  { pose proof (Z.div_mul_cancel_r (X * K0) Y c ltac:(lia) ltac:(lia)) as Hqq.
    fold q in Hqq. rewrite <- Hnum, <- Hden in Hqq. rewrite <- Hqq.
    split; [apply Z.div_le_lower_bound; lia | apply Z.div_lt_upper_bound; lia]. }
  destruct (round_near (xorb sx sy) q e' (new_location (Y * c) (r * c)) Hq
              ltac:(subst e'; lia))
    as (M & E & -> & HE & HV & Hexact).
  rewrite floor_finite by (subst e'; lia). cbv zeta.
  (* in units of [2^e'] *)
  set (V := Zpos M * 2 ^ (E - e')) in *.
  assert (Hp : 0 < 2 ^ (E - e')) by (apply Z.pow_pos_nonneg; lia).
  assert (HK : 2 ^ (- E) * 2 ^ (E - e') = K0).
  { subst K0. rewrite <- Z.pow_add_r by (subst e'; lia). f_equal. lia. }
  assert (HQ : Zpos M / 2 ^ (- E) = V / K0).
  { subst V. rewrite <- HK. rewrite Z.div_mul_cancel_r; [reflexivity| |lia].
    apply Z.pow_nonzero; lia. }
  assert (Htest : (Zpos M / 2 ^ (- E) * 2 ^ (- E) =? Zpos M) = (V / K0 * K0 =? V)).
  { rewrite HQ. subst V. rewrite <- HK.
    destruct (Z.eqb_spec (Zpos M * 2 ^ (E - e') / (2 ^ (- E) * 2 ^ (E - e')) * 2 ^ (- E)) (Zpos M)),
             (Z.eqb_spec (Zpos M * 2 ^ (E - e') / (2 ^ (- E) * 2 ^ (E - e'))
                          * (2 ^ (- E) * 2 ^ (E - e'))) (Zpos M * 2 ^ (E - e')));
      try reflexivity; nia. }
  rewrite Htest, HQ.
  (* the integer quotient and remainder *)
  pose proof (Z.div_mod X Y ltac:(lia)) as HXY.
  pose proof (Z.mod_pos_bound X Y ltac:(lia)) as HR.
  set (N := X / Y) in *. set (R := X mod Y) in *.
  assert (HN : 0 <= N) by (apply Z.div_pos; lia).
  assert (Hfloor : V / K0 = N /\ (V / K0 * K0 =? V) = (R =? 0)).
  { destruct (Z.eq_dec R 0) as [HR0|HR0].
    - (* exact *)
      assert (Hq' : q = N * K0).
      { subst q. replace (X * K0) with (N * K0 * Y) by nia. apply Z.div_mul. lia. }
      assert (Hr' : r = 0).
      { subst r. replace (X * K0) with (N * K0 * Y) by nia. apply Z.mod_mul. lia. }
      assert (Heven : Z.even q = true).
      { rewrite Hq'. subst K0. replace (- e') with (Z.succ (- e' - 1)) by lia.
        rewrite Z.pow_succ_r by (subst e'; lia).
        rewrite Z.mul_assoc, (Z.mul_comm N 2), <- Z.mul_assoc. apply Z.even_mul. }
      assert (HVq : V = N * K0).
      { rewrite <- Hq'. apply Hexact; [|exact Heven].
        apply new_location_exact. rewrite Hr'. reflexivity. }
      rewrite HVq, Z.div_mul by lia. split; [reflexivity|].
      rewrite Z.eqb_refl. symmetry. apply Z.eqb_eq. exact HR0.
    - (* inexact: strictly between two integers *)
      assert (Hlow : N * K0 + 2 <= q).
      { subst q. replace (X * K0) with (R * K0 + N * K0 * Y) by nia.
        rewrite Z.div_add by lia.
        assert (2 <= R * K0 / Y) by (apply Z.div_le_lower_bound; nia). lia. }
      assert (Hhigh : q <= N * K0 + K0 - 3).
      { subst q. replace (X * K0) with (R * K0 + N * K0 * Y) by nia.
        rewrite Z.div_add by lia.
        assert (R * K0 / Y < K0 - 2) by (apply Z.div_lt_upper_bound; nia). lia. }
      assert (HVN : V / K0 = N).
      { symmetry. apply Z.div_unique with (V - N * K0); lia. }
      split; [exact HVN|]. rewrite HVN.
      destruct (Z.eqb_spec (N * K0) V), (Z.eqb_spec R 0); try reflexivity; lia. }
  destruct Hfloor as [-> ->].
  destruct (xorb sx sy).
  - unfold of_int, FP.of_Z, FP.of_Z_exp. cbn [FP.prec FP.emax FP.binary64].
    destruct (R =? 0) eqn:ER.
    + apply Z.eqb_eq in ER. assert (0 < N) by nia.
      destruct N as [|p|p]; try lia. reflexivity.
    + destruct (- (N + 1)) as [|p|p] eqn:EN; try lia. reflexivity.
  - reflexivity.
Qed.

Lemma Zdiv_signs (x y : Z) :
  x <> 0 -> y <> 0 ->
  x / y = if xorb (x <? 0) (y <? 0)
          then - (if Z.abs x mod Z.abs y =? 0 then Z.abs x / Z.abs y else Z.abs x / Z.abs y + 1)
          else Z.abs x / Z.abs y.
Proof.
  intros Hx Hy.
  destruct (Z.ltb_spec x 0), (Z.ltb_spec y 0); cbn [xorb].
  - rewrite !Z.abs_neq by lia. rewrite <- (Z.div_opp_opp x y) by lia. reflexivity.
  - rewrite (Z.abs_neq x), (Z.abs_eq y) by lia.
    replace x with (- - x) at 1 by lia.
    destruct (Z.eqb_spec (- x mod y) 0) as [Hz|Hnz].
    + rewrite Z.div_opp_l_z by lia. reflexivity.
    + rewrite Z.div_opp_l_nz by lia. lia.
  - rewrite (Z.abs_eq x), (Z.abs_neq y) by lia.
    replace y with (- - y) at 1 by lia.
    destruct (Z.eqb_spec (x mod - y) 0) as [Hz|Hnz].
    + rewrite Z.div_opp_r_z by lia. reflexivity.
    + rewrite Z.div_opp_r_nz by lia. lia.
  - rewrite !Z.abs_eq by lia. reflexivity.
Qed.

(** [floor(x / y)] in double precision, on integers that an [int32_t]
    holds, is the floor of the quotient. *)
Lemma floor_div_of_int (x y : Z) :
  x <> 0 -> y <> 0 -> Z.abs x <= 2 ^ 31 -> Z.abs y <= 2 ^ 31 ->
  FP.floor FP.binary64 (FP.div FP.binary64 (of_int x) (of_int y)) = of_int (x / y).
Proof.
  intros Hx Hy Hbx Hby.
  rewrite (of_int_canon x Hx ltac:(lia)), (of_int_canon y Hy ltac:(lia)).
  rewrite floor_div_canon by lia.
  rewrite (Zdiv_signs x y Hx Hy). now destruct (xorb (x <? 0) (y <? 0)).
Qed.

End FloorOfQuotient.

Section FloorModInt32.
Local Open Scope Z_scope.

(** The remainder [x - floor(x / y) * y] on [int32_t] operands is computed
    without any rounding error: it is the floor modulus of the integers. *)
Lemma FloorMod_res_of_int (x y : Z) :
  x <> 0 -> y <> 0 -> Z.abs x <= 2 ^ 31 -> Z.abs y <= 2 ^ 31 ->
  FloorMod_res (of_int x) (of_int y) = of_int (x mod y).
Proof.
  intros Hx Hy Hbx Hby. unfold FloorMod_res.
  rewrite floor_div_of_int by assumption.
  pose proof (Z.div_mod x y Hy) as Hdm.
  assert (Hr : Z.abs (x mod y) < Z.abs y).
  { destruct (Z.lt_ge_cases 0 y).
    - pose proof (Z.mod_pos_bound x y ltac:(lia)). lia.
    - pose proof (Z.mod_neg_bound x y ltac:(lia)). lia. }
  destruct (Z.eq_dec (x / y) 0) as [Hn|Hn].
  - rewrite Hn. rewrite (of_int_canon y Hy ltac:(lia)).
    rewrite (of_int_canon x Hx ltac:(lia)).
    replace (x mod y) with x by lia.
    rewrite (of_int_canon x Hx ltac:(lia)). reflexivity.
  - rewrite mul_of_int by (assumption || nia).
    rewrite sub_of_int by (assumption || nia).
    f_equal. lia.
Qed.

(** On [int32_t] the kernel computes the floor modulus of the integers. *)
Lemma FloorMod_int32 (x y : Z) :
  - 2 ^ 31 <= x < 2 ^ 31 -> - 2 ^ 31 <= y < 2 ^ 31 -> y <> 0 ->
  @FloorMod_value Z int32_Element x y = x mod y.
Proof.
  intros Hx Hy Hy0. unfold FloorMod_value. cbn [to_double of_double int32_Element].
  fold (of_int x). fold (of_int y).
  assert (Hr : - 2 ^ 31 <= x mod y < 2 ^ 31 /\ (x mod y <> 0 -> (x mod y <? 0) = (y <? 0))).
  { destruct (Z.lt_ge_cases 0 y).
    - pose proof (Z.mod_pos_bound x y ltac:(lia)). split; [lia|]. intros _.
      destruct (Z.ltb_spec (x mod y) 0), (Z.ltb_spec y 0); lia.
    - pose proof (Z.mod_neg_bound x y ltac:(lia)). split; [lia|]. intros Hne.
      destruct (Z.ltb_spec (x mod y) 0), (Z.ltb_spec y 0); lia. }
  destruct Hr as [Hrange Hsign].
  destruct (Z.eq_dec x 0) as [->|Hx0].
  - rewrite Z.mod_0_l by exact Hy0.
    rewrite (of_int_canon y Hy0 ltac:(lia)). unfold canon.
    destruct (y <? 0); reflexivity.
  - unfold FloorMod_double.
    rewrite FloorMod_res_of_int by lia.
    rewrite !ltb_of_int_zero by lia.
    destruct (Z.eq_dec (x mod y) 0) as [Hz|Hnz].
    + rewrite Hz. change (FP.gtb (FP.abs (of_int 0)) double_1e_9) with false.
      reflexivity.
    + rewrite (Hsign Hnz), xorb_nilpotent, andb_false_r.
      apply double_to_int32_of_int. exact Hrange.
Qed.

End FloorModInt32.

(** C6, as stated, fails: for the [float] operands x = 456141 and
    y = 14411519 * 2^-57 (the [float] nearest to 1e-10), both finite and y
    positive, the uncorrected remainder is -2^-34; its magnitude is below
    1e-9, so it is returned as it is, and the result is negative. *)
Lemma FloorMod_sign_can_disagree :
  ~ (forall x y : spec_float,
       valid_binary 24 128 x = true -> valid_binary 24 128 y = true ->
       FP.is_finite x = true -> FP.is_finite y = true -> FP.eqb y FP.zero = false ->
       sign_agrees (@FloorMod_value spec_float float32_Element x y) y).
Proof.
  intros Hall.
  specialize (Hall (float32 456141 0) (float32 14411519 (-57))
                eq_refl eq_refl eq_refl eq_refl eq_refl).
  vm_compute in Hall. destruct Hall as [Hall|Hall]; discriminate Hall.
Qed.

(** C6, amended: every element the kernel stores is, computed in double
    precision, [res = x - floor(x/y)*y], to which [y] is added when
    [|res| > 1e-9] and [res] and [y] disagree in being negative; a
    remainder of magnitude at most 1e-9 is stored as it is, whatever its
    sign, so on floating operands the sign of the result need not be that
    of [y]; FloorMod(-7,3) is 2 and FloorMod(7,-3) is -2, on [int32_t] and
    on [float]; and on [int32_t] operands, whatever they are, with [y]
    other than 0, no operation of the computation rounds and the result is
    the floor modulus of the integers: zero, or of the sign of [y]. *)
Theorem FloorMod_spec :
  (forall (T : Type) (E : Element T) (k : ArithmeticCpuTypeFunc) (input1 input2 : list T)
          chunks out i,
     (i < output_size_ k)%nat -> (i < length out)%nat ->
     FloorMod k input1 input2 chunks out !! i =
       Some (FloorMod_value (read input1 (GetInputPosA (SetPos i (base_iter k))))
                            (read input2 (GetInputPosB (SetPos i (base_iter k)))))) /\
  (forall x y : spec_float,
     let res := FP.sub FP.binary64 x
                  (FP.mul FP.binary64 (FP.floor FP.binary64 (FP.div FP.binary64 x y)) y) in
     (FP.gtb (FP.abs res) double_1e_9 = true ->
      FP.ltb res FP.zero <> FP.ltb y FP.zero ->
      FloorMod_double x y = FP.add FP.binary64 res y) /\
     (FP.gtb (FP.abs res) double_1e_9 = true ->
      FP.ltb res FP.zero = FP.ltb y FP.zero ->
      FloorMod_double x y = res) /\
     (FP.gtb (FP.abs res) double_1e_9 = false -> FloorMod_double x y = res)) /\
  @FloorMod_value Z int32_Element (-7)%Z 3%Z = 2%Z /\
  @FloorMod_value Z int32_Element 7%Z (-3)%Z = (-2)%Z /\
  @FloorMod_value spec_float float32_Element (float32 (-7) 0) (float32 3 0) = float32 2 0 /\
  @FloorMod_value spec_float float32_Element (float32 7 0) (float32 (-3) 0) = float32 (-2) 0 /\
  (forall x y : Z,
     (- 2 ^ 31 <= x < 2 ^ 31)%Z -> (- 2 ^ 31 <= y < 2 ^ 31)%Z -> y <> 0%Z ->
     @FloorMod_value Z int32_Element x y = (x mod y)%Z /\
     (x mod y = 0 \/ (x mod y < 0 <-> y < 0))%Z).
Proof.
  split.
  { intros T E k input1 input2 chunks out i Hi Hlen.
    destruct (lookup_lt_is_Some_2 out i Hlen) as [old Hold].
    unfold FloorMod.
    now rewrite (broadcast_kernel_lookup _ k input1 input2 chunks out i old Hi Hold). }
  split.
  { intros x y res. unfold FloorMod_double, FloorMod_res. fold res.
    repeat split.
    - intros -> Hs. destruct (FP.ltb res FP.zero), (FP.ltb y FP.zero); simpl; congruence.
    - intros -> ->. now destruct (FP.ltb y FP.zero).
    - intros ->. reflexivity. }
  split; [vm_compute; reflexivity|].
  split; [vm_compute; reflexivity|].
  split; [vm_compute; reflexivity|].
  split; [vm_compute; reflexivity|].
  intros x y Hx Hy Hy0. split; [exact (FloorMod_int32 x y Hx Hy Hy0)|].
  destruct (Z.lt_ge_cases 0 y).
  - pose proof (Z.mod_pos_bound x y ltac:(lia)). lia.
  - pose proof (Z.mod_neg_bound x y ltac:(lia)). lia.
Qed.

(** *** The element type [bool] *)

(** Arithmetic on [bool] promotes to [int] and converts the result back:
    a sum is true when an operand is, a product when both are.
    [std::numeric_limits<bool>] has no infinity and no NaN (both read as
    [false]). *)
#[export] Instance bool_limits : NumericLimits bool :=
  {| has_infinity := false; infinity := false; quiet_NaN := false; max := true; min := false |}.

#[export] Instance bool_Element : Element bool :=
  {| zero := false;
     eqb := Bool.eqb;
     gtb a b := a && negb b;
     add := orb;
     sub := xorb;
     mul := andb;
     div a b := a;
     neg a := a;
     logical_and := andb;
     to_double b := if b then FP.of_Z FP.binary64 1 else FP.zero;
     of_double d := negb (FP.eqb d FP.zero);
     is_float := false;
     is_bool := true;
     limits := bool_limits |}.

(** C10: [Mul] at [bool], an element type its registration lists, takes
    the broadcast path whatever the shapes are, and every element of the
    output range is the logical AND of the two input elements the
    broadcast iterator pairs with it. *)
Theorem Mul_bool_is_logical_and ElementMul ElementOptMul (k : ArithmeticCpuTypeFunc)
    (input1 input2 : list bool) chunks (out : list bool) i :
  i < output_size_ k -> i < length out ->
  binary_attr kNumberTypeBool ∈ kernel_attr_list kMul /\
  Mul ElementMul ElementOptMul k input1 input2 chunks out !! i =
    Some (read input1 (GetInputPosA (SetPos i (base_iter k)))
          && read input2 (GetInputPosB (SetPos i (base_iter k)))).
Proof.
  intros Hi Hlen. split.
  - unfold kernel_attr_list. rewrite decide_True by reflexivity.
    apply list_elem_of_fmap. exists kNumberTypeBool. split; [reflexivity|].
    set_solver.
  - destruct (lookup_lt_is_Some_2 out i Hlen) as [old Hold].
    unfold Mul. cbn [is_float bool_Element andb].
    pose proof (broadcast_kernel_lookup Mul_body k input1 input2 chunks out i old Hi Hold) as Hb.
    unfold broadcast_kernel in Hb. rewrite Hb. reflexivity.
Qed.

Lemma Mul_bool_is_logical_and_witness :
  let k := mkArithmeticCpuTypeFunc kMul [2; 1] [1; 2] [2; 2] in
  Mul (fun _ _ _ _ out _ _ => out) (fun _ _ _ _ _ out _ _ => out) k
      [true; false] [true; false] [3; 1] [false; false; false; true] =
    [true; false; false; false].
Proof.
  cbv zeta.
  apply list_eq. intros i.
  destruct (decide (i < 4)) as [Hi|Hi].
  - pose proof (fun H1 H2 => proj2 (Mul_bool_is_logical_and
       (fun _ _ _ _ out _ _ => out) (fun _ _ _ _ _ out _ _ => out)
       (mkArithmeticCpuTypeFunc kMul [2; 1] [1; 2] [2; 2])
       [true; false] [true; false] [3; 1] [false; false; false; true] i H1 H2)) as Hm.
    rewrite Hm by (simpl; lia).
    do 4 (destruct i as [|i]; [reflexivity|]). lia.
  - do 4 (destruct i as [|i]; [lia|]). reflexivity.
Defined.

(** *** The fast paths of [RealDiv] against the broadcast loop *)

(** The output shape is the broadcast of the two input shapes, all three
    of one rank: each input dimension is the output dimension or 1, and
    the output dimension is one of the two. *)
Definition broadcast_of (shape1 shape2 output_shape : list nat) : Prop :=
  Forall3 (fun a b o => (a = o \/ a = 1) /\ (b = o \/ b = 1) /\ (o = a \/ o = b))
          shape1 shape2 output_shape.

Lemma SizeOf_app l1 l2 : SizeOf (l1 ++ l2) = SizeOf l1 * SizeOf l2.
Proof.
  unfold SizeOf. induction l1 as [|a l1 IH]; simpl; [lia|]. rewrite IH. lia.
Qed.

Lemma SizeOf_reverse l : SizeOf (reverse l) = SizeOf l.
Proof.
  induction l as [|a l IH]; [reflexivity|].
  rewrite reverse_cons, SizeOf_app, IH. unfold SizeOf. simpl. lia.
Qed.

Lemma SizeOf_1 l : SizeOf l = 1 -> Forall (eq 1) l.
Proof.
  unfold SizeOf. induction l as [|a l IH]; simpl; intros Hs; [constructor|].
  apply Nat.eq_mul_1 in Hs. destruct Hs as [-> Hl]. constructor; auto.
Qed.

Lemma input_pos_same rev_dims : forall pos stride,
  Forall (fun p : nat * nat => p.1 = p.2) rev_dims ->
  pos < SizeOf (rev_dims.*2) ->
  input_pos rev_dims pos stride = pos * stride.
Proof.
  induction rev_dims as [|[a o] l IH]; intros pos stride Hsame Hpos.
  - unfold SizeOf in Hpos. simpl in *. lia.
  - inversion Hsame as [|? ? Hao Hl]; subst. simpl in Hao. subst a.
    change (SizeOf (((o, o) :: l).*2)) with (o * SizeOf (l.*2)) in Hpos.
    assert (Ho : o <> 0) by (intros ->; lia).
    cbn [input_pos].
    rewrite IH; [|exact Hl|apply Nat.Div0.div_lt_upper_bound; lia].
    pose proof (Nat.div_mod_eq pos o) as Hdm.
    destruct (Nat.eqb_spec o 1) as [->|Hne].
    + rewrite Nat.div_1_r. lia.
    + nia.
Qed.

Lemma input_pos_ones rev_dims : forall pos stride,
  Forall (fun p : nat * nat => p.1 = 1) rev_dims ->
  input_pos rev_dims pos stride = 0.
Proof.
  induction rev_dims as [|[a o] l IH]; intros pos stride Hones; [reflexivity|].
  inversion Hones as [|? ? Ha Hl]; subst. simpl in Ha. subst a.
  cbn [input_pos]. rewrite IH by exact Hl. reflexivity.
Qed.

Lemma zip_same_Forall (l : list nat) : Forall (fun p : nat * nat => p.1 = p.2) (zip l l).
Proof. induction l; simpl; constructor; auto. Qed.

Lemma zip_same_snd (l : list nat) : (zip l l).*2 = l.
Proof. induction l as [|a l IH]; [reflexivity|]. cbn [zip zip_with fmap list_fmap snd]. f_equal. exact IH. Qed.

Lemma zip_ones_Forall (l o : list nat) :
  Forall (eq 1) l -> Forall (fun p : nat * nat => p.1 = 1) (zip l o).
Proof.
  intros Hl. revert o. induction Hl as [|a l Ha Hl IH]; intros [|b o]; simpl; constructor; auto.
Qed.

(** The iterator at an input of the shape of the output reads the
    output position itself. *)
Lemma input_pos_full_shape (o : list nat) pos :
  pos < SizeOf o -> input_pos (reverse (zip o o)) pos 1 = pos.
Proof.
  intros Hpos. rewrite input_pos_same; [lia| |].
  - apply Forall_reverse, zip_same_Forall.
  - rewrite fmap_reverse, SizeOf_reverse, zip_same_snd. exact Hpos.
Qed.

(** The iterator at an input of one element reads position 0. *)
Lemma input_pos_single (l o : list nat) pos :
  Forall (eq 1) l -> input_pos (reverse (zip l o)) pos 1 = 0.
Proof.
  intros Hl. apply input_pos_ones, Forall_reverse, zip_ones_Forall, Hl.
Qed.

Lemma broadcast_of_same shape1 shape2 o :
  broadcast_of shape1 shape2 o -> shape1 = shape2 -> o = shape1.
Proof.
  intros Hb. induction Hb as [|a b c l1 l2 l3 (Ha & Hb' & Hc) Hrest IH]; [reflexivity|].
  intros [= -> Hl]. f_equal; [lia | auto].
Qed.

Lemma broadcast_of_ones_l shape1 shape2 o :
  broadcast_of shape1 shape2 o -> Forall (eq 1) shape1 -> o = shape2.
Proof.
  intros Hb. induction Hb as [|a b c l1 l2 l3 (Ha & Hb' & Hc) Hrest IH]; [reflexivity|].
  intros Hones. inversion Hones as [|? ? H1 Hl]; subst. f_equal; [lia | auto].
Qed.

Lemma broadcast_of_ones_r shape1 shape2 o :
  broadcast_of shape1 shape2 o -> Forall (eq 1) shape2 -> o = shape1.
Proof.
  intros Hb. induction Hb as [|a b c l1 l2 l3 (Ha & Hb' & Hc) Hrest IH]; [reflexivity|].
  intros Hones. inversion Hones as [|? ? H1 Hl]; subst. f_equal; [lia | auto].
Qed.

Lemma pad_shape_ones shape rank : Forall (eq 1) shape -> Forall (eq 1) (pad_shape shape rank).
Proof.
  intros Hs. unfold pad_shape. apply Forall_app. split; [|exact Hs].
  apply Forall_replicate. reflexivity.
Qed.

Section FastPaths.
Context {T : Type} `{Element T}.

Lemma updated_ext (g1 g2 : nat -> T -> T) lo hi (out : list T) i :
  (forall j old, lo <= j < hi -> g1 j old = g2 j old) ->
  updated g1 lo hi out i = updated g2 lo hi out i.
Proof.
  intros Hg. unfold updated. destruct (decide (lo <= i < hi)) as [Hin|_]; [|reflexivity].
  destruct (out !! i) as [old|]; simpl; [|reflexivity]. now rewrite Hg.
Qed.

Lemma real_div_kernel_updated body (k : ArithmeticCpuTypeFunc) (input1 input2 : list T)
    chunks out i :
  real_div_kernel (element_loop body) body k input1 input2 chunks out !! i =
    updated (fun i => stored (body (read input1 (real_div_posA k i))
                                   (read input2 (real_div_posB k i))))
            0 (output_size_ k) out i.
Proof.
  unfold real_div_kernel, real_div_posA, real_div_posB.
  destruct (decide (input_shape1_ k = input_shape2_ k)).
  { apply (ParallelLaunchAutoSearch_pointwise _ _ _ _ _ _
             (element_task_pointwise body input1 input2 false false)). }
  destruct (in_elements_num0_ k =? 1).
  { apply (ParallelLaunchAutoSearch_pointwise _ _ _ _ _ _
             (element_task_pointwise body input1 input2 true false)). }
  destruct (in_elements_num1_ k =? 1).
  { apply (ParallelLaunchAutoSearch_pointwise _ _ _ _ _ _
             (element_task_pointwise body input1 input2 false true)). }
  apply (ParallelLaunchAutoSearch_pointwise _ _ _ _ _ _ (broadcast_task_pointwise body k _ _)).
Qed.

Lemma broadcast_kernel_updated body (k : ArithmeticCpuTypeFunc) (input1 input2 : list T)
    chunks out i :
  broadcast_kernel body k input1 input2 chunks out !! i =
    updated (fun i => stored (body (read input1 (GetInputPosA (SetPos i (base_iter k))))
                                   (read input2 (GetInputPosB (SetPos i (base_iter k))))))
            0 (output_size_ k) out i.
Proof.
  apply (ParallelLaunchAutoSearch_pointwise _ _ _ _ _ _ (broadcast_task_pointwise body k _ _)).
Qed.

(** Under a broadcast output shape, the positions that the fast paths read
    are the positions of the iterator. *)
Lemma real_div_pos_iterator name shape1 shape2 out_shape i :
  let k := mkArithmeticCpuTypeFunc name shape1 shape2 out_shape in
  broadcast_of (input_shape1_ k) (input_shape2_ k) (kernel_output_shape_ k) ->
  i < output_size_ k ->
  real_div_posA k i = GetInputPosA (SetPos i (base_iter k)) /\
  real_div_posB k i = GetInputPosB (SetPos i (base_iter k)).
Proof.
  intros k Hb Hi. unfold real_div_posA, real_div_posB, GetInputPosA, GetInputPosB.
  cbn [SetPos base_iter mkBroadcastIterator input_shape_a_ input_shape_b_ output_shape_ pos_].
  assert (Hsize : output_size_ k = SizeOf (kernel_output_shape_ k)) by reflexivity.
  destruct (decide (input_shape1_ k = input_shape2_ k)) as [Heq|Hne].
  { pose proof (broadcast_of_same _ _ _ Hb Heq) as Ho.
    rewrite <- Heq, <- Ho. rewrite input_pos_full_shape by lia. auto. }
  destruct (Nat.eqb_spec (in_elements_num0_ k) 1) as [H1|_].
  { assert (Hones : Forall (eq 1) (input_shape1_ k)) by (apply pad_shape_ones, SizeOf_1, H1).
    pose proof (broadcast_of_ones_l _ _ _ Hb Hones) as Ho.
    rewrite input_pos_single by exact Hones.
    rewrite <- Ho. rewrite input_pos_full_shape by lia. auto. }
  destruct (Nat.eqb_spec (in_elements_num1_ k) 1) as [H2|_]; [|auto].
  assert (Hones : Forall (eq 1) (input_shape2_ k)) by (apply pad_shape_ones, SizeOf_1, H2).
  pose proof (broadcast_of_ones_r _ _ _ Hb Hones) as Ho.
  rewrite (input_pos_single (input_shape2_ k)) by exact Hones.
  rewrite <- Ho. rewrite input_pos_full_shape by lia. auto.
Qed.

Lemma real_div_kernel_broadcast body name shape1 shape2 out_shape (input1 input2 : list T)
    chunks chunks' out :
  let k := mkArithmeticCpuTypeFunc name shape1 shape2 out_shape in
  broadcast_of (input_shape1_ k) (input_shape2_ k) (kernel_output_shape_ k) ->
  real_div_kernel (element_loop body) body k input1 input2 chunks out =
  broadcast_kernel body k input1 input2 chunks' out.
Proof.
  intros k Hb. subst k. apply list_eq. intros i.
  rewrite real_div_kernel_updated, broadcast_kernel_updated.
  apply updated_ext. intros j old Hj.
  destruct (real_div_pos_iterator name shape1 shape2 out_shape j Hb (proj2 Hj)) as [-> ->].
  reflexivity.
Qed.

(** X5. When the output shape is the broadcast of the two input shapes,
    the three fast paths of [RealDiv] (equal shapes, a first input of one
    element, a second input of one element) compute what its loop over
    the broadcast iterator computes: [RealDiv] and [Div] leave the same
    output, and so do [RealDivComplex] and its general loop, however the
    range is split among the threads. *)
Theorem RealDiv_fast_paths_agree name shape1 shape2 out_shape (input1 input2 : list T)
    chunks chunks' out :
  let k := mkArithmeticCpuTypeFunc name shape1 shape2 out_shape in
  broadcast_of (input_shape1_ k) (input_shape2_ k) (kernel_output_shape_ k) ->
  RealDiv k input1 input2 chunks out = Div k input1 input2 chunks' out /\
  RealDivComplex k input1 input2 chunks out =
    broadcast_kernel RealDivComplex_body k input1 input2 chunks' out.
Proof.
  intros k Hb. split.
  - apply (real_div_kernel_broadcast (real_div_body div)). exact Hb.
  - apply (real_div_kernel_broadcast RealDivComplex_body). exact Hb.
Qed.

End FastPaths.

Lemma RealDiv_fast_paths_agree_witness :
  let k := mkArithmeticCpuTypeFunc kRealDiv [] [2; 3] [2; 3] in
  @RealDiv Z int32_Element k [12]%Z [1; 2; 3; 4; 5; 6]%Z [6] (replicate 6 0%Z) =
  @Div Z int32_Element k [12]%Z [1; 2; 3; 4; 5; 6]%Z [2; 4] (replicate 6 0%Z).
Proof.
  intros k.
  assert (Hb : broadcast_of (input_shape1_ k) (input_shape2_ k) (kernel_output_shape_ k)).
  { unfold broadcast_of. subst k. cbn. repeat (apply Forall3_cons; [lia|]). apply Forall3_nil. }
  exact (proj1 (@RealDiv_fast_paths_agree Z int32_Element kRealDiv [] [2; 3] [2; 3]
                  [12]%Z [1; 2; 3; 4; 5; 6]%Z [6] [2; 4] (replicate 6 0%Z) Hb)).
Defined.

(** *** What the assign kernels leave alone *)

Section AssignFrame.
Context {T : Type} `{Element T}.
Implicit Types m : gmap nat (list T).

(** Element [j] of every buffer other than [ps] is as it was. *)
Definition untouched (ps : list nat) (j : nat) m m' : Prop :=
  forall p, p ∉ ps -> load m' p j = load m p j.

Lemma untouched_local ps : local (untouched ps).
Proof.
  intros j m1 m1' m2 m2' Hm Hm' Hu p Hp. rewrite <- Hm, <- Hm'. now apply Hu.
Qed.

Lemma AssignAdd_round_untouched input1 input2 out :
  meets [] (untouched [input1; out]) (eq 1)
        (fun start _ => AssignAdd_round input1 input2 out start).
Proof.
  intros start len m <-. unfold AssignAdd_round. split; [|split].
  - intros p. now rewrite !buffer_length_store_at.
  - intros p j Hj. rewrite !load_store_at.
    rewrite decide_False by lia. rewrite decide_False by lia. reflexivity.
  - intros j Hj _ p Hp. rewrite !elem_of_cons in Hp. rewrite !load_store_at.
    rewrite decide_False by (intros (-> & _); auto).
    rewrite decide_False by (intros (-> & _); auto). reflexivity.
Qed.

Lemma AssignSub_round_untouched input1 input2 :
  meets [] (untouched [input1]) (eq 1) (fun start _ => AssignSub_round input1 input2 start).
Proof.
  intros start len m <-. unfold AssignSub_round. split; [|split].
  - intros p. now rewrite buffer_length_store_at.
  - intros p j Hj. rewrite load_store_at. rewrite decide_False by lia. reflexivity.
  - intros j Hj _ p Hp. rewrite !elem_of_cons in Hp. rewrite load_store_at.
    rewrite decide_False by (intros (-> & _); auto). reflexivity.
Qed.

Lemma frame_of_range_spec ps count m m' :
  range_spec [] (untouched ps) 0 count m m' ->
  (forall p, buffer_length m' p = buffer_length m p) /\
  (forall p j, p ∉ ps \/ count <= j -> load m' p j = load m p j).
Proof.
  intros (Hlen & Hframe & Hspec). split; [exact Hlen|].
  intros p j Hpj. destruct (decide (j < count)) as [Hlt|Hge].
  - destruct Hpj as [Hp|Hj]; [|lia].
    apply (Hspec j); [lia| |exact Hp]. intros q Hq. now apply not_elem_of_nil in Hq.
  - apply Hframe. lia.
Qed.

Lemma AssignAdd_frame (k : ArithmeticCpuTypeFunc) input1 input2 out chunks m :
  let m' := AssignAdd k input1 input2 out chunks m in
  (forall p, buffer_length m' p = buffer_length m p) /\
  (forall p j, p ∉ [input1; out] \/ output_size_ k <= j -> load m' p j = load m p j).
Proof.
  intros m'. apply frame_of_range_spec. subst m'. unfold AssignAdd.
  apply ParallelLaunchAutoSearch_meets; [apply untouched_local|].
  apply for_range_meets; [apply untouched_local | apply AssignAdd_round_untouched].
Qed.

Lemma AssignSub_frame (k : ArithmeticCpuTypeFunc) input1 input2 out chunks m :
  let m' := AssignSub k input1 input2 out chunks m in
  (forall p, buffer_length m' p = buffer_length m p) /\
  (forall p j, p ∉ [input1] \/ output_size_ k <= j -> load m' p j = load m p j).
Proof.
  intros m'. apply frame_of_range_spec. subst m'.
  assert (Hloop : meets [] (untouched [input1]) (fun _ => True)
                    (fun start finish m => for_range start finish (AssignSub_round input1 input2) m)).
  { apply for_range_meets; [apply untouched_local | apply AssignSub_round_untouched]. }
  unfold AssignSub. destruct is_float.
  - apply ParallelLaunchAutoSearch_meets; [apply untouched_local|].
    intros start len m0 Hok. rewrite AssignSubOpt_for_range. now apply Hloop.
  - apply ParallelLaunchAutoSearch_meets; [apply untouched_local | exact Hloop].
Qed.

(** X6. A launch of [AssignAdd] or of [AssignSub] keeps the length of
    every buffer and leaves every element from [output_size_] on as it
    was.  [AssignAdd] changes no buffer other than the first input and
    the output; [AssignSub] changes no buffer other than the first input:
    an output buffer that is not the buffer of the first input is left
    unwritten. *)
Theorem Assign_kernels_frame (k : ArithmeticCpuTypeFunc) compute_func_ input1 input2 output
    chunks m :
  let m' := RunFunc k compute_func_ input1 input2 output chunks m in
  (kernel_name_ k = kAssignAdd ->
     (forall p, buffer_length m' p = buffer_length m p) /\
     (forall p j, (p <> input1 /\ p <> output) \/ output_size_ k <= j ->
        load m' p j = load m p j)) /\
  (kernel_name_ k = kAssignSub ->
     (forall p, buffer_length m' p = buffer_length m p) /\
     (forall p j, p <> input1 \/ output_size_ k <= j -> load m' p j = load m p j)).
Proof.
  intros m'. subst m'. unfold RunFunc.
  destruct (Nat.eqb_spec (output_size_ k) 0) as [H0|_]; [split; intros _; auto|].
  split; intros Hname; rewrite Hname.
  - rewrite decide_True by reflexivity.
    destruct (AssignAdd_frame k input1 input2 output chunks m) as [Hlen Hframe].
    split; [exact Hlen|]. intros p j Hpj. apply Hframe.
    destruct Hpj as [[H1 H2]|Hj]; [left|right; exact Hj].
    rewrite !elem_of_cons. intros [->|[->|Hp]]; auto. now apply not_elem_of_nil in Hp.
  - rewrite (decide_False (P := kAssignSub = kAssignAdd)) by discriminate.
    rewrite decide_True by reflexivity.
    destruct (AssignSub_frame k input1 input2 output chunks m) as [Hlen Hframe].
    split; [exact Hlen|]. intros p j Hpj. apply Hframe.
    destruct Hpj as [H1|Hj]; [left|right; exact Hj].
    rewrite !elem_of_cons. intros [->|Hp]; auto. now apply not_elem_of_nil in Hp.
Qed.

End AssignFrame.

(** *** What the assign kernels write *)

(** C5, as stated, fails for [AssignSub]: launched on [int32_t] buffers
    [10, 20] and [1, 2] with an output buffer [0, 0] of its own, it leaves
    9 in the first element of the first input and the output buffer as it
    was. *)
Lemma AssignSub_does_not_write_output :
  ~ (forall (k : ArithmeticCpuTypeFunc) input1 input2 output chunks (m : gmap nat (list Z)) i,
       kernel_name_ k = kAssignAdd \/ kernel_name_ k = kAssignSub ->
       i < output_size_ k -> @within Z m [input1; input2; output] i ->
       let op := if decide (kernel_name_ k = kAssignAdd)
                 then @add Z int32_Element else @sub Z int32_Element in
       let m' := @RunFunc Z int32_Element k (fun _ _ _ m => m) input1 input2 output chunks m in
       @load Z int32_Element m' input1 i
         = op (@load Z int32_Element m input1 i) (@load Z int32_Element m input2 i) /\
       @load Z int32_Element m' output i
         = op (@load Z int32_Element m input1 i) (@load Z int32_Element m input2 i)).
Proof.
  intros Hall.
  specialize (Hall (mkArithmeticCpuTypeFunc kAssignSub [2] [2] [2]) 1 2 3 [1; 1]
                {[ 1 := [10; 20]%Z; 2 := [1; 2]%Z; 3 := [0; 0]%Z ]} 0
                (or_intror eq_refl) ltac:(simpl; lia)).
  assert (Hin : @within Z {[ 1 := [10; 20]%Z; 2 := [1; 2]%Z; 3 := [0; 0]%Z ]} [1; 2; 3] 0).
  { intros p Hp. rewrite !elem_of_cons in Hp.
    destruct Hp as [->|[->|[->|Hp]]]; [vm_compute; lia ..|].
    now apply not_elem_of_nil in Hp. }
  destruct (Hall Hin) as [_ Hout]. vm_compute in Hout. discriminate Hout.
Qed.

Section AssignWrites.
Context {T : Type} `{Element T}.

(** C5, amended: for every element position below [output_size_] that
    lies inside the buffers, [AssignAdd] and [AssignSub] leave in the
    first input the sum, respectively the difference, of the two input
    elements.  [AssignAdd] stores the same value in the output.
    [AssignSub] does not write the output: an output buffer that is not
    the buffer of the first input keeps what it held; every registration
    of [AssignSub] carries [AddOutInRef(0, 0)], and at addresses that
    honour it the output is the first input and so holds the new value. *)
Theorem Assign_writes (k : ArithmeticCpuTypeFunc) compute_func_ (input1 input2 output : nat)
    chunks (m : gmap nat (list T)) (i : nat) :
  i < output_size_ k ->
  within m [input1; input2; output] i ->
  let m' := RunFunc k compute_func_ input1 input2 output chunks m in
  (kernel_name_ k = kAssignAdd ->
     load m' input1 i = add (load m input1 i) (load m input2 i) /\
     load m' output i = add (load m input1 i) (load m input2 i)) /\
  (kernel_name_ k = kAssignSub ->
     load m' input1 i = sub (load m input1 i) (load m input2 i) /\
     (output <> input1 -> load m' output i = load m output i) /\
     (forall attr, attr ∈ kernel_attr_list kAssignSub ->
        honours_refs attr [input1; input2] [output] ->
        output = input1 /\
        load m' output i = sub (load m input1 i) (load m input2 i))).
Proof.
  intros Hi Hin m'. subst m'. unfold RunFunc.
  destruct (Nat.eqb_spec (output_size_ k) 0) as [H0|_]; [lia|].
  split; intros Hname; rewrite Hname.
  - rewrite decide_True by reflexivity. now apply AssignAdd_assigns.
  - rewrite (decide_False (P := kAssignSub = kAssignAdd)) by discriminate.
    rewrite decide_True by reflexivity.
    assert (Hin1 : within m [input1; input2; input1] i).
    { intros p Hp. apply Hin. rewrite !elem_of_cons in Hp. rewrite !elem_of_cons.
      destruct Hp as [->|[->|[->|Hp]]]; auto. }
    destruct (AssignSub_assigns k input1 input2 chunks m i Hi Hin1) as [Hsub _].
    change (AssignSub k input1 input2 input1 chunks m)
      with (AssignSub k input1 input2 output chunks m) in Hsub.
    split; [exact Hsub|]. split.
    + intros Hne.
      destruct (AssignSub_frame k input1 input2 output chunks m) as [_ Hframe].
      apply Hframe. left. rewrite elem_of_cons. intros [->|Hp]; [contradiction|].
      now apply not_elem_of_nil in Hp.
    + intros attr Hattr Hrefs.
      assert (output = input1) as ->; [|split; [reflexivity | exact Hsub]].
      unfold kernel_attr_list in Hattr.
      rewrite decide_False in Hattr by discriminate.
      rewrite decide_False in Hattr by discriminate.
      rewrite decide_True in Hattr by reflexivity.
      apply list_elem_of_fmap in Hattr. destruct Hattr as (t & -> & _).
      destruct (Hrefs 0 0) as [Heq _]; [simpl; apply list_elem_of_singleton; reflexivity|].
      simpl in Heq. now inversion Heq.
Qed.

End AssignWrites.

Lemma Assign_writes_witness :
  let m : gmap nat (list Z) := {[ 1 := [10; 20]%Z; 2 := [1; 2]%Z; 3 := [0; 0]%Z ]} in
  let m' := @RunFunc Z int32_Element (mkArithmeticCpuTypeFunc kAssignAdd [2] [2] [2])
              (fun _ _ _ m => m) 1 2 3 [1; 1] m in
  @load Z int32_Element m' 1 0 = 11%Z /\ @load Z int32_Element m' 3 0 = 11%Z.
Proof.
  intros m m'.
  assert (Hin : @within Z m [1; 2; 3] 0).
  { intros p Hp. rewrite !elem_of_cons in Hp.
    destruct Hp as [->|[->|[->|Hp]]]; [vm_compute; lia ..|].
    now apply not_elem_of_nil in Hp. }
  exact (proj1 (@Assign_writes Z int32_Element
                  (mkArithmeticCpuTypeFunc kAssignAdd [2] [2] [2])
                  (fun _ _ _ m => m) 1 2 3 [1; 1] m 0 ltac:(simpl; lia) Hin) eq_refl).
Defined.

(** *** [AssignSub] after [AssignAdd] on [int32_t] *)

Lemma wrap32_small z : (- 2 ^ 31 <= z < 2 ^ 31)%Z -> wrap32 z = z.
Proof. intros Hz. unfold wrap32. rewrite Z.mod_small; lia. Qed.

(** X7. On [int32_t], with the second input in a buffer of its own,
    [AssignSub] after [AssignAdd] gives the first input back wherever the
    sum did not overflow. *)
Theorem AssignSub_undoes_AssignAdd (k : ArithmeticCpuTypeFunc) input1 input2 out out'
    chunks chunks' (m : gmap nat (list Z)) (i : nat) :
  input2 <> input1 -> input2 <> out ->
  i < output_size_ k ->
  @within Z m [input1; input2; out] i ->
  let a := @load Z int32_Element m input1 i in
  let b := @load Z int32_Element m input2 i in
  (- 2 ^ 31 <= a < 2 ^ 31)%Z -> (- 2 ^ 31 <= a + b < 2 ^ 31)%Z ->
  let m1 := @AssignAdd Z int32_Element k input1 input2 out chunks m in
  let m2 := @AssignSub Z int32_Element k input1 input2 out' chunks' m1 in
  @load Z int32_Element m1 input1 i = (a + b)%Z /\
  @load Z int32_Element m2 input1 i = a.
Proof.
  intros H21 H2o Hi Hin a b Ha Hab m1 m2.
  destruct (@AssignAdd_assigns Z int32_Element k input1 input2 out chunks m i Hi Hin)
    as [Hadd _].
  fold m1 a b in Hadd.
  destruct (@AssignAdd_frame Z int32_Element k input1 input2 out chunks m) as [Hlen Hframe].
  fold m1 in Hlen, Hframe.
  assert (Hb : @load Z int32_Element m1 input2 i = b).
  { apply Hframe. left. rewrite !elem_of_cons.
    intros [->|[->|Hp]]; auto. now apply not_elem_of_nil in Hp. }
  assert (Hin1 : @within Z m1 [input1; input2; input1] i).
  { intros p Hp. rewrite Hlen. apply Hin. rewrite !elem_of_cons in Hp. rewrite !elem_of_cons.
    destruct Hp as [->|[->|[->|Hp]]]; auto. }
  destruct (@AssignSub_assigns Z int32_Element k input1 input2 chunks' m1 i Hi Hin1)
    as [Hsub _].
  change (@AssignSub Z int32_Element k input1 input2 input1 chunks' m1) with m2 in Hsub.
  assert (Hsum : @load Z int32_Element m1 input1 i = (a + b)%Z).
  { rewrite Hadd. cbn [add int32_Element]. apply wrap32_small. exact Hab. }
  split; [exact Hsum|].
  rewrite Hsub, Hsum, Hb. cbn [sub int32_Element].
  replace (a + b - b)%Z with a by lia. apply wrap32_small. exact Ha.
Qed.

Lemma AssignSub_undoes_AssignAdd_witness :
  let k := mkArithmeticCpuTypeFunc kAssignAdd [2] [2] [2] in
  let m : gmap nat (list Z) := {[ 1 := [10; 20]%Z; 2 := [1; 2]%Z; 3 := [0; 0]%Z ]} in
  @load Z int32_Element
    (@AssignSub Z int32_Element k 1 2 1 [2]
       (@AssignAdd Z int32_Element k 1 2 3 [1; 1] m)) 1 1 = 20%Z.
Proof.
  intros k m.
  assert (Hin : @within Z m [1; 2; 3] 1).
  { intros p Hp. rewrite !elem_of_cons in Hp.
    destruct Hp as [->|[->|[->|Hp]]]; [vm_compute; lia ..|].
    now apply not_elem_of_nil in Hp. }
  assert (H21 : 2 <> 1) by lia.
  assert (H23 : 2 <> 3) by lia.
  assert (Hi : 1 < output_size_ k) by (vm_compute; lia).
  assert (Ha : (- 2 ^ 31 <= @load Z int32_Element m 1 1 < 2 ^ 31)%Z)
    by (vm_compute; split; [discriminate | reflexivity]).
  assert (Hab : (- 2 ^ 31 <= @load Z int32_Element m 1 1 + @load Z int32_Element m 2 1
                 < 2 ^ 31)%Z)
    by (vm_compute; split; [discriminate | reflexivity]).
  exact (proj2 (AssignSub_undoes_AssignAdd k 1 2 3 1 [1; 1] [2] m 1 H21 H23 Hi Hin Ha Hab)).
Defined.

End Arithmetic.

(** ** Linear sum assignment
    [mindspore/ccsrc/plugin/device/cpu/kernel/linear_sum_assignment_cpu_kernel.cc] *)

Module Lsap.

(** *** Outcomes

    The solver indexes vectors with [at], which throws
    [std::out_of_range], and with [operator[]] and raw pointers, for which
    an index outside the sequence has no defined behaviour; and
    [AugmentPreviousSolution] loops until it meets the current row.  A run
    therefore comes to a value, to the exception, to undefined behaviour,
    or to a loop still going after the rounds the model grants it.
    [MS_LOG(EXCEPTION)] in [LaunchKernel] is a fifth outcome. *)
Inductive outcome (A : Type) :=
| Done (a : A)
| OutOfRange
| Undefined
| Spinning
| Fatal.
Arguments Done {A} a.
Arguments OutOfRange {A}.
Arguments Undefined {A}.
Arguments Spinning {A}.
Arguments Fatal {A}.

#[export] Instance outcome_ret : MRet outcome := fun A a => Done a.
#[export] Instance outcome_bind : MBind outcome := fun A B f m =>
  match m with
  | Done a => f a
  | OutOfRange => OutOfRange
  | Undefined => Undefined
  | Spinning => Spinning
  | Fatal => Fatal
  end.

(** Indices are [int64_t]; -1 is the "none" sentinel. *)
Definition in_bounds {A} (v : list A) (i : Z) : bool :=
  (0 <=? i) && (i <? Z.of_nat (length v)).

(** [v.at(i)] and [v.at(i) = x] *)
Definition at_ {A} (v : list A) (i : Z) : outcome A :=
  match (if 0 <=? i then v !! Z.to_nat i else None) with
  | Some a => Done a
  | None => OutOfRange
  end.

Definition set_at {A} (v : list A) (i : Z) (x : A) : outcome (list A) :=
  if in_bounds v i then Done (<[Z.to_nat i := x]> v) else OutOfRange.

(** [v[i]] and [v[i] = x], on a vector or through a pointer *)
Definition idx {A} (v : list A) (i : Z) : outcome A :=
  match (if 0 <=? i then v !! Z.to_nat i else None) with
  | Some a => Done a
  | None => Undefined
  end.

Definition set_idx {A} (v : list A) (i : Z) (x : A) : outcome (list A) :=
  if in_bounds v i then Done (<[Z.to_nat i := x]> v) else Undefined.

(** [for (int64_t i = lo; i < lo + n; i++) body], with a body that may
    fail. *)
Fixpoint for_each {St : Type} (n : nat) (i : Z) (body : Z -> St -> outcome St) (s : St)
    : outcome St :=
  match n with
  | O => Done s
  | S n' => s' ← body i s; for_each n' (i + 1) body s'
  end.

(** The conversion of an [int64_t] to [int]. *)
Definition to_int (z : Z) : Z := (z + 2 ^ 31) mod 2 ^ 32 - 2 ^ 31.

Section Solver.
(** The element type [T] is [float] or [double]. *)
Variable fmt : FP.format.

#[local] Abbreviation T := spec_float.

(** [check_value] *)
Fixpoint check_value_from (cost : list T) (i : Z) (n : nat) : outcome bool :=
  match n with
  | O => Done true
  | S n' =>
      c ← idx cost i;
      if FP.isnan c || FP.eqb c (FP.opp FP.INFINITY) then Done false
      else check_value_from cost (i + 1) n'
  end.

Definition check_value (cost : list T) (nr nc : Z) : outcome bool :=
  check_value_from cost 0 (Z.to_nat (nr * nc)).

(** The vectors that [AugmentingPath] writes. *)
Record search := {
  path : list Z;
  shortest_path_costs : list T;
  SR : list bool;
  SC : list bool;
  remaining : list Z
}.

(** The state of one scan of the remaining columns: the vectors it
    updates, [lowest] and [index]. *)
Record scan := {
  scan_path : list Z;
  scan_costs : list T;
  lowest : T;
  index : Z
}.

(** The body of the loop [for (int64_t it = 0; it < num_remaining; it++)]. *)
Definition scan_column (nc : Z) (cost u v : list T) (row4col remaining : list Z)
    (i : Z) (min_val : T) (it : Z) (s : scan) : outcome scan :=
  j ← at_ remaining it;
  c ← idx cost (i * nc + j);
  ui ← at_ u i;
  vj ← at_ v j;
  let r := FP.sub fmt (FP.sub fmt (FP.add fmt min_val c) ui) vj in
  old ← at_ (scan_costs s) j;
  '(path, costs) ←
     (if FP.ltb r old
      then path ← set_at (scan_path s) j i;
           costs ← set_at (scan_costs s) j r;
           Done (path, costs)
      else Done (scan_path s, scan_costs s));
  spc ← at_ costs j;
  r4c ← (if FP.ltb spc (lowest s) then Done 0
         else if FP.eqb spc (lowest s) then at_ row4col j else Done 0);
  if FP.ltb spc (lowest s) || (FP.eqb spc (lowest s) && (r4c =? -1))
  then Done {| scan_path := path; scan_costs := costs; lowest := spc; index := it |}
  else Done {| scan_path := path; scan_costs := costs; lowest := lowest s; index := index s |}.

(** The loop [while (sink == -1)], entered with [num_remaining] columns
    left.  Every round removes a column, and a round with none left finds
    [lowest] still infinite and returns -1, so the number of remaining
    columns bounds the rounds. *)
Fixpoint find_sink (nc : Z) (cost u v : list T) (row4col : list Z)
    (num_remaining : nat) (i : Z) (min_val : T) (s : search) : outcome (Z * T * search) :=
  sr ← set_at (SR s) i true;
  sc ← for_each num_remaining 0
         (scan_column nc cost u v row4col (remaining s) i min_val)
         {| scan_path := path s; scan_costs := shortest_path_costs s;
            lowest := FP.INFINITY; index := -1 |};
  let min_val := lowest sc in
  if FP.eqb min_val FP.INFINITY
  then Done (-1, min_val,
             {| path := scan_path sc; shortest_path_costs := scan_costs sc;
                SR := sr; SC := SC s; remaining := remaining s |})
  else
    j ← at_ (remaining s) (index sc);
    r4c ← at_ row4col j;
    sc' ← set_at (SC s) j true;
    match num_remaining with
    | O => OutOfRange
    | S num_remaining' =>
        last ← at_ (remaining s) (Z.of_nat num_remaining');
        rem ← set_at (remaining s) (index sc) last;
        let s' := {| path := scan_path sc; shortest_path_costs := scan_costs sc;
                     SR := sr; SC := sc'; remaining := rem |} in
        if r4c =? -1 then Done (j, min_val, s')
        else find_sink nc cost u v row4col num_remaining' r4c min_val s'
    end.

(** [AugmentingPath]: it returns the sink (or -1) and, through
    [p_min_val], the cost of the path. *)
Definition AugmentingPath (nc : Z) (cost u v : list T) (row4col : list Z) (i : Z) (s : search)
    : outcome (Z * T * search) :=
  rem ← for_each (Z.to_nat nc) 0
          (fun it rem => set_at rem it (nc - it - 1)) (remaining s);
  find_sink nc cost u v row4col (Z.to_nat nc) i FP.zero
    {| path := path s;
       shortest_path_costs := replicate (length (shortest_path_costs s)) FP.INFINITY;
       SR := replicate (length (SR s)) false;
       SC := replicate (length (SC s)) false;
       remaining := rem |}.

(** [AugmentPreviousSolution], for at most [fuel] rounds of its
    [while (true)]. *)
Fixpoint AugmentPreviousSolution (fuel : nat) (j cur_row : Z) (path row4col col4row : list Z)
    : outcome (list Z * list Z) :=
  match fuel with
  | O => Spinning
  | S fuel' =>
      i ← at_ path j;
      row4col ← set_at row4col j i;
      old ← at_ col4row i;
      col4row ← set_at col4row i j;
      if i =? cur_row then Done (row4col, col4row)
      else AugmentPreviousSolution fuel' old cur_row path row4col col4row
  end.

(** [ReArrange].  Its locals [nr] and [nc] are [int]; it returns the matrix
    [temp] and the (possibly swapped) dimensions. *)
Definition ReArrange (origin_nr origin_nc raw_nc : Z) (temp cost : list T)
    (transpose maximize : bool) : outcome (Z * Z * list T) :=
  let nr := to_int origin_nr in
  let nc := to_int origin_nc in
  '(dims, temp) ←
    (if transpose then
       temp ← for_each (Z.to_nat nr) 0
                (fun i temp =>
                   for_each (Z.to_nat nc) 0
                     (fun j temp => c ← idx cost (i * raw_nc + j); set_at temp (j * nr + i) c)
                     temp)
                temp;
       Done ((origin_nc, origin_nr), temp)
     else
       temp ← for_each (Z.to_nat nr) 0
                (fun i temp =>
                   for_each (Z.to_nat nc) 0
                     (fun j temp => c ← idx cost (i * raw_nc + j); set_at temp (i * nr + j) c)
                     temp)
                temp;
       Done ((origin_nr, origin_nc), temp));
  let temp := if maximize then FP.opp <$> temp else temp in
  Done (dims.1, dims.2, temp).

(** [std::sort] of the indices by [col4row[i] < col4row[j]].  On the
    distinct keys of a matching every sorting algorithm returns the same
    order; the model inserts one index after the other. *)
Fixpoint insert_by_key (col4row : list Z) (x : Z) (sorted : list Z) : list Z :=
  match sorted with
  | [] => [x]
  | y :: rest =>
      if default 0 (col4row !! Z.to_nat x) <? default 0 (col4row !! Z.to_nat y)
      then x :: y :: rest
      else y :: insert_by_key col4row x rest
  end.

Definition argsort (col4row : list Z) : list Z :=
  foldr (insert_by_key col4row) [] (Z.of_nat <$> seq 0 (length col4row)).

(** The loop [for (int64_t i = offset; i < element_num; i++)
    { a[i] = -1; b[i] = -1; }] and the two loops before it, on the output
    arrays [a] and [b]. *)
Definition write_pair (i x y : Z) (ab : list Z * list Z) : outcome (list Z * list Z) :=
  a ← set_idx ab.1 i x;
  b ← set_idx ab.2 i y;
  Done (a, b).

(** [PostProcess].  Its parameters [nr], [nc] and [element_num] are
    [int]. *)
Definition PostProcess (a b : list Z) (col4row : list Z) (transpose : bool)
    (nr nc element_num : Z) : outcome (list Z * list Z) :=
  let nr := to_int nr in
  let nc := to_int nc in
  let element_num := to_int element_num in
  let index := argsort col4row in
  ab ← (if transpose then
          '(_, ab) ← foldl
             (fun acc val =>
                '(i, ab) ← acc;
                c ← idx col4row val;
                ab ← write_pair i c val ab;
                Done (i + 1, ab))
             (Done (0, (a, b))) index;
          Done ab
        else
          for_each (Z.to_nat nr) 0
            (fun i ab => c ← idx col4row i; write_pair i i c ab) (a, b));
  let offset := Z.min nr nc in
  for_each (Z.to_nat (element_num - offset)) offset (fun i ab => write_pair i (-1) (-1) ab) ab.

(** The dual variables and the matching that [Solve] carries from row to
    row. *)
Record duals := {
  u : list T;
  v : list T;
  col4row : list Z;
  row4col : list Z;
  work : search
}.

(** The body of the loop over [cur_row]: [None] is [return false]. *)
Definition solve_row (fuel : nat) (nr nc : Z) (cost : list T) (cur_row : Z) (d : duals)
    : outcome (option duals) :=
  '(sink, min_val, s) ← AugmentingPath nc cost (u d) (v d) (row4col d) cur_row (work d);
  if sink <? 0 then Done None
  else
    u0 ← idx (u d) cur_row;
    u1 ← set_idx (u d) cur_row (FP.add fmt u0 min_val);
    u2 ← for_each (Z.to_nat nr) 0
           (fun i u =>
              sr ← idx (SR s) i;
              if sr && negb (i =? cur_row) then
                c4r ← idx (col4row d) i;
                spc ← idx (shortest_path_costs s) c4r;
                ui ← idx u i;
                set_idx u i (FP.add fmt ui (FP.sub fmt min_val spc))
              else Done u)
           u1;
    v2 ← for_each (Z.to_nat nc) 0
           (fun j v =>
              sc ← idx (SC s) j;
              if (sc : bool) then
                spc ← idx (shortest_path_costs s) j;
                vj ← idx v j;
                set_idx v j (FP.sub fmt vj (FP.sub fmt min_val spc))
              else Done v)
           (v d);
    '(r4c, c4r) ← AugmentPreviousSolution fuel sink cur_row (path s) (row4col d) (col4row d);
    Done (Some {| u := u2; v := v2; col4row := c4r; row4col := r4c; work := s |}).

(** The loop [for (int64_t cur_row = 0; cur_row < nr; cur_row++)], with
    [n] rows to go from [cur_row]. *)
Fixpoint solve_rows (fuel : nat) (nr nc : Z) (cost : list T) (n : nat) (cur_row : Z) (d : duals)
    : outcome (option duals) :=
  match n with
  | O => Done (Some d)
  | S n' =>
      r ← solve_row fuel nr nc cost cur_row d;
      match r with
      | None => Done None
      | Some d' => solve_rows fuel nr nc cost n' (cur_row + 1) d'
      end
  end.

(** The vectors [Solve] declares before the loop. *)
Definition initial_duals (nr nc : Z) : duals :=
  {| u := replicate (Z.to_nat nr) FP.zero;
     v := replicate (Z.to_nat nc) FP.zero;
     col4row := replicate (Z.to_nat nr) (-1);
     row4col := replicate (Z.to_nat nc) (-1);
     work := {| path := replicate (Z.to_nat nc) (-1);
                shortest_path_costs := replicate (Z.to_nat nc) FP.zero;
                SR := replicate (Z.to_nat nr) false;
                SC := replicate (Z.to_nat nc) false;
                remaining := replicate (Z.to_nat nc) 0 |} |}.

(** The matrix [Solve] works on, and its dimensions, after the optional
    [ReArrange]. *)
Definition working_matrix (nr nc raw_nc : Z) (cost : list T) (maximize : bool)
    : outcome (Z * Z * list T) :=
  let transpose := nc <? nr in
  if transpose || maximize
  then ReArrange nr nc raw_nc (replicate (Z.to_nat (nr * nc)) FP.zero) cost transpose maximize
  else Done (nr, nc, cost).

(** [Solve]: the returned flag and the output arrays [a] and [b] as the
    call leaves them. *)
Definition Solve (fuel : nat) (nr nc raw_nc : Z) (cost : list T) (maximize : bool)
    (a b : list Z) : outcome (bool * (list Z * list Z)) :=
  if (nr =? 0) || (nc =? 0) then Done (true, (a, b))
  else
    let element_num := Z.min nr raw_nc in
    let transpose := nc <? nr in
    '(nr', nc', cost') ← working_matrix nr nc raw_nc cost maximize;
    ok ← check_value cost' nr' nc';
    if negb ok then Done (false, (a, b))
    else
      r ← solve_rows fuel nr' nc' cost' (Z.to_nat nr') 0 (initial_duals nr' nc');
      match r with
      | None => Done (false, (a, b))
      | Some d =>
          ab ← PostProcess a b (col4row d) transpose nr' nc' element_num;
          Done (true, ab)
      end.

Definition INT64_MAX : Z := 2 ^ 63 - 1.

(** [LaunchKernel], given the shape of the cost matrix that [Resize]
    stored (of rank 2) and the three inputs. *)
Definition LaunchKernel (fuel : nat) (cost_matrix_shape_ : list Z) (cost_matrix : list T)
    (dimension_limit : Z) (maximize : bool) (row_ind col_ind : list Z)
    : outcome (bool * (list Z * list Z)) :=
  nr ← idx cost_matrix_shape_ 0;
  nc ← idx cost_matrix_shape_ 1;
  if dimension_limit =? INT64_MAX then
    Solve fuel nr nc nc cost_matrix maximize row_ind col_ind
  else if nc <? dimension_limit then Fatal
  else if dimension_limit <=? 0 then Done (false, (row_ind, col_ind))
  else Solve fuel nr dimension_limit nc cost_matrix maximize row_ind col_ind.

End Solver.

(** *** Assignments and their cost *)

(** A matrix of doubles from integers, row by row. *)
Definition matrix (entries : list Z) : list spec_float := FP.of_Z FP.binary64 <$> entries.

(** The total cost, over the integers, of assigning row [a_i] to column
    [b_i] in the matrix with rows of [raw_nc] entries. *)
Definition total_cost (entries : list Z) (raw_nc : Z) (a b : list Z) : Z :=
  foldr Z.add 0
    ((fun p : Z * Z => default 0 (entries !! Z.to_nat (p.1 * raw_nc + p.2))) <$> zip a b).

(** All the ways to pick [k] distinct columns among [columns], in
    order. *)
Fixpoint arrangements (k : nat) (columns : list Z) : list (list Z) :=
  match k with
  | O => [[]]
  | S k' =>
      c ← columns;
      rest ← arrangements k' (filter (fun x => x <> c) columns);
      [c :: rest]
  end.

(** The least total cost over all assignments of the [nr] rows to distinct
    columns among the first [nc], and whether [b] attains it. *)
Definition is_minimal (entries : list Z) (nr nc raw_nc : Z) (b : list Z) : bool :=
  let rows := Z.of_nat <$> seq 0 (Z.to_nat nr) in
  forallb (fun b' => total_cost entries raw_nc rows b <=? total_cost entries raw_nc rows b')
          (arrangements (Z.to_nat nr) (Z.of_nat <$> seq 0 (Z.to_nat nc))).

(** *** Reasoning about outcomes and loops *)

Lemma bind_Done_inv {A B} (m : outcome A) (f : A -> outcome B) (b : B) :
  m ≫= f = Done b -> exists a, m = Done a /\ f a = Done b.
Proof. destruct m as [a| | | |]; simpl; try discriminate. intros Hf. now exists a. Qed.

(** From a hypothesis [m ≫= f = Done b], the value of [m] and the
    equation for [f]. *)
Tactic Notation "bind_inv" hyp(H) ident(x) ident(Hx) :=
  apply bind_Done_inv in H; destruct H as (x & Hx & H).

Lemma for_each_invariant {St : Type} (I : St -> Prop) (body : Z -> St -> outcome St) n :
  forall lo s s',
  (forall i s s', lo <= i < lo + Z.of_nat n -> I s -> body i s = Done s' -> I s') ->
  I s -> for_each n lo body s = Done s' -> I s'.
Proof.
  induction n as [|n IH]; intros lo s s' Hstep Hs Hrun; simpl in Hrun.
  - now inversion Hrun; subst.
  - bind_inv Hrun s1 Hs1.
    apply (IH (lo + 1) s1 s'); [|eapply Hstep; [|exact Hs|exact Hs1]; lia|exact Hrun].
    intros i t t' Hi. apply Hstep. lia.
Qed.

Lemma at_Done {A} (l : list A) i a :
  at_ l i = Done a -> 0 <= i /\ l !! Z.to_nat i = Some a.
Proof.
  unfold at_. destruct (Z.leb_spec 0 i); [|discriminate].
  destruct (l !! Z.to_nat i); [|discriminate]. intros [= ->]. auto.
Qed.

Lemma idx_Done {A} (l : list A) i a :
  idx l i = Done a -> 0 <= i /\ l !! Z.to_nat i = Some a.
Proof.
  unfold idx. destruct (Z.leb_spec 0 i); [|discriminate].
  destruct (l !! Z.to_nat i); [|discriminate]. intros [= ->]. auto.
Qed.

Lemma idx_lookup {A} (l : list A) i a :
  0 <= i -> l !! Z.to_nat i = Some a -> idx l i = Done a.
Proof.
  intros Hi Hl. unfold idx. destruct (Z.leb_spec 0 i); [|lia]. now rewrite Hl.
Qed.

Lemma set_at_Done {A} (l : list A) i x l' :
  set_at l i x = Done l' ->
  0 <= i < Z.of_nat (length l) /\ l' = <[Z.to_nat i := x]> l.
Proof.
  unfold set_at, in_bounds.
  destruct (Z.leb_spec 0 i), (Z.ltb_spec i (Z.of_nat (length l))); simpl; try discriminate.
  intros [= <-]. auto.
Qed.

(** *** The validity check *)

(** An entry that [check_value] rejects: NaN or negative infinity. *)
Definition invalid (c : spec_float) : bool :=
  FP.isnan c || FP.eqb c (FP.opp FP.INFINITY).

Lemma check_value_from_spec (cost : list spec_float) n :
  forall i, 0 <= i -> (Z.to_nat i + n <= length cost)%nat ->
  check_value_from cost i n =
    Done (forallb (fun c => negb (invalid c)) (take n (drop (Z.to_nat i) cost))).
Proof.
  induction n as [|n IH]; intros i Hi Hlen; simpl.
  - reflexivity.
  - destruct (lookup_lt_is_Some_2 cost (Z.to_nat i) ltac:(lia)) as [c Hc].
    rewrite (idx_lookup cost i c Hi Hc). simpl.
    rewrite (drop_S cost c (Z.to_nat i) Hc). simpl.
    change (FP.isnan c || FP.eqb c (S754_infinity true)) with (invalid c).
    destruct (invalid c); simpl; [reflexivity|].
    rewrite IH by lia. replace (Z.to_nat (i + 1)) with (S (Z.to_nat i)) by lia.
    reflexivity.
Qed.

(** [check_value] returns false exactly when one of the first [nr * nc]
    entries is NaN or negative infinity; positive infinity passes. *)
Lemma check_value_spec (cost : list spec_float) nr nc :
  (Z.to_nat (nr * nc) <= length cost)%nat ->
  check_value cost nr nc =
    Done (forallb (fun c => negb (invalid c)) (take (Z.to_nat (nr * nc)) cost)).
Proof.
  intros Hlen. unfold check_value. rewrite check_value_from_spec by (simpl; lia).
  reflexivity.
Qed.

Lemma invalid_cases c :
  invalid c = true <-> c = S754_nan \/ c = S754_infinity true.
Proof.
  split.
  - destruct c as [[]|[]| |[] m e]; simpl; try discriminate; auto.
  - intros [->| ->]; reflexivity.
Qed.

(** *** A row without a finite entry *)

Section InfiniteRow.
Variable fmt : FP.format.

Definition inf_or_nan (x : spec_float) : Prop :=
  x = S754_nan \/ x = S754_infinity false.

Lemma add_INFINITY x : inf_or_nan (FP.add fmt x FP.INFINITY).
Proof. destruct x as [[]|[]| |[] m e]; compute; auto. Qed.

Lemma sub_inf_or_nan x y : inf_or_nan x -> inf_or_nan (FP.sub fmt x y).
Proof.
  intros [->| ->]; destruct y as [[]|[]| |[] m e]; compute; auto.
Qed.

Lemma ltb_inf_or_nan x : inf_or_nan x -> FP.ltb x FP.INFINITY = false.
Proof. intros [->| ->]; reflexivity. Qed.

Lemma for_each_indexed {St : Type} (I : Z -> St -> Prop) (body : Z -> St -> outcome St) n :
  forall lo s s',
  (forall i s s', lo <= i < lo + Z.of_nat n -> I i s -> body i s = Done s' -> I (i + 1) s') ->
  I lo s -> for_each n lo body s = Done s' -> I (lo + Z.of_nat n) s'.
Proof.
  induction n as [|n IH]; intros lo s s' Hstep Hs Hrun; simpl in Hrun.
  - inversion Hrun; subst. now rewrite Z.add_0_r.
  - bind_inv Hrun s1 Hs1.
    replace (lo + Z.of_nat (S n)) with (lo + 1 + Z.of_nat n) by lia.
    apply (IH (lo + 1) s1 s'); [|eapply Hstep; [|exact Hs|exact Hs1]; lia|exact Hrun].
    intros i t t' Hi. apply Hstep. lia.
Qed.

(** The first loop of [AugmentingPath] leaves [nc - it - 1] in
    [remaining[it]]. *)
Lemma remaining_filled nc (rem rem' : list Z) :
  for_each (Z.to_nat nc) 0 (fun it rem => set_at rem it (nc - it - 1)) rem = Done rem' ->
  forall it, 0 <= it < nc -> rem' !! Z.to_nat it = Some (nc - it - 1).
Proof.
  intros Hrun.
  pose proof (for_each_indexed
                (fun k (r : list Z) => forall it, 0 <= it < k -> r !! Z.to_nat it = Some (nc - it - 1))
                (fun it rem => set_at rem it (nc - it - 1)) (Z.to_nat nc) 0 rem rem') as Hind.
  intros it Hit. apply Hind; [| |exact Hrun|lia].
  - intros i r r' Hi Hr Hset. apply set_at_Done in Hset. destruct Hset as [Hb ->].
    intros k Hk. destruct (decide (k = i)) as [->|Hne].
    + apply list_lookup_insert_eq. lia.
    + rewrite list_lookup_insert_ne by lia. apply Hr. lia.
  - intros k Hk. lia.
Qed.

(** While every shortest path cost and [lowest] are infinite, a scan of
    a column whose entry in the row is infinite changes neither. *)
Definition all_infinite (s : scan) : Prop :=
  Forall (fun c => c = FP.INFINITY) (scan_costs s) /\ lowest s = FP.INFINITY.

Lemma scan_column_infinite nc cost u v row4col remaining i min_val it s s' :
  (forall j, at_ remaining it = Done j -> 0 <= j < nc) ->
  (forall j c, 0 <= j < nc -> idx cost (i * nc + j) = Done c -> c = FP.INFINITY) ->
  all_infinite s ->
  scan_column fmt nc cost u v row4col remaining i min_val it s = Done s' ->
  all_infinite s'.
Proof.
  intros Hrem Hrow [Hcosts Hlow] Hrun. unfold scan_column in Hrun.
  bind_inv Hrun j Hj. bind_inv Hrun c Hc. bind_inv Hrun ui Hui. bind_inv Hrun vj Hvj.
  bind_inv Hrun old Hold.
  assert (c = FP.INFINITY) as -> by (eapply Hrow; [apply Hrem; exact Hj | exact Hc]).
  assert (old = FP.INFINITY) as ->.
  { apply at_Done in Hold. destruct Hold as [_ Hold].
    rewrite Forall_lookup in Hcosts. exact (Hcosts _ _ Hold). }
  rewrite ltb_inf_or_nan in Hrun
    by (apply sub_inf_or_nan, sub_inf_or_nan, add_INFINITY).
  simpl in Hrun.
  bind_inv Hrun spc Hspc.
  assert (spc = FP.INFINITY) as ->.
  { apply at_Done in Hspc. destruct Hspc as [_ Hspc].
    rewrite Forall_lookup in Hcosts. exact (Hcosts _ _ Hspc). }
  bind_inv Hrun r4c Hr4c.
  destruct (FP.ltb FP.INFINITY (lowest s) || (FP.eqb FP.INFINITY (lowest s) && (r4c =? -1)));
    inversion Hrun; subst; split; simpl; auto.
Qed.

Lemma find_sink_unfold nc cost u v row4col num_remaining i min_val s :
  find_sink fmt nc cost u v row4col num_remaining i min_val s =
  (sr ← set_at (SR s) i true;
   scanned ← for_each num_remaining 0
         (scan_column fmt nc cost u v row4col (remaining s) i min_val)
         {| scan_path := path s; scan_costs := shortest_path_costs s;
            lowest := FP.INFINITY; index := -1 |};
   let min_val := lowest scanned in
   if FP.eqb min_val FP.INFINITY
   then Done (-1, min_val,
              {| path := scan_path scanned; shortest_path_costs := scan_costs scanned;
                 SR := sr; SC := SC s; remaining := remaining s |})
   else
     j ← at_ (remaining s) (index scanned);
     r4c ← at_ row4col j;
     sc' ← set_at (SC s) j true;
     match num_remaining with
     | O => OutOfRange
     | S num_remaining' =>
         last ← at_ (remaining s) (Z.of_nat num_remaining');
         rem ← set_at (remaining s) (index scanned) last;
         let s' := {| path := scan_path scanned; shortest_path_costs := scan_costs scanned;
                      SR := sr; SC := sc'; remaining := rem |} in
         if r4c =? -1 then Done (j, min_val, s')
         else find_sink fmt nc cost u v row4col num_remaining' r4c min_val s'
     end).
Proof. destruct num_remaining; reflexivity. Qed.

Lemma find_sink_infinite_row nc cost u v row4col num_remaining i min_val s r :
  (forall it j, 0 <= it < Z.of_nat num_remaining -> at_ (remaining s) it = Done j -> 0 <= j < nc) ->
  (forall j c, 0 <= j < nc -> idx cost (i * nc + j) = Done c -> c = FP.INFINITY) ->
  Forall (fun c => c = FP.INFINITY) (shortest_path_costs s) ->
  find_sink fmt nc cost u v row4col num_remaining i min_val s = Done r ->
  r.1.1 = -1.
Proof.
  intros Hrem Hrow Hcosts Hrun.
  assert (Hscan : forall sc,
    for_each num_remaining 0
      (scan_column fmt nc cost u v row4col (remaining s) i min_val)
      {| scan_path := path s; scan_costs := shortest_path_costs s;
         lowest := FP.INFINITY; index := -1 |} = Done sc ->
    lowest sc = FP.INFINITY).
  { intros sc Hsc.
    assert (Hinv : all_infinite sc); [|apply Hinv].
    eapply (for_each_invariant all_infinite); [| |exact Hsc].
    - intros it t t' Hit Ht Hstep.
      eapply scan_column_infinite; [|exact Hrow|exact Ht|exact Hstep].
      intros j Hj. apply (Hrem it j); [lia|exact Hj].
    - split; [exact Hcosts|reflexivity]. }
  rewrite find_sink_unfold in Hrun.
  bind_inv Hrun sr Hsr. bind_inv Hrun scanned Hscanned.
  cbv zeta in Hrun. rewrite (Hscan scanned Hscanned) in Hrun.
  change (FP.eqb FP.INFINITY FP.INFINITY) with true in Hrun.
  now inversion Hrun.
Qed.

(** [AugmentingPath] on a row whose entries are all positive infinity
    never returns a sink: whatever the duals and the matching are, a
    result it returns is -1. *)
Lemma AugmentingPath_infinite_row nc cost u v row4col i s r :
  (forall j c, 0 <= j < nc -> idx cost (i * nc + j) = Done c -> c = FP.INFINITY) ->
  AugmentingPath fmt nc cost u v row4col i s = Done r ->
  r.1.1 = -1.
Proof.
  intros Hrow Hrun. unfold AugmentingPath in Hrun.
  bind_inv Hrun rem Hrem.
  eapply find_sink_infinite_row; [| exact Hrow | | exact Hrun]; simpl.
  - intros it j Hit Hj. apply at_Done in Hj. destruct Hj as [_ Hj].
    rewrite (remaining_filled nc _ _ Hrem it) in Hj by lia.
    inversion Hj. lia.
  - apply Forall_replicate. reflexivity.
Qed.

Lemma solve_rows_infinite_row fuel nr nc cost i0 n :
  (forall j c, 0 <= j < nc -> idx cost (i0 * nc + j) = Done c -> c = FP.INFINITY) ->
  forall cur_row d d',
  cur_row <= i0 < cur_row + Z.of_nat n ->
  solve_rows fmt fuel nr nc cost n cur_row d <> Done (Some d').
Proof.
  intros Hrow. induction n as [|n IH]; intros cur_row d d' Hi Hrun; [lia|].
  simpl in Hrun. bind_inv Hrun r Hr.
  destruct r as [d1|]; [|discriminate].
  destruct (decide (cur_row = i0)) as [->|Hne].
  - unfold solve_row in Hr. bind_inv Hr res Hres.
    pose proof (AugmentingPath_infinite_row nc cost _ _ _ i0 _ res Hrow Hres) as Hsink.
    destruct res as [[sink min_val] s]. simpl in Hsink. subst sink.
    simpl in Hr. discriminate Hr.
  - apply (IH (cur_row + 1) d1 d'); [lia | exact Hrun].
Qed.

End InfiniteRow.

(** *** When [Solve] returns false *)

Section Failures.
Variable fmt : FP.format.

Lemma Solve_degenerate fuel nr nc raw_nc cost maximize a b :
  nr = 0 \/ nc = 0 ->
  Solve fmt fuel nr nc raw_nc cost maximize a b = Done (true, (a, b)).
Proof.
  intros Hz. unfold Solve.
  destruct (Z.eqb_spec nr 0), (Z.eqb_spec nc 0); simpl; try reflexivity.
  destruct Hz; contradiction.
Qed.

Lemma Solve_unfold fuel nr nc raw_nc cost maximize a b nr' nc' cost' :
  nr <> 0 -> nc <> 0 ->
  working_matrix nr nc raw_nc cost maximize = Done (nr', nc', cost') ->
  Solve fmt fuel nr nc raw_nc cost maximize a b =
    (ok ← check_value cost' nr' nc';
     if negb ok then Done (false, (a, b))
     else
       r ← solve_rows fmt fuel nr' nc' cost' (Z.to_nat nr') 0 (initial_duals nr' nc');
       match r with
       | None => Done (false, (a, b))
       | Some d =>
           ab ← PostProcess a b (col4row d) (nc <? nr) nr' nc' (Z.min nr raw_nc);
           Done (true, ab)
       end).
Proof.
  intros Hnr Hnc Hw. unfold Solve.
  destruct (Z.eqb_spec nr 0); [contradiction|].
  destruct (Z.eqb_spec nc 0); [contradiction|].
  simpl. rewrite Hw. reflexivity.
Qed.

Lemma working_matrix_as_given nr nc raw_nc (cost : list spec_float) :
  ~ nc < nr -> working_matrix nr nc raw_nc cost false = Done (nr, nc, cost).
Proof.
  intros Hle. unfold working_matrix.
  destruct (Z.ltb_spec nc nr); [contradiction | reflexivity].
Qed.

Lemma Solve_invalid_entry fuel nr nc raw_nc cost maximize a b nr' nc' cost' k c :
  nr <> 0 -> nc <> 0 ->
  working_matrix nr nc raw_nc cost maximize = Done (nr', nc', cost') ->
  (Z.to_nat (nr' * nc') <= length cost')%nat ->
  (k < Z.to_nat (nr' * nc'))%nat -> cost' !! k = Some c ->
  c = S754_nan \/ c = S754_infinity true ->
  Solve fmt fuel nr nc raw_nc cost maximize a b = Done (false, (a, b)).
Proof.
  intros Hnr Hnc Hw Hlen Hk Hc Hbad.
  rewrite (Solve_unfold fuel nr nc raw_nc cost maximize a b nr' nc' cost' Hnr Hnc Hw).
  rewrite check_value_spec by exact Hlen.
  assert (Hall : forallb (fun c => negb (invalid c)) (take (Z.to_nat (nr' * nc')) cost') = false).
  { apply not_true_is_false. intros Hall. rewrite forallb_forall in Hall.
    assert (Hin : In c (take (Z.to_nat (nr' * nc')) cost')).
    { apply list_elem_of_In. apply list_elem_of_lookup. exists k.
      rewrite lookup_take_lt by exact Hk. exact Hc. }
    specialize (Hall c Hin). apply negb_true_iff in Hall.
    apply invalid_cases in Hbad. congruence. }
  simpl. rewrite Hall. reflexivity.
Qed.

Lemma Solve_infinite_row fuel nr nc raw_nc cost maximize a b nr' nc' cost' i0 ab :
  nr <> 0 -> nc <> 0 ->
  working_matrix nr nc raw_nc cost maximize = Done (nr', nc', cost') ->
  0 <= i0 < nr' ->
  (forall j, 0 <= j < nc' -> cost' !! Z.to_nat (i0 * nc' + j) = Some FP.INFINITY) ->
  Solve fmt fuel nr nc raw_nc cost maximize a b <> Done (true, ab).
Proof.
  intros Hnr Hnc Hw Hi0 Hrow Hrun.
  rewrite (Solve_unfold fuel nr nc raw_nc cost maximize a b nr' nc' cost' Hnr Hnc Hw) in Hrun.
  bind_inv Hrun ok Hok.
  destruct ok; simpl in Hrun; [|discriminate].
  bind_inv Hrun r Hr.
  destruct r as [d|]; [|discriminate].
  revert Hr. apply (solve_rows_infinite_row fmt fuel nr' nc' cost' i0); [|lia].
  intros j c Hj Hc. apply idx_Done in Hc. destruct Hc as [_ Hc].
  rewrite (Hrow j Hj) in Hc. now inversion Hc.
Qed.

End Failures.

(** *** The solver on small matrices *)

(** The 3x3 matrix [[4,1,3],[2,0,5],[3,2,2]]: the solver returns the
    pairs (0,1), (1,0), (2,2), of total cost 5, the least over the six
    assignments. *)
Lemma Solve_3x3_example fuel :
  let entries := [4; 1; 3; 2; 0; 5; 3; 2; 2] in
  LaunchKernel FP.binary64 (S (S (S fuel))) [3; 3] (matrix entries) INT64_MAX false
    [0; 0; 0] [0; 0; 0] = Done (true, ([0; 1; 2], [1; 0; 2])) /\
  total_cost entries 3 [0; 1; 2] [1; 0; 2] = 5 /\
  is_minimal entries 3 3 3 [1; 0; 2] = true.
Proof. cbv zeta. split; [|split]; vm_compute; reflexivity. Qed.

(** With [dimension_limit = 2] on the 3x3 matrix
    [[4,1,3],[2,0,5],[3,2,2]] the two columns are matched to the rows 1
    and 0, at the least total cost 3, and the third slot of both outputs,
    beyond [min(nr, nc)] and below [min(nr, raw_nc)], is padded with -1. *)
Lemma LaunchKernel_pads_with_minus_one fuel :
  let entries := [4; 1; 3; 2; 0; 5; 3; 2; 2] in
  LaunchKernel FP.binary64 (S (S fuel)) [3; 3] (matrix entries) 2 false
    [7; 7; 7] [7; 7; 7] = Done (true, ([0; 1; -1], [1; 0; -1])) /\
  total_cost entries 3 [0; 1] [1; 0] = 3 /\
  is_minimal [4; 2; 3; 1; 0; 2] 2 3 3 [1; 0] = true.
Proof. cbv zeta. split; [|split]; vm_compute; reflexivity. Qed.

(** C1 at its failing input: a 2x3 cost matrix [[1,2,0],[5,1,9]] with
    [dimension_limit = 2] and [maximize = false].  Neither a transpose nor
    a negation is due, so [Solve] works on the caller's buffer, whose rows
    are 3 entries apart, while indexing it with rows 2 entries apart: it
    reads the rows [1,2] and [0,5] and returns the pairs (0,1), (1,0), of
    total cost 7 in the matrix, where (0,0), (1,1) costs 2.  On the same
    entries laid out 2 per row it returns (0,0), (1,1). *)
Theorem Solve_wrong_stride_under_dimension_limit fuel :
  let entries := [1; 2; 0; 5; 1; 9] in
  LaunchKernel FP.binary64 (S (S fuel)) [2; 3] (matrix entries) 2 false [0; 0] [0; 0] =
    Done (true, ([0; 1], [1; 0])) /\
  total_cost entries 3 [0; 1] [1; 0] = 7 /\
  total_cost entries 3 [0; 1] [0; 1] = 2 /\
  is_minimal entries 2 2 3 [1; 0] = false /\
  LaunchKernel FP.binary64 (S (S fuel)) [2; 2] (matrix [1; 2; 5; 1]) INT64_MAX false [0; 0] [0; 0] =
    Done (true, ([0; 1], [0; 1])).
Proof. cbv zeta. repeat split; vm_compute; reflexivity. Qed.

(** *** The copy made by [ReArrange] *)

Section Copy.

Lemma for_each_total {St : Type} (I : Z -> St -> Prop) (body : Z -> St -> outcome St) n :
  forall lo s,
  (forall i s, lo <= i < lo + Z.of_nat n -> I i s -> exists s', body i s = Done s' /\ I (i + 1) s') ->
  I lo s -> exists s', for_each n lo body s = Done s' /\ I (lo + Z.of_nat n) s'.
Proof.
  induction n as [|n IH]; intros lo s Hstep Hs; simpl.
  - exists s. rewrite Z.add_0_r. auto.
  - destruct (Hstep lo s ltac:(lia) Hs) as (s1 & Hs1 & HI1). rewrite Hs1. simpl.
    destruct (IH (lo + 1) s1) as (s' & Hs' & HI'); [|exact HI1|].
    + intros i t Hi. apply Hstep. lia.
    + exists s'. split; [exact Hs'|].
      replace (lo + Z.of_nat (S n)) with (lo + 1 + Z.of_nat n) by lia. exact HI'.
Qed.

Lemma to_int_small z : 0 <= z < 2 ^ 31 -> to_int z = z.
Proof.
  intros Hz. unfold to_int. rewrite Z.mod_small by lia. lia.
Qed.

Variables nr nc raw_nc : Z.
Variable cost : list spec_float.
Variable transpose : bool.

(** Where [ReArrange] puts the entry of row [i] and column [j]. *)
Definition position (i j : Z) : Z := if transpose then j * nr + i else i * nr + j.

Hypothesis Hnr : 0 < nr.
Hypothesis Hnc : 0 < nc <= nr.
Hypothesis Hraw : nc <= raw_nc.
Hypothesis Hcost : Z.of_nat (length cost) = nr * raw_nc.

Lemma position_inj i j i' j' :
  0 <= i < nr -> 0 <= j < nc -> 0 <= i' < nr -> 0 <= j' < nc ->
  position i j = position i' j' -> i = i' /\ j = j'.
Proof.
  intros Hi Hj Hi' Hj'. unfold position. destruct transpose; intros Heq.
  - destruct (Z.lt_trichotomy j j') as [Hlt|[->|Hgt]]; [nia | lia | nia].
  - destruct (Z.lt_trichotomy i i') as [Hlt|[->|Hgt]]; [nia | lia | nia].
Qed.

(** The entries copied before the round of row [i] and column [j]. *)
Definition copied (i j : Z) (temp : list spec_float) : Prop :=
  Z.of_nat (length temp) = nr * nc /\
  forall i' j', 0 <= i' < nr -> 0 <= j' < nc -> i' < i \/ (i' = i /\ j' < j) ->
    temp !! Z.to_nat (position i' j') = cost !! Z.to_nat (i' * raw_nc + j').

Hypothesis Hsquare : transpose = false -> nc = nr.

Lemma copy_entry i j temp :
  0 <= i < nr -> 0 <= j < nc -> copied i j temp ->
  exists temp',
    (c ← idx cost (i * raw_nc + j); set_at temp (position i j) c) = Done temp' /\
    copied i (j + 1) temp'.
Proof.
  intros Hi Hj [Hlen Hcopied].
  assert (Hpos : 0 <= position i j < nr * nc).
  { unfold position. destruct transpose eqn:Ht; [nia|].
    specialize (Hsquare eq_refl). nia. }
  destruct (lookup_lt_is_Some_2 cost (Z.to_nat (i * raw_nc + j)) ltac:(nia)) as [c Hc].
  rewrite (idx_lookup cost (i * raw_nc + j) c ltac:(nia) Hc). simpl.
  unfold set_at, in_bounds.
  destruct (Z.leb_spec 0 (position i j)); [|lia].
  destruct (Z.ltb_spec (position i j) (Z.of_nat (length temp))); [|lia]. simpl.
  eexists. split; [reflexivity|]. split.
  - rewrite length_insert. exact Hlen.
  - intros i' j' Hi' Hj' Hbefore.
    destruct (decide (i' = i /\ j' = j)) as [[-> ->]|Hne].
    + rewrite list_lookup_insert_eq by lia. now rewrite Hc.
    + rewrite list_lookup_insert_ne.
      * apply Hcopied; [exact Hi'|exact Hj'|]. lia.
      * intros Heq. apply Z2Nat.inj in Heq; [| lia |].
        -- apply position_inj in Heq; [|assumption ..]. destruct Heq. auto.
        -- unfold position. destruct transpose; nia.
Qed.

Lemma copy_row i temp :
  0 <= i < nr -> copied i 0 temp ->
  exists temp',
    for_each (Z.to_nat nc) 0
      (fun j temp => c ← idx cost (i * raw_nc + j); set_at temp (position i j) c) temp
    = Done temp' /\ copied (i + 1) 0 temp'.
Proof.
  intros Hi Hcopied.
  destruct (for_each_total (fun j t => copied i j t)
              (fun j temp => c ← idx cost (i * raw_nc + j); set_at temp (position i j) c)
              (Z.to_nat nc) 0 temp) as (temp' & Hrun & Hdone).
  - intros j t Hj Ht. apply copy_entry; [exact Hi | lia | exact Ht].
  - exact Hcopied.
  - exists temp'. split; [exact Hrun|].
    destruct Hdone as [Hlen Hdone]. split; [exact Hlen|].
    intros i' j' Hi' Hj' Hbefore. apply Hdone; [exact Hi'|exact Hj'|]. lia.
Qed.

Lemma copy_matrix temp :
  Z.of_nat (length temp) = nr * nc ->
  exists temp',
    for_each (Z.to_nat nr) 0
      (fun i temp =>
         for_each (Z.to_nat nc) 0
           (fun j temp => c ← idx cost (i * raw_nc + j); set_at temp (position i j) c) temp)
      temp = Done temp' /\
    copied nr 0 temp'.
Proof.
  intros Hlen.
  destruct (for_each_total (fun i t => copied i 0 t)
              (fun i temp =>
                 for_each (Z.to_nat nc) 0
                   (fun j temp => c ← idx cost (i * raw_nc + j); set_at temp (position i j) c) temp)
              (Z.to_nat nr) 0 temp) as (temp' & Hrun & Hdone).
  - intros i t Hi Ht. apply copy_row; [lia | exact Ht].
  - split; [exact Hlen|]. intros i' j' Hi' Hj' Hbefore. lia.
  - exists temp'. split; [exact Hrun|].
    replace (0 + Z.of_nat (Z.to_nat nr)) with nr in Hdone by lia. exact Hdone.
Qed.

End Copy.

(** When a transpose is due, or a negation on a square matrix, the
    matrix [Solve] works on holds every entry of the first [nc] columns of
    the cost matrix, negated under [maximize], at its transposed (or its
    own) position. *)
Lemma working_matrix_rearranged nr nc raw_nc (cost : list spec_float) maximize :
  0 < nc <= nr -> nr < 2 ^ 31 -> nc <= raw_nc ->
  Z.of_nat (length cost) = nr * raw_nc ->
  nc < nr \/ maximize = true ->
  exists temp,
    working_matrix nr nc raw_nc cost maximize = Done (nc, nr, temp) /\
    Z.of_nat (length temp) = nr * nc /\
    forall i j, 0 <= i < nr -> 0 <= j < nc ->
      temp !! Z.to_nat (position nr (nc <? nr) i j) =
        (if maximize then FP.opp else id) <$> cost !! Z.to_nat (i * raw_nc + j).
Proof.
  intros Hnc Hnr Hraw Hcost Hwhy. unfold working_matrix.
  assert (Hgo : (nc <? nr) || maximize = true).
  { destruct Hwhy as [Hlt| ->]; [|apply orb_true_r].
    destruct (Z.ltb_spec nc nr); [reflexivity | lia]. }
  rewrite Hgo. unfold ReArrange.
  rewrite !to_int_small by lia.
  destruct (copy_matrix nr nc raw_nc cost (nc <? nr) ltac:(lia) Hnc Hraw Hcost
              ltac:(intros Ht; destruct (Z.ltb_spec nc nr); [discriminate | lia])
              (replicate (Z.to_nat (nr * nc)) FP.zero)
              ltac:(rewrite length_replicate; nia)) as (temp & Hrun & Hlen & Hcopied).
  unfold position in Hrun.
  destruct (Z.ltb_spec nc nr) as [Hlt|Hge].
  - rewrite Hrun. simpl. eexists. split; [reflexivity|]. split.
    + destruct maximize; [rewrite length_fmap|]; exact Hlen.
    + intros i j Hi Hj. specialize (Hcopied i j Hi Hj ltac:(lia)).
      unfold position in *. destruct maximize; cbn [fst snd].
      * rewrite list_lookup_fmap. now rewrite Hcopied.
      * rewrite Hcopied. now destruct (cost !! _).
  - assert (nc = nr) as -> by lia.
    rewrite Hrun. simpl. eexists. split; [reflexivity|]. split.
    + destruct maximize; [rewrite length_fmap|]; exact Hlen.
    + intros i j Hi Hj. specialize (Hcopied i j Hi Hj ltac:(lia)).
      unfold position in *. destruct maximize; cbn [fst snd].
      * rewrite list_lookup_fmap. now rewrite Hcopied.
      * rewrite Hcopied. now destruct (cost !! _).
Qed.

(** An entry that makes the working matrix invalid: NaN, and the
    infinity that the optional negation turns into negative infinity. *)
Definition refused (maximize : bool) (c : spec_float) : Prop :=
  c = S754_nan \/ c = S754_infinity (negb maximize).

Lemma Solve_refused_entry fmt fuel nr nc raw_nc (cost : list spec_float) maximize a b i j c :
  0 < nc <= nr -> nr < 2 ^ 31 -> nc <= raw_nc ->
  Z.of_nat (length cost) = nr * raw_nc ->
  nc < nr \/ maximize = true ->
  0 <= i < nr -> 0 <= j < nc ->
  cost !! Z.to_nat (i * raw_nc + j) = Some c -> refused maximize c ->
  Solve fmt fuel nr nc raw_nc cost maximize a b = Done (false, (a, b)).
Proof.
  intros Hnc Hnr Hraw Hcost Hwhy Hi Hj Hc Hbad.
  destruct (working_matrix_rearranged nr nc raw_nc cost maximize Hnc Hnr Hraw Hcost Hwhy)
    as (temp & Hw & Hlen & Hentries).
  specialize (Hentries i j Hi Hj). rewrite Hc in Hentries. simpl in Hentries.
  assert (Hp : 0 <= position nr (nc <? nr) i j < nr * nc).
  { unfold position. destruct (Z.ltb_spec nc nr); nia. }
  apply (Solve_invalid_entry fmt fuel nr nc raw_nc cost maximize a b nc nr temp
           (Z.to_nat (position nr (nc <? nr) i j))
           ((if maximize then FP.opp else id) c)); try lia; try assumption.
  destruct Hbad as [->| ->]; destruct maximize; simpl; auto.
Qed.

(** C7, as stated, fails: with [maximize] set, the matrix is negated before
    it is checked, so an entry of negative infinity becomes a permitted
    positive infinity.  On the 1x2 matrix [[-inf, 1]] [Solve] returns
    true, with the pair (0,1). *)
Lemma Solve_accepts_negative_infinity_when_maximizing :
  ~ (forall fuel nr nc (cost : list spec_float) maximize a b,
       0 < nr -> 0 < nc -> Z.of_nat (length cost) = nr * nc ->
       (exists c, c ∈ cost /\ (c = S754_nan \/ c = S754_infinity true)) ->
       Solve FP.binary64 fuel nr nc nc cost maximize a b = Done (false, (a, b))).
Proof.
  intros Hall.
  specialize (Hall 1%nat 1 2 [S754_infinity true; FP.of_Z FP.binary64 1] true [0] [0]
                ltac:(lia) ltac:(lia) eq_refl).
  assert (Hex : exists c, c ∈ [S754_infinity true; FP.of_Z FP.binary64 1]
                          /\ (c = S754_nan \/ c = S754_infinity true)).
  { exists (S754_infinity true). split; [apply elem_of_cons; auto | auto]. }
  specialize (Hall Hex). vm_compute in Hall. discriminate Hall.
Qed.

(** *** The assignment that [Solve] returns *)

Section Matching.
Variable fmt : FP.format.

(** [row4col] and [col4row] describe one partial matching: a row that has
    a column is the row of that column, and conversely. *)
Definition consistent (row4col col4row : list Z) : Prop :=
  (forall (i : nat) c, col4row !! i = Some c -> c <> -1 ->
     0 <= c /\ row4col !! Z.to_nat c = Some (Z.of_nat i)) /\
  (forall (j : nat) r, row4col !! j = Some r -> r <> -1 ->
     0 <= r /\ col4row !! Z.to_nat r = Some (Z.of_nat j)).

(** The state of the matching inside the loop of
    [AugmentPreviousSolution]: column [j] has just been freed (no row
    holds it, whatever [row4col] says of it), and the current row has no
    column yet. *)
Definition augmenting (j cur_row : Z) (row4col col4row : list Z) : Prop :=
  (forall (i : nat) c, col4row !! i = Some c -> c <> -1 ->
     0 <= c /\ row4col !! Z.to_nat c = Some (Z.of_nat i)) /\
  (forall (c : nat) r, row4col !! c = Some r -> r <> -1 -> Z.of_nat c <> j ->
     0 <= r /\ col4row !! Z.to_nat r = Some (Z.of_nat c)) /\
  (forall i : nat, col4row !! i <> Some j) /\
  0 <= cur_row /\ col4row !! Z.to_nat cur_row = Some (-1).

(** What a completed augmentation leaves. *)
Definition augmented (cur_row : Z) (row4col col4row row4col' col4row' : list Z) : Prop :=
  consistent row4col' col4row' /\
  length row4col' = length row4col /\
  length col4row' = length col4row /\
  (forall (i : nat) c, col4row !! i = Some c -> c <> -1 ->
     exists c', col4row' !! i = Some c' /\ c' <> -1) /\
  (exists c, col4row' !! Z.to_nat cur_row = Some c /\ c <> -1) /\
  (forall i : nat, col4row !! i = Some (-1) -> Z.of_nat i <> cur_row ->
     col4row' !! i = Some (-1)).

Lemma AugmentPreviousSolution_augmented fuel :
  forall j cur_row path row4col col4row row4col' col4row',
  augmenting j cur_row row4col col4row ->
  AugmentPreviousSolution fuel j cur_row path row4col col4row = Done (row4col', col4row') ->
  augmented cur_row row4col col4row row4col' col4row'.
Proof.
  induction fuel as [|fuel IH]; intros j cur_row path r4c c4r r4c' c4r' Hinv Hrun;
    [discriminate|].
  destruct Hinv as (Hrows & Hcols & Hfree & Hcur0 & Hcur).
  simpl in Hrun.
  bind_inv Hrun i Hi. apply at_Done in Hi. destruct Hi as [Hj0 Hpath].
  bind_inv Hrun r4c1 Hr. apply set_at_Done in Hr. destruct Hr as [Hjb ->].
  bind_inv Hrun old Hold. apply at_Done in Hold. destruct Hold as [Hi0 Hold].
  bind_inv Hrun c4r1 Hc. apply set_at_Done in Hc. destruct Hc as [Hib ->].
  (* the facts shared by the two branches *)
  assert (Hrows' : forall (i2 : nat) c,
            <[Z.to_nat i := j]> c4r !! i2 = Some c -> c <> -1 ->
            0 <= c /\ <[Z.to_nat j := i]> r4c !! Z.to_nat c = Some (Z.of_nat i2)).
  { intros i2 c Hl Hc. destruct (decide (i2 = Z.to_nat i)) as [->|Hne].
    - rewrite list_lookup_insert_eq in Hl by lia. injection Hl as <-.
      split; [lia|]. rewrite list_lookup_insert_eq by lia. f_equal. lia.
    - rewrite list_lookup_insert_ne in Hl by lia.
      destruct (Hrows i2 c Hl Hc) as [Hc0 Hback]. split; [exact Hc0|].
      rewrite list_lookup_insert_ne; [exact Hback|].
      intros Heq. apply (Hfree i2). rewrite Hl. f_equal. lia. }
  destruct (Z.eqb_spec i cur_row) as [->|Hne].
  - injection Hrun as <- <-. unfold augmented.
    split; [split|split; [|split; [|split; [|split]]]].
    + exact Hrows'.
    + intros c r Hl Hr. destruct (decide (c = Z.to_nat j)) as [->|Hnj].
      * rewrite list_lookup_insert_eq in Hl by lia. injection Hl as <-.
        split; [lia|]. rewrite list_lookup_insert_eq by lia. f_equal. lia.
      * rewrite list_lookup_insert_ne in Hl by lia.
        destruct (Hcols c r Hl Hr ltac:(lia)) as [Hr0 Hback]. split; [exact Hr0|].
        rewrite list_lookup_insert_ne; [exact Hback|].
        intros Heq. rewrite <- Heq in Hback. rewrite Hcur in Hback. injection Hback. lia.
    + apply length_insert.
    + apply length_insert.
    + intros i2 c Hl Hc. destruct (decide (i2 = Z.to_nat cur_row)) as [->|Hn2].
      * rewrite Hcur in Hl. congruence.
      * exists c. rewrite list_lookup_insert_ne by lia. auto.
    + exists j. rewrite list_lookup_insert_eq by lia. split; [reflexivity | lia].
    + intros i2 Hl Hn2. rewrite list_lookup_insert_ne by lia. exact Hl.
  - (* the row had a column, which is freed in turn *)
    destruct (Z.ltb_spec old 0) as [Hneg|Hpos].
    { destruct fuel; [discriminate|]. simpl in Hrun.
      bind_inv Hrun i' Hi'. apply at_Done in Hi'. lia. }
    assert (Hinv' : augmenting old cur_row (<[Z.to_nat j := i]> r4c) (<[Z.to_nat i := j]> c4r)).
    { split; [exact Hrows'|]. split; [|split; [|split]].
      - intros c r Hl Hr Hc.
        destruct (decide (c = Z.to_nat j)) as [->|Hnj].
        + rewrite list_lookup_insert_eq in Hl by lia. injection Hl as <-.
          split; [lia|]. rewrite list_lookup_insert_eq by lia. f_equal. lia.
        + rewrite list_lookup_insert_ne in Hl by lia.
          destruct (Hcols c r Hl Hr ltac:(lia)) as [Hr0 Hback]. split; [exact Hr0|].
          rewrite list_lookup_insert_ne; [exact Hback|].
          intros Heq. rewrite <- Heq in Hback. rewrite Hold in Hback.
          injection Hback. lia.
      - intros i2 Hl. destruct (decide (i2 = Z.to_nat i)) as [->|Hn2].
        + rewrite list_lookup_insert_eq in Hl by lia. injection Hl as <-.
          apply (Hfree (Z.to_nat i)). exact Hold.
        + rewrite list_lookup_insert_ne in Hl by lia.
          destruct (Hrows i2 old Hl ltac:(lia)) as [_ Hb2].
          destruct (Hrows (Z.to_nat i) old Hold ltac:(lia)) as [_ Hb1].
          rewrite Hb1 in Hb2. injection Hb2. lia.
      - exact Hcur0.
      - rewrite list_lookup_insert_ne by lia. exact Hcur. }
    destruct (IH old cur_row path _ _ r4c' c4r' Hinv' Hrun)
      as (Hcons & Hl1 & Hl2 & Hkeep & Hnow & Hnone).
    unfold augmented. split; [exact Hcons|]. split; [|split; [|split; [|split]]].
    + rewrite Hl1. apply length_insert.
    + rewrite Hl2. apply length_insert.
    + intros i2 c Hl Hc. destruct (decide (i2 = Z.to_nat i)) as [->|Hn2].
      * apply (Hkeep (Z.to_nat i) j); [|lia]. apply list_lookup_insert_eq. lia.
      * apply (Hkeep i2 c); [|exact Hc]. rewrite list_lookup_insert_ne by lia. exact Hl.
    + exact Hnow.
    + intros i2 Hl Hn2. apply Hnone; [|exact Hn2].
      rewrite list_lookup_insert_ne; [exact Hl|].
      intros Heq. rewrite <- Heq in Hl. rewrite Hold in Hl. injection Hl. lia.
Qed.

Lemma find_sink_sink nc cost u v row4col num_remaining :
  forall i min_val s sink mv s',
  find_sink fmt nc cost u v row4col num_remaining i min_val s = Done (sink, mv, s') ->
  sink = -1 \/ (0 <= sink /\ row4col !! Z.to_nat sink = Some (-1)).
Proof.
  induction num_remaining as [|n IH]; intros i min_val s sink mv s' Hrun;
    rewrite find_sink_unfold in Hrun;
    bind_inv Hrun sr Hsr; bind_inv Hrun scanned Hscan; cbv zeta in Hrun;
    (destruct (FP.eqb (lowest scanned) FP.INFINITY); [injection Hrun as <- _ _; now left|]);
    bind_inv Hrun j Hj; bind_inv Hrun r4c Hr4c; bind_inv Hrun sc' Hsc'; [discriminate|].
  bind_inv Hrun last Hlast. bind_inv Hrun rem Hrem. cbv zeta in Hrun.
  destruct (Z.eqb_spec r4c (-1)) as [->|Hne].
  - injection Hrun as <- _ _. right. now apply at_Done in Hr4c.
  - exact (IH _ _ _ _ _ _ Hrun).
Qed.

Lemma AugmentingPath_sink nc cost u v row4col i s sink mv s' :
  AugmentingPath fmt nc cost u v row4col i s = Done (sink, mv, s') ->
  sink = -1 \/ (0 <= sink /\ row4col !! Z.to_nat sink = Some (-1)).
Proof.
  unfold AugmentingPath. intros Hrun. bind_inv Hrun rem Hrem.
  exact (find_sink_sink _ _ _ _ _ _ _ _ _ _ _ _ Hrun).
Qed.

(** The matching before the round of [cur_row]: the rows before it have a
    column, the others have none. *)
Definition rows_matched (nr nc cur_row : Z) (d : duals) : Prop :=
  consistent (row4col d) (col4row d) /\
  Z.of_nat (length (col4row d)) = nr /\
  Z.of_nat (length (row4col d)) = nc /\
  (forall i : nat, Z.of_nat i < cur_row ->
     exists c, col4row d !! i = Some c /\ c <> -1) /\
  (forall i : nat, cur_row <= Z.of_nat i < nr -> col4row d !! i = Some (-1)).

Lemma solve_row_matched fuel nr nc cost cur_row d d' :
  0 <= cur_row < nr ->
  rows_matched nr nc cur_row d ->
  solve_row fmt fuel nr nc cost cur_row d = Done (Some d') ->
  rows_matched nr nc (cur_row + 1) d'.
Proof.
  intros Hcur (Hcons & Hlc & Hlr & Hbefore & Hafter) Hrun.
  unfold solve_row in Hrun.
  bind_inv Hrun found Hfound. destruct found as [[sink min_val] s].
  destruct (Z.ltb_spec sink 0) as [|Hsink]; [discriminate|].
  bind_inv Hrun u0 Hu0. bind_inv Hrun u1 Hu1. bind_inv Hrun u2 Hu2. bind_inv Hrun v2 Hv2.
  bind_inv Hrun new Hnew. destruct new as [r4c c4r]. injection Hrun as <-.
  destruct (AugmentingPath_sink _ _ _ _ _ _ _ _ _ _ Hfound) as [->|[_ Hfree]]; [lia|].
  assert (Hinv : augmenting sink cur_row (row4col d) (col4row d)).
  { destruct Hcons as [Hrows Hcols]. split; [exact Hrows|]. split; [|split; [|split]].
    - intros c r Hl Hr _. exact (Hcols c r Hl Hr).
    - intros i Hl. destruct (Hrows i sink Hl ltac:(lia)) as [_ Hback].
      rewrite Hfree in Hback. injection Hback. lia.
    - lia.
    - replace cur_row with (Z.of_nat (Z.to_nat cur_row)) at 1 by lia.
      rewrite Nat2Z.id. apply Hafter. lia. }
  destruct (AugmentPreviousSolution_augmented _ _ _ _ _ _ _ _ Hinv Hnew)
    as (Hcons' & Hl1 & Hl2 & Hkeep & Hnow & Hnone).
  unfold rows_matched. simpl.
  split; [exact Hcons'|]. split; [lia|]. split; [lia|]. split.
  - intros i Hi. destruct (decide (Z.of_nat i = cur_row)) as [<-|Hne].
    + rewrite Nat2Z.id in Hnow. exact Hnow.
    + destruct (Hbefore i ltac:(lia)) as (c & Hc & Hc1). exact (Hkeep i c Hc Hc1).
  - intros i Hi. apply Hnone; [|lia]. apply Hafter. lia.
Qed.

Lemma solve_rows_matched fuel nr nc cost n :
  forall cur_row d d',
  0 <= cur_row -> cur_row + Z.of_nat n <= nr ->
  rows_matched nr nc cur_row d ->
  solve_rows fmt fuel nr nc cost n cur_row d = Done (Some d') ->
  rows_matched nr nc (cur_row + Z.of_nat n) d'.
Proof.
  induction n as [|n IH]; intros cur_row d d' Hcur Hn Hinv Hrun; simpl in Hrun.
  - injection Hrun as <-. now rewrite Z.add_0_r.
  - bind_inv Hrun r Hr. destruct r as [d1|]; [|discriminate].
    replace (cur_row + Z.of_nat (S n)) with (cur_row + 1 + Z.of_nat n) by lia.
    apply (IH (cur_row + 1) d1 d'); [lia | lia | | exact Hrun].
    apply (solve_row_matched fuel nr nc cost cur_row d d1); [lia | exact Hinv | exact Hr].
Qed.

Lemma initial_duals_matched nr nc :
  0 <= nr -> 0 <= nc -> rows_matched nr nc 0 (initial_duals nr nc).
Proof.
  intros Hnr Hnc. unfold rows_matched, initial_duals, consistent. simpl.
  rewrite !length_replicate.
  split; [split|split; [lia|split; [lia|split]]].
  - intros i c Hl Hc. apply lookup_replicate in Hl. destruct Hl. contradiction.
  - intros j r Hl Hr. apply lookup_replicate in Hl. destruct Hl. contradiction.
  - intros i Hi. lia.
  - intros i Hi. apply lookup_replicate. split; [reflexivity | lia].
Qed.

(** Once every row is matched, [col4row] maps the rows to distinct
    columns. *)
Lemma matched_columns nr nc d :
  rows_matched nr nc nr d ->
  (forall i : nat, Z.of_nat i < nr ->
     exists c, col4row d !! i = Some c /\ 0 <= c < nc) /\
  (forall (i1 i2 : nat) c, col4row d !! i1 = Some c -> col4row d !! i2 = Some c ->
     Z.of_nat i1 < nr -> i1 = i2).
Proof.
  intros ([Hrows Hcols] & Hlc & Hlr & Hbefore & _). split.
  - intros i Hi. destruct (Hbefore i Hi) as (c & Hc & Hc1). exists c. split; [exact Hc|].
    destruct (Hrows i c Hc Hc1) as [Hc0 Hback]. apply lookup_lt_Some in Hback. lia.
  - intros i1 i2 c H1 H2 Hi. destruct (Hbefore i1 Hi) as (c' & Hc & Hc1).
    rewrite H1 in Hc. injection Hc as <-.
    destruct (Hrows i1 c H1 Hc1) as [_ Hb1]. destruct (Hrows i2 c H2 Hc1) as [_ Hb2].
    rewrite Hb1 in Hb2. injection Hb2. lia.
Qed.

End Matching.

(** *** The pairs that [PostProcess] writes *)

Lemma set_idx_Done {A} (l : list A) i x l' :
  set_idx l i x = Done l' ->
  0 <= i < Z.of_nat (length l) /\ l' = <[Z.to_nat i := x]> l.
Proof.
  unfold set_idx, in_bounds.
  destruct (Z.leb_spec 0 i), (Z.ltb_spec i (Z.of_nat (length l))); simpl; try discriminate.
  intros [= <-]. auto.
Qed.

Lemma write_pair_Done i x y (ab ab' : list Z * list Z) :
  write_pair i x y ab = Done ab' ->
  0 <= i < Z.of_nat (length ab.1) /\ 0 <= i < Z.of_nat (length ab.2) /\
  ab' = (<[Z.to_nat i := x]> ab.1, <[Z.to_nat i := y]> ab.2).
Proof.
  unfold write_pair. intros Hrun.
  bind_inv Hrun a1 Ha. apply set_idx_Done in Ha. destruct Ha as [Hia ->].
  bind_inv Hrun b1 Hb. apply set_idx_Done in Hb. destruct Hb as [Hib ->].
  injection Hrun as <-. auto.
Qed.

(** The outputs after pairs were written at the positions [[lo, hi)],
    each pair standing in the relation [P] to its position. *)
Definition written (P : Z -> Z -> Z -> Prop) (lo hi : Z) (ab ab' : list Z * list Z) : Prop :=
  length ab'.1 = length ab.1 /\ length ab'.2 = length ab.2 /\
  (forall p : nat, lo <= Z.of_nat p < hi ->
     exists x y, P (Z.of_nat p) x y /\ ab'.1 !! p = Some x /\ ab'.2 !! p = Some y) /\
  (forall p : nat, ~ (lo <= Z.of_nat p < hi) -> ab'.1 !! p = ab.1 !! p /\ ab'.2 !! p = ab.2 !! p).

Lemma written_step P lo i x y ab ab1 ab' :
  lo <= i -> P i x y ->
  written P lo i ab ab1 -> write_pair i x y ab1 = Done ab' ->
  written P lo (i + 1) ab ab'.
Proof.
  intros Hlo HP (Hla & Hlb & Hin & Hout) Hw.
  apply write_pair_Done in Hw. destruct Hw as (Hia & Hib & ->). simpl.
  unfold written. simpl. rewrite !length_insert.
  split; [exact Hla|]. split; [exact Hlb|]. split.
  - intros p Hp. destruct (decide (p = Z.to_nat i)) as [->|Hne].
    + exists x, y. rewrite !list_lookup_insert_eq by lia.
      replace (Z.of_nat (Z.to_nat i)) with i by lia. auto.
    + rewrite !list_lookup_insert_ne by lia. apply Hin. lia.
  - intros p Hp. rewrite !list_lookup_insert_ne by lia. apply Hout. lia.
Qed.

Lemma write_loop P (body : Z -> list Z * list Z -> outcome (list Z * list Z)) n lo ab ab' :
  (forall i s s', lo <= i -> body i s = Done s' ->
     exists x y, P i x y /\ write_pair i x y s = Done s') ->
  for_each n lo body ab = Done ab' ->
  written P lo (lo + Z.of_nat n) ab ab'.
Proof.
  intros Hbody Hrun.
  apply (for_each_indexed (fun i s => written P lo i ab s) body n lo ab ab'); [| |exact Hrun].
  - intros i s s' Hi Hs Hstep.
    destruct (Hbody i s s' ltac:(lia) Hstep) as (x & y & HP & Hw).
    exact (written_step P lo i x y ab s s' ltac:(lia) HP Hs Hw).
  - unfold written. split; [reflexivity|]. split; [reflexivity|]. split.
    + intros p Hp. lia.
    + intros p _. auto.
Qed.

(** The order of the indices after [std::sort]. *)
Definition key (col4row : list Z) (x : Z) : Z := default 0 (col4row !! Z.to_nat x).

Lemma insert_by_key_perm col4row x l : insert_by_key col4row x l ≡ₚ x :: l.
Proof.
  induction l as [|y l IH]; simpl; [reflexivity|].
  destruct (_ <? _); [reflexivity|]. rewrite IH. apply Permutation_swap.
Qed.

Lemma insert_by_key_sorted col4row x l :
  StronglySorted (fun y z => key col4row y <= key col4row z) l ->
  StronglySorted (fun y z => key col4row y <= key col4row z) (insert_by_key col4row x l).
Proof.
  intros Hs. induction Hs as [|y l Hs IH Hall]; simpl.
  - repeat constructor.
  - fold (key col4row x). fold (key col4row y).
    destruct (Z.ltb_spec (key col4row x) (key col4row y)) as [Hlt|Hge].
    + constructor; [constructor; assumption|].
      constructor; [lia|]. eapply Forall_impl; [exact Hall|]. simpl. intros z Hz. lia.
    + constructor; [exact IH|].
      rewrite insert_by_key_perm. constructor; [lia | exact Hall].
Qed.

Lemma argsort_perm col4row :
  argsort col4row ≡ₚ Z.of_nat <$> seq 0 (length col4row).
Proof.
  unfold argsort. induction (Z.of_nat <$> seq 0 (length col4row)) as [|x l IH]; simpl.
  - reflexivity.
  - rewrite insert_by_key_perm. now rewrite IH.
Qed.

Lemma argsort_sorted col4row :
  StronglySorted (fun y z => key col4row y <= key col4row z) (argsort col4row).
Proof.
  unfold argsort. induction (Z.of_nat <$> seq 0 (length col4row)) as [|x l IH]; simpl.
  - constructor.
  - now apply insert_by_key_sorted.
Qed.

Lemma StronglySorted_lookup_le {A} (R : A -> A -> Prop) (l : list A) :
  StronglySorted R l ->
  forall (p q : nat) x y, (p < q)%nat -> l !! p = Some x -> l !! q = Some y -> R x y.
Proof.
  intros Hs. induction Hs as [|z l Hs IH Hall]; intros p q x y Hpq Hp Hq.
  - discriminate.
  - destruct q as [|q]; [lia|]. simpl in Hq. destruct p as [|p]; simpl in Hp.
    + injection Hp as <-. rewrite Forall_forall in Hall. apply Hall.
      eapply list_elem_of_lookup_2. exact Hq.
    + apply (IH p q); [lia | assumption | assumption].
Qed.

(** The loop over the sorted indices in the transposed case, after the
    indices [done] and before the indices [rest]. *)
Definition sorted_pair (col4row index : list Z) (p x y : Z) : Prop :=
  index !! Z.to_nat p = Some y /\ 0 <= y /\ col4row !! Z.to_nat y = Some x.

Lemma write_sorted col4row ab : forall rest done ab1 r,
  written (sorted_pair col4row (done ++ rest)) 0 (Z.of_nat (length done)) ab ab1 ->
  foldl (fun acc val =>
           '(i, ab) ← acc;
           c ← idx col4row val;
           ab ← write_pair i c val ab;
           Done (i + 1, ab))
        (Done (Z.of_nat (length done), ab1)) rest = Done r ->
  written (sorted_pair col4row (done ++ rest)) 0 (Z.of_nat (length (done ++ rest))) ab r.2.
Proof.
  induction rest as [|val rest IH]; intros done ab1 r Hw Hrun; simpl in Hrun.
  - injection Hrun as <-. simpl. now rewrite app_nil_r in *.
  - destruct (idx col4row val) as [c| | | |] eqn:Hc; simpl in Hrun;
      try (exfalso; clear -Hrun; induction rest; simpl in Hrun; [discriminate | auto]).
    destruct (write_pair (Z.of_nat (length done)) c val ab1) as [ab2| | | |] eqn:Hp;
      simpl in Hrun;
      try (exfalso; clear -Hrun; induction rest; simpl in Hrun; [discriminate | auto]).
    apply idx_Done in Hc. destruct Hc as [Hval Hc].
    replace (done ++ val :: rest) with ((done ++ [val]) ++ rest) in *
      by (now rewrite <- app_assoc).
    apply (IH (done ++ [val]) ab2 r).
    + rewrite length_app. simpl length.
      replace (Z.of_nat (length done + 1)) with (Z.of_nat (length done) + 1) by lia.
      apply (written_step _ 0 (Z.of_nat (length done)) c val ab ab1 ab2); [lia| |exact Hw|exact Hp].
      unfold sorted_pair. rewrite Nat2Z.id. split; [|auto].
      rewrite lookup_app_l by (rewrite length_app; simpl; lia).
      rewrite lookup_app_r by lia. now rewrite Nat.sub_diag.
    + rewrite length_app. simpl length.
      replace (Z.of_nat (length done + 1)) with (Z.of_nat (length done) + 1) by lia.
      exact Hrun.
Qed.

(** How [PostProcess] pairs a position with a row and a column of the
    matrix that [Solve] worked on. *)
Definition paired (col4row : list Z) (transpose : bool) (p x y : Z) : Prop :=
  if transpose then sorted_pair col4row (argsort col4row) p x y
  else x = p /\ col4row !! Z.to_nat p = Some y.

Lemma PostProcess_written a b col4row transpose nr nc element_num a' b' :
  0 < nr < 2 ^ 31 -> nr <= nc < 2 ^ 31 -> 0 <= element_num < 2 ^ 31 ->
  Z.of_nat (length col4row) = nr ->
  PostProcess a b col4row transpose nr nc element_num = Done (a', b') ->
  exists ab1,
    written (paired col4row transpose) 0 nr (a, b) ab1 /\
    written (fun _ x y => x = -1 /\ y = -1) nr (Z.max nr element_num) ab1 (a', b').
Proof.
  intros Hnr Hnc Hel Hlen Hrun. unfold PostProcess in Hrun.
  rewrite !to_int_small in Hrun by lia.
  bind_inv Hrun ab1 H1. exists ab1.
  rewrite Z.min_l in Hrun by lia.
  split.
  - destruct transpose.
    + bind_inv H1 r Hr. destruct r as [k ab2]. injection H1 as ->.
      pose proof (write_sorted col4row (a, b) (argsort col4row) [] (a, b) (k, ab1)) as Hw.
      simpl in Hw. rewrite (Permutation_length (argsort_perm col4row)) in Hw.
      rewrite length_fmap, length_seq, Hlen in Hw.
      apply Hw; [|exact Hr].
      split; [reflexivity|]. split; [reflexivity|]. split; [intros p Hp; lia | auto].
    + assert (Hw : written (paired col4row false) 0 (0 + Z.of_nat (Z.to_nat nr)) (a, b) ab1).
      { eapply (write_loop (paired col4row false)); [|exact H1].
        intros i s s' Hi Hbody. bind_inv Hbody c Hc. apply idx_Done in Hc.
        exists i, c. unfold paired. tauto. }
      replace (0 + Z.of_nat (Z.to_nat nr)) with nr in Hw by lia. exact Hw.
  - assert (Hw : written (fun _ x y => x = -1 /\ y = -1) nr
                   (nr + Z.of_nat (Z.to_nat (element_num - nr))) ab1 (a', b')).
    { eapply (write_loop (fun _ x y => x = -1 /\ y = -1)); [|exact Hrun].
      intros i s s' Hi Hbody. exists (-1), (-1). auto. }
    replace (nr + Z.of_nat (Z.to_nat (element_num - nr))) with (Z.max nr element_num) in Hw
      by lia.
    exact Hw.
Qed.

(** The pairs of a matching of all [nr] rows of the working matrix, as
    [PostProcess] writes them: in the order of the rows of the cost
    matrix, and followed by -1 up to [element_num]. *)
Lemma PostProcess_assignment a b col4row transpose nr nc element_num a' b' :
  0 < nr < 2 ^ 31 -> nr <= nc < 2 ^ 31 -> 0 <= element_num < 2 ^ 31 ->
  Z.of_nat (length col4row) = nr ->
  (forall i : nat, Z.of_nat i < nr -> exists c, col4row !! i = Some c /\ 0 <= c < nc) ->
  (forall (i1 i2 : nat) c, col4row !! i1 = Some c -> col4row !! i2 = Some c ->
     Z.of_nat i1 < nr -> i1 = i2) ->
  PostProcess a b col4row transpose nr nc element_num = Done (a', b') ->
  length a' = length a /\ length b' = length b /\
  (forall p : nat, Z.of_nat p < nr ->
     exists x y, a' !! p = Some x /\ b' !! p = Some y /\
       if transpose then 0 <= x < nc /\ 0 <= y < nr else 0 <= x < nr /\ 0 <= y < nc) /\
  (forall (p q : nat) x1 x2, (p < q)%nat -> Z.of_nat q < nr ->
     a' !! p = Some x1 -> a' !! q = Some x2 -> x1 < x2) /\
  (forall (p q : nat) y, Z.of_nat p < nr -> Z.of_nat q < nr ->
     b' !! p = Some y -> b' !! q = Some y -> p = q) /\
  (forall p : nat, nr <= Z.of_nat p < element_num ->
     a' !! p = Some (-1) /\ b' !! p = Some (-1)) /\
  (forall p : nat, Z.max nr element_num <= Z.of_nat p ->
     a' !! p = a !! p /\ b' !! p = b !! p).
Proof.
  intros Hnr Hnc Hel Hlen Hrange Hinj Hrun.
  destruct (PostProcess_written _ _ _ _ _ _ _ _ _ Hnr Hnc Hel Hlen Hrun)
    as (ab1 & (Hl1a & Hl1b & Hin1 & Hout1) & (Hl2a & Hl2b & Hin2 & Hout2)).
  simpl in *.
  assert (Hpairs : forall p : nat, Z.of_nat p < nr ->
            exists x y, paired col4row transpose (Z.of_nat p) x y /\
                        a' !! p = Some x /\ b' !! p = Some y).
  { intros p Hp. destruct (Hin1 p ltac:(lia)) as (x & y & HP & Hx & Hy).
    destruct (Hout2 p ltac:(lia)) as [Ha Hb]. exists x, y. rewrite Ha, Hb. auto. }
  assert (Hindex : forall (p : nat) y, argsort col4row !! p = Some y ->
            0 <= y < nr /\ Z.of_nat (Z.to_nat y) = y).
  { intros p y Hy. apply list_elem_of_lookup_2 in Hy. rewrite argsort_perm in Hy.
    apply list_elem_of_fmap in Hy. destruct Hy as (m & -> & Hm).
    apply elem_of_seq in Hm. lia. }
  assert (Hnodup : NoDup (argsort col4row)).
  { rewrite argsort_perm. apply NoDup_fmap_2; [intros ? ?; lia | apply NoDup_seq]. }
  split; [congruence|]. split; [congruence|]. split; [|split; [|split; [|split]]].
  - intros p Hp. destruct (Hpairs p Hp) as (x & y & HP & Hx & Hy).
    exists x, y. split; [exact Hx|]. split; [exact Hy|].
    destruct transpose; simpl in HP.
    + destruct HP as (Hi & Hy0 & Hc). rewrite Nat2Z.id in Hi.
      destruct (Hindex p y Hi) as [Hyr _].
      destruct (Hrange (Z.to_nat y) ltac:(lia)) as (c & Hc' & Hcr).
      rewrite Hc in Hc'. injection Hc' as <-. lia.
    + destruct HP as (-> & Hc). rewrite Nat2Z.id in Hc.
      destruct (Hrange p Hp) as (c & Hc' & Hcr). rewrite Hc in Hc'. injection Hc' as <-. lia.
  - intros p q x1 x2 Hpq Hq H1 H2.
    destruct (Hpairs p ltac:(lia)) as (x & y & HP & Hx & _).
    destruct (Hpairs q Hq) as (x' & y' & HP' & Hx' & _).
    rewrite H1 in Hx. injection Hx as <-. rewrite H2 in Hx'. injection Hx' as <-.
    destruct transpose; simpl in HP, HP'.
    + destruct HP as (Hi & Hy0 & Hc). destruct HP' as (Hi' & Hy0' & Hc').
      rewrite Nat2Z.id in Hi, Hi'.
      pose proof (StronglySorted_lookup_le _ _ (argsort_sorted col4row) p q y y' Hpq Hi Hi')
        as Hle.
      unfold key in Hle. rewrite Hc, Hc' in Hle. simpl in Hle.
      destruct (decide (x1 = x2)) as [->|Hne]; [|lia].
      destruct (Hindex p y Hi) as [Hyr Hyz].
      pose proof (Hinj (Z.to_nat y) (Z.to_nat y') x2 Hc Hc' ltac:(lia)) as Heq.
      assert (y = y') as -> by lia.
      pose proof (NoDup_lookup _ p q y' Hnodup Hi Hi'). lia.
    + destruct HP as [-> _]. destruct HP' as [-> _]. lia.
  - intros p q y Hp Hq H1 H2.
    destruct (Hpairs p Hp) as (x & y1 & HP & _ & Hy).
    destruct (Hpairs q Hq) as (x' & y2 & HP' & _ & Hy').
    rewrite H1 in Hy. injection Hy as <-. rewrite H2 in Hy'. injection Hy' as <-.
    destruct transpose; simpl in HP, HP'.
    + destruct HP as (Hi & _). destruct HP' as (Hi' & _). rewrite Nat2Z.id in Hi, Hi'.
      exact (NoDup_lookup _ p q y Hnodup Hi Hi').
    + destruct HP as [_ Hc]. destruct HP' as [_ Hc']. rewrite Nat2Z.id in Hc, Hc'.
      exact (Hinj p q y Hc Hc' Hp).
  - intros p Hp. destruct (Hin2 p ltac:(lia)) as (x & y & [-> ->] & Hx & Hy). auto.
  - intros p Hp. destruct (Hout2 p ltac:(lia)) as [Ha Hb].
    destruct (Hout1 p ltac:(lia)) as [Ha1 Hb1]. rewrite Ha, Hb. auto.
Qed.

Lemma working_matrix_dims nr nc raw_nc (cost : list spec_float) maximize nr' nc' cost' :
  working_matrix nr nc raw_nc cost maximize = Done (nr', nc', cost') ->
  (nr', nc') = if nc <? nr then (nc, nr) else (nr, nc).
Proof.
  unfold working_matrix, ReArrange. intros Hrun.
  destruct (nc <? nr); simpl in Hrun.
  - bind_inv Hrun r Hr. destruct r as [dims temp]. bind_inv Hr t Ht.
    injection Hr as <- _. injection Hrun as <- <- _. reflexivity.
  - destruct maximize; simpl in Hrun.
    + bind_inv Hrun r Hr. destruct r as [dims temp]. bind_inv Hr t Ht.
      injection Hr as <- _. injection Hrun as <- <- _. reflexivity.
    + injection Hrun as <- <- _. reflexivity.
Qed.

(** X2. Whenever [Solve] returns true, the first [min(nr, nc)] entries of
    the two outputs pair rows of the cost matrix with columns among the
    first [nc]: the rows are in strictly ascending order and the columns
    are pairwise distinct.  The entries from there to [min(nr, raw_nc)]
    are -1, and nothing else is written. *)
Theorem Solve_returns_assignment fmt fuel nr nc raw_nc cost maximize a b a' b' :
  0 < nr < 2 ^ 31 -> 0 < nc < 2 ^ 31 -> 0 <= raw_nc ->
  Solve fmt fuel nr nc raw_nc cost maximize a b = Done (true, (a', b')) ->
  let k := Z.min nr nc in
  length a' = length a /\ length b' = length b /\
  (forall p : nat, Z.of_nat p < k ->
     exists r c, a' !! p = Some r /\ b' !! p = Some c /\ 0 <= r < nr /\ 0 <= c < nc) /\
  (forall (p q : nat) r1 r2, (p < q)%nat -> Z.of_nat q < k ->
     a' !! p = Some r1 -> a' !! q = Some r2 -> r1 < r2) /\
  (forall (p q : nat) c, Z.of_nat p < k -> Z.of_nat q < k ->
     b' !! p = Some c -> b' !! q = Some c -> p = q) /\
  (forall p : nat, k <= Z.of_nat p < Z.min nr raw_nc ->
     a' !! p = Some (-1) /\ b' !! p = Some (-1)) /\
  (forall p : nat, Z.max k (Z.min nr raw_nc) <= Z.of_nat p ->
     a' !! p = a !! p /\ b' !! p = b !! p).
Proof.
  intros Hnr Hnc Hraw Hrun k.
  unfold Solve in Hrun.
  destruct (Z.eqb_spec nr 0); [lia|]. destruct (Z.eqb_spec nc 0); [lia|]. simpl in Hrun.
  bind_inv Hrun w Hw. destruct w as [[nr' nc'] cost'].
  pose proof (working_matrix_dims _ _ _ _ _ _ _ _ Hw) as Hdims.
  bind_inv Hrun ok Hok. destruct ok; simpl in Hrun; [|discriminate].
  bind_inv Hrun r Hr. destruct r as [d|]; [|discriminate].
  bind_inv Hrun ab Hab. injection Hrun as ->.
  assert (Hk : nr' = k /\ nr' <= nc' /\ (if nc <? nr then nc' = nr else nc' = nc)).
  { subst k. destruct (Z.ltb_spec nc nr); injection Hdims as -> ->; lia. }
  destruct Hk as (Hk & Hle & Hnc').
  pose proof (solve_rows_matched fmt fuel nr' nc' cost' (Z.to_nat nr') 0 _ d
                ltac:(lia) ltac:(lia) (initial_duals_matched nr' nc' ltac:(lia) ltac:(lia)) Hr)
    as Hm.
  replace (0 + Z.of_nat (Z.to_nat nr')) with nr' in Hm by lia.
  pose proof Hm as (_ & Hlen & _).
  destruct (matched_columns nr' nc' d Hm) as [Hrange Hinj].
  destruct (PostProcess_assignment a b (col4row d) (nc <? nr) nr' nc' (Z.min nr raw_nc) a' b'
              ltac:(lia) ltac:(destruct (nc <? nr); lia) ltac:(lia) Hlen Hrange Hinj Hab)
    as (Hla & Hlb & Hpairs & Hinc & Hcols & Hpad & Hframe).
  rewrite Hk in *.
  split; [exact Hla|]. split; [exact Hlb|]. split; [|auto].
  intros p Hp. destruct (Hpairs p Hp) as (x & y & Hx & Hy & Hb).
  exists x, y. split; [exact Hx|]. split; [exact Hy|].
  subst k. destruct (Z.ltb_spec nc nr); lia.
Qed.

Lemma Solve_returns_assignment_witness :
  let cost := matrix [4; 1; 3; 2; 0; 5; 3; 2; 2] in
  Solve FP.binary64 5 3 2 3 cost false [7; 7; 7] [7; 7; 7] =
    Done (true, ([0; 1; -1], [1; 0; -1])) /\
  (forall (p q : nat) r1 r2, (p < q)%nat -> Z.of_nat q < 2 ->
     [0; 1; -1] !! p = Some r1 -> [0; 1; -1] !! q = Some r2 -> r1 < r2) /\
  (forall p : nat, 2 <= Z.of_nat p < 3 ->
     [0; 1; -1] !! p = Some (-1) /\ [1; 0; -1] !! p = Some (-1)).
Proof.
  intros cost.
  assert (Hrun : Solve FP.binary64 5 3 2 3 cost false [7; 7; 7] [7; 7; 7] =
                 Done (true, ([0; 1; -1], [1; 0; -1]))) by (vm_compute; reflexivity).
  split; [exact Hrun|].
  destruct (Solve_returns_assignment FP.binary64 5 3 2 3 cost false [7; 7; 7] [7; 7; 7]
              [0; 1; -1] [1; 0; -1] ltac:(lia) ltac:(lia) ltac:(lia) Hrun)
    as (_ & _ & _ & Hinc & _ & Hpad & _).
  split; [exact Hinc | exact Hpad].
Defined.

Lemma Solve_false_keeps_outputs fmt fuel nr nc raw_nc cost maximize a b ab :
  Solve fmt fuel nr nc raw_nc cost maximize a b = Done (false, ab) -> ab = (a, b).
Proof.
  unfold Solve. intros Hrun.
  destruct ((nr =? 0) || (nc =? 0)); [discriminate|].
  cbv zeta in Hrun. bind_inv Hrun w Hw. destruct w as [[nr' nc'] cost'].
  bind_inv Hrun ok Hok. destruct ok; simpl in Hrun; [|now injection Hrun].
  bind_inv Hrun r Hr. destruct r as [d|]; [|now injection Hrun].
  bind_inv Hrun ab' Hab. discriminate.
Qed.

(** X3. A launch that returns false, for whichever reason, leaves both
    output arrays as it found them. *)
Theorem LaunchKernel_failure_keeps_outputs fmt fuel shape cost dimension_limit maximize
    row_ind col_ind ab :
  LaunchKernel fmt fuel shape cost dimension_limit maximize row_ind col_ind = Done (false, ab) ->
  ab = (row_ind, col_ind).
Proof.
  unfold LaunchKernel. intros Hrun.
  bind_inv Hrun nr Hnr. bind_inv Hrun nc Hnc.
  destruct (dimension_limit =? INT64_MAX).
  - exact (Solve_false_keeps_outputs _ _ _ _ _ _ _ _ _ _ Hrun).
  - destruct (nc <? dimension_limit); [discriminate|].
    destruct (dimension_limit <=? 0); [now injection Hrun|].
    exact (Solve_false_keeps_outputs _ _ _ _ _ _ _ _ _ _ Hrun).
Qed.

Lemma LaunchKernel_failure_keeps_outputs_witness :
  LaunchKernel FP.binary64 0 [2; 2] [S754_nan; FP.zero; FP.zero; FP.zero] INT64_MAX false
    [7; 7] [8; 8] = Done (false, ([7; 7], [8; 8])).
Proof.
  assert (Hrun : exists ab, LaunchKernel FP.binary64 0 [2; 2]
                              [S754_nan; FP.zero; FP.zero; FP.zero] INT64_MAX false
                              [7; 7] [8; 8] = Done (false, ab)).
  { eexists. vm_compute. reflexivity. }
  destruct Hrun as [ab Hrun].
  rewrite Hrun. f_equal. f_equal.
  exact (LaunchKernel_failure_keeps_outputs _ _ _ _ _ _ _ _ _ Hrun).
Defined.

(** *** The solver comes to an end *)

(** The alternating tree that [AugmentingPath] grows from the current
    row: a row is rooted when it is the current row, or when the column it
    holds has been visited and [path] leads from that column to a rooted
    row.  [rows] are the rows met on the way to the current row, each of
    them once. *)
Inductive rooted (nr nc cur_row : Z) (col4row path : list Z) (SC : list bool)
    : list Z -> Z -> Prop :=
| rooted_here : rooted nr nc cur_row col4row path SC [cur_row] cur_row
| rooted_step i c i' rows :
    i <> cur_row -> 0 <= i < nr ->
    col4row !! Z.to_nat i = Some c -> 0 <= c < nc ->
    SC !! Z.to_nat c = Some true ->
    path !! Z.to_nat c = Some i' ->
    i ∉ rows ->
    rooted nr nc cur_row col4row path SC rows i' ->
    rooted nr nc cur_row col4row path SC (i :: rows) i.

Section Rooted.
Variables nr nc cur_row : Z.
Hypothesis Hcur : 0 <= cur_row < nr.

Lemma rooted_head col4row path SC rows i :
  rooted nr nc cur_row col4row path SC rows i -> exists rest, rows = i :: rest.
Proof. intros Hr. destruct Hr; eauto. Qed.

Lemma rooted_range col4row path SC rows i :
  rooted nr nc cur_row col4row path SC rows i -> forall x, x ∈ rows -> 0 <= x < nr.
Proof.
  induction 1 as [|i c i' rows Hne Hi Hc Hcr Hsc Hp Hnot Hr IH]; intros x Hx.
  - apply list_elem_of_singleton in Hx. subst. exact Hcur.
  - apply elem_of_cons in Hx. destruct Hx as [->|Hx]; [exact Hi | exact (IH x Hx)].
Qed.

Lemma rooted_NoDup col4row path SC rows i :
  rooted nr nc cur_row col4row path SC rows i -> NoDup rows.
Proof.
  induction 1 as [|i c i' rows Hne Hi Hc Hcr Hsc Hp Hnot Hr IH].
  - apply NoDup_singleton.
  - now apply NoDup_cons.
Qed.

(** Every row on the way, but the current one, holds a visited column. *)
Lemma rooted_visited col4row path SC rows i :
  rooted nr nc cur_row col4row path SC rows i ->
  forall x, x ∈ rows ->
    x = cur_row \/
    exists c, col4row !! Z.to_nat x = Some c /\ 0 <= c < nc /\ SC !! Z.to_nat c = Some true.
Proof.
  induction 1 as [|i c i' rows Hne Hi Hc Hcr Hsc Hp Hnot Hr IH]; intros x Hx.
  - apply list_elem_of_singleton in Hx. now left.
  - apply elem_of_cons in Hx. destruct Hx as [->|Hx]; [|exact (IH x Hx)].
    right. exists c. auto.
Qed.

(** The tree reads [path] at visited columns only. *)
Lemma rooted_mono col4row path SC path' SC' rows i :
  (forall c : nat, SC !! c = Some true -> SC' !! c = Some true /\ path' !! c = path !! c) ->
  rooted nr nc cur_row col4row path SC rows i ->
  rooted nr nc cur_row col4row path' SC' rows i.
Proof.
  intros Hsame. induction 1 as [|i c i' rows Hne Hi Hc Hcr Hsc Hp Hnot Hr IH].
  - constructor.
  - destruct (Hsame _ Hsc) as [Hsc' Hp']. apply (rooted_step _ _ _ _ _ _ i c i'); auto.
    now rewrite Hp'.
Qed.

(** It reads [col4row] at its rows only. *)
Lemma rooted_insert col4row path SC rows i x y :
  0 <= x -> x ∉ rows ->
  rooted nr nc cur_row col4row path SC rows i ->
  rooted nr nc cur_row (<[Z.to_nat x := y]> col4row) path SC rows i.
Proof.
  intros Hx0 Hx. induction 1 as [|i c i' rows Hne Hi Hc Hcr Hsc Hp Hnot Hr IH].
  - constructor.
  - apply not_elem_of_cons in Hx. destruct Hx as [Hxi Hx].
    apply (rooted_step _ _ _ _ _ _ i c i'); auto.
    rewrite list_lookup_insert_ne by lia. exact Hc.
Qed.

Lemma distinct_in_range (l : list Z) n :
  0 <= n -> NoDup l -> (forall x, x ∈ l -> 0 <= x < n) -> Z.of_nat (length l) <= n.
Proof.
  intros Hn Hnd Hrange.
  assert (Hsub : Z.to_nat <$> l ⊆+ seq 0 (Z.to_nat n)).
  { apply NoDup_submseteq.
    - apply NoDup_fmap_2_strong; [|exact Hnd].
      intros x y Hx Hy Heq. apply Hrange in Hx. apply Hrange in Hy. lia.
    - intros k Hk. apply list_elem_of_fmap in Hk. destruct Hk as (x & -> & Hx).
      apply Hrange in Hx. apply elem_of_seq. lia. }
  apply submseteq_length in Hsub. rewrite length_fmap, length_seq in Hsub. lia.
Qed.

Lemma rooted_length col4row path SC rows i :
  rooted nr nc cur_row col4row path SC rows i -> Z.of_nat (length rows) <= nr.
Proof.
  intros Hr. apply distinct_in_range.
  - lia.
  - exact (rooted_NoDup _ _ _ _ _ Hr).
  - exact (rooted_range _ _ _ _ _ Hr).
Qed.

(** [AugmentPreviousSolution] walks the tree back from the sink: one
    round for each row on the way. *)
Lemma AugmentPreviousSolution_total path SC rows i :
  forall fuel j row4col col4row,
  rooted nr nc cur_row col4row path SC rows i ->
  0 <= j < nc -> path !! Z.to_nat j = Some i ->
  Z.of_nat (length row4col) = nc -> Z.of_nat (length col4row) = nr ->
  (length rows <= fuel)%nat ->
  exists out, AugmentPreviousSolution fuel j cur_row path row4col col4row = Done out.
Proof.
  revert i. induction rows as [|x rows IH]; intros i fuel j r4c c4r Hr Hj Hp Hl1 Hl2 Hfuel.
  { inversion Hr. }
  destruct fuel as [|fuel]; [simpl in Hfuel; lia|]. simpl in Hfuel.
  assert (Hi : 0 <= i < nr).
  { apply (rooted_range _ _ _ _ _ Hr). destruct (rooted_head _ _ _ _ _ Hr) as [rest Heq].
    rewrite Heq. left. }
  destruct (lookup_lt_is_Some_2 c4r (Z.to_nat i) ltac:(lia)) as [old Hold].
  cbn [AugmentPreviousSolution]. unfold at_, set_at, in_bounds.
  destruct (Z.leb_spec 0 j); [|lia]. rewrite Hp. cbn [mbind outcome_bind].
  destruct (Z.ltb_spec j (Z.of_nat (length r4c))); [|lia]. cbn [andb mbind outcome_bind].
  destruct (Z.leb_spec 0 i); [|lia]. rewrite Hold. cbn [mbind outcome_bind].
  destruct (Z.ltb_spec i (Z.of_nat (length c4r))); [|lia]. cbn [andb mbind outcome_bind].
  destruct (Z.eqb_spec i cur_row) as [Heq|Hne]; [eauto|].
  inversion Hr as [E1 E2|i0 c i' rows0 Hne0 Hi0 Hc Hcr Hsc Hpc Hnot Hr' E1 E2].
  { congruence. }
  rewrite Hold in Hc. injection Hc as ->.
  apply (IH i' fuel c _ _); auto.
  - apply rooted_insert; [lia | exact Hnot | exact Hr'].
  - now rewrite length_insert.
  - now rewrite length_insert.
  - lia.
Qed.

End Rooted.

Lemma at_in {A} (l : list A) i a :
  0 <= i -> l !! Z.to_nat i = Some a -> at_ l i = Done a.
Proof.
  intros Hi Hl. unfold at_. destruct (Z.leb_spec 0 i); [|lia]. now rewrite Hl.
Qed.

Lemma set_at_in {A} (l : list A) i x :
  0 <= i < Z.of_nat (length l) -> set_at l i x = Done (<[Z.to_nat i := x]> l).
Proof.
  intros Hi. unfold set_at, in_bounds.
  destruct (Z.leb_spec 0 i); [|lia].
  destruct (Z.ltb_spec i (Z.of_nat (length l))); [reflexivity | lia].
Qed.

Lemma set_idx_in {A} (l : list A) i x :
  0 <= i < Z.of_nat (length l) -> set_idx l i x = Done (<[Z.to_nat i := x]> l).
Proof.
  intros Hi. unfold set_idx, in_bounds.
  destruct (Z.leb_spec 0 i); [|lia].
  destruct (Z.ltb_spec i (Z.of_nat (length l))); [reflexivity | lia].
Qed.

Lemma lookup_in_range {A} (l : list A) i :
  0 <= i < Z.of_nat (length l) -> exists a, l !! Z.to_nat i = Some a.
Proof. intros Hi. apply lookup_lt_is_Some_2. lia. Qed.

Lemma ltb_not_INFINITY r old : FP.ltb r old = true -> r <> FP.INFINITY.
Proof. intros Hlt ->. destruct old as [[]|[]| |[] ? ?]; discriminate Hlt. Qed.

Lemma eqb_not_INFINITY x : FP.eqb x FP.INFINITY = false -> x <> FP.INFINITY.
Proof. intros Hne ->. discriminate Hne. Qed.

Section Search.
Variable fmt : FP.format.
Variables nr nc cur_row : Z.
Variables cost u v : list spec_float.
Variables row4col col4row : list Z.
Hypothesis Hcur : 0 <= cur_row < nr.
Hypothesis Hcost : nr * nc <= Z.of_nat (length cost).
Hypothesis Hu : Z.of_nat (length u) = nr.
Hypothesis Hv : Z.of_nat (length v) = nc.
Hypothesis Hr4c : Z.of_nat (length row4col) = nc.
Hypothesis Hc4r : Z.of_nat (length col4row) = nr.
Hypothesis Hcons : consistent row4col col4row.
Hypothesis Hfree : col4row !! Z.to_nat cur_row = Some (-1).

#[local] Abbreviation tree := (rooted nr nc cur_row col4row).

(** The vectors of a search have the lengths [Solve] gave them. *)
Definition sized (s : search) : Prop :=
  Z.of_nat (length (path s)) = nc /\
  Z.of_nat (length (shortest_path_costs s)) = nc /\
  Z.of_nat (length (SR s)) = nr /\
  Z.of_nat (length (SC s)) = nc /\
  Z.of_nat (length (remaining s)) = nc.

(** A marked row is the current row or a row that holds a column. *)
Definition marked (SR : list bool) : Prop :=
  forall x : nat, SR !! x = Some true ->
    Z.of_nat x = cur_row \/ exists c, col4row !! x = Some c /\ 0 <= c < nc.

(** A column whose shortest path cost is no longer infinite has its
    [path] entry at a rooted row. *)
Definition reached (path : list Z) (costs : list spec_float) (SC : list bool) : Prop :=
  forall (j : nat) c, costs !! j = Some c -> c <> FP.INFINITY ->
    exists i' rows, path !! j = Some i' /\ tree path SC rows i'.

(** The state of [find_sink] at the head of a round: the first
    [num_remaining] entries of [remaining] are distinct columns, none of
    them visited. *)
Definition searching (num_remaining : nat) (i : Z) (s : search) : Prop :=
  sized s /\
  Z.of_nat num_remaining <= nc /\
  (forall it : nat, (it < num_remaining)%nat ->
     exists j, remaining s !! it = Some j /\ 0 <= j < nc /\ SC s !! Z.to_nat j = Some false) /\
  (forall (it1 it2 : nat) j, (it1 < num_remaining)%nat -> (it2 < num_remaining)%nat ->
     remaining s !! it1 = Some j -> remaining s !! it2 = Some j -> it1 = it2) /\
  (exists rows, tree (path s) (SC s) rows i) /\
  reached (path s) (shortest_path_costs s) (SC s) /\
  marked (SR s).

(** The state of the scan before the column of position [it]. *)
Definition scanning (s : search) (i : Z) (it : Z) (sc : scan) : Prop :=
  Z.of_nat (length (scan_path sc)) = nc /\
  Z.of_nat (length (scan_costs sc)) = nc /\
  (exists rows, tree (scan_path sc) (SC s) rows i) /\
  reached (scan_path sc) (scan_costs sc) (SC s) /\
  ((index sc = -1 /\ lowest sc = FP.INFINITY) \/
   (0 <= index sc < it /\
    (lowest sc <> FP.INFINITY ->
       exists j c, remaining s !! Z.to_nat (index sc) = Some j /\
                   scan_costs sc !! Z.to_nat j = Some c /\ c <> FP.INFINITY))).

Lemma tree_row path SC rows i : tree path SC rows i -> 0 <= i < nr.
Proof.
  intros Hr. apply (rooted_range nr nc cur_row Hcur _ _ _ _ _ Hr).
  destruct (rooted_head _ _ _ _ _ _ _ _ Hr) as [rest ->]. left.
Qed.

Lemma scan_column_total num_remaining i min_val s it sc :
  searching num_remaining i s ->
  0 <= it < Z.of_nat num_remaining ->
  scanning s i it sc ->
  exists sc',
    scan_column fmt nc cost u v row4col (remaining s) i min_val it sc = Done sc' /\
    scanning s i (it + 1) sc'.
Proof.
  intros (Hsized & Hnum & Hcols & Hnodup & _ & _ & _) Hit
         (Hlp & Hlc & [rows Htree] & Hreach & Hlow).
  destruct (Hcols (Z.to_nat it) ltac:(lia)) as (j & Hj & Hjr & Hjsc).
  pose proof (tree_row _ _ _ _ Htree) as Hi.
  assert (Hpos : 0 <= i * nc + j < Z.of_nat (length cost)) by nia.
  destruct (lookup_in_range cost (i * nc + j) Hpos) as [c Hc].
  destruct (lookup_in_range u i ltac:(lia)) as [ui Hui].
  destruct (lookup_in_range v j ltac:(lia)) as [vj Hvj].
  destruct (lookup_in_range (scan_costs sc) j ltac:(lia)) as [old Hold].
  destruct (lookup_in_range row4col j ltac:(lia)) as [r Hr].
  unfold scan_column.
  rewrite (at_in _ _ _ (proj1 Hit) Hj). cbn [mbind outcome_bind].
  rewrite (idx_lookup _ _ _ (proj1 Hpos) Hc). cbn [mbind outcome_bind].
  rewrite (at_in _ _ _ (proj1 Hi) Hui). cbn [mbind outcome_bind].
  rewrite (at_in _ _ _ (proj1 Hjr) Hvj). cbn [mbind outcome_bind].
  rewrite (at_in _ _ _ (proj1 Hjr) Hold). cbn [mbind outcome_bind].
  set (r0 := FP.sub fmt (FP.sub fmt (FP.add fmt min_val c) ui) vj).
  set (path' := if FP.ltb r0 old then <[Z.to_nat j := i]> (scan_path sc) else scan_path sc).
  set (costs' := if FP.ltb r0 old then <[Z.to_nat j := r0]> (scan_costs sc) else scan_costs sc).
  assert (Hupd : (if FP.ltb r0 old
                  then path ← set_at (scan_path sc) j i;
                       costs ← set_at (scan_costs sc) j r0;
                       Done (path, costs)
                  else Done (scan_path sc, scan_costs sc)) = Done (path', costs')).
  { subst path' costs'. destruct (FP.ltb r0 old); [|reflexivity].
    rewrite set_at_in by lia. cbn [mbind outcome_bind].
    rewrite set_at_in by lia. reflexivity. }
  rewrite Hupd. cbn [mbind outcome_bind].
  assert (Hlp' : Z.of_nat (length path') = nc).
  { subst path'. destruct (FP.ltb r0 old); [rewrite length_insert|]; exact Hlp. }
  assert (Hlc' : Z.of_nat (length costs') = nc).
  { subst costs'. destruct (FP.ltb r0 old); [rewrite length_insert|]; exact Hlc. }
  assert (Hsame : forall c0 : nat, SC s !! c0 = Some true ->
            SC s !! c0 = Some true /\ path' !! c0 = scan_path sc !! c0).
  { intros c0 Hc0. split; [exact Hc0|]. subst path'.
    destruct (FP.ltb r0 old); [|reflexivity].
    apply list_lookup_insert_ne. intros <-. congruence. }
  assert (Htree' : tree path' (SC s) rows i)
    by exact (rooted_mono nr nc cur_row _ _ _ _ _ _ _ Hsame Htree).
  assert (Hreach' : reached path' costs' (SC s)).
  { intros j0 c0 Hc0 Hfin.
    destruct (decide (j0 = Z.to_nat j)) as [->|Hne].
    - subst path' costs'. destruct (FP.ltb r0 old) eqn:Hlt.
      + exists i, rows. split; [|exact Htree'].
        apply list_lookup_insert_eq. lia.
      + destruct (Hreach _ _ Hc0 Hfin) as (i' & rows' & Hp & Ht). eauto.
    - assert (Hc1 : scan_costs sc !! j0 = Some c0).
      { subst costs'. destruct (FP.ltb r0 old); [|exact Hc0].
        now rewrite list_lookup_insert_ne in Hc0 by lia. }
      destruct (Hreach _ _ Hc1 Hfin) as (i' & rows' & Hp & Ht).
      exists i', rows'. split.
      + subst path'. destruct (FP.ltb r0 old); [|exact Hp].
        now rewrite list_lookup_insert_ne by lia.
      + exact (rooted_mono nr nc cur_row _ _ _ _ _ _ _ Hsame Ht). }
  assert (Hkeep : forall (j0 : nat) c0, scan_costs sc !! j0 = Some c0 -> c0 <> FP.INFINITY ->
            exists c1, costs' !! j0 = Some c1 /\ c1 <> FP.INFINITY).
  { intros j0 c0 Hc0 Hfin. subst costs'. destruct (FP.ltb r0 old) eqn:Hlt; [|eauto].
    destruct (decide (j0 = Z.to_nat j)) as [->|Hne].
    - exists r0. split; [apply list_lookup_insert_eq; lia|].
      exact (ltb_not_INFINITY _ _ Hlt).
    - exists c0. rewrite list_lookup_insert_ne by lia. auto. }
  destruct (lookup_in_range costs' j ltac:(lia)) as [spc Hspc].
  rewrite (at_in _ _ _ (proj1 Hjr) Hspc). cbn [mbind outcome_bind].
  assert (Hr4 : exists r4c,
            (if FP.ltb spc (lowest sc) then Done 0
             else if FP.eqb spc (lowest sc) then at_ row4col j else Done 0) = Done r4c).
  { destruct (FP.ltb spc (lowest sc)); [eauto|].
    destruct (FP.eqb spc (lowest sc)); [|eauto].
    rewrite (at_in _ _ _ (proj1 Hjr) Hr). eauto. }
  destruct Hr4 as [r4c ->]. cbn [mbind outcome_bind].
  destruct (FP.ltb spc (lowest sc) || (FP.eqb spc (lowest sc) && (r4c =? -1))).
  - eexists. split; [reflexivity|].
    split; [exact Hlp'|]. split; [exact Hlc'|]. split; [eauto|]. split; [exact Hreach'|].
    right. cbn [index lowest scan_costs]. split; [lia|].
    intros Hfin. exists j, spc. auto.
  - eexists. split; [reflexivity|].
    split; [exact Hlp'|]. split; [exact Hlc'|]. split; [eauto|]. split; [exact Hreach'|].
    cbn [index lowest scan_costs].
    destruct Hlow as [[Hidx Hinf]|[Hidx Hfin]]; [left; auto|].
    right. split; [lia|]. intros Hl. destruct (Hfin Hl) as (j0 & c0 & Hj0 & Hc0 & Hc0f).
    destruct (Hkeep _ _ Hc0 Hc0f) as (c1 & Hc1 & Hc1f). eauto.
Qed.

(** What [find_sink] returns: a sink whose [path] entry is at a rooted
    row, or -1. *)
Definition found (sink : Z) (s' : search) : Prop :=
  sized s' /\ marked (SR s') /\
  (sink = -1 \/
   (0 <= sink < nc /\
    exists i' rows, path s' !! Z.to_nat sink = Some i' /\ tree (path s') (SC s') rows i')).

Lemma marked_insert SR path SC rows i :
  marked SR -> tree path SC rows i -> marked (<[Z.to_nat i := true]> SR).
Proof.
  intros Hm Ht x Hx. destruct (decide (x = Z.to_nat i)) as [->|Hne].
  - pose proof (tree_row _ _ _ _ Ht) as Hi.
    destruct (rooted_head _ _ _ _ _ _ _ _ Ht) as [rest Heq].
    destruct (rooted_visited nr nc cur_row _ _ _ _ _ Ht i) as [->|(c & Hc & Hcr & _)].
    + rewrite Heq. left.
    + left. lia.
    + right. exists c. auto.
  - rewrite list_lookup_insert_ne in Hx by lia. exact (Hm x Hx).
Qed.

Lemma reached_mono path costs SC SC' :
  (forall c : nat, SC !! c = Some true -> SC' !! c = Some true) ->
  reached path costs SC -> reached path costs SC'.
Proof.
  intros Hsub Hreach j c Hc Hfin. destruct (Hreach j c Hc Hfin) as (i' & rows & Hp & Ht).
  exists i', rows. split; [exact Hp|].
  apply (rooted_mono nr nc cur_row _ _ _ _ _ _ _ (fun c0 H0 => conj (Hsub c0 H0) eq_refl) Ht).
Qed.

Lemma find_sink_total num_remaining : forall i min_val s,
  searching num_remaining i s ->
  exists sink mv s',
    find_sink fmt nc cost u v row4col num_remaining i min_val s = Done (sink, mv, s') /\
    found sink s'.
Proof.
  induction num_remaining as [|n' IH]; intros i min_val s Hs;
    pose proof Hs as ((Hlp & Hlc & Hlsr & Hlsc & Hlrem) & Hnum & Hcols & Hnodup &
                      [rows Htree] & Hreach & Hmarked);
    pose proof (tree_row _ _ _ _ Htree) as Hi;
    rewrite find_sink_unfold;
    rewrite set_at_in by lia; cbn [mbind outcome_bind].
  - (* no column is left *)
    cbn [for_each mbind outcome_bind lowest]. cbv zeta.
    change (FP.eqb FP.INFINITY FP.INFINITY) with true. cbn [scan_path scan_costs].
    eexists _, _, _. split; [reflexivity|].
    split; [|split; [|now left]].
    + unfold sized. cbn [path shortest_path_costs SR SC remaining].
      rewrite length_insert. auto.
    + cbn [SR]. exact (marked_insert _ _ _ _ _ Hmarked Htree).
  - destruct (for_each_total (fun it sc => scanning s i it sc)
                (scan_column fmt nc cost u v row4col (remaining s) i min_val) (S n') 0
                {| scan_path := path s; scan_costs := shortest_path_costs s;
                   lowest := FP.INFINITY; index := -1 |})
      as (scanned & Hrun & Hlp' & Hlc' & [rows' Htree'] & Hreach' & Hlow).
    { intros it sc Hit Hsc. apply (scan_column_total (S n')); [exact Hs | lia | exact Hsc]. }
    { split; [exact Hlp|]. split; [exact Hlc|]. split; [eauto|]. split; [exact Hreach|].
      left. auto. }
    rewrite Hrun. cbn [mbind outcome_bind]. cbv zeta.
    assert (Hmarked' : marked (<[Z.to_nat i := true]> (SR s)))
      by exact (marked_insert _ _ _ _ _ Hmarked Htree).
    destruct (FP.eqb (lowest scanned) FP.INFINITY) eqn:Hinf.
    { eexists _, _, _. split; [reflexivity|].
      split; [|split; [exact Hmarked'|now left]].
      unfold sized. cbn [path shortest_path_costs SR SC remaining].
      rewrite length_insert. auto. }
    apply eqb_not_INFINITY in Hinf.
    destruct Hlow as [[_ Hl]|[Hidx Hfin]]; [contradiction|].
    destruct (Hfin Hinf) as (j & c & Hj & Hc & Hcfin).
    destruct (Hcols (Z.to_nat (index scanned)) ltac:(lia)) as (j' & Hj' & Hjr & Hjsc).
    rewrite Hj in Hj'. injection Hj' as <-.
    destruct (Hreach' _ _ Hc Hcfin) as (i' & rows1 & Hpath & Htree1).
    destruct (lookup_in_range row4col j ltac:(lia)) as [r4c Hr4c'].
    destruct (Hcols n' ltac:(lia)) as (last & Hlast & Hlastr & Hlastsc).
    rewrite (at_in _ _ _ (proj1 Hidx) Hj). cbn [mbind outcome_bind].
    rewrite (at_in _ _ _ (proj1 Hjr) Hr4c'). cbn [mbind outcome_bind].
    rewrite set_at_in by lia. cbn [mbind outcome_bind].
    rewrite (at_in (remaining s) (Z.of_nat n') last ltac:(lia)) by (rewrite Nat2Z.id; exact Hlast).
    cbn [mbind outcome_bind].
    rewrite set_at_in by lia. cbn [mbind outcome_bind]. cbv zeta.
    set (SC' := <[Z.to_nat j := true]> (SC s)).
    assert (Hsub : forall c0 : nat, SC s !! c0 = Some true -> SC' !! c0 = Some true).
    { intros c0 Hc0. subst SC'. destruct (decide (c0 = Z.to_nat j)) as [->|Hne].
      - apply list_lookup_insert_eq. lia.
      - now rewrite list_lookup_insert_ne by lia. }
    assert (Htree1' : tree (scan_path scanned) SC' rows1 i').
    { apply (rooted_mono nr nc cur_row _ _ _ _ _ _ _
               (fun c0 H0 => conj (Hsub c0 H0) eq_refl) Htree1). }
    assert (Hsized' : sized {| path := scan_path scanned;
                               shortest_path_costs := scan_costs scanned;
                               SR := <[Z.to_nat i := true]> (SR s);
                               SC := SC';
                               remaining := <[Z.to_nat (index scanned) := last]> (remaining s) |}).
    { unfold sized. cbn [path shortest_path_costs SR SC remaining]. subst SC'.
      rewrite !length_insert. auto. }
    destruct (Z.eqb_spec r4c (-1)) as [Hnone|Hsome].
    { eexists _, _, _. split; [reflexivity|].
      split; [exact Hsized'|]. split; [exact Hmarked'|]. right. split; [exact Hjr|].
      exists i', rows1. cbn [path SC]. auto. }
    (* the column has a row: the search goes on from that row *)
    destruct Hcons as [Hrows Hcolumns].
    destruct (Hcolumns _ _ Hr4c' Hsome) as [Hr0 Hback]. rewrite Z2Nat.id in Hback by lia.
    assert (Hrr : 0 <= r4c < nr) by (apply lookup_lt_Some in Hback; lia).
    assert (Hnew : tree (scan_path scanned) SC' (r4c :: rows1) r4c).
    { apply (rooted_step _ _ _ _ _ _ r4c j i'); auto.
      - intros ->. rewrite Hfree in Hback. injection Hback. lia.
      - subst SC'. apply list_lookup_insert_eq. lia.
      - intros Hin.
        destruct (rooted_visited nr nc cur_row _ _ _ _ _ Htree1 r4c Hin)
          as [->|(c0 & Hc0 & _ & Hc0sc)].
        + rewrite Hfree in Hback. injection Hback. lia.
        + rewrite Hback in Hc0. injection Hc0 as <-. congruence. }
    apply IH.
    split; [exact Hsized'|]. cbn [path shortest_path_costs SR SC remaining].
    assert (Hrem' : forall it : nat, (it < n')%nat ->
              <[Z.to_nat (index scanned) := last]> (remaining s) !! it =
              remaining s !! (if decide (it = Z.to_nat (index scanned)) then n' else it)).
    { intros it Hit. destruct (decide (it = Z.to_nat (index scanned))) as [->|Hne].
      - rewrite list_lookup_insert_eq by lia. now rewrite Hlast.
      - now rewrite list_lookup_insert_ne by lia. }
    split; [lia|]. split; [|split; [|split; [|split]]].
    + intros it Hit. rewrite (Hrem' it Hit).
      set (k := if decide (it = Z.to_nat (index scanned)) then n' else it).
      assert (Hk : (k < S n')%nat /\ k <> Z.to_nat (index scanned))
        by (subst k; destruct (decide _); lia).
      destruct (Hcols k (proj1 Hk)) as (jk & Hjk & Hjkr & Hjksc).
      exists jk. split; [exact Hjk|]. split; [exact Hjkr|].
      subst SC'. rewrite list_lookup_insert_ne; [exact Hjksc|].
      intros Heq. assert (jk = j) as -> by lia.
      apply (proj2 Hk). apply (Hnodup _ _ j); [lia | lia | exact Hjk | exact Hj].
    + intros it1 it2 x Hit1 Hit2. rewrite (Hrem' it1 Hit1), (Hrem' it2 Hit2).
      set (k1 := if decide (it1 = Z.to_nat (index scanned)) then n' else it1).
      set (k2 := if decide (it2 = Z.to_nat (index scanned)) then n' else it2).
      intros H1 H2.
      assert (Hk1 : (k1 < S n')%nat)
        by (subst k1; destruct (decide (it1 = Z.to_nat (index scanned))); lia).
      assert (Hk2 : (k2 < S n')%nat)
        by (subst k2; destruct (decide (it2 = Z.to_nat (index scanned))); lia).
      pose proof (Hnodup k1 k2 x Hk1 Hk2 H1 H2) as Heq. subst k1 k2.
      destruct (decide (it1 = Z.to_nat (index scanned))),
               (decide (it2 = Z.to_nat (index scanned))); lia.
    + eauto.
    + exact (reached_mono _ _ _ _ Hsub Hreach').
    + exact Hmarked'.
Qed.

Lemma AugmentingPath_total s :
  sized s ->
  exists sink mv s',
    AugmentingPath fmt nc cost u v row4col cur_row s = Done (sink, mv, s') /\ found sink s'.
Proof.
  intros (Hlp & Hlc & Hlsr & Hlsc & Hlrem). unfold AugmentingPath.
  destruct (for_each_total (fun (_ : Z) (rem : list Z) => Z.of_nat (length rem) = nc)
              (fun it rem => set_at rem it (nc - it - 1)) (Z.to_nat nc) 0 (remaining s))
    as (rem & Hrun & Hlen).
  { intros it r Hit Hr. rewrite set_at_in by lia. eexists. split; [reflexivity|].
    now rewrite length_insert. }
  { exact Hlrem. }
  pose proof (remaining_filled nc _ _ Hrun) as Hfilled.
  rewrite Hrun. cbn [mbind outcome_bind].
  apply find_sink_total.
  split; [|split; [lia|split; [|split; [|split; [|split]]]]];
    cbn [path shortest_path_costs SR SC remaining].
  - unfold sized. cbn [path shortest_path_costs SR SC remaining].
    rewrite !length_replicate. auto.
  - intros it Hit. exists (nc - Z.of_nat it - 1).
    specialize (Hfilled (Z.of_nat it) ltac:(lia)). rewrite Nat2Z.id in Hfilled.
    split; [exact Hfilled|]. split; [lia|].
    apply lookup_replicate. split; [reflexivity | lia].
  - intros it1 it2 j Hit1 Hit2 H1 H2.
    pose proof (Hfilled (Z.of_nat it1) ltac:(lia)) as F1. rewrite Nat2Z.id, H1 in F1.
    pose proof (Hfilled (Z.of_nat it2) ltac:(lia)) as F2. rewrite Nat2Z.id, H2 in F2.
    injection F1. injection F2. lia.
  - exists [cur_row]. constructor.
  - intros j c Hc Hfin. apply lookup_replicate in Hc. destruct Hc as [-> _]. contradiction.
  - intros x Hx. apply lookup_replicate in Hx. destruct Hx as [Hx _]. discriminate Hx.
Qed.

End Search.

(** The state of [Solve] before the round of a row: the matching of the
    rows before it, and vectors of the lengths [Solve] gave them. *)
Definition ready (nr nc cur_row : Z) (d : duals) : Prop :=
  rows_matched nr nc cur_row d /\
  Z.of_nat (length (u d)) = nr /\
  Z.of_nat (length (v d)) = nc /\
  sized nr nc (work d).

Lemma solve_row_runs fmt fuel nr nc cost cur_row d :
  0 <= cur_row < nr -> nr * nc <= Z.of_nat (length cost) -> nr <= Z.of_nat fuel ->
  ready nr nc cur_row d ->
  exists r, solve_row fmt fuel nr nc cost cur_row d = Done r /\
    forall d', r = Some d' ->
      Z.of_nat (length (u d')) = nr /\ Z.of_nat (length (v d')) = nc /\ sized nr nc (work d').
Proof.
  intros Hcur Hcost Hfuel ((Hcons & Hlc & Hlr & Hbefore & Hafter) & Hu & Hv & Hsized).
  assert (Hfree : col4row d !! Z.to_nat cur_row = Some (-1)) by (apply Hafter; lia).
  destruct (AugmentingPath_total fmt nr nc cur_row cost (u d) (v d) (row4col d) (col4row d)
              Hcur Hcost Hu Hv Hlr Hlc Hcons Hfree (work d) Hsized)
    as (sink & mv & s & Hrun & Hsz & Hmarked & Hsink).
  unfold solve_row. rewrite Hrun. cbn [mbind outcome_bind].
  destruct (Z.ltb_spec sink 0) as [Hneg|Hpos].
  { exists None. split; [reflexivity | discriminate]. }
  destruct Hsink as [->|(Hsr & i' & rows & Hpath & Htree)]; [lia|].
  destruct Hsz as (Hlp & Hlcosts & Hlsr & Hlsc & Hlrem).
  destruct (lookup_in_range (u d) cur_row ltac:(lia)) as [u0 Hu0].
  rewrite (idx_lookup _ _ _ (proj1 Hcur) Hu0). cbn [mbind outcome_bind].
  rewrite set_idx_in by lia. cbn [mbind outcome_bind].
  destruct (for_each_total (fun (_ : Z) (w : list spec_float) => Z.of_nat (length w) = nr)
              (fun i w =>
                 sr ← idx (SR s) i;
                 if sr && negb (i =? cur_row) then
                   c4r ← idx (col4row d) i;
                   spc ← idx (shortest_path_costs s) c4r;
                   ui ← idx w i;
                   set_idx w i (FP.add fmt ui (FP.sub fmt mv spc))
                 else Done w)
              (Z.to_nat nr) 0
              (<[Z.to_nat cur_row := FP.add fmt u0 mv]> (u d))) as (u2 & Hu2 & Hlu2).
  { intros i w Hi Hw.
    destruct (lookup_in_range (SR s) i ltac:(lia)) as [sr Hsr'].
    rewrite (idx_lookup _ _ _ (proj1 Hi) Hsr'). cbn [mbind outcome_bind].
    destruct sr; cbn [andb]; [|eauto].
    destruct (Z.eqb_spec i cur_row) as [Heq|Hne]; cbn [negb]; [eauto|].
    destruct (Hmarked _ Hsr') as [Hc|(c & Hc & Hcr)]; [lia|].
    rewrite (idx_lookup _ _ _ (proj1 Hi) Hc). cbn [mbind outcome_bind].
    destruct (lookup_in_range (shortest_path_costs s) c ltac:(lia)) as [spc Hspc].
    rewrite (idx_lookup _ _ _ (proj1 Hcr) Hspc). cbn [mbind outcome_bind].
    destruct (lookup_in_range w i ltac:(lia)) as [ui Hui].
    rewrite (idx_lookup _ _ _ (proj1 Hi) Hui). cbn [mbind outcome_bind].
    rewrite set_idx_in by lia. eexists. split; [reflexivity|]. now rewrite length_insert. }
  { now rewrite length_insert. }
  rewrite Hu2. cbn [mbind outcome_bind].
  destruct (for_each_total (fun (_ : Z) (w : list spec_float) => Z.of_nat (length w) = nc)
              (fun j w =>
                 sc ← idx (SC s) j;
                 if (sc : bool) then
                   spc ← idx (shortest_path_costs s) j;
                   vj ← idx w j;
                   set_idx w j (FP.sub fmt vj (FP.sub fmt mv spc))
                 else Done w)
              (Z.to_nat nc) 0 (v d)) as (v2 & Hv2 & Hlv2).
  { intros j w Hj Hw.
    destruct (lookup_in_range (SC s) j ltac:(lia)) as [sc Hsc'].
    rewrite (idx_lookup _ _ _ (proj1 Hj) Hsc'). cbn [mbind outcome_bind].
    destruct sc; [|eauto].
    destruct (lookup_in_range (shortest_path_costs s) j ltac:(lia)) as [spc Hspc].
    rewrite (idx_lookup _ _ _ (proj1 Hj) Hspc). cbn [mbind outcome_bind].
    destruct (lookup_in_range w j ltac:(lia)) as [vj Hvj].
    rewrite (idx_lookup _ _ _ (proj1 Hj) Hvj). cbn [mbind outcome_bind].
    rewrite set_idx_in by lia. eexists. split; [reflexivity|]. now rewrite length_insert. }
  { exact Hv. }
  rewrite Hv2. cbn [mbind outcome_bind].
  pose proof (rooted_length nr nc cur_row Hcur _ _ _ _ _ Htree) as Hrows.
  destruct (AugmentPreviousSolution_total nr nc cur_row Hcur (path s) (SC s) rows i'
              fuel sink (row4col d) (col4row d) Htree Hsr Hpath Hlr Hlc ltac:(lia))
    as ([r4c c4r] & Haug).
  rewrite Haug. cbn [mbind outcome_bind].
  eexists. split; [reflexivity|]. intros d' [= <-]. cbn [u v work].
  split; [lia|]. split; [lia|]. unfold sized. auto.
Qed.

Lemma solve_row_total fmt fuel nr nc cost cur_row d :
  0 <= cur_row < nr -> nr * nc <= Z.of_nat (length cost) -> nr <= Z.of_nat fuel ->
  ready nr nc cur_row d ->
  exists r, solve_row fmt fuel nr nc cost cur_row d = Done r /\
    forall d', r = Some d' -> ready nr nc (cur_row + 1) d'.
Proof.
  intros Hcur Hcost Hfuel Hready.
  destruct (solve_row_runs fmt fuel nr nc cost cur_row d Hcur Hcost Hfuel Hready)
    as (r & Hrun & Hlen).
  exists r. split; [exact Hrun|]. intros d' ->. split; [|exact (Hlen d' eq_refl)].
  exact (solve_row_matched fmt fuel nr nc cost cur_row d d' Hcur (proj1 Hready) Hrun).
Qed.

Lemma solve_rows_total fmt fuel nr nc cost n :
  forall cur_row d,
  0 <= cur_row -> cur_row + Z.of_nat n <= nr ->
  nr * nc <= Z.of_nat (length cost) -> nr <= Z.of_nat fuel ->
  ready nr nc cur_row d ->
  exists r, solve_rows fmt fuel nr nc cost n cur_row d = Done r /\
    forall d', r = Some d' -> ready nr nc (cur_row + Z.of_nat n) d'.
Proof.
  induction n as [|n IH]; intros cur_row d Hcur Hn Hcost Hfuel Hready.
  - exists (Some d). split; [reflexivity|]. intros d' [= <-]. now rewrite Z.add_0_r.
  - destruct (solve_row_total fmt fuel nr nc cost cur_row d ltac:(lia) Hcost Hfuel Hready)
      as (r & Hrun & Hnext).
    cbn [solve_rows]. rewrite Hrun. cbn [mbind outcome_bind].
    destruct r as [d1|]; [|exists None; split; [reflexivity | discriminate]].
    destruct (IH (cur_row + 1) d1 ltac:(lia) ltac:(lia) Hcost Hfuel (Hnext d1 eq_refl))
      as (r & Hrest & Hend).
    exists r. split; [exact Hrest|]. intros d' Hd'.
    replace (cur_row + Z.of_nat (S n)) with (cur_row + 1 + Z.of_nat n) by lia.
    exact (Hend d' Hd').
Qed.

Lemma initial_duals_ready nr nc : 0 <= nr -> 0 <= nc -> ready nr nc 0 (initial_duals nr nc).
Proof.
  intros Hnr Hnc. split; [exact (initial_duals_matched nr nc Hnr Hnc)|].
  unfold initial_duals, sized. cbn [u v work path shortest_path_costs SR SC remaining].
  rewrite !length_replicate. lia.
Qed.

(** [ReArrange] without a transpose, on a matrix of more columns than
    rows: every entry it writes lies inside [temp]. *)
Lemma working_matrix_negated nr nc raw_nc (cost : list spec_float) :
  0 < nr < nc -> nc < 2 ^ 31 -> nc <= raw_nc ->
  Z.of_nat (length cost) = nr * raw_nc ->
  exists temp,
    working_matrix nr nc raw_nc cost true = Done (nr, nc, temp) /\
    Z.of_nat (length temp) = nr * nc.
Proof.
  intros Hnr Hnc Hraw Hcost. unfold working_matrix, ReArrange.
  destruct (Z.ltb_spec nc nr) as [|_]; [lia|]. cbn [orb].
  rewrite !to_int_small by lia.
  destruct (for_each_total (fun (_ : Z) (t : list spec_float) => Z.of_nat (length t) = nr * nc)
              (fun i temp =>
                 for_each (Z.to_nat nc) 0
                   (fun j temp => c ← idx cost (i * raw_nc + j); set_at temp (i * nr + j) c)
                   temp)
              (Z.to_nat nr) 0 (replicate (Z.to_nat (nr * nc)) FP.zero)) as (temp & Hrun & Hlen).
  { intros i t Hi Ht.
    destruct (for_each_total (fun (_ : Z) (t : list spec_float) => Z.of_nat (length t) = nr * nc)
                (fun j temp => c ← idx cost (i * raw_nc + j); set_at temp (i * nr + j) c)
                (Z.to_nat nc) 0 t) as (t' & Hrow & Hlen'); [|exact Ht|eauto].
    intros j w Hj Hw.
    assert (Hpos : 0 <= i * raw_nc + j < Z.of_nat (length cost)) by nia.
    destruct (lookup_in_range cost _ Hpos) as [c Hc].
    rewrite (idx_lookup _ _ _ (proj1 Hpos) Hc). cbn [mbind outcome_bind].
    rewrite set_at_in by nia. eexists. split; [reflexivity|]. now rewrite length_insert. }
  { rewrite length_replicate. nia. }
  rewrite Hrun. cbn [mbind outcome_bind fst snd].
  eexists. split; [reflexivity|]. now rewrite length_fmap.
Qed.

Lemma working_matrix_total nr nc raw_nc (cost : list spec_float) maximize :
  0 < nr < 2 ^ 31 -> 0 < nc < 2 ^ 31 -> nc <= raw_nc ->
  Z.of_nat (length cost) = nr * raw_nc ->
  exists cost',
    working_matrix nr nc raw_nc cost maximize = Done (Z.min nr nc, Z.max nr nc, cost') /\
    nr * nc <= Z.of_nat (length cost').
Proof.
  intros Hnr Hnc Hraw Hcost.
  destruct (decide (nc < nr \/ (nc = nr /\ maximize = true))) as [Hre|Hno].
  - destruct (working_matrix_rearranged nr nc raw_nc cost maximize
                ltac:(lia) ltac:(lia) Hraw Hcost ltac:(tauto)) as (temp & Hrun & Hlen & _).
    exists temp. rewrite Z.min_r, Z.max_l by lia. split; [exact Hrun | lia].
  - destruct maximize.
    + destruct (working_matrix_negated nr nc raw_nc cost ltac:(lia) ltac:(lia) Hraw Hcost)
        as (temp & Hrun & Hlen).
      exists temp. rewrite Z.min_l, Z.max_r by lia. split; [exact Hrun | lia].
    + exists cost. rewrite Z.min_l, Z.max_r by lia.
      split; [apply working_matrix_as_given; lia | nia].
Qed.

Lemma write_pair_in i x y (ab : list Z * list Z) :
  0 <= i < Z.of_nat (length ab.1) -> 0 <= i < Z.of_nat (length ab.2) ->
  write_pair i x y ab = Done (<[Z.to_nat i := x]> ab.1, <[Z.to_nat i := y]> ab.2).
Proof.
  intros Ha Hb. unfold write_pair.
  rewrite (set_idx_in ab.1 i x Ha). cbn [mbind outcome_bind].
  rewrite (set_idx_in ab.2 i y Hb). reflexivity.
Qed.

(** The two outputs keep their lengths. *)
Definition same_lengths (ab ab' : list Z * list Z) : Prop :=
  length ab'.1 = length ab.1 /\ length ab'.2 = length ab.2.

Lemma write_sorted_total col4row (ab : list Z * list Z) : forall rest k ab1,
  (forall val, val ∈ rest -> 0 <= val < Z.of_nat (length col4row)) ->
  0 <= k -> same_lengths ab ab1 ->
  k + Z.of_nat (length rest) <= Z.of_nat (length ab.1) ->
  k + Z.of_nat (length rest) <= Z.of_nat (length ab.2) ->
  exists r,
    foldl (fun acc val =>
             '(i, ab) ← acc;
             c ← idx col4row val;
             ab ← write_pair i c val ab;
             Done (i + 1, ab))
          (Done (k, ab1)) rest = Done r /\
    same_lengths ab r.2.
Proof.
  induction rest as [|val rest IH]; intros k ab1 Hvals Hk [Hl1 Hl2] Ha Hb.
  - exists (k, ab1). split; [reflexivity|]. split; assumption.
  - simpl length in Ha, Hb. cbn [foldl mbind outcome_bind].
    destruct (lookup_in_range col4row val (Hvals val ltac:(left))) as [c Hc].
    rewrite (idx_lookup _ _ _ (proj1 (Hvals val ltac:(left))) Hc). cbn [mbind outcome_bind].
    rewrite write_pair_in by lia. cbn [mbind outcome_bind].
    apply IH.
    + intros w Hw. apply Hvals. now right.
    + lia.
    + split; cbn [fst snd]; rewrite length_insert; assumption.
    + lia.
    + lia.
Qed.

Lemma PostProcess_total a b col4row transpose nr nc element_num :
  0 < nr < 2 ^ 31 -> nr <= nc < 2 ^ 31 -> nr <= element_num < 2 ^ 31 ->
  Z.of_nat (length col4row) = nr ->
  element_num <= Z.of_nat (length a) -> element_num <= Z.of_nat (length b) ->
  exists ab, PostProcess a b col4row transpose nr nc element_num = Done ab.
Proof.
  intros Hnr Hnc Hel Hlen Ha Hb. unfold PostProcess.
  rewrite !to_int_small by lia. rewrite Z.min_l by lia.
  assert (Hfirst : exists ab1,
            (if transpose then
               '(_, ab) ← foldl
                  (fun acc val =>
                     '(i, ab) ← acc;
                     c ← idx col4row val;
                     ab ← write_pair i c val ab;
                     Done (i + 1, ab))
                  (Done (0, (a, b))) (argsort col4row);
               Done ab
             else
               for_each (Z.to_nat nr) 0
                 (fun i ab => c ← idx col4row i; write_pair i i c ab) (a, b)) = Done ab1 /\
            same_lengths (a, b) ab1).
  { destruct transpose.
    - pose proof (Permutation_length (argsort_perm col4row)) as Hal.
      rewrite length_fmap, length_seq in Hal.
      destruct (write_sorted_total col4row (a, b) (argsort col4row) 0 (a, b))
        as ([k ab1] & Hrun & Hsame).
      + intros val Hval. rewrite (argsort_perm col4row) in Hval.
        apply list_elem_of_fmap in Hval. destruct Hval as (n & -> & Hn).
        apply elem_of_seq in Hn. lia.
      + lia.
      + split; reflexivity.
      + cbn [fst]. lia.
      + cbn [snd]. lia.
      + rewrite Hrun. cbn [mbind outcome_bind]. exists ab1. auto.
    - destruct (for_each_total (fun (_ : Z) (s : list Z * list Z) => same_lengths (a, b) s)
                  (fun i ab => c ← idx col4row i; write_pair i i c ab)
                  (Z.to_nat nr) 0 (a, b)) as (ab1 & Hrun & Hsame); [| |eauto].
      + intros i s Hi [Hs1 Hs2]. cbn [fst snd] in Hs1, Hs2.
        destruct (lookup_in_range col4row i ltac:(lia)) as [c Hc].
        rewrite (idx_lookup _ _ _ (proj1 Hi) Hc). cbn [mbind outcome_bind].
        rewrite write_pair_in by lia. eexists. split; [reflexivity|].
        split; cbn [fst snd]; rewrite length_insert; assumption.
      + split; reflexivity. }
  destruct Hfirst as (ab1 & -> & Hs1 & Hs2). cbn [mbind outcome_bind]. cbn [fst snd] in Hs1, Hs2.
  destruct (for_each_total (fun (_ : Z) (s : list Z * list Z) => same_lengths (a, b) s)
              (fun i ab => write_pair i (-1) (-1) ab)
              (Z.to_nat (element_num - nr)) nr ab1) as (ab2 & Hrun & _); [| |eauto].
  - intros i s Hi [Ht1 Ht2]. cbn [fst snd] in Ht1, Ht2.
    rewrite write_pair_in by lia. eexists. split; [reflexivity|].
    split; cbn [fst snd]; rewrite length_insert; assumption.
  - split; assumption.
Qed.

(** On a cost matrix of [nr] rows and [raw_nc] columns, of which the
    first [nc] count, [Solve] comes to an end with a flag. *)
Lemma Solve_runs fmt fuel nr nc raw_nc cost maximize a b :
  0 <= nr < 2 ^ 31 -> 0 <= nc < 2 ^ 31 -> nc <= raw_nc < 2 ^ 31 ->
  Z.of_nat (length cost) = nr * raw_nc ->
  Z.min nr raw_nc <= Z.of_nat (length a) ->
  Z.min nr raw_nc <= Z.of_nat (length b) ->
  Z.min nr nc <= Z.of_nat fuel ->
  exists ok ab, Solve fmt fuel nr nc raw_nc cost maximize a b = Done (ok, ab).
Proof.
  intros Hnr0 Hnc0 Hraw Hcost Ha Hb Hfuel.
  destruct (decide (nr = 0 \/ nc = 0)) as [Hzero|Hpos].
  { rewrite Solve_degenerate by exact Hzero. eauto. }
  assert (Hnr : 0 < nr < 2 ^ 31) by lia. assert (Hnc : 0 < nc < 2 ^ 31) by lia.
  destruct (working_matrix_total nr nc raw_nc cost maximize Hnr Hnc (proj1 Hraw) Hcost)
    as (cost' & Hw & Hlen).
  set (nr' := Z.min nr nc) in *. set (nc' := Z.max nr nc) in *.
  assert (Hdims : 0 < nr' <= nc' /\ nc' < 2 ^ 31 /\ nr' * nc' = nr * nc) by (subst nr' nc'; nia).
  rewrite (Solve_unfold fmt fuel nr nc raw_nc cost maximize a b nr' nc' cost')
    by (lia || exact Hw).
  rewrite check_value_spec by nia. cbn [mbind outcome_bind].
  destruct (forallb _ _); cbn [negb]; [|eauto].
  destruct (solve_rows_total fmt fuel nr' nc' cost' (Z.to_nat nr') 0 (initial_duals nr' nc')
              ltac:(lia) ltac:(lia) ltac:(lia) Hfuel
              (initial_duals_ready nr' nc' ltac:(lia) ltac:(lia)))
    as (r & Hrun & Hend).
  rewrite Hrun. cbn [mbind outcome_bind].
  destruct r as [d|]; [|eauto].
  destruct (Hend d eq_refl) as ((_ & Hlc & _) & _).
  destruct (PostProcess_total a b (col4row d) (nc <? nr) nr' nc' (Z.min nr raw_nc))
    as (ab & Hpost); [lia | lia | subst nr'; lia | exact Hlc | exact Ha | exact Hb |].
  rewrite Hpost. cbn [mbind outcome_bind]. eauto.
Qed.

(** X1. A launch on a cost matrix of [nr] rows and [nc] columns, both
    below [2^31], with outputs of [min(nr, nc)] entries at least, comes to
    an end, whatever the costs are: with the fatal error when a dimension
    limit other than [INT64_MAX] exceeds [nc], and with a flag in every
    other case.  The solver reads and writes no vector outside its bounds
    and throws nothing, and the loop of [AugmentPreviousSolution] ends
    within [min(nr, nc)] rounds. *)
Theorem LaunchKernel_total fmt fuel nr nc cost dimension_limit maximize row_ind col_ind :
  0 <= nr < 2 ^ 31 -> 0 <= nc < 2 ^ 31 ->
  Z.of_nat (length cost) = nr * nc ->
  Z.min nr nc <= Z.of_nat (length row_ind) ->
  Z.min nr nc <= Z.of_nat (length col_ind) ->
  Z.min nr nc <= Z.of_nat fuel ->
  let run := LaunchKernel fmt fuel [nr; nc] cost dimension_limit maximize row_ind col_ind in
  (dimension_limit <> INT64_MAX -> nc < dimension_limit -> run = Fatal) /\
  (dimension_limit = INT64_MAX \/ dimension_limit <= nc -> exists ok ab, run = Done (ok, ab)).
Proof.
  intros Hnr Hnc Hcost Ha Hb Hfuel run. subst run. unfold LaunchKernel.
  change (idx [nr; nc] 0) with (Done (A := Z) nr). change (idx [nr; nc] 1) with (Done (A := Z) nc).
  cbn [mbind outcome_bind].
  destruct (Z.eqb_spec dimension_limit INT64_MAX) as [Hmax|Hlim].
  { split; [contradiction|]. intros _.
    apply Solve_runs; try assumption; lia. }
  destruct (Z.ltb_spec nc dimension_limit) as [Hover|Hwithin].
  { split; [reflexivity|]. intros [?|?]; [contradiction | lia]. }
  split; [lia|]. intros _.
  destruct (Z.leb_spec dimension_limit 0) as [Hnone|Hsome]; [eauto|].
  apply Solve_runs; try assumption; lia.
Qed.

Lemma LaunchKernel_total_witness :
  exists ok ab,
    LaunchKernel FP.binary64 2 [3; 2] (matrix [4; 1; 2; 0; 3; 2]) 1 true [7; 7] [7; 7] =
      Done (ok, ab).
Proof.
  assert (Hcost : Z.of_nat (length (matrix [4; 1; 2; 0; 3; 2])) = 3 * 2) by reflexivity.
  assert (Ha : Z.min 3 2 <= Z.of_nat (length [7; 7])) by (simpl; lia).
  assert (Hfuel : Z.min 3 2 <= Z.of_nat 2) by lia.
  assert (Hnr : 0 <= 3 < 2 ^ 31) by lia.
  assert (Hnc : 0 <= 2 < 2 ^ 31) by lia.
  assert (Hlimit : 1 = INT64_MAX \/ 1 <= 2) by (right; lia).
  exact (proj2 (LaunchKernel_total FP.binary64 2 3 2 (matrix [4; 1; 2; 0; 3; 2]) 1 true
                  [7; 7] [7; 7] Hnr Hnc Hcost Ha Ha Hfuel) Hlimit).
Defined.

(** *** The entries of an assignment *)

Section Entries.
Variable fmt : FP.format.
Variable nc : Z.
Variable cost : list spec_float.

(** The entry of row [i] and column [j] of the working matrix is not
    positive infinity. *)
Definition usable (i j : Z) : Prop :=
  exists c, cost !! Z.to_nat (i * nc + j) = Some c /\ c <> FP.INFINITY.

(** [path] leads from a column to a row only over a usable entry. *)
Definition usable_path (path : list Z) : Prop :=
  forall (j : nat) i, path !! j = Some i -> 0 <= i -> usable i (Z.of_nat j).

(** The rows hold columns over usable entries only. *)
Definition usable_matching (col4row : list Z) : Prop :=
  forall (i : nat) j, col4row !! i = Some j -> 0 <= j -> usable (Z.of_nat i) j.

Lemma ltb_finite_entry min_val c ui vj old :
  FP.ltb (FP.sub fmt (FP.sub fmt (FP.add fmt min_val c) ui) vj) old = true ->
  c <> FP.INFINITY.
Proof.
  intros Hlt ->.
  destruct (sub_inf_or_nan fmt _ vj (sub_inf_or_nan fmt _ ui (add_INFINITY fmt min_val)))
    as [Hr|Hr]; rewrite Hr in Hlt; destruct old as [[]|[]| |[] ? ?]; discriminate Hlt.
Qed.

Lemma scan_column_usable u v row4col remaining i min_val it s s' :
  usable_path (scan_path s) ->
  scan_column fmt nc cost u v row4col remaining i min_val it s = Done s' ->
  usable_path (scan_path s').
Proof.
  intros Hpath Hrun. unfold scan_column in Hrun.
  bind_inv Hrun j Hj. bind_inv Hrun c Hc. bind_inv Hrun ui Hui. bind_inv Hrun vj Hvj.
  bind_inv Hrun old Hold. bind_inv Hrun updated Hupd. destruct updated as [path' costs'].
  bind_inv Hrun spc Hspc. bind_inv Hrun r4c Hr4c.
  assert (Hpath' : usable_path path').
  { destruct (FP.ltb _ old) eqn:Hlt.
    - bind_inv Hupd p Hp. bind_inv Hupd cs Hcs. injection Hupd as <- _.
      apply set_at_Done in Hp. destruct Hp as [Hjr ->].
      apply idx_Done in Hc. destruct Hc as [Hpos Hc].
      intros j0 i0 Hl Hi0. destruct (decide (j0 = Z.to_nat j)) as [->|Hne].
      + rewrite list_lookup_insert_eq in Hl by lia. injection Hl as <-.
        exists c. rewrite Z2Nat.id by lia. split; [exact Hc|].
        exact (ltb_finite_entry _ _ _ _ _ Hlt).
      + rewrite list_lookup_insert_ne in Hl by lia. exact (Hpath j0 i0 Hl Hi0).
    - injection Hupd as <- _. exact Hpath. }
  destruct (FP.ltb spc (lowest s) || (FP.eqb spc (lowest s) && (r4c =? -1)));
    injection Hrun as <-; exact Hpath'.
Qed.

Lemma scan_usable u v row4col remaining i min_val n s sc :
  usable_path (path s) ->
  for_each n 0 (scan_column fmt nc cost u v row4col remaining i min_val)
    {| scan_path := path s; scan_costs := shortest_path_costs s;
       lowest := FP.INFINITY; index := -1 |} = Done sc ->
  usable_path (scan_path sc).
Proof.
  intros Hpath Hscan.
  eapply (for_each_invariant (fun sc => usable_path (scan_path sc))); [| |exact Hscan].
  - intros it t t' _ Ht Hstep. exact (scan_column_usable _ _ _ _ _ _ _ _ _ Ht Hstep).
  - exact Hpath.
Qed.

Lemma find_sink_usable u v row4col num_remaining :
  forall i min_val s sink mv s',
  usable_path (path s) ->
  find_sink fmt nc cost u v row4col num_remaining i min_val s = Done (sink, mv, s') ->
  usable_path (path s').
Proof.
  induction num_remaining as [|n IH]; intros i min_val s sink mv s' Hpath Hrun;
    rewrite find_sink_unfold in Hrun;
    bind_inv Hrun sr Hsr; bind_inv Hrun scanned Hscan; cbv zeta in Hrun;
    pose proof (scan_usable _ _ _ _ _ _ _ _ _ Hpath Hscan) as Hscanned;
    (destruct (FP.eqb (lowest scanned) FP.INFINITY);
     [injection Hrun as _ _ <-; exact Hscanned|]);
    bind_inv Hrun j Hj; bind_inv Hrun r4c Hr4c; bind_inv Hrun sc' Hsc'; [discriminate|].
  bind_inv Hrun last Hlast. bind_inv Hrun rem Hrem. cbv zeta in Hrun.
  destruct (r4c =? -1).
  - injection Hrun as _ _ <-. exact Hscanned.
  - eapply IH; [|exact Hrun]. exact Hscanned.
Qed.

Lemma AugmentingPath_usable u v row4col i s sink mv s' :
  usable_path (path s) ->
  AugmentingPath fmt nc cost u v row4col i s = Done (sink, mv, s') ->
  usable_path (path s').
Proof.
  intros Hpath Hrun. unfold AugmentingPath in Hrun. bind_inv Hrun rem Hrem.
  eapply find_sink_usable; [|exact Hrun]. exact Hpath.
Qed.

Lemma AugmentPreviousSolution_usable fuel path :
  usable_path path ->
  forall j cur_row row4col col4row row4col' col4row',
  usable_matching col4row ->
  AugmentPreviousSolution fuel j cur_row path row4col col4row = Done (row4col', col4row') ->
  usable_matching col4row'.
Proof.
  intros Hpath. induction fuel as [|fuel IH]; intros j cur_row r4c c4r r4c' c4r' Hm Hrun;
    [discriminate|].
  simpl in Hrun.
  bind_inv Hrun i Hi. apply at_Done in Hi. destruct Hi as [Hj0 Hi].
  bind_inv Hrun r4c1 Hr. bind_inv Hrun old Hold. apply at_Done in Hold. destruct Hold as [Hi0 _].
  bind_inv Hrun c4r1 Hc. apply set_at_Done in Hc. destruct Hc as [Hib ->].
  assert (Hm' : usable_matching (<[Z.to_nat i := j]> c4r)).
  { intros i2 j2 Hl Hj2. destruct (decide (i2 = Z.to_nat i)) as [->|Hne].
    - rewrite list_lookup_insert_eq in Hl by lia. injection Hl as <-.
      pose proof (Hpath _ _ Hi Hi0) as Hu. rewrite !Z2Nat.id in * by lia. exact Hu.
    - rewrite list_lookup_insert_ne in Hl by lia. exact (Hm i2 j2 Hl Hj2). }
  destruct (i =? cur_row).
  - injection Hrun as _ <-. exact Hm'.
  - exact (IH _ _ _ _ _ _ Hm' Hrun).
Qed.

Lemma solve_row_usable fuel nr cur_row d d' :
  usable_path (path (work d)) -> usable_matching (col4row d) ->
  solve_row fmt fuel nr nc cost cur_row d = Done (Some d') ->
  usable_path (path (work d')) /\ usable_matching (col4row d').
Proof.
  intros Hpath Hm Hrun. unfold solve_row in Hrun.
  bind_inv Hrun found Hfound. destruct found as [[sink min_val] s].
  destruct (sink <? 0); [discriminate|].
  bind_inv Hrun u0 Hu0. bind_inv Hrun u1 Hu1. bind_inv Hrun u2 Hu2. bind_inv Hrun v2 Hv2.
  bind_inv Hrun new Hnew. destruct new as [r4c c4r]. injection Hrun as <-.
  assert (Hpath' : usable_path (path s))
    by (eapply AugmentingPath_usable; [|exact Hfound]; exact Hpath).
  split; [exact Hpath'|]. cbn [col4row].
  eapply AugmentPreviousSolution_usable; [exact Hpath' | |exact Hnew]. exact Hm.
Qed.

Lemma solve_rows_usable fuel nr n :
  forall cur_row d d',
  usable_path (path (work d)) -> usable_matching (col4row d) ->
  solve_rows fmt fuel nr nc cost n cur_row d = Done (Some d') ->
  usable_matching (col4row d').
Proof.
  induction n as [|n IH]; intros cur_row d d' Hpath Hm Hrun; simpl in Hrun.
  - injection Hrun as <-. exact Hm.
  - bind_inv Hrun r Hr. destruct r as [d1|]; [|discriminate].
    destruct (solve_row_usable _ _ _ _ _ Hpath Hm Hr) as [Hpath1 Hm1].
    eapply IH; [| |exact Hrun]; assumption.
Qed.

Lemma initial_duals_usable nr :
  usable_path (path (work (initial_duals nr nc))) /\
  usable_matching (col4row (initial_duals nr nc)).
Proof.
  unfold initial_duals. cbn [work path col4row]. split.
  - intros j i Hl Hi. apply lookup_replicate in Hl. lia.
  - intros i j Hl Hj. apply lookup_replicate in Hl. lia.
Qed.

End Entries.

Lemma PostProcess_pairs a b col4row transpose nr nc element_num a' b' :
  0 < nr < 2 ^ 31 -> nr <= nc < 2 ^ 31 -> 0 <= element_num < 2 ^ 31 ->
  Z.of_nat (length col4row) = nr ->
  PostProcess a b col4row transpose nr nc element_num = Done (a', b') ->
  forall p : nat, Z.of_nat p < nr ->
    exists x y, paired col4row transpose (Z.of_nat p) x y /\
                a' !! p = Some x /\ b' !! p = Some y.
Proof.
  intros Hnr Hnc Hel Hlen Hrun p Hp.
  destruct (PostProcess_written _ _ _ _ _ _ _ _ _ Hnr Hnc Hel Hlen Hrun)
    as (ab1 & (_ & _ & Hin1 & _) & (_ & _ & _ & Hout2)).
  destruct (Hin1 p ltac:(lia)) as (x & y & HP & Hx & Hy).
  destruct (Hout2 p ltac:(lia)) as [Ha Hb]. cbn [fst snd] in Ha, Hb.
  exists x, y. rewrite Ha, Hb. auto.
Qed.

Lemma check_value_valid (cost : list spec_float) nr nc :
  (Z.to_nat (nr * nc) <= length cost)%nat ->
  check_value cost nr nc = Done true ->
  forall (k : nat) c, (k < Z.to_nat (nr * nc))%nat -> cost !! k = Some c -> invalid c = false.
Proof.
  intros Hlen Hrun k c Hk Hc. rewrite check_value_spec in Hrun by exact Hlen.
  injection Hrun as Hall. rewrite forallb_forall in Hall.
  apply negb_true_iff. apply Hall. apply list_elem_of_In.
  apply (list_elem_of_lookup_2 _ k). rewrite lookup_take_lt by lia. exact Hc.
Qed.

Lemma finite_entry c : c <> FP.INFINITY -> invalid c = false -> FP.is_finite c = true.
Proof.
  intros Hinf Hvalid. destruct c as [[]|[]| |[] m e]; try reflexivity; try discriminate.
  now contradiction Hinf.
Qed.

Lemma is_finite_opp c : FP.is_finite (FP.opp c) = FP.is_finite c.
Proof. destruct c as [[]|[]| |[] m e]; reflexivity. Qed.

(** The matrix that [Solve] works on, where it is read at the right
    stride: the entry of its row [i] and column [j] is the entry of the
    cost matrix at that row and column, or at column [i] and row [j]
    after a transpose, negated under [maximize]. *)
Lemma working_entries nr nc raw_nc (cost : list spec_float) maximize :
  0 < nr < 2 ^ 31 -> 0 < nc < 2 ^ 31 -> nc <= raw_nc ->
  Z.of_nat (length cost) = nr * raw_nc ->
  nc < nr \/ (nc = nr /\ maximize = true) \/ (nr <= nc /\ raw_nc = nc /\ maximize = false) ->
  exists cost',
    working_matrix nr nc raw_nc cost maximize = Done (Z.min nr nc, Z.max nr nc, cost') /\
    Z.of_nat (length cost') = nr * nc /\
    forall i j, 0 <= i < Z.min nr nc -> 0 <= j < Z.max nr nc ->
      cost' !! Z.to_nat (i * Z.max nr nc + j) =
        (if maximize then FP.opp else id) <$>
        cost !! Z.to_nat (if nc <? nr then j * raw_nc + i else i * raw_nc + j).
Proof.
  intros Hnr Hnc Hraw Hcost [Htr|[[Hsq Hmax]|(Hwide & Hall & Hmin)]].
  - destruct (working_matrix_rearranged nr nc raw_nc cost maximize
                ltac:(lia) ltac:(lia) Hraw Hcost ltac:(auto))
      as (temp & Hw & Hlt & Htemp).
    exists temp. rewrite Z.min_r, Z.max_l by lia.
    split; [exact Hw|]. split; [exact Hlt|]. intros i j Hi Hj.
    specialize (Htemp j i Hj Hi). unfold position in Htemp.
    destruct (Z.ltb_spec nc nr) as [_|]; [|lia]. exact Htemp.
  - subst nc.
    destruct (working_matrix_rearranged nr nr raw_nc cost maximize
                ltac:(lia) ltac:(lia) Hraw Hcost ltac:(auto))
      as (temp & Hw & Hlt & Htemp).
    exists temp. rewrite Z.min_id, Z.max_id.
    split; [exact Hw|]. split; [exact Hlt|]. intros i j Hi Hj.
    specialize (Htemp i j Hi Hj). unfold position in Htemp.
    destruct (Z.ltb_spec nr nr) as [|_]; [lia|]. exact Htemp.
  - subst raw_nc maximize. exists cost. rewrite Z.min_l, Z.max_r by lia.
    split; [apply working_matrix_as_given; lia|]. split; [exact Hcost|]. intros i j Hi Hj.
    destruct (Z.ltb_spec nc nr) as [|_]; [lia|]. now destruct (cost !! _).
Qed.

(** X20. Whenever [Solve] returns true on a matrix that it reads at the
    right stride (it transposes, or negates a square matrix, or is given
    all the columns without [maximize]), every pair of the assignment
    stands on a finite entry of the cost matrix: neither an infinity nor
    NaN. *)
Theorem Solve_assigns_finite_entries fmt fuel nr nc raw_nc cost maximize a b a' b' :
  0 < nr < 2 ^ 31 -> 0 < nc < 2 ^ 31 -> nc <= raw_nc ->
  Z.of_nat (length cost) = nr * raw_nc ->
  nc < nr \/ (nc = nr /\ maximize = true) \/ (nr <= nc /\ raw_nc = nc /\ maximize = false) ->
  Solve fmt fuel nr nc raw_nc cost maximize a b = Done (true, (a', b')) ->
  forall (p : nat) r c, Z.of_nat p < Z.min nr nc ->
    a' !! p = Some r -> b' !! p = Some c ->
    exists x, cost !! Z.to_nat (r * raw_nc + c) = Some x /\ FP.is_finite x = true.
Proof.
  intros Hnr Hnc Hraw Hcost Hcase Hrun p r c Hp Har Hbc.
  destruct (working_entries nr nc raw_nc cost maximize Hnr Hnc Hraw Hcost Hcase)
    as (cost' & Hw & Hlen' & Hentries).
  set (nr' := Z.min nr nc) in *. set (nc' := Z.max nr nc) in *.
  assert (Hk : 0 < nr' <= nc' /\ nc' < 2 ^ 31 /\ nr' * nc' = nr * nc) by (subst nr' nc'; nia).
  rewrite (Solve_unfold fmt fuel nr nc raw_nc cost maximize a b nr' nc' cost') in Hrun
    by (lia || exact Hw).
  bind_inv Hrun ok Hok. destruct ok; simpl in Hrun; [|discriminate].
  bind_inv Hrun res Hr. destruct res as [d|]; [|discriminate].
  bind_inv Hrun ab Hab. injection Hrun as Hab'. rewrite Hab' in Hab. clear Hab' ab.
  pose proof (solve_rows_matched fmt fuel nr' nc' cost' (Z.to_nat nr') 0 _ d
                ltac:(lia) ltac:(lia) (initial_duals_matched nr' nc' ltac:(lia) ltac:(lia)) Hr)
    as Hm.
  replace (0 + Z.of_nat (Z.to_nat nr')) with nr' in Hm by lia.
  pose proof Hm as (_ & Hlen & _).
  destruct (matched_columns nr' nc' d Hm) as [Hrange _].
  assert (Husable : usable_matching nc' cost' (col4row d)).
  { destruct (initial_duals_usable nc' cost' nr') as [Hp0 Hm0].
    eapply solve_rows_usable; [| |exact Hr]; assumption. }
  destruct (PostProcess_pairs a b (col4row d) (nc <? nr) nr' nc' (Z.min nr raw_nc) a' b'
              ltac:(lia) ltac:(lia) ltac:(lia) Hlen Hab p ltac:(lia))
    as (x & y & Hpair & Hx & Hy).
  rewrite Har in Hx. injection Hx as <-. rewrite Hbc in Hy. injection Hy as <-.
  (* the row and the column of the working matrix that the pair stands for *)
  assert (Hwork : exists i j : Z, 0 <= i < nr' /\ 0 <= j < nc' /\
            col4row d !! Z.to_nat i = Some j /\
            r * raw_nc + c = if nc <? nr then j * raw_nc + i else i * raw_nc + j).
  { unfold paired in Hpair. destruct (nc <? nr).
    - destruct Hpair as (Hi & Hc0 & Hcol). rewrite Nat2Z.id in Hi.
      assert (Hcr : 0 <= c < nr').
      { apply list_elem_of_lookup_2 in Hi. rewrite argsort_perm in Hi.
        apply list_elem_of_fmap in Hi. destruct Hi as (m & -> & Hm').
        apply elem_of_seq in Hm'. lia. }
      destruct (Hrange (Z.to_nat c) ltac:(lia)) as (j & Hj & Hjr).
      rewrite Hcol in Hj. injection Hj as <-. exists c, r. auto.
    - destruct Hpair as (-> & Hcol). rewrite Nat2Z.id in Hcol.
      destruct (Hrange p ltac:(lia)) as (j & Hj & Hjr).
      rewrite Hcol in Hj. injection Hj as <-.
      exists (Z.of_nat p), c. rewrite Nat2Z.id. split; [lia|]. auto. }
  destruct Hwork as (i & j & Hi & Hj & Hcol & Hrc).
  destruct (Husable (Z.to_nat i) j Hcol ltac:(lia)) as (c0 & Hc0 & Hfin).
  rewrite Z2Nat.id in Hc0 by lia.
  pose proof (check_value_valid cost' nr' nc' ltac:(nia) Hok (Z.to_nat (i * nc' + j)) c0
                ltac:(nia) Hc0) as Hvalid.
  specialize (Hentries i j Hi Hj). rewrite Hc0, <- Hrc in Hentries.
  destruct (cost !! Z.to_nat (r * raw_nc + c)) as [x|]; [|discriminate].
  injection Hentries as Hx. exists x. split; [reflexivity|].
  pose proof (finite_entry c0 Hfin Hvalid) as Hf. rewrite Hx in Hf.
  destruct maximize; [now rewrite is_finite_opp in Hf | exact Hf].
Qed.

Lemma Solve_assigns_finite_entries_witness :
  let cost := [FP.of_Z FP.binary64 4; FP.INFINITY; FP.INFINITY; FP.of_Z FP.binary64 3] in
  Solve FP.binary64 2 2 2 2 cost false [7; 7] [7; 7] = Done (true, ([0; 1], [0; 1])) /\
  exists x, cost !! Z.to_nat (1 * 2 + 1) = Some x /\ FP.is_finite x = true.
Proof.
  intros cost.
  assert (Hrun : Solve FP.binary64 2 2 2 2 cost false [7; 7] [7; 7] =
                 Done (true, ([0; 1], [0; 1]))) by (vm_compute; reflexivity).
  split; [exact Hrun|].
  assert (Hnr : 0 < 2 < 2 ^ 31) by lia.
  assert (Hraw : 2 <= 2) by lia.
  assert (Hcost : Z.of_nat (length cost) = 2 * 2) by reflexivity.
  assert (Hcase : 2 < 2 \/ (2 = 2 /\ false = true) \/ (2 <= 2 /\ 2 = 2 /\ false = false))
    by (right; right; auto).
  assert (Hp : Z.of_nat 1 < Z.min 2 2) by lia.
  exact (Solve_assigns_finite_entries FP.binary64 2 2 2 2 cost false [7; 7] [7; 7]
           [0; 1] [0; 1] Hnr Hnr Hraw Hcost Hcase Hrun 1%nat 1 1 Hp eq_refl eq_refl).
Defined.

(** *** When [Solve] returns false *)

(** An assignment of [min(nr, nc)] rows of the cost matrix to columns
    among the first [nc], every row and every column taken at most once,
    over finite entries only. *)
Definition feasible (nr nc raw_nc : Z) (cost : list spec_float) : Prop :=
  exists pairs : list (Z * Z),
    Z.of_nat (length pairs) = Z.min nr nc /\
    NoDup pairs.*1 /\ NoDup pairs.*2 /\
    forall r c, (r, c) ∈ pairs ->
      0 <= r < nr /\ 0 <= c < nc /\
      exists x, cost !! Z.to_nat (r * raw_nc + c) = Some x /\ FP.is_finite x = true.

(** The flag does not depend on the output arrays. *)
Lemma Solve_false_whatever_outputs fmt fuel nr nc raw_nc cost maximize a b a0 b0 ab0 :
  Solve fmt fuel nr nc raw_nc cost maximize a0 b0 = Done (false, ab0) ->
  Solve fmt fuel nr nc raw_nc cost maximize a b = Done (false, (a, b)).
Proof.
  unfold Solve. destruct ((nr =? 0) || (nc =? 0)); [discriminate|]. cbv zeta.
  destruct (working_matrix nr nc raw_nc cost maximize) as [[[nr' nc'] cost']| | | |];
    try discriminate.
  cbn [mbind outcome_bind].
  destruct (check_value cost' nr' nc') as [[]| | | |]; try discriminate;
    cbn [mbind outcome_bind negb]; [|reflexivity].
  destruct (solve_rows fmt fuel nr' nc' cost' (Z.to_nat nr') 0 (initial_duals nr' nc'))
    as [[d|]| | | |]; try discriminate; cbn [mbind outcome_bind]; [|reflexivity].
  destruct (PostProcess a0 b0 (col4row d) (nc <? nr) nr' nc' (Z.min nr raw_nc));
    discriminate.
Qed.

(** The matching that [Solve] ends with, read in the cost matrix. *)
Lemma Solve_true_feasible fmt fuel nr nc raw_nc cost maximize a b ab :
  0 < nr < 2 ^ 31 -> 0 < nc < 2 ^ 31 -> nc <= raw_nc ->
  Z.of_nat (length cost) = nr * raw_nc ->
  nc < nr \/ (nc = nr /\ maximize = true) \/ (nr <= nc /\ raw_nc = nc /\ maximize = false) ->
  Solve fmt fuel nr nc raw_nc cost maximize a b = Done (true, ab) ->
  feasible nr nc raw_nc cost.
Proof.
  intros Hnr Hnc Hraw Hcost Hcase Hrun.
  destruct (working_entries nr nc raw_nc cost maximize Hnr Hnc Hraw Hcost Hcase)
    as (cost' & Hw & Hlen' & Hentries).
  set (nr' := Z.min nr nc) in *. set (nc' := Z.max nr nc) in *.
  assert (Hk : 0 < nr' <= nc' /\ nc' < 2 ^ 31 /\ nr' * nc' = nr * nc) by (subst nr' nc'; nia).
  rewrite (Solve_unfold fmt fuel nr nc raw_nc cost maximize a b nr' nc' cost') in Hrun
    by (lia || exact Hw).
  bind_inv Hrun ok Hok. destruct ok; simpl in Hrun; [|discriminate].
  bind_inv Hrun res Hr. destruct res as [d|]; [|discriminate]. clear Hrun.
  pose proof (solve_rows_matched fmt fuel nr' nc' cost' (Z.to_nat nr') 0 _ d
                ltac:(lia) ltac:(lia) (initial_duals_matched nr' nc' ltac:(lia) ltac:(lia)) Hr)
    as Hm.
  replace (0 + Z.of_nat (Z.to_nat nr')) with nr' in Hm by lia.
  destruct (matched_columns nr' nc' d Hm) as [Hrange Hinj].
  assert (Husable : usable_matching nc' cost' (col4row d)).
  { destruct (initial_duals_usable nc' cost' nr') as [Hp0 Hm0].
    eapply solve_rows_usable; [| |exact Hr]; assumption. }
  (* the entry under each matched row is finite in the cost matrix *)
  assert (Hfinite : forall (i : nat) j, Z.of_nat i < nr' -> col4row d !! i = Some j ->
            0 <= j < nc' /\
            exists x, cost !! Z.to_nat (if nc <? nr then j * raw_nc + Z.of_nat i
                                        else Z.of_nat i * raw_nc + j) = Some x /\
                      FP.is_finite x = true).
  { intros i j Hi Hcol. destruct (Hrange i Hi) as (j' & Hj' & Hjr).
    rewrite Hcol in Hj'. injection Hj' as <-. split; [exact Hjr|].
    destruct (Husable i j Hcol ltac:(lia)) as (c0 & Hc0 & Hfin).
    pose proof (check_value_valid cost' nr' nc' ltac:(nia) Hok
                  (Z.to_nat (Z.of_nat i * nc' + j)) c0 ltac:(nia) Hc0) as Hvalid.
    specialize (Hentries (Z.of_nat i) j ltac:(lia) Hjr). rewrite Hc0 in Hentries.
    destruct (cost !! Z.to_nat _) as [x|]; [|discriminate].
    injection Hentries as Hx. exists x. split; [reflexivity|].
    pose proof (finite_entry c0 Hfin Hvalid) as Hf. rewrite Hx in Hf.
    destruct maximize; [now rewrite is_finite_opp in Hf | exact Hf]. }
  set (column := fun i : nat => default 0 (col4row d !! i)).
  assert (Hcolumn : forall i : nat, Z.of_nat i < nr' -> col4row d !! i = Some (column i)).
  { intros i Hi. destruct (Hrange i Hi) as (j & Hj & _). unfold column. now rewrite Hj. }
  assert (Hcolumn_inj : forall i1 i2 : nat, i1 ∈ seq 0 (Z.to_nat nr') -> i2 ∈ seq 0 (Z.to_nat nr') ->
            column i1 = column i2 -> i1 = i2).
  { intros i1 i2 H1 H2 Heq. apply elem_of_seq in H1, H2.
    apply (Hinj i1 i2 (column i1)); [apply Hcolumn; lia| |lia].
    rewrite Heq. apply Hcolumn. lia. }
  exists ((fun i : nat => if nc <? nr then (column i, Z.of_nat i) else (Z.of_nat i, column i))
            <$> seq 0 (Z.to_nat nr')).
  split; [rewrite length_fmap, length_seq; lia|].
  rewrite <- !list_fmap_compose.
  split; [|split].
  - apply NoDup_fmap_2_strong; [|apply NoDup_seq].
    intros i1 i2 H1 H2. unfold compose. destruct (nc <? nr); simpl.
    + now apply Hcolumn_inj.
    + lia.
  - apply NoDup_fmap_2_strong; [|apply NoDup_seq].
    intros i1 i2 H1 H2. unfold compose. destruct (nc <? nr); simpl.
    + lia.
    + now apply Hcolumn_inj.
  - intros r c Hin. apply list_elem_of_fmap in Hin. destruct Hin as (i & Heq & Hi).
    apply elem_of_seq in Hi.
    destruct (Hfinite i (column i) ltac:(lia) (Hcolumn i ltac:(lia))) as (Hjr & x & Hx & Hfin).
    subst nr' nc'. destruct (Z.ltb_spec nc nr); injection Heq as -> ->.
    + split; [lia|]. split; [lia|]. eauto.
    + split; [lia|]. split; [lia|]. eauto.
Qed.

(** Where the matrix is read at the right stride, an entry of the cost
    matrix that [refused] describes is a NaN or a negative infinity of the
    working matrix. *)
Lemma Solve_refuses fmt fuel nr nc raw_nc (cost : list spec_float) maximize a b i j c :
  0 < nr < 2 ^ 31 -> 0 < nc < 2 ^ 31 -> nc <= raw_nc ->
  Z.of_nat (length cost) = nr * raw_nc ->
  nc < nr \/ (nc = nr /\ maximize = true) \/ (nr <= nc /\ raw_nc = nc /\ maximize = false) ->
  0 <= i < nr -> 0 <= j < nc ->
  cost !! Z.to_nat (i * raw_nc + j) = Some c -> refused maximize c ->
  Solve fmt fuel nr nc raw_nc cost maximize a b = Done (false, (a, b)).
Proof.
  intros Hnr Hnc Hraw Hcost Hcase Hi Hj Hc Hbad.
  destruct (working_entries nr nc raw_nc cost maximize Hnr Hnc Hraw Hcost Hcase)
    as (cost' & Hw & Hlen' & Hentries).
  set (nr' := Z.min nr nc) in *. set (nc' := Z.max nr nc) in *.
  assert (Hk : 0 < nr' <= nc' /\ nr' * nc' = nr * nc) by (subst nr' nc'; nia).
  set (i' := if nc <? nr then j else i). set (j' := if nc <? nr then i else j).
  assert (Hij : 0 <= i' < nr' /\ 0 <= j' < nc').
  { subst i' j' nr' nc'. destruct (Z.ltb_spec nc nr); lia. }
  specialize (Hentries i' j' (proj1 Hij) (proj2 Hij)).
  replace (if nc <? nr then j' * raw_nc + i' else i' * raw_nc + j') with (i * raw_nc + j)
    in Hentries by (subst i' j'; destruct (nc <? nr); reflexivity).
  rewrite Hc in Hentries. simpl in Hentries.
  apply (Solve_invalid_entry fmt fuel nr nc raw_nc cost maximize a b nr' nc' cost'
           (Z.to_nat (i' * nc' + j')) ((if maximize then FP.opp else id) c));
    try lia; try assumption; try nia.
  destruct Hbad as [->| ->]; destruct maximize; simpl; auto.
Qed.

(** Without such an entry the check passes. *)
Lemma check_value_passes nr nc raw_nc (cost : list spec_float) maximize :
  0 < nr < 2 ^ 31 -> 0 < nc < 2 ^ 31 -> nc <= raw_nc ->
  Z.of_nat (length cost) = nr * raw_nc ->
  nc < nr \/ (nc = nr /\ maximize = true) \/ (nr <= nc /\ raw_nc = nc /\ maximize = false) ->
  (forall i j c, 0 <= i < nr -> 0 <= j < nc ->
     cost !! Z.to_nat (i * raw_nc + j) = Some c -> ~ refused maximize c) ->
  exists nr' nc' cost',
    working_matrix nr nc raw_nc cost maximize = Done (nr', nc', cost') /\
    check_value cost' nr' nc' = Done true.
Proof.
  intros Hnr Hnc Hraw Hcost Hcase Hgood.
  destruct (working_entries nr nc raw_nc cost maximize Hnr Hnc Hraw Hcost Hcase)
    as (cost' & Hw & Hlen' & Hentries).
  set (nr' := Z.min nr nc) in *. set (nc' := Z.max nr nc) in *.
  assert (Hk : 0 < nr' <= nc' /\ nr' * nc' = nr * nc) by (subst nr' nc'; nia).
  exists nr', nc', cost'. split; [exact Hw|].
  rewrite check_value_spec by nia. f_equal.
  apply forallb_forall. intros c' Hin. apply list_elem_of_In in Hin.
  apply list_elem_of_lookup in Hin. destruct Hin as (k & Hk').
  apply lookup_take_Some in Hk'. destruct Hk' as [Hc' Hlt].
  apply negb_true_iff, not_true_is_false. intros Hbad. apply invalid_cases in Hbad.
  set (i' := Z.of_nat k / nc'). set (j' := Z.of_nat k mod nc').
  assert (Hij : 0 <= i' < nr' /\ 0 <= j' < nc' /\ Z.of_nat k = i' * nc' + j').
  { subst i' j'. pose proof (Z.div_mod (Z.of_nat k) nc' ltac:(lia)) as Hdm.
    pose proof (Z.mod_pos_bound (Z.of_nat k) nc' ltac:(lia)) as Hmod.
    split; [|split; [exact Hmod | lia]].
    split; [apply Z.div_pos; lia|]. apply Z.div_lt_upper_bound; [lia|]. nia. }
  destruct Hij as (Hi' & Hj' & Hkij).
  specialize (Hentries i' j' Hi' Hj'). rewrite <- Hkij, Nat2Z.id, Hc' in Hentries.
  destruct (cost !! Z.to_nat _) as [c|] eqn:Hc; [|discriminate].
  injection Hentries as Hcc.
  assert (Hrc : exists i j, 0 <= i < nr /\ 0 <= j < nc /\
                  cost !! Z.to_nat (i * raw_nc + j) = Some c).
  { subst nr' nc'. destruct (Z.ltb_spec nc nr).
    - exists j', i'. split; [lia|]. split; [lia|]. exact Hc.
    - exists i', j'. split; [lia|]. split; [lia|]. exact Hc. }
  destruct Hrc as (i & j & Hi & Hj & Hcij).
  apply (Hgood i j c Hi Hj Hcij). unfold refused.
  destruct maximize; simpl in Hcc; subst c'.
  - destruct c as [[]|[]| |[] m e]; simpl in Hbad; destruct Hbad as [Hb|Hb];
      try discriminate Hb; auto.
  - exact Hbad.
Qed.

(** C7, amended: [Solve] returns true without touching the outputs when
    [nr == 0] or [nc == 0].  Otherwise, on a cost matrix that it reads at
    the right stride (a transpose is due, or the negation of a square
    matrix, or all the columns count and [maximize] is not set), it
    returns false, an ordinary result that leaves the outputs as they
    were, when an entry of the [nr] rows and [nc] columns is NaN, or
    negative infinity without [maximize], or positive infinity with it:
    the check runs on the working matrix, negated under [maximize].  The
    other infinity is permitted and the check passes when every entry is;
    but when the rows and the columns cannot be assigned to each other,
    [min(nr, nc)] of each, over finite entries only, no augmenting path
    exists for some row and [Solve] returns false too.  On [[inf, 1],
    [1, inf]] it returns true, on [[inf, inf], [1, inf]] false, and with
    [maximize] it returns false on [[inf, 1]] and true on [[-inf, 1]]. *)
Theorem Solve_failure_cases (fmt : FP.format) fuel nr nc raw_nc cost maximize a b :
  (nr = 0 \/ nc = 0 -> Solve fmt fuel nr nc raw_nc cost maximize a b = Done (true, (a, b))) /\
  (0 < nr < 2 ^ 31 -> 0 < nc < 2 ^ 31 -> nc <= raw_nc < 2 ^ 31 ->
   Z.of_nat (length cost) = nr * raw_nc ->
   nc < nr \/ (nc = nr /\ maximize = true) \/ (nr <= nc /\ raw_nc = nc /\ maximize = false) ->
   (forall i j c, 0 <= i < nr -> 0 <= j < nc ->
      cost !! Z.to_nat (i * raw_nc + j) = Some c -> refused maximize c ->
      Solve fmt fuel nr nc raw_nc cost maximize a b = Done (false, (a, b))) /\
   ((forall i j c, 0 <= i < nr -> 0 <= j < nc ->
       cost !! Z.to_nat (i * raw_nc + j) = Some c -> ~ refused maximize c) ->
    exists nr' nc' cost',
      working_matrix nr nc raw_nc cost maximize = Done (nr', nc', cost') /\
      check_value cost' nr' nc' = Done true) /\
   (Z.min nr nc <= Z.of_nat fuel -> ~ feasible nr nc raw_nc cost ->
    Solve fmt fuel nr nc raw_nc cost maximize a b = Done (false, (a, b)))) /\
  Solve FP.binary64 (S (S fuel)) 2 2 2
    [FP.INFINITY; FP.of_Z FP.binary64 1; FP.of_Z FP.binary64 1; FP.INFINITY] false [0; 0] [0; 0]
    = Done (true, ([0; 1], [1; 0])) /\
  Solve FP.binary64 fuel 2 2 2
    [FP.INFINITY; FP.INFINITY; FP.of_Z FP.binary64 1; FP.INFINITY] false [0; 0] [0; 0]
    = Done (false, ([0; 0], [0; 0])) /\
  Solve FP.binary64 fuel 1 2 2 [FP.INFINITY; FP.of_Z FP.binary64 1] true [0] [0]
    = Done (false, ([0], [0])) /\
  Solve FP.binary64 (S fuel) 1 2 2 [S754_infinity true; FP.of_Z FP.binary64 1] true [0] [0]
    = Done (true, ([0], [1])).
Proof.
  split; [apply Solve_degenerate|].
  split; [|repeat split; vm_compute; reflexivity].
  intros Hnr Hnc Hraw Hcost Hcase. split; [|split].
  - intros i j c Hi Hj Hc Hbad.
    exact (Solve_refuses fmt fuel nr nc raw_nc cost maximize a b i j c
             Hnr Hnc (proj1 Hraw) Hcost Hcase Hi Hj Hc Hbad).
  - exact (check_value_passes nr nc raw_nc cost maximize Hnr Hnc (proj1 Hraw) Hcost Hcase).
  - intros Hfuel Hno.
    set (a0 := replicate (Z.to_nat (Z.min nr raw_nc)) 0).
    destruct (Solve_runs fmt fuel nr nc raw_nc cost maximize a0 a0) as (ok & ab0 & Hrun);
      try lia; try assumption;
      try (subst a0; rewrite length_replicate; lia).
    destruct ok.
    + contradiction Hno.
      exact (Solve_true_feasible fmt fuel nr nc raw_nc cost maximize a0 a0 ab0
               Hnr Hnc (proj1 Hraw) Hcost Hcase Hrun).
    + exact (Solve_false_whatever_outputs fmt fuel nr nc raw_nc cost maximize a b a0 a0 ab0 Hrun).
Qed.

Lemma Solve_failure_cases_witness :
  Solve FP.binary64 2 2 2 2
    [FP.of_Z FP.binary64 1; FP.of_Z FP.binary64 2; FP.INFINITY; FP.of_Z FP.binary64 3]
    true [7; 7] [8; 8] = Done (false, ([7; 7], [8; 8])).
Proof.
  assert (Hnr : 0 < 2 < 2 ^ 31) by lia.
  assert (Hraw : 2 <= 2 < 2 ^ 31) by lia.
  assert (Hcase : 2 < 2 \/ (2 = 2 /\ true = true) \/ (2 <= 2 /\ 2 = 2 /\ true = false))
    by (right; left; auto).
  assert (Hi : 0 <= 1 < 2) by lia.
  assert (Hj : 0 <= 0 < 2) by lia.
  assert (Hlen : Z.of_nat (length [FP.of_Z FP.binary64 1; FP.of_Z FP.binary64 2; FP.INFINITY;
                                   FP.of_Z FP.binary64 3]) = 2 * 2) by reflexivity.
  assert (Hc : [FP.of_Z FP.binary64 1; FP.of_Z FP.binary64 2; FP.INFINITY;
                FP.of_Z FP.binary64 3] !! Z.to_nat (1 * 2 + 0) = Some FP.INFINITY) by reflexivity.
  assert (Hbad : refused true FP.INFINITY) by (right; reflexivity).
  exact (proj1 (proj1 (proj2 (Solve_failure_cases FP.binary64 2 2 2 2
                [FP.of_Z FP.binary64 1; FP.of_Z FP.binary64 2; FP.INFINITY; FP.of_Z FP.binary64 3]
                true [7; 7] [8; 8])) Hnr Hnr Hraw Hlen Hcase) 1 0 FP.INFINITY Hi Hj Hc Hbad).
Defined.

End Lsap.
